(** * Animation streamer builder: segmentation, timeline scheduling, audio export

    A shallow embedding of [src/lib/audio.ts] (segmenter, realigner, WAV
    encoder) and of the timeline scheduler ([buildTimelinePlan],
    [groupClips]), with the properties stated about them.

    Numbers.  The program computes with JavaScript numbers.  Seconds,
    sample values and loudness values are taken here as exact rationals
    ([Q]); sample counts, indices and byte values are integers.  The
    concrete inputs used below are chosen so that every comparison the code
    makes has the same outcome in binary64 arithmetic.

    The scheduler is given twice: on values ([Timeline]), where the arrays
    the closures share are fields of a state record, and on a store of
    objects ([Heap]), where they are locations and arguments are passed by
    reference.  [RefinementFacts] shows that the second ends as the first
    does. *)

From Stdlib Require Import String Ascii.
From Stdlib Require Import QArith Qround Qminmax Qabs Lqa ZArith Lia List Bool Arith Sorted.
From Stdlib Require Import DecimalString.
From Stdlib Require DecimalNat DecimalFacts.
Import ListNotations.

Local Open Scope Q_scope.

(** ** Data model *)

(** Modelled from the spec: the declarations of [../types] are not among the
    sources.  A segment kind is ['idle' | 'talk']. *)
Inductive SegmentKind : Type := KindIdle | KindTalk.

(** Modelled from the spec: [MotionType] of [../types], the closed
    enumeration of clip pools. *)
Inductive MotionType : Type := idle | idleToSpeech | speechLoop | speechToIdle.

(** Modelled from the spec: [AudioSegment] of [../types],
    [{id, kind, start, duration}] with times in seconds. *)
Record AudioSegment : Type := mkSegment {
  seg_id : string;
  seg_kind : SegmentKind;
  seg_start : Q;
  seg_duration : Q
}.

(** Modelled from the spec: [ClipAsset] of [../types]; the scheduler reads
    only [type] and [duration], the rendering payload is left out. *)
Record ClipAsset : Type := mkClip {
  clip_id : string;
  clip_type : MotionType;
  clip_duration : Q
}.

(** Modelled from the spec: [TimelinePlacement] of [../types]. *)
Record TimelinePlacement : Type := mkPlacement {
  pl_clip : ClipAsset;
  pl_start : Q
}.

(** Modelled from the spec: [TalkPlan] of [../types]. *)
Record TalkPlan : Type := mkTalkPlan {
  segmentId : string;
  videoStart : Q;
  videoEnd : Q;
  audioStart : Q;
  audioDuration : Q
}.

(** Modelled from the spec: [TimelinePlan] of [../types]. *)
Record TimelinePlan : Type := mkPlan {
  placements : list TimelinePlacement;
  talkPlans : list TalkPlan;
  totalDuration : Q
}.

Definition seg_end (s : AudioSegment) : Q := seg_start s + seg_duration s.

(** [a[a.length - 1]], when the array is not empty. *)
Definition last_error_of {A} (l : list A) : option A :=
  match l with
  | [] => None
  | x :: rest => Some (last rest x)
  end.

(** [adjacent R l]: [R] relates every element of [l] to the next one. *)
Fixpoint adjacent {A} (R : A -> A -> Prop) (l : list A) : Prop :=
  match l with
  | [] => True
  | x :: rest =>
      match rest with
      | [] => True
      | y :: _ => R x y
      end /\ adjacent R rest
  end.

(** ** Timeline scheduler *)

Module Timeline.

(** [interface ClipLibrary]. *)
Record ClipLibrary : Type := mkLibrary {
  lib_idle : list ClipAsset;
  lib_idleToSpeech : list ClipAsset;
  lib_speechLoop : list ClipAsset;
  lib_speechToIdle : list ClipAsset
}.

(** [library[type]]. *)
Definition pool (library : ClipLibrary) (type : MotionType) : list ClipAsset :=
  match type with
  | idle => lib_idle library
  | idleToSpeech => lib_idleToSpeech library
  | speechLoop => lib_speechLoop library
  | speechToIdle => lib_speechToIdle library
  end.

(** [acc[clip.type].push(clip)]. *)
Definition pushClip (acc : ClipLibrary) (clip : ClipAsset) : ClipLibrary :=
  match clip_type clip with
  | idle =>
      mkLibrary (lib_idle acc ++ [clip]) (lib_idleToSpeech acc) (lib_speechLoop acc) (lib_speechToIdle acc)
  | idleToSpeech =>
      mkLibrary (lib_idle acc) (lib_idleToSpeech acc ++ [clip]) (lib_speechLoop acc) (lib_speechToIdle acc)
  | speechLoop =>
      mkLibrary (lib_idle acc) (lib_idleToSpeech acc) (lib_speechLoop acc ++ [clip]) (lib_speechToIdle acc)
  | speechToIdle =>
      mkLibrary (lib_idle acc) (lib_idleToSpeech acc) (lib_speechLoop acc) (lib_speechToIdle acc ++ [clip])
  end.

Definition groupClips (clips : list ClipAsset) : ClipLibrary :=
  fold_left pushClip clips (mkLibrary [] [] [] []).

(** [Record<MotionType, number>]: one usage counter per motion type. *)
Record Counters : Type := mkCounters {
  cnt_idle : nat;
  cnt_idleToSpeech : nat;
  cnt_speechLoop : nat;
  cnt_speechToIdle : nat
}.

Definition getCounter (counter : Counters) (type : MotionType) : nat :=
  match type with
  | idle => cnt_idle counter
  | idleToSpeech => cnt_idleToSpeech counter
  | speechLoop => cnt_speechLoop counter
  | speechToIdle => cnt_speechToIdle counter
  end.

Definition setCounter (counter : Counters) (type : MotionType) (v : nat) : Counters :=
  match type with
  | idle => mkCounters v (cnt_idleToSpeech counter) (cnt_speechLoop counter) (cnt_speechToIdle counter)
  | idleToSpeech => mkCounters (cnt_idle counter) v (cnt_speechLoop counter) (cnt_speechToIdle counter)
  | speechLoop => mkCounters (cnt_idle counter) (cnt_idleToSpeech counter) v (cnt_speechToIdle counter)
  | speechToIdle => mkCounters (cnt_idle counter) (cnt_idleToSpeech counter) (cnt_speechLoop counter) v
  end.

(** [nextIndex]: returns the counter's value and the counters after the
    increment. *)
Definition nextIndex (counter : Counters) (type : MotionType) : nat * Counters :=
  let value := getCounter counter type in
  (value, setCounter counter type (value + 1)%nat).

(** What a call can raise.  The first two are the checks at the entry of
    [buildTimelinePlan], the third the guard inside [takeClip]; the last
    stands for reading [.duration] of an [undefined] array element. *)
Inductive SchedulerError : Type :=
  | IdleClipsRequired
  | SpeechLoopClipsRequired
  | MissingClipForState (type : MotionType)
  | UndefinedClip.

(** Result of running code whose loops are bounded by fuel. *)
Inductive outcome (A : Type) : Type :=
  | Returns (a : A)
  | Throws (e : SchedulerError)
  | OutOfFuel.
Arguments Returns {A} a.
Arguments Throws {A} e.
Arguments OutOfFuel {A}.

(** The variables the closures of [buildTimelinePlan] share. *)
Record SchedState : Type := mkState {
  st_placements : list TimelinePlacement;
  st_talkPlans : list TalkPlan;
  st_videoCursor : Q;
  st_previousKind : SegmentKind;
  st_counters : Counters
}.

Definition Sched (A : Type) : Type := SchedState -> outcome (A * SchedState).

Definition ret {A} (a : A) : Sched A := fun st => Returns (a, st).

Definition bind {A B} (m : Sched A) (k : A -> Sched B) : Sched B :=
  fun st =>
    match m st with
    | Returns (a, st') => k a st'
    | Throws e => Throws e
    | OutOfFuel => OutOfFuel
    end.

Definition throw {A} (e : SchedulerError) : Sched A := fun _ => Throws e.
Definition diverge {A} : Sched A := fun _ => OutOfFuel.

Declare Scope sched_scope.
Delimit Scope sched_scope with sched.
Notation "x <- m ;; k" := (bind m (fun x => k))
  (at level 61, m at next level, right associativity) : sched_scope.
Notation "m ;;; k" := (bind m (fun _ => k))
  (at level 61, right associativity) : sched_scope.
Local Open Scope sched_scope.

Definition getVideoCursor : Sched Q := fun st => Returns (st_videoCursor st, st).
Definition getPreviousKind : Sched SegmentKind := fun st => Returns (st_previousKind st, st).

Definition setPreviousKind (k : SegmentKind) : Sched unit := fun st =>
  Returns (tt, mkState (st_placements st) (st_talkPlans st) (st_videoCursor st) k (st_counters st)).

Definition pushTalkPlan (p : TalkPlan) : Sched unit := fun st =>
  Returns (tt, mkState (st_placements st) (st_talkPlans st ++ [p]) (st_videoCursor st)
                 (st_previousKind st) (st_counters st)).

Section Closures.

Variable library : ClipLibrary.

Definition takeClip (type : MotionType) : Sched ClipAsset := fun st =>
  let list := pool library type in
  if (length list =? 0)%nat then Throws (MissingClipForState type)
  else
    let (value, counters') := nextIndex (st_counters st) type in
    match nth_error list (value mod length list) with
    | None => Throws UndefinedClip
    | Some clip =>
        Returns (clip,
                 mkState (st_placements st ++ [mkPlacement clip (st_videoCursor st)])
                         (st_talkPlans st)
                         (st_videoCursor st + clip_duration clip)
                         (st_previousKind st)
                         counters')
    end.

Definition maybeTakeClip (type : MotionType) : Sched (option ClipAsset) :=
  if (length (pool library type) =? 0)%nat then ret None
  else clip <- takeClip type ;; ret (Some clip).

Definition coverType (segment : AudioSegment) : MotionType :=
  match seg_kind segment with KindIdle => idle | KindTalk => speechLoop end.

(** The [while] loop of [coverSegment]; [fuel] bounds the number of
    iterations. *)
Fixpoint coverLoop (fuel : nat) (segment : AudioSegment) (covered : Q) : Sched unit :=
  if Qlt_le_dec (covered + 1e-2) (seg_duration segment) then
    match fuel with
    | O => diverge
    | S fuel' =>
        clip <- takeClip (coverType segment) ;;
        coverLoop fuel' segment (covered + clip_duration clip)
    end
  else ret tt.

Definition coverSegment (fuel : nat) (segment : AudioSegment) : Sched unit :=
  coverLoop fuel segment 0.

(** The [for] loop over [segments]; the head of [rest] is
    [segments[i + 1]]. *)
Fixpoint segmentsLoop (fuel : nat) (segments : list AudioSegment) : Sched unit :=
  match segments with
  | [] => ret tt
  | segment :: rest =>
      match seg_kind segment with
      | KindIdle =>
          coverSegment fuel segment ;;;
          setPreviousKind KindIdle ;;;
          segmentsLoop fuel rest
      | KindTalk =>
          previous <- getPreviousKind ;;
          match previous with
          | KindIdle => maybeTakeClip idleToSpeech
          | KindTalk => ret None
          end ;;;
          segmentVideoStart <- getVideoCursor ;;
          coverSegment fuel segment ;;;
          cursor <- getVideoCursor ;;
          pushTalkPlan (mkTalkPlan (seg_id segment) segmentVideoStart cursor
                                   (seg_start segment) (seg_duration segment)) ;;;
          match rest with
          | [] => maybeTakeClip speechToIdle ;;; setPreviousKind KindIdle
          | nextSegment :: _ =>
              match seg_kind nextSegment with
              | KindIdle => maybeTakeClip speechToIdle ;;; setPreviousKind KindIdle
              | KindTalk => setPreviousKind KindTalk
              end
          end ;;;
          segmentsLoop fuel rest
      end
  end.

End Closures.

(** Whether a clip belongs to the pool of [type]. *)
Definition hasType (type : MotionType) (clip : ClipAsset) : bool :=
  match type, clip_type clip with
  | idle, idle | idleToSpeech, idleToSpeech
  | speechLoop, speechLoop | speechToIdle, speechToIdle => true
  | _, _ => false
  end.

(** Helpers for stating what the coverage loop placed: the clips laid end to
    end from a cursor, and the sum of their durations. *)
Fixpoint layOut (cursor : Q) (clips : list ClipAsset) : list TimelinePlacement :=
  match clips with
  | [] => []
  | clip :: rest => mkPlacement clip cursor :: layOut (cursor + clip_duration clip) rest
  end.

Definition sumDurations (clips : list ClipAsset) : Q :=
  fold_right (fun clip acc => clip_duration clip + acc) 0 clips.

(** [extends library type st st' placed]: between [st] and [st'] exactly the
    clips [placed], all of the pool [type], were appended at the cursor, and
    nothing else changed in the placements, the cursor and the talk plans. *)
Definition extends (library : ClipLibrary) (type : MotionType)
    (st st' : SchedState) (placed : list ClipAsset) : Prop :=
  Forall (fun clip => In clip (pool library type)) placed /\
  st_placements st' = st_placements st ++ layOut (st_videoCursor st) placed /\
  st_videoCursor st' == st_videoCursor st + sumDurations placed /\
  st_talkPlans st' = st_talkPlans st.

(** A talk plan ends before another starts. *)
Definition planBefore (a b : TalkPlan) : Prop := videoEnd a <= videoStart b.

(** The video span of a talk plan falls short of its audio by at most the
    loop's tolerance. *)
Definition spanCovers (p : TalkPlan) : Prop :=
  audioDuration p - 1e-2 <= videoEnd p - videoStart p.

Definition nonnegLibrary (library : ClipLibrary) : Prop :=
  forall type clip, In clip (pool library type) -> 0 <= clip_duration clip.

(** [traced library st st']: what a run from [st] to [st'] may have done.
    Placements and talk plans were only appended; every new placement holds
    a clip of the library; every new talk plan satisfies [spanCovers]; and
    when no clip has a negative duration, the cursor did not move back and
    the new talk plans lie, in order and without overlap, between the two
    cursors. *)
Definition traced (library : ClipLibrary) (st st' : SchedState) : Prop :=
  exists newPl newTp,
    st_placements st' = st_placements st ++ newPl /\
    Forall (fun p => exists type, In (pl_clip p) (pool library type)) newPl /\
    st_talkPlans st' = st_talkPlans st ++ newTp /\
    Forall spanCovers newTp /\
    (nonnegLibrary library ->
       st_videoCursor st <= st_videoCursor st' /\
       Forall (fun p => st_videoCursor st <= videoStart p /\
                        videoStart p <= videoEnd p /\
                        videoEnd p <= st_videoCursor st') newTp /\
       StronglySorted planBefore newTp).

Definition initialState : SchedState :=
  mkState [] [] 0 KindIdle (mkCounters 0 0 0 0).

Definition buildTimelinePlan (fuel : nat) (segments : list AudioSegment)
    (clips : list ClipAsset) : outcome TimelinePlan :=
  let library := groupClips clips in
  if (length (lib_idle library) =? 0)%nat then Throws IdleClipsRequired
  else if (length (lib_speechLoop library) =? 0)%nat then Throws SpeechLoopClipsRequired
  else
    match segmentsLoop library fuel segments initialState with
    | Returns (_, st) =>
        Returns (mkPlan (st_placements st) (st_talkPlans st) (st_videoCursor st))
    | Throws e => Throws e
    | OutOfFuel => OutOfFuel
    end.

(** Plans compared field by field, rationals up to their value. *)
Definition placement_equiv (p q : TimelinePlacement) : Prop :=
  pl_clip p = pl_clip q /\ pl_start p == pl_start q.

Definition talkPlan_equiv (p q : TalkPlan) : Prop :=
  segmentId p = segmentId q /\ videoStart p == videoStart q /\ videoEnd p == videoEnd q /\
  audioStart p == audioStart q /\ audioDuration p == audioDuration q.

Definition plan_equiv (p q : TimelinePlan) : Prop :=
  Forall2 placement_equiv (placements p) (placements q) /\
  Forall2 talkPlan_equiv (talkPlans p) (talkPlans q) /\
  totalDuration p == totalDuration q.

(** *** Concrete inputs *)

(** The end-to-end scenario: one clip per pool. *)
Definition idleClip : ClipAsset := mkClip "idle-a" idle 1.0.
Definition speechLoopClip : ClipAsset := mkClip "loop-a" speechLoop 0.4.
Definition idleToSpeechClip : ClipAsset := mkClip "in-a" idleToSpeech 0.2.
Definition speechToIdleClip : ClipAsset := mkClip "out-a" speechToIdle 0.2.

Definition scenarioClips : list ClipAsset :=
  [idleClip; speechLoopClip; idleToSpeechClip; speechToIdleClip].

Definition scenarioSegments : list AudioSegment :=
  [mkSegment "idle-0" KindIdle 0 2.0;
   mkSegment "talk-1" KindTalk 2.0 1.0;
   mkSegment "idle-2" KindIdle 3.0 1.0].

Definition scenarioPlan : TimelinePlan :=
  mkPlan
    [mkPlacement idleClip 0.0; mkPlacement idleClip 1.0;
     mkPlacement idleToSpeechClip 2.0;
     mkPlacement speechLoopClip 2.2; mkPlacement speechLoopClip 2.6;
     mkPlacement speechLoopClip 3.0;
     mkPlacement speechToIdleClip 3.4;
     mkPlacement idleClip 3.6]
    [mkTalkPlan "talk-1" 2.2 3.4 2.0 1.0]
    4.6.

(** A talk segment a little longer than the one speech-loop clip that
    covers it, followed at once by a second talk segment. *)
Definition shortClips : list ClipAsset :=
  [mkClip "idle-a" idle 1.0; mkClip "loop-a" speechLoop 1.0].

Definition shortSegments : list AudioSegment :=
  [mkSegment "idle-0" KindIdle 0 1.0;
   mkSegment "talk-1" KindTalk 1.0 1.0078125;
   mkSegment "talk-2" KindTalk 2.0078125 1.0].

Definition planOf (o : outcome TimelinePlan) : TimelinePlan :=
  match o with
  | Returns plan => plan
  | _ => mkPlan [] [] 0
  end.

Definition shortPlan : TimelinePlan :=
  Eval vm_compute in planOf (buildTimelinePlan 1 shortSegments shortClips).

(** Two talk segments with an idle stretch between them, scheduled with the
    clips of the scenario. *)
Definition twoTalkSegments : list AudioSegment :=
  [mkSegment "idle-0" KindIdle 0 1.0;
   mkSegment "talk-1" KindTalk 1.0 1.0;
   mkSegment "idle-2" KindIdle 2.0 1.0;
   mkSegment "talk-3" KindTalk 3.0 1.0].

Definition twoTalkPlan : TimelinePlan :=
  Eval vm_compute in planOf (buildTimelinePlan 3 twoTalkSegments scenarioClips).

(** *** Vocabulary for the order of the placements *)

(** The clips of type [type] among the placements, in the order placed. *)
Definition placedOfType (type : MotionType) (pls : list TimelinePlacement)
    : list ClipAsset :=
  filter (hasType type) (map pl_clip pls).

(** The first [k] clips of the list [l] repeated without end. *)
Definition rotation (l : list ClipAsset) (k : nat) : list ClipAsset :=
  match l with
  | [] => []
  | first :: _ => map (fun j => nth (j mod length l) l first) (seq 0 k)
  end.

(** The cursor after the clips [clips] were placed one after the other. *)
Definition cursorAfter (cursor : Q) (clips : list ClipAsset) : Q :=
  fold_left (fun q clip => q + clip_duration clip) clips cursor.

Definition isTalk (segment : AudioSegment) : bool :=
  match seg_kind segment with KindTalk => true | KindIdle => false end.

(** What a talk plan takes over from its segment. *)
Definition talkPlanSource (p : TalkPlan) : string * Q * Q :=
  (segmentId p, audioStart p, audioDuration p).

Definition segmentSource (s : AudioSegment) : string * Q * Q :=
  (seg_id s, seg_start s, seg_duration s).

(** The placements of each type run through the pool of the type as far as
    the counter of the type says. *)
Definition roundRobin (library : ClipLibrary) (st : SchedState) : Prop :=
  forall type,
    placedOfType type (st_placements st)
    = rotation (pool library type) (getCounter (st_counters st) type).

(** The placements lie end to end from 0 up to the cursor. *)
Definition laidOut (st : SchedState) : Prop :=
  st_placements st = layOut 0 (map pl_clip (st_placements st)) /\
  st_videoCursor st = cursorAfter 0 (map pl_clip (st_placements st)).

(** 1 while a run of talk segments is open, 0 otherwise. *)
Definition openRun (previous : SegmentKind) : nat :=
  match previous with KindTalk => 1 | KindIdle => 0 end.

(** [previousKind] is talk only in front of a talk segment. *)
Definition inRun (previous : SegmentKind) (segments : list AudioSegment) : Prop :=
  match segments with
  | [] => True
  | head :: _ => previous = KindTalk -> seg_kind head = KindTalk
  end.

(** The number of clips a call of [maybeTakeClip] takes from a pool. *)
Definition taken (l : list ClipAsset) : nat :=
  match l with [] => 0 | _ :: _ => 1 end.

(** The number of runs of consecutive talk segments in [segments], a talk
    segment at the head continuing a run when [previous] is talk. *)
Fixpoint talkRuns (previous : SegmentKind) (segments : list AudioSegment) : nat :=
  match segments with
  | [] => 0
  | segment :: rest =>
      match seg_kind segment, previous with
      | KindTalk, KindIdle => S (talkRuns KindTalk rest)
      | kind, _ => talkRuns kind rest
      end
  end.

End Timeline.

(** ** The scheduler on a store of objects *)

(** [buildTimelinePlan] once more, with the objects it reads and creates held
    in a store and referred to by location, to state what it leaves
    untouched.  Arrays hold locations; strings and numbers are values. *)
Module Heap.
Import Timeline.

Definition loc : Type := nat.

Inductive Obj : Type :=
  | OSegment (segment : AudioSegment)
  | OClip (clip : ClipAsset)
  | OArray (elems : list loc)
  | OLibrary (idlePool idleToSpeechPool speechLoopPool speechToIdlePool : loc)
  | OCounters (counter : Counters)
  | OPlacement (clip : loc) (start : Q)
  | OTalkPlan (plan : TalkPlan)
  | OPlan (placementsArray talkPlansArray : loc) (total : Q).

(** Objects by location; [next] is the first location never allocated. *)
Record Store : Type := mkStore {
  cell : loc -> option Obj;
  next : loc
}.

(** The store and the two [let] variables of [buildTimelinePlan]. *)
Record HState : Type := mkHState {
  h_store : Store;
  h_videoCursor : Q;
  h_previousKind : SegmentKind
}.

(** An error of the scheduler, or a [TypeError] from an object that is not
    what the code's types promise. *)
Inductive HeapError : Type :=
  | Raised (e : SchedulerError)
  | TypeError.

(** The state is kept when an exception is thrown: the caller sees it. *)
Inductive hresult (A : Type) : Type :=
  | HReturns (a : A) (st : HState)
  | HThrows (e : HeapError) (st : HState)
  | HOutOfFuel.
Arguments HReturns {A} a st.
Arguments HThrows {A} e st.
Arguments HOutOfFuel {A}.

Definition HM (A : Type) : Type := HState -> hresult A.

Definition hret {A} (a : A) : HM A := fun st => HReturns a st.

Definition hbind {A B} (m : HM A) (k : A -> HM B) : HM B :=
  fun st =>
    match m st with
    | HReturns a st' => k a st'
    | HThrows e st' => HThrows e st'
    | HOutOfFuel => HOutOfFuel
    end.

Definition hthrow {A} (e : HeapError) : HM A := fun st => HThrows e st.
Definition hdiverge {A} : HM A := fun _ => HOutOfFuel.

Declare Scope heap_scope.
Delimit Scope heap_scope with heap.
Notation "x <- m ;; k" := (hbind m (fun x => k))
  (at level 61, m at next level, right associativity) : heap_scope.
Notation "m ;;; k" := (hbind m (fun _ => k))
  (at level 61, right associativity) : heap_scope.
Local Open Scope heap_scope.

Definition update (s : Store) (l : loc) (o : Obj) : loc -> option Obj :=
  fun l' => if (l' =? l)%nat then Some o else cell s l'.

(** A new object. *)
Definition alloc (o : Obj) : HM loc := fun st =>
  let s := h_store st in
  HReturns (next s)
    (mkHState (mkStore (update s (next s) o) (S (next s)))
              (h_videoCursor st) (h_previousKind st)).

Definition load (l : loc) : HM Obj := fun st =>
  match cell (h_store st) l with
  | Some o => HReturns o st
  | None => HThrows TypeError st
  end.

(** Writing to an object that exists. *)
Definition assign (l : loc) (o : Obj) : HM unit := fun st =>
  let s := h_store st in
  HReturns tt (mkHState (mkStore (update s l o) (next s))
                        (h_videoCursor st) (h_previousKind st)).

Definition loadArray (l : loc) : HM (list loc) :=
  o <- load l ;; match o with OArray elems => hret elems | _ => hthrow TypeError end.

Definition loadClip (l : loc) : HM ClipAsset :=
  o <- load l ;; match o with OClip clip => hret clip | _ => hthrow TypeError end.

Definition loadSegment (l : loc) : HM AudioSegment :=
  o <- load l ;; match o with OSegment segment => hret segment | _ => hthrow TypeError end.

Definition loadCounters (l : loc) : HM Counters :=
  o <- load l ;; match o with OCounters counter => hret counter | _ => hthrow TypeError end.

(** [library[type]]: the location of the pool array. *)
Definition loadPool (library : loc) (type : MotionType) : HM loc :=
  o <- load library ;;
  match o with
  | OLibrary a b c d =>
      hret match type with
           | idle => a | idleToSpeech => b | speechLoop => c | speechToIdle => d
           end
  | _ => hthrow TypeError
  end.

(** [array[i]], [undefined] past the end. *)
Definition elemAt (array : loc) (i : nat) : HM (option loc) :=
  elems <- loadArray array ;; hret (nth_error elems i).

(** [array.push(x)]. *)
Definition push (array : loc) (x : loc) : HM unit :=
  elems <- loadArray array ;; assign array (OArray (elems ++ [x])).

Definition getCursor : HM Q := fun st => HReturns (h_videoCursor st) st.
Definition setCursor (q : Q) : HM unit := fun st =>
  HReturns tt (mkHState (h_store st) q (h_previousKind st)).
Definition getPrevious : HM SegmentKind := fun st => HReturns (h_previousKind st) st.
Definition setPrevious (k : SegmentKind) : HM unit := fun st =>
  HReturns tt (mkHState (h_store st) (h_videoCursor st) k).

(** The callback of [reduce] over the indices [k .. k + count - 1]; [reduce]
    fixes the number of indices before the first call and skips holes. *)
Fixpoint reduceClips (clips acc : loc) (k count : nat) : HM unit :=
  match count with
  | O => hret tt
  | S count' =>
      elem <- elemAt clips k ;;
      match elem with
      | None => hret tt
      | Some clip =>
          c <- loadClip clip ;;
          pool <- loadPool acc (clip_type c) ;;
          push pool clip
      end ;;;
      reduceClips clips acc (S k) count'
  end.

Definition groupClips (clips : loc) : HM loc :=
  a <- alloc (OArray []) ;;
  b <- alloc (OArray []) ;;
  c <- alloc (OArray []) ;;
  d <- alloc (OArray []) ;;
  acc <- alloc (OLibrary a b c d) ;;
  elems <- loadArray clips ;;
  reduceClips clips acc 0 (length elems) ;;;
  hret acc.

(** The objects the closures of [buildTimelinePlan] share. *)
Record Env : Type := mkEnv {
  env_library : loc;
  env_placements : loc;
  env_talkPlans : loc;
  env_counters : loc
}.

Definition nextIndex (counter : loc) (type : MotionType) : HM nat :=
  c <- loadCounters counter ;;
  let value := getCounter c type in
  assign counter (OCounters (setCounter c type (value + 1))) ;;;
  hret value.

Section Closures.

Variable env : Env.

Definition takeClip (type : MotionType) : HM loc :=
  pool <- loadPool (env_library env) type ;;
  list <- loadArray pool ;;
  if (length list =? 0)%nat then hthrow (Raised (MissingClipForState type))
  else
    value <- nextIndex (env_counters env) type ;;
    match nth_error list (value mod length list) with
    | None => hthrow (Raised UndefinedClip)
    | Some clip =>
        cursor <- getCursor ;;
        placement <- alloc (OPlacement clip cursor) ;;
        push (env_placements env) placement ;;;
        c <- loadClip clip ;;
        setCursor (cursor + clip_duration c) ;;;
        hret clip
    end.

Definition maybeTakeClip (type : MotionType) : HM (option loc) :=
  pool <- loadPool (env_library env) type ;;
  list <- loadArray pool ;;
  if (length list =? 0)%nat then hret None
  else clip <- takeClip type ;; hret (Some clip).

Fixpoint coverLoop (fuel : nat) (segment : loc) (covered : Q) : HM unit :=
  seg <- loadSegment segment ;;
  if Qlt_le_dec (covered + 1e-2) (seg_duration seg) then
    match fuel with
    | O => hdiverge
    | S fuel' =>
        clip <- takeClip (coverType seg) ;;
        c <- loadClip clip ;;
        coverLoop fuel' segment (covered + clip_duration c)
    end
  else hret tt.

Definition coverSegment (fuel : nat) (segment : loc) : HM unit :=
  coverLoop fuel segment 0.

Definition afterTalk (segments : loc) (i : nat) : HM unit :=
  nextSegment <- elemAt segments (i + 1) ;;
  match nextSegment with
  | None => maybeTakeClip speechToIdle ;;; setPrevious KindIdle
  | Some nextSegment =>
      ns <- loadSegment nextSegment ;;
      match seg_kind ns with
      | KindIdle => maybeTakeClip speechToIdle ;;; setPrevious KindIdle
      | KindTalk => setPrevious KindTalk
      end
  end.

Definition visitSegment (fuel : nat) (segments : loc) (i : nat) : HM unit :=
  elem <- elemAt segments i ;;
  match elem with
  | None => hthrow TypeError
  | Some segment =>
      seg <- loadSegment segment ;;
      match seg_kind seg with
      | KindIdle => coverSegment fuel segment ;;; setPrevious KindIdle
      | KindTalk =>
          previous <- getPrevious ;;
          match previous with
          | KindIdle => maybeTakeClip idleToSpeech
          | KindTalk => hret None
          end ;;;
          segmentVideoStart <- getCursor ;;
          coverSegment fuel segment ;;;
          cursor <- getCursor ;;
          seg' <- loadSegment segment ;;
          talkPlan <- alloc (OTalkPlan (mkTalkPlan (seg_id seg') segmentVideoStart cursor
                                                   (seg_start seg') (seg_duration seg'))) ;;
          push (env_talkPlans env) talkPlan ;;;
          afterTalk segments i
      end
  end.

(** The [for] loop from index [i], for [count] more segments: the length of
    [segments] as it is on entry; that the loop does not change it is part
    of what is proved. *)
Fixpoint segmentsLoop (fuel : nat) (segments : loc) (i count : nat) : HM unit :=
  match count with
  | O => hret tt
  | S count' =>
      visitSegment fuel segments i ;;;
      segmentsLoop fuel segments (S i) count'
  end.

End Closures.

Definition buildTimelinePlan (fuel : nat) (segments clips : loc) : HM loc :=
  library <- groupClips clips ;;
  idlePool <- loadPool library idle ;;
  idleClips <- loadArray idlePool ;;
  if (length idleClips =? 0)%nat then hthrow (Raised IdleClipsRequired)
  else
    speechLoopPool <- loadPool library speechLoop ;;
    speechLoopClips <- loadArray speechLoopPool ;;
    if (length speechLoopClips =? 0)%nat then hthrow (Raised SpeechLoopClipsRequired)
    else
      placementsArray <- alloc (OArray []) ;;
      talkPlansArray <- alloc (OArray []) ;;
      setCursor 0 ;;;
      setPrevious KindIdle ;;;
      counters <- alloc (OCounters (mkCounters 0 0 0 0)) ;;
      elems <- loadArray segments ;;
      segmentsLoop (mkEnv library placementsArray talkPlansArray counters)
                   fuel segments 0 (length elems) ;;;
      cursor <- getCursor ;;
      alloc (OPlan placementsArray talkPlansArray cursor).

(** *** Reading a plan back from the store *)

Definition clipAt (s : Store) (l : loc) : option ClipAsset :=
  match cell s l with Some (OClip clip) => Some clip | _ => None end.

Definition arrayAt (s : Store) (l : loc) : list loc :=
  match cell s l with Some (OArray elems) => elems | _ => [] end.

(** Locations of the clips that the placements of the plan at [plan] hold. *)
Definition placedClips (s : Store) (plan : loc) : list loc :=
  match cell s plan with
  | Some (OPlan placementsArray _ _) =>
      flat_map (fun placement =>
                  match cell s placement with
                  | Some (OPlacement clip _) => [clip]
                  | _ => []
                  end)
               (arrayAt s placementsArray)
  | _ => []
  end.

(** *** Vocabulary for what a call leaves untouched *)

Local Open Scope nat_scope.

(** [hoare P m Q E]: run from a store satisfying [P], [m] returns [a] in a
    store satisfying [Q a], or throws in a store satisfying [E]. *)
Definition hoare {A} (P : Store -> Prop) (m : HM A) (Q : A -> Store -> Prop)
    (E : Store -> Prop) : Prop :=
  forall st, P (h_store st) ->
    match m st with
    | HReturns a st' => Q a (h_store st')
    | HThrows _ st' => E (h_store st')
    | HOutOfFuel => True
    end.

(** Every object of [s0] is in [s] as it was, and nothing was freed. *)
Definition frame (s0 s : Store) : Prop :=
  next s0 <= next s /\ forall l, l < next s0 -> cell s l = cell s0 l.

Definition poolIndex (type : MotionType) : nat :=
  match type with idle => 0 | idleToSpeech => 1 | speechLoop => 2 | speechToIdle => 3 end.

(** The library object allocated right after [s0] and its four pools, which
    hold only elements of the input clips array. *)
Definition poolsOk (s0 : Store) (clips : loc) (s : Store) : Prop :=
  cell s (next s0 + 4) = Some (OLibrary (next s0) (next s0 + 1) (next s0 + 2) (next s0 + 3)) /\
  forall j elems, j < 4 -> cell s (next s0 + j) = Some (OArray elems) ->
    incl elems (arrayAt s0 clips).

(** While [groupClips] runs. *)
Definition grouping (s0 : Store) (clips : loc) (s : Store) : Prop :=
  frame s0 s /\ next s = next s0 + 5 /\ poolsOk s0 clips s.

(** After the first [k] of the four pool arrays were allocated. *)
Definition emptyPools (s0 : Store) (k : nat) (s : Store) : Prop :=
  frame s0 s /\ next s = next s0 + k /\
  forall j, j < k -> cell s (next s0 + j) = Some (OArray []).

(** After [k] of the placements and talk-plans arrays were allocated. *)
Definition prepared (s0 : Store) (clips : loc) (k : nat) (s : Store) : Prop :=
  frame s0 s /\ next s = next s0 + 5 + k /\ poolsOk s0 clips s /\
  (1 <= k -> cell s (next s0 + 5) = Some (OArray [])).

(** The plan object of a finished call: its placements are placement
    objects that hold elements of the input clips array. *)
Definition planOk (s0 : Store) (clips : loc) (plan : loc) (s : Store) : Prop :=
  frame s0 s /\
  exists placementsArray talkPlansArray total,
    cell s plan = Some (OPlan placementsArray talkPlansArray total) /\
    forall placement, In placement (arrayAt s placementsArray) ->
      exists clip start,
        cell s placement = Some (OPlacement clip start) /\ In clip (arrayAt s0 clips).

(** Every element of the placements array is a placement created by this
    call, holding an element of the input clips array. *)
Definition placementsOk (s0 : Store) (clips : loc) (s : Store) : Prop :=
  forall placements, cell s (next s0 + 5) = Some (OArray placements) ->
    forall placement, In placement placements ->
      next s0 + 8 <= placement < next s /\
      exists clip start,
        cell s placement = Some (OPlacement clip start) /\ In clip (arrayAt s0 clips).

(** While the segments are scheduled. *)
Definition scheduling (s0 : Store) (clips : loc) (s : Store) : Prop :=
  frame s0 s /\ next s0 + 8 <= next s /\ poolsOk s0 clips s /\ placementsOk s0 clips s.

(** *** Vocabulary for comparing the scheduler on a store with the one on values *)

Section Represents.

Variable s0 : Store.

(** Objects of the input store. *)
Definition clipIs (l : loc) (clip : ClipAsset) : Prop :=
  l < next s0 /\ cell s0 l = Some (OClip clip).

Definition segmentIs (l : loc) (segment : AudioSegment) : Prop :=
  l < next s0 /\ cell s0 l = Some (OSegment segment).

(** Objects the call created. *)
Definition placementIs (s : Store) (l : loc) (p : TimelinePlacement) : Prop :=
  next s0 + 8 <= l < next s /\
  exists clip, cell s l = Some (OPlacement clip (pl_start p)) /\ clipIs clip (pl_clip p).

Definition talkPlanIs (s : Store) (l : loc) (p : TalkPlan) : Prop :=
  next s0 + 8 <= l < next s /\ cell s l = Some (OTalkPlan p).

Definition poolsAre (library : ClipLibrary) (s : Store) : Prop :=
  cell s (next s0 + 4) = Some (OLibrary (next s0) (next s0 + 1) (next s0 + 2) (next s0 + 3)) /\
  forall type, exists locs,
    cell s (next s0 + poolIndex type) = Some (OArray locs) /\
    Forall2 clipIs locs (pool library type).

(** The store while [reduce] runs: the library and its pools are the only
    new objects. *)
Definition Grouped (library : ClipLibrary) (s : Store) : Prop :=
  frame s0 s /\ next s = next s0 + 5 /\ poolsAre library s.

(** The state of the scheduler on values, as the store and the variables
    hold it. *)
Definition Sim (library : ClipLibrary) (stp : SchedState) (sth : HState) : Prop :=
  frame s0 (h_store sth) /\ next s0 + 8 <= next (h_store sth) /\
  poolsAre library (h_store sth) /\
  (exists locs, cell (h_store sth) (next s0 + 5) = Some (OArray locs) /\
                Forall2 (placementIs (h_store sth)) locs (st_placements stp)) /\
  (exists locs, cell (h_store sth) (next s0 + 6) = Some (OArray locs) /\
                Forall2 (talkPlanIs (h_store sth)) locs (st_talkPlans stp)) /\
  cell (h_store sth) (next s0 + 7) = Some (OCounters (st_counters stp)) /\
  h_videoCursor sth = st_videoCursor stp /\
  h_previousKind sth = st_previousKind stp.

(** The two runs end the same way, in states that correspond, with results
    related by [R]. *)
Definition corresponds {A B} (library : ClipLibrary) (R : A -> B -> Prop)
    (po : outcome (A * SchedState)) (ho : hresult B) : Prop :=
  match po with
  | Returns (a, stp) => exists b sth, ho = HReturns b sth /\ Sim library stp sth /\ R a b
  | Throws e => exists sth, ho = HThrows (Raised e) sth
  | OutOfFuel => ho = HOutOfFuel
  end.

(** The plan object at [l] holds the plan [plan]. *)
Definition planIs (s : Store) (l : loc) (plan : TimelinePlan) : Prop :=
  exists placementsArray talkPlansArray placementLocs talkPlanLocs,
    cell s l = Some (OPlan placementsArray talkPlansArray (totalDuration plan)) /\
    cell s placementsArray = Some (OArray placementLocs) /\
    Forall2 (placementIs s) placementLocs (placements plan) /\
    cell s talkPlansArray = Some (OArray talkPlanLocs) /\
    Forall2 (talkPlanIs s) talkPlanLocs (talkPlans plan).

(** The input store holds the segment list and the clip list behind the two
    array locations. *)
Definition represents (segmentsLoc clipsLoc : loc) (segments : list AudioSegment)
    (clips : list ClipAsset) : Prop :=
  segmentsLoc < next s0 /\ clipsLoc < next s0 /\
  (exists locs, cell s0 segmentsLoc = Some (OArray locs) /\ Forall2 segmentIs locs segments) /\
  (exists locs, cell s0 clipsLoc = Some (OArray locs) /\ Forall2 clipIs locs clips).

End Represents.

(** A store holding the given objects at locations [0, 1, ...]. *)
Definition storeOf (objects : list Obj) : Store :=
  mkStore (fun l => nth_error objects l) (length objects).

(** The scenario's inputs: the four clips at 0-3, the three segments at 4-6,
    the clips array at 7 and the segments array at 8. *)
Definition scenarioStore : Store :=
  storeOf (map OClip scenarioClips ++ map OSegment scenarioSegments
           ++ [OArray [0; 1; 2; 3]%nat; OArray [4; 5; 6]%nat]).

End Heap.

(** ** Audio analysis: windower, thresholds, segmenter *)

Module Audio.

Definition WINDOW_SIZE_SEC : Q := 0.08.
Definition SILENCE_HOLD_BLOCKS : nat := 3.
Definition MIN_SEGMENT_DURATION_SEC : Q := 0.05.
Definition TALK_GAP_TOLERANCE_SEC : Q := 0.05.

(** The decoded [AudioBuffer] of the Web Audio API, as far as the code reads
    it: [channelData] lists what [getChannelData(i)] returns for each
    channel, each of [buf_length] samples. *)
Record AudioBuffer : Type := mkBuffer {
  sampleRate : Q;
  buf_length : nat;
  channelData : list (list Q)
}.

Definition numberOfChannels (b : AudioBuffer) : nat := length (channelData b).

(** [audioBuffer.duration]. *)
Definition buf_duration (b : AudioBuffer) : Q :=
  inject_Z (Z.of_nat (buf_length b)) / sampleRate b.

(** *** Energy windower *)

Definition blockSize (b : AudioBuffer) : Z :=
  Z.max 1 (Qfloor (sampleRate b * WINDOW_SIZE_SEC)).

Definition blockCount (b : AudioBuffer) : Z :=
  Qceiling (inject_Z (Z.of_nat (buf_length b)) / inject_Z (blockSize b)).

Definition windowDuration (b : AudioBuffer) : Q :=
  inject_Z (blockSize b) / sampleRate b.

Section Windower.

(** [Math.sqrt], which has no exact counterpart on the rationals, is left
    open: what is proved below holds whatever the loudness values are. *)
Variable Math_sqrt : Q -> Q.

(** The two inner loops: squares of the samples [start .. start + len - 1]
    of every channel, added up. *)
Definition sumSquares (channels : list (list Q)) (start len : nat) : Q :=
  fold_left
    (fun acc data =>
       fold_left (fun acc' i => let value := nth i data 0 in acc' + value * value)
                 (seq start len) acc)
    channels 0.

Definition blockRms (b : AudioBuffer) (block : nat) : Q :=
  let start := (Z.of_nat block * blockSize b)%Z in
  let end_ := Z.min (start + blockSize b) (Z.of_nat (buf_length b)) in
  let len := (end_ - start)%Z in
  if (len <=? 0)%Z then 0
  else
    let meanSquare :=
      sumSquares (channelData b) (Z.to_nat start) (Z.to_nat len)
      / (inject_Z len * inject_Z (Z.of_nat (numberOfChannels b))) in
    Math_sqrt meanSquare.

Definition computeRms (b : AudioBuffer) : list Q :=
  map (blockRms b) (seq 0 (Z.to_nat (blockCount b))).

End Windower.

(** *** Threshold estimator *)

Fixpoint insertSorted (x : Q) (l : list Q) : list Q :=
  match l with
  | [] => [x]
  | y :: rest => if Qle_bool x y then x :: l else y :: insertSorted x rest
  end.

(** [[...rmsValues].sort((a, b) => a - b)]: ascending order. *)
Definition sortNumbers (l : list Q) : list Q := fold_right insertSorted [] l.

(** [sorted[i] ?? 0] at the index below the 90th percentile. *)
Definition strongLevel (rmsValues : list Q) : Q :=
  let sorted := sortNumbers rmsValues in
  let index := Z.max 0 (Qfloor (inject_Z (Z.of_nat (length sorted)) * 0.9) - 1) in
  nth (Z.to_nat index) sorted 0.

Definition talkThresholdOf (rmsValues : list Q) : Q :=
  Qmax 0.02 (strongLevel rmsValues * 0.4).

Definition silenceThresholdOf (rmsValues : list Q) : Q :=
  talkThresholdOf rmsValues * 0.55.

(** *** Segmenter *)

Definition kindName (k : SegmentKind) : string :=
  match k with KindIdle => "idle" | KindTalk => "talk" end.

(** The template literal [`${kind}-${index}`]. *)
Definition segmentIdOf (k : SegmentKind) (index : nat) : string :=
  (kindName k ++ "-" ++ NilZero.string_of_uint (Nat.to_uint index))%string.

(** The variables the scan of [analyzeAudio] updates. *)
Record ScanState : Type := mkScan {
  sc_segments : list AudioSegment;
  currentKind : SegmentKind;
  currentStart : Q;
  silenceBlocks : nat
}.

Definition flushSegment (st : ScanState) (endTime : Q) : ScanState :=
  let duration := endTime - currentStart st in
  if Qle_bool duration MIN_SEGMENT_DURATION_SEC then
    mkScan (sc_segments st) (currentKind st) endTime (silenceBlocks st)
  else
    mkScan (sc_segments st ++
              [mkSegment (segmentIdOf (currentKind st) (length (sc_segments st)))
                         (currentKind st) (currentStart st) duration])
           (currentKind st) endTime (silenceBlocks st).

Definition setKind (st : ScanState) (k : SegmentKind) (silence : nat) : ScanState :=
  mkScan (sc_segments st) k (currentStart st) silence.

Section Scan.

Variables (duration windowDuration talkThreshold silenceThreshold : Q).

(** One iteration of the [for] loop over the blocks. *)
Definition scanBlock (st : ScanState) (block : nat) (value : Q) : ScanState :=
  let blockEnd := Qmin duration (inject_Z (Z.of_nat block + 1) * windowDuration) in
  match currentKind st with
  | KindIdle =>
      if Qle_bool talkThreshold value then
        setKind (flushSegment st (inject_Z (Z.of_nat block) * windowDuration)) KindTalk 0
      else st
  | KindTalk =>
      if negb (Qle_bool silenceThreshold value) then
        let silence := (silenceBlocks st + 1)%nat in
        if (SILENCE_HOLD_BLOCKS <=? silence)%nat then
          setKind (flushSegment (setKind st KindTalk silence) blockEnd) KindIdle 0
        else setKind st KindTalk silence
      else setKind st KindTalk 0
  end.

(** The loop from [block] on; [values] are [rmsValues[block ..]]. *)
Fixpoint scanLoop (block : nat) (values : list Q) (st : ScanState) : ScanState :=
  match values with
  | [] => st
  | value :: rest => scanLoop (S block) rest (scanBlock st block value)
  end.

End Scan.

(** The leading idle segment put in front when the scan produced none. *)
Definition unshiftIdle (duration : Q) (segments : list AudioSegment) : list AudioSegment :=
  match segments with
  | [] => [mkSegment "idle-0" KindIdle 0 duration]
  | first :: _ =>
      match seg_kind first with
      | KindIdle => segments
      | KindTalk => mkSegment "idle-0" KindIdle 0 (seg_start first) :: segments
      end
  end.

(** The condition under which [mergeAdjacentTalkSegments] extends [prev]. *)
Definition mergeable (gapTolerance : Q) (prev segment : AudioSegment) : bool :=
  let prevEnd := seg_start prev + seg_duration prev in
  let gap := seg_start segment - prevEnd in
  match seg_kind segment, seg_kind prev with
  | KindTalk, KindTalk => Qle_bool gap (gapTolerance + 1e-6)
  | _, _ => false
  end.

(** Two neighbours that [mergeAdjacentTalkSegments] keeps apart. *)
Definition unmergeable (gapTolerance : Q) (prev segment : AudioSegment) : Prop :=
  mergeable gapTolerance prev segment = false.

(** One iteration of the loop of [mergeAdjacentTalkSegments] on the array
    [merged]. *)
Definition mergeStep (gapTolerance : Q) (merged : list AudioSegment)
    (segment : AudioSegment) : list AudioSegment :=
  match last_error_of merged with
  | None => merged ++ [segment]
  | Some prev =>
      if mergeable gapTolerance prev segment then
        let newEnd := seg_start segment + seg_duration segment in
        removelast merged ++
          [mkSegment (seg_id prev) (seg_kind prev) (seg_start prev) (newEnd - seg_start prev)]
      else merged ++ [segment]
  end.

Definition mergeAdjacentTalkSegments (segments : list AudioSegment) (gapTolerance : Q)
    : list AudioSegment :=
  fold_left (mergeStep gapTolerance) segments [].

Fixpoint rebuildFrom (index : nat) (segments : list AudioSegment) : list AudioSegment :=
  match segments with
  | [] => []
  | segment :: rest =>
      mkSegment (segmentIdOf (seg_kind segment) index) (seg_kind segment)
                (seg_start segment) (seg_duration segment)
      :: rebuildFrom (S index) rest
  end.

Definition rebuildSegmentIds (segments : list AudioSegment) : list AudioSegment :=
  rebuildFrom 0 segments.

(** Lines 61-116 of [analyzeAudio]: from the loudness series to the
    normalized segments. *)
Definition segmentsOf (duration windowDuration talkThreshold silenceThreshold : Q)
    (rmsValues : list Q) : list AudioSegment :=
  let scanned :=
    scanLoop duration windowDuration talkThreshold silenceThreshold 0 rmsValues
             (mkScan [] KindIdle 0 0) in
  let flushed := flushSegment scanned duration in
  let segments := unshiftIdle duration (sc_segments flushed) in
  rebuildSegmentIds (mergeAdjacentTalkSegments segments TALK_GAP_TOLERANCE_SEC).

(** *** Vocabulary for the partition property *)

(** Two consecutive raw segments: either of different kinds and touching,
    or two talk segments separated by a dropped idle stretch of at most
    [g] seconds. *)
Definition linked (g : Q) (a b : AudioSegment) : Prop :=
  (seg_kind a <> seg_kind b /\ seg_start b == seg_end a) \/
  (seg_kind a = KindTalk /\ seg_kind b = KindTalk /\
   0 <= seg_start b - seg_end a /\ seg_start b - seg_end a <= g).


(** A segment that [flushSegment] keeps. *)
Definition long (s : AudioSegment) : Prop := MIN_SEGMENT_DURATION_SEC < seg_duration s.

(** A talk segment ending at time 0, standing before the first segment. *)
Definition origin : AudioSegment := mkSegment "" KindTalk 0 0.

(** The segment the scan is in: its kind and start are known, its end is
    not yet. *)
Definition pending (st : ScanState) : AudioSegment :=
  mkSegment "" (currentKind st) (currentStart st) 0.

(** What the scan knows about time before it looks at [block]. *)
Definition timed (duration windowDuration : Q) (block : nat) (st : ScanState) : Prop :=
  match currentKind st with
  | KindIdle =>
      exists j : nat, (j <= block)%nat /\
        currentStart st == Qmin duration (inject_Z (Z.of_nat j) * windowDuration)
  | KindTalk =>
      currentStart st + inject_Z (Z.of_nat (1 + silenceBlocks st)) * windowDuration
        <= inject_Z (Z.of_nat block) * windowDuration /\
      currentStart st <= duration
  end.

Definition scanInv (g duration windowDuration : Q) (block : nat) (st : ScanState) : Prop :=
  adjacent (linked g) ((origin :: sc_segments st) ++ [pending st]) /\
  Forall long (sc_segments st) /\
  timed duration windowDuration block st.



(** The first [n] loudness values exist and are all below the silence
    threshold. *)
Definition quietRun (silenceThreshold : Q) (n : nat) (values : list Q) : Prop :=
  (n <= length values)%nat /\ Forall (fun v => v < silenceThreshold) (firstn n values).


Record AudioAnalysisResult : Type := mkAnalysis {
  res_buffer : AudioBuffer;
  res_segments : list AudioSegment;
  res_rmsValues : list Q;
  res_windowDuration : Q;
  res_talkThreshold : Q;
  res_silenceThreshold : Q
}.

(** [analyzeAudio] from the decoded buffer on (reading and decoding the file
    are the browser's). *)
Definition analyzeAudio (Math_sqrt : Q -> Q) (audioBuffer : AudioBuffer)
    : AudioAnalysisResult :=
  let rmsValues := computeRms Math_sqrt audioBuffer in
  let talkThreshold := talkThresholdOf rmsValues in
  let silenceThreshold := silenceThresholdOf rmsValues in
  mkAnalysis audioBuffer
    (segmentsOf (buf_duration audioBuffer) (windowDuration audioBuffer)
                talkThreshold silenceThreshold rmsValues)
    rmsValues (windowDuration audioBuffer) talkThreshold silenceThreshold.

(** *** The window size as the specification words it *)

(** [Math.round]: the nearest integer, halves rounded up. *)
Definition Math_round (x : Q) : Z := Qfloor (x + 0.5).

Definition roundedBlockSize (b : AudioBuffer) : Z :=
  Z.max 1 (Math_round (sampleRate b * WINDOW_SIZE_SEC)).

(** *** Concrete buffers *)

(** A square root that is exact on squares of rationals (0, 1, 1/4, ...),
    enough to evaluate the buffers below. *)
Definition sqrtOfSquare (q : Q) : Q :=
  let r := Qred q in Z.sqrt (Qnum r) # Pos.sqrt (Qden r).



(** Three loudness values. *)
Definition threeLevels : list Q := [0.1; 0.4; 0.2].

(** A buffer at 8010 Hz. *)
Definition oddRateBuffer : AudioBuffer :=
  mkBuffer 8010 4 [[0; 0; 0; 0]].

End Audio.

(** ** Audio realigner *)

Module Realign.
Import Audio.

(** One copy of the loop of [buildAlignedAudioBuffer]: [copyLength] samples
    from [sourceStart] of the input to [targetStart] of the output. *)
Record Copy : Type := mkCopy {
  sourceStart : Z;
  targetStart : Z;
  copyLength : Z
}.

Definition totalSamplesOf (audioBuffer : AudioBuffer) (totalDuration : Q) : Z :=
  Qceiling (totalDuration * sampleRate audioBuffer).

(** The body of the loop up to the copy: [None] where the code [continue]s. *)
Definition planCopy (audioBuffer : AudioBuffer) (totalSamples : Z) (plan : TalkPlan)
    : option Copy :=
  let sampleRate := sampleRate audioBuffer in
  let sourceStart := Qfloor (audioStart plan * sampleRate) in
  let sourceSamples := Qfloor (audioDuration plan * sampleRate) in
  let targetStart := Qfloor (videoStart plan * sampleRate) in
  let remainingTarget := (totalSamples - targetStart)%Z in
  if ((remainingTarget <=? 0) || (sourceSamples <=? 0))%Z then None
  else
    let copyLength :=
      Z.min (Z.min sourceSamples remainingTarget)
            (Z.of_nat (buf_length audioBuffer) - sourceStart) in
    if (copyLength <=? 0)%Z then None
    else Some (mkCopy sourceStart targetStart copyLength).

(** [data.subarray(begin, end)] for [0 <= begin <= end]. *)
Definition subarray (data : list Q) (begin end_ : Z) : list Q :=
  firstn (Z.to_nat (end_ - begin)) (skipn (Z.to_nat begin) data).

(** [target.set(input, offset)] for an input that fits. *)
Definition setAt (target input : list Q) (offset : Z) : list Q :=
  firstn (Z.to_nat offset) target ++ input
  ++ skipn (Z.to_nat offset + length input) target.

(** The loop over the channels. *)
Fixpoint copyChannels (inputs outputs : list (list Q)) (c : Copy) : list (list Q) :=
  match inputs, outputs with
  | input :: inputs', output :: outputs' =>
      setAt output (subarray input (sourceStart c) (sourceStart c + copyLength c))
            (targetStart c)
      :: copyChannels inputs' outputs' c
  | _, _ => outputs
  end.

Definition buildAlignedAudioBuffer (audioBuffer : AudioBuffer) (talkPlans : list TalkPlan)
    (totalDuration : Q) : AudioBuffer :=
  let totalSamples := totalSamplesOf audioBuffer totalDuration in
  let silence := repeat (repeat 0 (Z.to_nat totalSamples)) (numberOfChannels audioBuffer) in
  mkBuffer (sampleRate audioBuffer) (Z.to_nat totalSamples)
    (fold_left
       (fun output plan =>
          match planCopy audioBuffer totalSamples plan with
          | None => output
          | Some c => copyChannels (channelData audioBuffer) output c
          end)
       talkPlans silence).

(** Two destination ranges share a sample. *)
Definition rangesOverlap (c1 c2 : Copy) : Prop :=
  (targetStart c1 < targetStart c2 + copyLength c2)%Z /\
  (targetStart c2 < targetStart c1 + copyLength c1)%Z.

(** The copy [c] writes the output sample at index [p]. *)
Definition covers (c : Copy) (p : Z) : Prop :=
  (targetStart c <= p < targetStart c + copyLength c)%Z.

(** A copy that stays inside the input buffer and inside an output of
    [totalSamples] samples. *)
Definition inBounds (b : AudioBuffer) (totalSamples : Z) (c : Copy) : Prop :=
  (0 <= sourceStart c /\ 0 < copyLength c /\
   sourceStart c + copyLength c <= Z.of_nat (buf_length b) /\
   0 <= targetStart c /\ targetStart c + copyLength c <= totalSamples)%Z.

(** Talk plans as the scheduler makes them from the segments of
    [analyzeAudio]: no negative times. *)
Definition fromZero (plan : TalkPlan) : Prop :=
  0 <= audioStart plan /\ 0 <= videoStart plan.

(** One iteration of the loop over the talk plans. *)
Definition copyPlan (audioBuffer : AudioBuffer) (totalSamples : Z)
    (output : list (list Q)) (plan : TalkPlan) : list (list Q) :=
  match planCopy audioBuffer totalSamples plan with
  | None => output
  | Some c => copyChannels (channelData audioBuffer) output c
  end.

(** A short buffer at 8000 Hz and a talk plan that moves its first four
    samples two samples later. *)
Definition eightSamples : AudioBuffer :=
  mkBuffer 8000 8 [[1; 2; 3; 4; 5; 6; 7; 8]].

Definition shiftPlan : TalkPlan :=
  mkTalkPlan "talk-1" (2 # 8000) (6 # 8000) 0 (4 # 8000).

(** Every channel of the buffer has [length] samples, as the Web Audio API
    guarantees. *)
Definition wellFormed (b : AudioBuffer) : Prop :=
  Forall (fun data => length data = buf_length b) (channelData b).

(** The sample at index [p] of channel [channel]. *)
Definition sampleAt (b : AudioBuffer) (channel p : nat) : Q :=
  nth p (nth channel (channelData b) []) 0.

(** Four seconds of silence at 8000 Hz, one channel. *)
Definition fourSeconds : AudioBuffer :=
  mkBuffer 8000 (Z.to_nat 32000) [repeat 0 (Z.to_nat 32000)].

End Realign.

(** ** PCM encoder *)

Module Wav.
Import Audio.

(** A number converted to an integer the way [DataView] setters do it:
    truncated toward zero, then reduced modulo [2^bits]. *)
Definition truncate (x : Q) : Z := Z.quot (Qnum x) (Z.pos (Qden x)).

Definition toUint (bits : Z) (x : Q) : Z := (truncate x) mod (2 ^ bits).

(** The bytes behind an [ArrayBuffer], each in [0, 255]. *)
Definition View : Type := list Z.

(** Writing one byte; the encoder never writes outside the buffer it
    allocated, where the model leaves the bytes as they are. *)
Fixpoint setByte (view : View) (offset : nat) (value : Z) : View :=
  match view, offset with
  | [], _ => []
  | _ :: rest, O => value :: rest
  | b :: rest, S offset' => b :: setByte rest offset' value
  end.

Definition setUint8 (view : View) (offset : nat) (value : Q) : View :=
  setByte view offset (toUint 8 value).

(** Little-endian 16-bit store; [setInt16] and [setUint16] write the same
    two's-complement bytes. *)
Definition setUint16 (view : View) (offset : nat) (value : Q) : View :=
  let u := toUint 16 value in
  setByte (setByte view offset (u mod 256)) (offset + 1) (u / 256).

Definition setInt16 (view : View) (offset : nat) (value : Q) : View :=
  setUint16 view offset value.

Definition setUint32 (view : View) (offset : nat) (value : Q) : View :=
  let u := toUint 32 value in
  setByte (setByte (setByte (setByte view offset (u mod 256))
                            (offset + 1) (u / 256 mod 256))
                   (offset + 2) (u / 65536 mod 256))
          (offset + 3) (u / 16777216).

(** [text.charCodeAt(i)] for the ASCII texts of the header. *)
Definition charCode (c : ascii) : Q := inject_Z (Z.of_nat (nat_of_ascii c)).

Fixpoint writeString (view : View) (offset : nat) (text : string) : View :=
  match text with
  | EmptyString => view
  | String c rest => writeString (setUint8 view offset (charCode c)) (offset + 1) rest
  end.

(** [Math.max(-1, Math.min(1, sample))]. *)
Definition clamp (sample : Q) : Q := Qmax (-1) (Qmin 1 sample).

(** The number handed to [setInt16] for a sample. *)
Definition scaleSample (sample : Q) : Q :=
  let sample := clamp sample in
  if Qlt_le_dec sample 0 then sample * 32768 else sample * 32767.

(** The inner loop over the channels at sample index [i]. *)
Definition writeFrame (channelData : list (list Q)) (i : nat) (acc : View * nat)
    : View * nat :=
  fold_left
    (fun (acc : View * nat) data =>
       let (view, offset) := acc in
       (setInt16 view offset (scaleSample (nth i data 0)), (offset + 2)%nat))
    channelData acc.

Definition audioBufferToWav (buffer : AudioBuffer) : View :=
  let numChannels := inject_Z (Z.of_nat (numberOfChannels buffer)) in
  let sampleRate := sampleRate buffer in
  let format := 1 in
  let bitDepth := 16 in
  let samples := buf_length buffer in
  let blockAlign := numChannels * bitDepth / 8 in
  let byteRate := sampleRate * blockAlign in
  let dataSize := inject_Z (Z.of_nat samples) * blockAlign in
  let bufferSize := 44 + dataSize in
  let view := repeat 0%Z (Z.to_nat (truncate bufferSize)) in
  let view := writeString view 0 "RIFF" in
  let view := setUint32 view 4 (36 + dataSize) in
  let view := writeString view 8 "WAVE" in
  let view := writeString view 12 "fmt " in
  let view := setUint32 view 16 16 in
  let view := setUint16 view 20 format in
  let view := setUint16 view 22 numChannels in
  let view := setUint32 view 24 sampleRate in
  let view := setUint32 view 28 byteRate in
  let view := setUint16 view 32 blockAlign in
  let view := setUint16 view 34 bitDepth in
  let view := writeString view 36 "data" in
  let view := setUint32 view 40 dataSize in
  fst (fold_left (fun acc i => writeFrame (channelData buffer) i acc)
                 (seq 0 samples) (view, 44%nat)).

(** *** Reading the file back *)

Definition getUint8 (view : View) (offset : nat) : Z := nth offset view 0%Z.

Definition getUint16 (view : View) (offset : nat) : Z :=
  (getUint8 view offset + 256 * getUint8 view (offset + 1))%Z.

Definition getInt16 (view : View) (offset : nat) : Z :=
  let u := getUint16 view offset in
  if (32768 <=? u)%Z then (u - 65536)%Z else u.

Definition getUint32 (view : View) (offset : nat) : Z :=
  (getUint8 view offset + 256 * getUint8 view (offset + 1)
   + 65536 * getUint8 view (offset + 2) + 16777216 * getUint8 view (offset + 3))%Z.

(** *** Vocabulary for the layout of the file *)

(** The two bytes a little-endian 16-bit store writes. *)
Definition bytes16 (value : Q) : list Z :=
  let u := toUint 16 value in [u mod 256; u / 256]%Z.

(** The bytes of frame [i]: one 16-bit sample per channel. *)
Definition frameBytes (channelData : list (list Q)) (i : nat) : list Z :=
  flat_map (fun data => bytes16 (scaleSample (nth i data 0))) channelData.

(** The integer stored for a sample. *)
Definition sampleCode (sample : Q) : Z := truncate (scaleSample sample).

(** The header writes of [audioBufferToWav], on the first 44 bytes. *)
Definition wavHeader (buffer : AudioBuffer) : View :=
  let numChannels := inject_Z (Z.of_nat (numberOfChannels buffer)) in
  let sampleRate := sampleRate buffer in
  let format := 1 in
  let bitDepth := 16 in
  let samples := buf_length buffer in
  let blockAlign := numChannels * bitDepth / 8 in
  let byteRate := sampleRate * blockAlign in
  let dataSize := inject_Z (Z.of_nat samples) * blockAlign in
  let view := repeat 0%Z 44 in
  let view := writeString view 0 "RIFF" in
  let view := setUint32 view 4 (36 + dataSize) in
  let view := writeString view 8 "WAVE" in
  let view := writeString view 12 "fmt " in
  let view := setUint32 view 16 16 in
  let view := setUint16 view 20 format in
  let view := setUint16 view 22 numChannels in
  let view := setUint32 view 24 sampleRate in
  let view := setUint32 view 28 byteRate in
  let view := setUint16 view 32 blockAlign in
  let view := setUint16 view 34 bitDepth in
  let view := writeString view 36 "data" in
  setUint32 view 40 dataSize.

(** *** The reference buffer: one channel, 8000 Hz, four samples *)

Definition referenceBuffer : AudioBuffer :=
  mkBuffer 8000 4 [[0.0; 1.0; -1.0; 0.5]].

End Wav.

(** ** The stages in sequence *)

Module Pipeline.
Import Timeline Audio.



End Pipeline.

(** ** Numbers as the program computes them *)

(** A JavaScript number is a binary64 value.  The finite ones are the
    rationals [m * 2^e] with [|m| < 2^53] and [-1074 <= e <= 971], and an
    arithmetic operation returns the exact result rounded to the nearest of
    them, ties to the even mantissa.  [Number] writes this rounding out on
    the rationals: a value is the rational it denotes, [+ - * /] are the
    exact operations followed by [round], comparisons are exact.  Values
    beyond the largest double (about 1.8e308), [NaN] and the sign of zero
    are not modelled. *)
Module Number.

(** [2^e]. *)
Definition pow2 (e : Z) : Q :=
  match e with
  | Zneg p => 1 # (2 ^ p)
  | _ => inject_Z (2 ^ e)
  end.

(** The binade of [q <> 0]: the [k] with [2^k <= |q| < 2^(k+1)]. *)
Definition binade (q : Q) : Z :=
  let k := (Z.log2 (Z.abs (Qnum q)) - Z.log2 (Zpos (Qden q)))%Z in
  if Qle_bool (pow2 k) (Qabs q) then k else (k - 1)%Z.

(** The exponent of the last mantissa bit: 53 bits of precision, and the
    fixed spacing [2^-1074] of the subnormal numbers below [2^-1022]. *)
Definition exponent (q : Q) : Z := Z.max (binade q - 52) (-1074).

(** The nearest integer, a tie going to the even one. *)
Definition nearestEven (x : Q) : Z :=
  let f := Qfloor x in
  match Qcompare (x - inject_Z f) (1 # 2) with
  | Lt => f
  | Gt => (f + 1)%Z
  | Eq => if Z.even f then f else (f + 1)%Z
  end.

(** The binary64 value nearest to [q]. *)
Definition round (q : Q) : Q :=
  if Qeq_bool q 0 then 0
  else
    let e := exponent q in
    Qred (inject_Z (nearestEven (q / pow2 e)) * pow2 e).

(** A decimal literal of the source text denotes the double nearest to it. *)
Definition lit (q : Q) : Q := round q.

Definition add (x y : Q) : Q := round (x + y).
Definition sub (x y : Q) : Q := round (x - y).
Definition mul (x y : Q) : Q := round (x * y).

(** [x / y] for [y <> 0]. *)
Definition div (x y : Q) : Q := round (x / y).

(** [Math.sqrt] for [q >= 0], correctly rounded: the mantissa is the integer
    square root at the result's exponent, moved up by one when [q] lies
    above the square of the midpoint. *)
Definition sqrt (q : Q) : Q :=
  if Qle_bool q 0 then 0
  else
    let e := Z.max (binade q / 2 - 52) (-1074) in
    let scaled := q / pow2 (2 * e) in
    let m := Z.sqrt (Qfloor scaled) in
    let half := inject_Z m + (1 # 2) in
    let m' :=
      match Qcompare scaled (half * half) with
      | Lt => m
      | Gt => (m + 1)%Z
      | Eq => if Z.even m then m else (m + 1)%Z
      end in
    Qred (inject_Z m' * pow2 e).

(** The unit roundoff of binary64, [2^-53]. *)
Definition unitRoundoff : Q := pow2 (-53).

(** The numbers of the program: those that [round] leaves as they are. *)
Definition representable (q : Q) : Prop := round q == q.

End Number.

(** ** The scheduler in binary64 *)

(** [buildTimelinePlan] with the additions of the source rounded as the
    program rounds them.  The state, the error type and the pools are those
    of [Timeline]; what differs is the arithmetic on [videoCursor] and
    [covered]. *)
Module Timeline64.
Import Timeline.
Local Open Scope sched_scope.

(** The literal [1e-2] of the loop test. *)
Definition tolerance : Q := Number.lit 1e-2.

Section Closures.

Variable library : ClipLibrary.

Definition takeClip (type : MotionType) : Sched ClipAsset := fun st =>
  let list := pool library type in
  if (length list =? 0)%nat then Throws (MissingClipForState type)
  else
    let (value, counters') := nextIndex (st_counters st) type in
    match nth_error list (value mod length list) with
    | None => Throws UndefinedClip
    | Some clip =>
        Returns (clip,
                 mkState (st_placements st ++ [mkPlacement clip (st_videoCursor st)])
                         (st_talkPlans st)
                         (Number.add (st_videoCursor st) (clip_duration clip))
                         (st_previousKind st)
                         counters')
    end.

Definition maybeTakeClip (type : MotionType) : Sched (option ClipAsset) :=
  if (length (pool library type) =? 0)%nat then ret None
  else clip <- takeClip type ;; ret (Some clip).

(** The [while] loop of [coverSegment]; [fuel] bounds the number of
    iterations. *)
Fixpoint coverLoop (fuel : nat) (segment : AudioSegment) (covered : Q) : Sched unit :=
  if Qlt_le_dec (Number.add covered tolerance) (seg_duration segment) then
    match fuel with
    | O => diverge
    | S fuel' =>
        clip <- takeClip (coverType segment) ;;
        coverLoop fuel' segment (Number.add covered (clip_duration clip))
    end
  else ret tt.

Definition coverSegment (fuel : nat) (segment : AudioSegment) : Sched unit :=
  coverLoop fuel segment 0.

(** The [for] loop over [segments]; the head of [rest] is
    [segments[i + 1]]. *)
Fixpoint segmentsLoop (fuel : nat) (segments : list AudioSegment) : Sched unit :=
  match segments with
  | [] => ret tt
  | segment :: rest =>
      match seg_kind segment with
      | KindIdle =>
          coverSegment fuel segment ;;;
          setPreviousKind KindIdle ;;;
          segmentsLoop fuel rest
      | KindTalk =>
          previous <- getPreviousKind ;;
          match previous with
          | KindIdle => maybeTakeClip idleToSpeech
          | KindTalk => ret None
          end ;;;
          segmentVideoStart <- getVideoCursor ;;
          coverSegment fuel segment ;;;
          cursor <- getVideoCursor ;;
          pushTalkPlan (mkTalkPlan (seg_id segment) segmentVideoStart cursor
                                   (seg_start segment) (seg_duration segment)) ;;;
          match rest with
          | [] => maybeTakeClip speechToIdle ;;; setPreviousKind KindIdle
          | nextSegment :: _ =>
              match seg_kind nextSegment with
              | KindIdle => maybeTakeClip speechToIdle ;;; setPreviousKind KindIdle
              | KindTalk => setPreviousKind KindTalk
              end
          end ;;;
          segmentsLoop fuel rest
      end
  end.

End Closures.

Definition buildTimelinePlan (fuel : nat) (segments : list AudioSegment)
    (clips : list ClipAsset) : outcome TimelinePlan :=
  let library := groupClips clips in
  if (length (lib_idle library) =? 0)%nat then Throws IdleClipsRequired
  else if (length (lib_speechLoop library) =? 0)%nat then Throws SpeechLoopClipsRequired
  else
    match segmentsLoop library fuel segments initialState with
    | Returns (_, st) =>
        Returns (mkPlan (st_placements st) (st_talkPlans st) (st_videoCursor st))
    | Throws e => Throws e
    | OutOfFuel => OutOfFuel
    end.

(** *** Vocabulary for what the coverage loop placed *)

(** The clips laid end to end from a cursor, each start being the cursor the
    program had at that point. *)
Fixpoint layOut (cursor : Q) (clips : list ClipAsset) : list TimelinePlacement :=
  match clips with
  | [] => []
  | clip :: rest =>
      mkPlacement clip cursor :: layOut (Number.add cursor (clip_duration clip)) rest
  end.

(** The value of an accumulator that started at [from] after the durations
    of [clips] were added to it one by one: [videoCursor] from the cursor,
    [covered] from 0. *)
Definition accumulated (from : Q) (clips : list ClipAsset) : Q :=
  fold_left (fun acc clip => Number.add acc (clip_duration clip)) clips from.

(** The test of the [while] loop for a segment of [duration] seconds after
    [clips] were placed. *)
Definition short (duration : Q) (clips : list ClipAsset) : Prop :=
  Number.add (accumulated 0 clips) tolerance < duration.

(** A clip duration as the program gets it: a binary64 value, not
    negative. *)
Definition measured (clip : ClipAsset) : Prop :=
  0 <= clip_duration clip /\ Number.representable (clip_duration clip).

(** The rounding allowance after [n] additions that reached [reach]
    seconds: [2 n + 1] roundings of relative size [2^-53]. *)
Definition allowance (n : nat) (reach : Q) : Q :=
  inject_Z (2 * Z.of_nat n + 1) * Number.unitRoundoff * reach.

(** The clips [placed] cover the talk plan [p]: they are speech-loop clips,
    they carry the cursor from [videoStart] to [videoEnd], the loop test
    fails after them and held before each of them. *)
Definition coveredBy (library : ClipLibrary) (p : TalkPlan) (placed : list ClipAsset) : Prop :=
  Forall (fun clip => In clip (pool library speechLoop)) placed /\
  videoEnd p = accumulated (videoStart p) placed /\
  ~ short (audioDuration p) placed /\
  (forall front back, placed = front ++ back -> back <> [] ->
     short (audioDuration p) front).

(** What holds of the state between two statements of the loop over the
    segments: the cursor is a binary64 value, not negative; every talk plan
    starts at such a value, ends at or before the cursor and is covered by
    clips that are among the placements; the talk plans follow each other. *)
Definition settled (library : ClipLibrary) (st : SchedState) : Prop :=
  0 <= st_videoCursor st /\ Number.representable (st_videoCursor st) /\
  Forall (fun p =>
            0 <= videoStart p /\ Number.representable (videoStart p) /\
            videoEnd p <= st_videoCursor st /\
            exists placed,
              coveredBy library p placed /\
              (length placed <= length (st_placements st))%nat)
         (st_talkPlans st) /\
  StronglySorted planBefore (st_talkPlans st).

Definition stateOf (o : outcome (unit * SchedState)) : SchedState :=
  match o with
  | Returns (_, st) => st
  | _ => initialState
  end.

(** *** Concrete inputs *)

(** The clips of the end-to-end scenario, their durations as the literals
    [1.0], [0.4], [0.2] and [0.2] denote them. *)
Definition scenarioClips : list ClipAsset :=
  [mkClip "idle-a" idle (Number.lit 1.0); mkClip "loop-a" speechLoop (Number.lit 0.4);
   mkClip "in-a" idleToSpeech (Number.lit 0.2); mkClip "out-a" speechToIdle (Number.lit 0.2)].

Definition scenarioSegments : list AudioSegment :=
  [mkSegment "idle-0" KindIdle 0 (Number.lit 2.0);
   mkSegment "talk-1" KindTalk (Number.lit 2.0) (Number.lit 1.0);
   mkSegment "idle-2" KindIdle (Number.lit 3.0) (Number.lit 1.0)].

Definition scenarioPlan : TimelinePlan :=
  Eval vm_compute in planOf (buildTimelinePlan 3 scenarioSegments scenarioClips).

(** The state after the coverage of the talk segment of the scenario, run
    from the initial state. *)
Definition talkCovered : SchedState :=
  Eval vm_compute in
    stateOf (coverSegment (groupClips scenarioClips) 3
               (mkSegment "talk-1" KindTalk (Number.lit 2.0) (Number.lit 1.0)) initialState).

(** A speech-loop clip of [0.118] s for a talk segment of [0.128] s. *)
Definition tightClips : list ClipAsset :=
  [mkClip "idle-a" idle (Number.lit 1.0); mkClip "loop-a" speechLoop (Number.lit 0.118)].

Definition tightSegment : AudioSegment :=
  mkSegment "talk-0" KindTalk 0 (Number.lit 0.128).

(** Speech-loop clips of [0.4] s for a talk segment of [4.01] s. *)
Definition tenClips : list ClipAsset :=
  [mkClip "idle-a" idle (Number.lit 1.0); mkClip "loop-a" speechLoop (Number.lit 0.4)].

Definition tenSegments : list AudioSegment :=
  [mkSegment "idle-0" KindIdle 0 0; mkSegment "talk-1" KindTalk 0 (Number.lit 4.01)].

Definition tenPlan : TimelinePlan :=
  Eval vm_compute in planOf (buildTimelinePlan 10 tenSegments tenClips).

(** The plan of [shortSegments] and [shortClips], whose numbers are binary64
    values as they stand. *)
Definition shortPlan : TimelinePlan :=
  Eval vm_compute in planOf (buildTimelinePlan 1 shortSegments shortClips).

(** The plan of [twoTalkSegments], whose numbers are binary64 values, with
    the clips of the scenario. *)
Definition twoTalkPlan : TimelinePlan :=
  Eval vm_compute in planOf (buildTimelinePlan 3 twoTalkSegments scenarioClips).

(** Two talk segments back to back, the first as long as the speech-loop
    clip. *)
Definition closeClips : list ClipAsset :=
  [mkClip "idle-a" idle (Number.lit 1.42); mkClip "loop-a" speechLoop (Number.lit 2.675)].

Definition closeSegments : list AudioSegment :=
  [mkSegment "idle-0" KindIdle 0 (Number.lit 1.2);
   mkSegment "talk-1" KindTalk (Number.lit 1.2) (Number.lit 2.675);
   mkSegment "talk-2" KindTalk (Number.lit 3.875) (Number.lit 1.81)].

Definition closePlan : TimelinePlan :=
  Eval vm_compute in planOf (buildTimelinePlan 1 closeSegments closeClips).

End Timeline64.

(** ** Audio analysis in binary64 *)

(** The windower, the thresholds and the segmenter of [analyzeAudio] with
    the arithmetic of the source rounded as the program rounds it.  Sample
    counts, block indices and the segment records are those of [Audio]. *)
Module Audio64.
Import Audio.

Definition WINDOW_SIZE_SEC : Q := Number.lit 0.08.
Definition MIN_SEGMENT_DURATION_SEC : Q := Number.lit 0.05.
Definition TALK_GAP_TOLERANCE_SEC : Q := Number.lit 0.05.

(** [audioBuffer.duration]: the length divided by the sample rate. *)
Definition buf_duration (b : AudioBuffer) : Q :=
  Number.div (inject_Z (Z.of_nat (buf_length b))) (sampleRate b).

(** *** Energy windower *)

Definition blockSize (b : AudioBuffer) : Z :=
  Z.max 1 (Qfloor (Number.mul (sampleRate b) WINDOW_SIZE_SEC)).

Definition blockCount (b : AudioBuffer) : Z :=
  Qceiling (Number.div (inject_Z (Z.of_nat (buf_length b))) (inject_Z (blockSize b))).

Definition windowDuration (b : AudioBuffer) : Q :=
  Number.div (inject_Z (blockSize b)) (sampleRate b).

(** The two inner loops: squares of the samples [start .. start + len - 1]
    of every channel, added up. *)
Definition sumSquares (channels : list (list Q)) (start len : nat) : Q :=
  fold_left
    (fun acc data =>
       fold_left (fun acc' i =>
                    let value := nth i data 0 in Number.add acc' (Number.mul value value))
                 (seq start len) acc)
    channels 0.

Definition blockRms (b : AudioBuffer) (block : nat) : Q :=
  let start := (Z.of_nat block * blockSize b)%Z in
  let end_ := Z.min (start + blockSize b) (Z.of_nat (buf_length b)) in
  let len := (end_ - start)%Z in
  if (len <=? 0)%Z then 0
  else
    let meanSquare :=
      Number.div (sumSquares (channelData b) (Z.to_nat start) (Z.to_nat len))
                 (Number.mul (inject_Z len) (inject_Z (Z.of_nat (numberOfChannels b)))) in
    Number.sqrt meanSquare.

Definition computeRms (b : AudioBuffer) : list Q :=
  map (blockRms b) (seq 0 (Z.to_nat (blockCount b))).

(** *** Threshold estimator *)

(** Insertion under the comparator [(a, b) => a - b]. *)
Fixpoint insertSorted (x : Q) (l : list Q) : list Q :=
  match l with
  | [] => [x]
  | y :: rest =>
      if Qle_bool (Number.sub x y) 0 then x :: l else y :: insertSorted x rest
  end.

(** [[...rmsValues].sort((a, b) => a - b)]: ascending order. *)
Definition sortNumbers (l : list Q) : list Q := fold_right insertSorted [] l.

(** [sorted[i] ?? 0] at the index below the 90th percentile. *)
Definition strongLevel (rmsValues : list Q) : Q :=
  let sorted := sortNumbers rmsValues in
  let index :=
    Z.max 0 (Qfloor (Number.mul (inject_Z (Z.of_nat (length sorted))) (Number.lit 0.9)) - 1) in
  nth (Z.to_nat index) sorted 0.

Definition talkThresholdOf (rmsValues : list Q) : Q :=
  Qmax (Number.lit 0.02) (Number.mul (strongLevel rmsValues) (Number.lit 0.4)).

Definition silenceThresholdOf (rmsValues : list Q) : Q :=
  Number.mul (talkThresholdOf rmsValues) (Number.lit 0.55).

(** *** Segmenter *)

Definition flushSegment (st : ScanState) (endTime : Q) : ScanState :=
  let duration := Number.sub endTime (currentStart st) in
  if Qle_bool duration MIN_SEGMENT_DURATION_SEC then
    mkScan (sc_segments st) (currentKind st) endTime (silenceBlocks st)
  else
    mkScan (sc_segments st ++
              [mkSegment (segmentIdOf (currentKind st) (length (sc_segments st)))
                         (currentKind st) (currentStart st) duration])
           (currentKind st) endTime (silenceBlocks st).

Section Scan.

Variables (duration windowDuration talkThreshold silenceThreshold : Q).

(** [block * windowDuration]. *)
Definition blockTime (block : nat) : Q :=
  Number.mul (inject_Z (Z.of_nat block)) windowDuration.

(** One iteration of the [for] loop over the blocks. *)
Definition scanBlock (st : ScanState) (block : nat) (value : Q) : ScanState :=
  let blockEnd := Qmin duration (Number.mul (inject_Z (Z.of_nat block + 1)) windowDuration) in
  match currentKind st with
  | KindIdle =>
      if Qle_bool talkThreshold value then
        setKind (flushSegment st (Number.mul (inject_Z (Z.of_nat block)) windowDuration))
                KindTalk 0
      else st
  | KindTalk =>
      if negb (Qle_bool silenceThreshold value) then
        let silence := (silenceBlocks st + 1)%nat in
        if (SILENCE_HOLD_BLOCKS <=? silence)%nat then
          setKind (flushSegment (setKind st KindTalk silence) blockEnd) KindIdle 0
        else setKind st KindTalk silence
      else setKind st KindTalk 0
  end.

(** The loop from [block] on; [values] are [rmsValues[block ..]]. *)
Fixpoint scanLoop (block : nat) (values : list Q) (st : ScanState) : ScanState :=
  match values with
  | [] => st
  | value :: rest => scanLoop (S block) rest (scanBlock st block value)
  end.

End Scan.

(** The condition under which [mergeAdjacentTalkSegments] extends [prev]. *)
Definition mergeable (gapTolerance : Q) (prev segment : AudioSegment) : bool :=
  let prevEnd := Number.add (seg_start prev) (seg_duration prev) in
  let gap := Number.sub (seg_start segment) prevEnd in
  match seg_kind segment, seg_kind prev with
  | KindTalk, KindTalk => Qle_bool gap (Number.add gapTolerance (Number.lit 1e-6))
  | _, _ => false
  end.

(** One iteration of the loop of [mergeAdjacentTalkSegments] on the array
    [merged]. *)
Definition mergeStep (gapTolerance : Q) (merged : list AudioSegment)
    (segment : AudioSegment) : list AudioSegment :=
  match last_error_of merged with
  | None => merged ++ [segment]
  | Some prev =>
      if mergeable gapTolerance prev segment then
        let newEnd := Number.add (seg_start segment) (seg_duration segment) in
        removelast merged ++
          [mkSegment (seg_id prev) (seg_kind prev) (seg_start prev)
                     (Number.sub newEnd (seg_start prev))]
      else merged ++ [segment]
  end.

Definition mergeAdjacentTalkSegments (segments : list AudioSegment) (gapTolerance : Q)
    : list AudioSegment :=
  fold_left (mergeStep gapTolerance) segments [].

(** Lines 61-116 of [analyzeAudio]: from the loudness series to the
    normalized segments. *)
Definition segmentsOf (duration windowDuration talkThreshold silenceThreshold : Q)
    (rmsValues : list Q) : list AudioSegment :=
  let scanned :=
    scanLoop duration windowDuration talkThreshold silenceThreshold 0 rmsValues
             (mkScan [] KindIdle 0 0) in
  let flushed := flushSegment scanned duration in
  let segments := unshiftIdle duration (sc_segments flushed) in
  rebuildSegmentIds (mergeAdjacentTalkSegments segments TALK_GAP_TOLERANCE_SEC).

(** [analyzeAudio] from the decoded buffer on. *)
Definition analyzeAudio (audioBuffer : AudioBuffer) : AudioAnalysisResult :=
  let rmsValues := computeRms audioBuffer in
  let talkThreshold := talkThresholdOf rmsValues in
  let silenceThreshold := silenceThresholdOf rmsValues in
  mkAnalysis audioBuffer
    (segmentsOf (buf_duration audioBuffer) (windowDuration audioBuffer)
                talkThreshold silenceThreshold rmsValues)
    rmsValues (windowDuration audioBuffer) talkThreshold silenceThreshold.

(** *** Vocabulary for the partition property in binary64 *)

(** The rounding slack of the partition: [2^-50] of the duration, eight
    units of relative rounding error. *)
Definition slack (duration : Q) : Q := Number.pow2 (-50) * duration.

(** Consecutive segments of the result: of different kinds, in time order,
    the second starting where the first ends up to the slack. *)
Definition meets (duration : Q) (a b : AudioSegment) : Prop :=
  seg_kind a <> seg_kind b /\ seg_start a <= seg_start b /\
  Qabs (seg_start b - seg_end a) <= slack duration.

(** A segment that [flushSegment] keeps. *)
Definition kept (s : AudioSegment) : Prop := MIN_SEGMENT_DURATION_SEC < seg_duration s.

(** A segment closed by [flushSegment] at [endTime]. *)
Definition closesAt (endTime : Q) (a : AudioSegment) : Prop :=
  seg_start a <= endTime /\ seg_duration a == Number.sub endTime (seg_start a).

(** A segment closed at [endTime], or a talk segment that the merge pass
    extended up to a segment that started at [lastStart] and was closed at
    [endTime]. *)
Definition runClosesAt (endTime : Q) (a : AudioSegment) : Prop :=
  closesAt endTime a \/
  (seg_kind a = KindTalk /\
   exists lastStart,
     Number.representable lastStart /\
     seg_start a + 0.04 <= lastStart /\ lastStart <= endTime /\
     seg_duration a ==
       Number.sub (Number.add lastStart (Number.sub endTime lastStart)) (seg_start a)).

(** Every segment of the list is closed where the next one starts, the last
    one at [endTime]. *)
Fixpoint chained (endTime : Q) (l : list AudioSegment) : Prop :=
  match l with
  | [] => True
  | a :: rest =>
      closesAt (match rest with [] => endTime | b :: _ => seg_start b end) a /\
      chained endTime rest
  end.

(** Two consecutive raw segments: of different kinds, or two talk segments
    (the idle stretch between them was dropped). *)
Definition differs (a b : AudioSegment) : Prop :=
  seg_kind a <> seg_kind b \/ (seg_kind a = KindTalk /\ seg_kind b = KindTalk).

(** A time of the scan: a binary64 value within the buffer. *)
Definition onTime (duration : Q) (t : Q) : Prop :=
  0 <= t /\ t <= duration /\ Number.representable t.

(** What the scan knows about time before it looks at [block]. *)
Definition clocked (duration windowDuration : Q) (block : nat) (st : ScanState) : Prop :=
  match currentKind st with
  | KindIdle =>
      exists j : nat, (j <= block)%nat /\
        currentStart st == Qmin duration (blockTime windowDuration j)
  | KindTalk =>
      exists j : nat, (j + 1 + silenceBlocks st <= block)%nat /\
        currentStart st == blockTime windowDuration j
  end.

(** The segments pushed so far and the one the scan is in. *)
Definition scanBody (duration : Q) (st : ScanState) : Prop :=
  chained (currentStart st) (sc_segments st) /\
  adjacent differs (sc_segments st ++ [pending st]) /\
  Forall kept (sc_segments st) /\
  Forall (fun s => onTime duration (seg_start s)) (sc_segments st) /\
  onTime duration (currentStart st) /\
  seg_start (hd (pending st) (sc_segments st)) == 0.

Definition scanInv64 (duration windowDuration : Q) (block : nat) (st : ScanState) : Prop :=
  scanBody duration st /\ clocked duration windowDuration block st.

(** A result list: a leading idle segment at 0, then kept segments. *)
Definition shape64 (l : list AudioSegment) : Prop :=
  match l with
  | [] => False
  | first :: rest =>
      seg_kind first = KindIdle /\ seg_start first == 0 /\ 0 <= seg_duration first /\
      Forall kept rest
  end.

(** 256 samples at 100 Hz: three silent blocks of 8 samples, 23 loud ones,
    six silent ones. *)
Definition pauseBuffer : AudioBuffer :=
  mkBuffer 100 256 [repeat 0 24 ++ repeat 1 184 ++ repeat 0 48].

End Audio64.

(** ** Audio realigner in binary64 *)

(** [buildAlignedAudioBuffer] with the products of the source rounded; the
    copying of samples is that of [Realign]. *)
Module Realign64.
Import Audio Realign.

Definition totalSamplesOf (audioBuffer : AudioBuffer) (totalDuration : Q) : Z :=
  Qceiling (Number.mul totalDuration (sampleRate audioBuffer)).

(** The body of the loop up to the copy: [None] where the code [continue]s. *)
Definition planCopy (audioBuffer : AudioBuffer) (totalSamples : Z) (plan : TalkPlan)
    : option Copy :=
  let sampleRate := sampleRate audioBuffer in
  let sourceStart := Qfloor (Number.mul (audioStart plan) sampleRate) in
  let sourceSamples := Qfloor (Number.mul (audioDuration plan) sampleRate) in
  let targetStart := Qfloor (Number.mul (videoStart plan) sampleRate) in
  let remainingTarget := (totalSamples - targetStart)%Z in
  if ((remainingTarget <=? 0) || (sourceSamples <=? 0))%Z then None
  else
    let copyLength :=
      Z.min (Z.min sourceSamples remainingTarget)
            (Z.of_nat (buf_length audioBuffer) - sourceStart) in
    if (copyLength <=? 0)%Z then None
    else Some (mkCopy sourceStart targetStart copyLength).

(** One iteration of the loop over the talk plans. *)
Definition copyPlan (audioBuffer : AudioBuffer) (totalSamples : Z)
    (output : list (list Q)) (plan : TalkPlan) : list (list Q) :=
  match planCopy audioBuffer totalSamples plan with
  | None => output
  | Some c => copyChannels (channelData audioBuffer) output c
  end.

Definition buildAlignedAudioBuffer (audioBuffer : AudioBuffer) (talkPlans : list TalkPlan)
    (totalDuration : Q) : AudioBuffer :=
  let totalSamples := totalSamplesOf audioBuffer totalDuration in
  let silence := repeat (repeat 0 (Z.to_nat totalSamples)) (numberOfChannels audioBuffer) in
  mkBuffer (sampleRate audioBuffer) (Z.to_nat totalSamples)
    (fold_left (copyPlan audioBuffer totalSamples) talkPlans silence).

(** The samples by which the range written for [cp] runs past the start of
    the range written for [cq]. *)
Definition overrun (cp cq : Copy) : Z :=
  (targetStart cp + copyLength cp - targetStart cq)%Z.

(** A plan small enough for the rounding errors of its [n] placements to
    stay below half a sample: [2 n + 3] times the samples of [seconds]
    seconds do not exceed [2^52]. *)
Definition fitsSamples (n : nat) (sampleRate seconds : Q) : Prop :=
  inject_Z (2 * Z.of_nat n + 3) * (sampleRate * seconds) <= Number.pow2 52.

(** Six seconds at 16000 Hz, one channel; only its length matters below. *)
Definition sixSeconds : AudioBuffer :=
  mkBuffer 16000 (Z.to_nat 96000) [].

End Realign64.

(** * Properties of the timeline scheduler *)

Module TimelineFacts.
Import Timeline.
Local Open Scope sched_scope.

Lemma bind_Returns {A B} (m : Sched A) (k : A -> Sched B) st r :
  bind m k st = Returns r ->
  exists a st1, m st = Returns (a, st1) /\ k a st1 = Returns r.
Proof.
  unfold bind. destruct (m st) as [[a st1]| |]; intros H; try discriminate.
  exists a, st1. split; [reflexivity | exact H].
Qed.

Lemma bind_Throws {A B} (m : Sched A) (k : A -> Sched B) st e :
  bind m k st = Throws e ->
  m st = Throws e \/ exists a st1, m st = Returns (a, st1) /\ k a st1 = Throws e.
Proof.
  unfold bind. destruct (m st) as [[a st1]| |]; intros H; try discriminate.
  - right. exists a, st1. split; [reflexivity | exact H].
  - left. injection H as ->. reflexivity.
Qed.

Lemma bind_step {A B} (m : Sched A) (k : A -> Sched B) st a st1 :
  m st = Returns (a, st1) -> bind m k st = k a st1.
Proof. unfold bind. intros ->. reflexivity. Qed.

(** ** The clip library *)

Lemma pool_pushClip acc clip type :
  pool (pushClip acc clip) type =
  pool acc type ++ (if hasType type clip then [clip] else []).
Proof.
  unfold pushClip, hasType.
  destruct (clip_type clip), type; simpl; rewrite ?app_nil_r; reflexivity.
Qed.

Lemma pool_fold_pushClip clips : forall acc type,
  pool (fold_left pushClip clips acc) type = pool acc type ++ filter (hasType type) clips.
Proof.
  induction clips as [|clip clips IH]; intros acc type; simpl.
  - rewrite app_nil_r. reflexivity.
  - rewrite IH, pool_pushClip, <- app_assoc.
    destruct (hasType type clip); reflexivity.
Qed.

(** [groupClips] partitions the clip list by type, keeping its order. *)
Lemma pool_groupClips clips type :
  pool (groupClips clips) type = filter (hasType type) clips.
Proof.
  unfold groupClips. rewrite pool_fold_pushClip. destruct type; reflexivity.
Qed.

Lemma In_pool_groupClips clips type clip :
  In clip (pool (groupClips clips) type) -> In clip clips /\ clip_type clip = type.
Proof.
  rewrite pool_groupClips, filter_In. intros [Hin Ht]. split; [exact Hin|].
  unfold hasType in Ht. destruct type, (clip_type clip); congruence.
Qed.

(** ** Clip selection and the coverage loop *)

Section Scheduler.

Variable library : ClipLibrary.

Lemma takeClip_Returns type st clip st' :
  takeClip library type st = Returns (clip, st') ->
  In clip (pool library type) /\
  st' = mkState (st_placements st ++ [mkPlacement clip (st_videoCursor st)])
                (st_talkPlans st)
                (st_videoCursor st + clip_duration clip)
                (st_previousKind st)
                (setCounter (st_counters st) type (getCounter (st_counters st) type + 1)).
Proof.
  unfold takeClip, nextIndex.
  destruct (length (pool library type) =? 0)%nat; [discriminate|].
  destruct (nth_error _ _) as [c|] eqn:Hnth; [|discriminate].
  intros H. injection H as <- <-.
  split; [|reflexivity]. eapply nth_error_In; eassumption.
Qed.

Lemma takeClip_nonempty type st :
  pool library type <> [] ->
  exists clip st', takeClip library type st = Returns (clip, st').
Proof.
  intros Hne. unfold takeClip, nextIndex.
  destruct (pool library type) as [|c0 l] eqn:Hp; [congruence|].
  change (length (c0 :: l) =? 0)%nat with false. cbv iota.
  destruct (nth_error (c0 :: l) (getCounter (st_counters st) type mod length (c0 :: l)))
    as [c|] eqn:Hnth.
  - eauto.
  - apply nth_error_None in Hnth.
    pose proof (Nat.mod_upper_bound (getCounter (st_counters st) type) (length (c0 :: l))) as Hlt.
    simpl in Hlt, Hnth. lia.
Qed.

Lemma sumDurations_app l1 l2 :
  sumDurations (l1 ++ l2) == sumDurations l1 + sumDurations l2.
Proof.
  induction l1 as [|c l1 IH]; simpl.
  - lra.
  - unfold sumDurations in *. simpl. rewrite IH. lra.
Qed.

(** What a finished run of the coverage loop did to the shared state. *)
Lemma coverLoop_Returns fuel segment : forall covered st st',
  coverLoop library fuel segment covered st = Returns (tt, st') ->
  exists placed,
    Forall (fun clip => In clip (pool library (coverType segment))) placed /\
    st_placements st' = st_placements st ++ layOut (st_videoCursor st) placed /\
    st_videoCursor st' == st_videoCursor st + sumDurations placed /\
    st_talkPlans st' = st_talkPlans st /\
    st_previousKind st' = st_previousKind st /\
    seg_duration segment <= covered + sumDurations placed + 1e-2 /\
    (forall front lastClip, placed = front ++ [lastClip] ->
       covered + sumDurations front + 1e-2 < seg_duration segment).
Proof.
  induction fuel as [|fuel IH]; intros covered st st' H; simpl in H;
    destruct (Qlt_le_dec (covered + 1e-2) (seg_duration segment)) as [Hlt|Hge];
    try discriminate.
  - injection H as <-. exists []. simpl. rewrite app_nil_r.
    repeat split; auto; try (unfold sumDurations; simpl; lra).
    intros front lastClip Hnil. destruct front; discriminate.
  - apply bind_Returns in H. destruct H as (clip & st1 & Htake & Hrest).
    apply takeClip_Returns in Htake. destruct Htake as [Hin ->].
    apply IH in Hrest. simpl in Hrest.
    destruct Hrest as (placed & Hall & Hpl & Hcur & Htp & Hpk & Hcov & Hlast).
    exists (clip :: placed). simpl.
    repeat split; auto.
    + rewrite Hpl, <- app_assoc. reflexivity.
    + rewrite Hcur. unfold sumDurations. simpl. lra.
    + unfold sumDurations in *. simpl. lra.
    + intros front lastClip Heq. destruct front as [|c front]; simpl in Heq.
      * unfold sumDurations. simpl. lra.
      * injection Heq as <- Heq. specialize (Hlast _ _ Heq).
        unfold sumDurations in *. simpl. lra.
  - injection H as <-. exists []. simpl. rewrite app_nil_r.
    repeat split; auto; try (unfold sumDurations; simpl; lra).
    intros front lastClip Hnil. destruct front; discriminate.
Qed.

(** With a non-empty pool whose clips last at least [m > 0], the loop
    finishes within any fuel that [m] multiplies past the uncovered rest. *)
Lemma coverLoop_total (m : Q) segment :
  0 < m ->
  pool library (coverType segment) <> [] ->
  (forall clip, In clip (pool library (coverType segment)) -> m <= clip_duration clip) ->
  forall fuel covered st,
    seg_duration segment - covered - 1e-2 < inject_Z (Z.of_nat fuel) * m ->
    exists st', coverLoop library fuel segment covered st = Returns (tt, st').
Proof.
  intros Hm Hne Hmin. induction fuel as [|fuel IH]; intros covered st Hfuel; simpl;
    destruct (Qlt_le_dec (covered + 1e-2) (seg_duration segment)) as [Hlt|Hge];
    try (eexists; reflexivity).
  - change (inject_Z (Z.of_nat 0)) with 0 in Hfuel. lra.
  - destruct (takeClip_nonempty (coverType segment) st Hne) as (clip & st1 & Htake).
    rewrite (bind_step _ _ _ _ _ Htake).
    apply takeClip_Returns in Htake. destruct Htake as [Hin _].
    apply IH. specialize (Hmin _ Hin).
    rewrite Nat2Z.inj_succ, <- Z.add_1_r, inject_Z_plus in Hfuel.
    change (inject_Z 1) with 1 in Hfuel. lra.
Qed.

Lemma coverSegment_Returns fuel segment st st' :
  coverSegment library fuel segment st = Returns (tt, st') ->
  exists placed,
    extends library (coverType segment) st st' placed /\
    seg_duration segment - 1e-2 <= sumDurations placed /\
    (forall front lastClip, placed = front ++ [lastClip] ->
       sumDurations front + 1e-2 < seg_duration segment).
Proof.
  unfold coverSegment. intros H. apply coverLoop_Returns in H.
  destruct H as (placed & Hall & Hpl & Hcur & Htp & _ & Hcov & Hlast).
  exists placed. unfold extends. repeat split; auto.
  - lra.
  - intros front lastClip Heq. specialize (Hlast _ _ Heq). lra.
Qed.

Lemma maybeTakeClip_Returns type st r st' :
  maybeTakeClip library type st = Returns (r, st') ->
  exists placed, extends library type st st' placed.
Proof.
  unfold maybeTakeClip. destruct (length (pool library type) =? 0)%nat.
  - intros H. injection H as <- <-. exists []. unfold extends. simpl.
    rewrite app_nil_r. repeat split; auto. unfold sumDurations. simpl. lra.
  - intros H. apply bind_Returns in H. destruct H as (clip & st1 & Htake & Hret).
    injection Hret as <- <-. apply takeClip_Returns in Htake. destruct Htake as [Hin ->].
    exists [clip]. unfold extends. simpl. repeat split; auto.
    unfold sumDurations. simpl. lra.
Qed.


Lemma sumDurations_nonneg type placed :
  nonnegLibrary library ->
  Forall (fun clip => In clip (pool library type)) placed ->
  0 <= sumDurations placed.
Proof.
  intros Hnn Hall. induction Hall as [|c l Hin _ IH]; unfold sumDurations in *; simpl.
  - lra.
  - specialize (Hnn _ _ Hin). lra.
Qed.

Lemma extends_cursor type st st' placed :
  nonnegLibrary library ->
  extends library type st st' placed ->
  st_videoCursor st <= st_videoCursor st'.
Proof.
  intros Hnn (Hall & _ & Hcur & _).
  pose proof (sumDurations_nonneg _ _ Hnn Hall). lra.
Qed.

Lemma layOut_clips placed : forall cursor, map pl_clip (layOut cursor placed) = placed.
Proof.
  induction placed as [|c l IH]; intros cursor; simpl; [reflexivity|].
  rewrite IH. reflexivity.
Qed.

Lemma extends_placements type st st' placed :
  extends library type st st' placed ->
  exists newPl, st_placements st' = st_placements st ++ newPl /\
    Forall (fun p => In (pl_clip p) (pool library type)) newPl.
Proof.
  intros (Hall & Hpl & _ & _). exists (layOut (st_videoCursor st) placed).
  split; [exact Hpl|].
  rewrite Forall_forall in *. intros p Hp. apply Hall.
  rewrite <- (layOut_clips placed (st_videoCursor st)). apply in_map. exact Hp.
Qed.

Lemma StronglySorted_app {A} (R : A -> A -> Prop) l1 l2 :
  StronglySorted R l1 -> StronglySorted R l2 ->
  (forall x y, In x l1 -> In y l2 -> R x y) ->
  StronglySorted R (l1 ++ l2).
Proof.
  induction l1 as [|a l1 IH]; intros H1 H2 Hx; simpl; [exact H2|].
  inversion H1 as [|? ? Hs Hf]; subst. constructor.
  - apply IH; auto. intros x y Hin1 Hin2. apply Hx; [right|]; assumption.
  - apply Forall_app. split; [exact Hf|].
    rewrite Forall_forall. intros y Hy. apply Hx; [left; reflexivity | exact Hy].
Qed.

Lemma traced_trans st1 st2 st3 :
  traced library st1 st2 -> traced library st2 st3 -> traced library st1 st3.
Proof.
  intros (pl1 & tp1 & Hp1 & Hf1 & Ht1 & Hs1 & Hn1) (pl2 & tp2 & Hp2 & Hf2 & Ht2 & Hs2 & Hn2).
  exists (pl1 ++ pl2), (tp1 ++ tp2). repeat split.
  - rewrite Hp2, Hp1, app_assoc. reflexivity.
  - apply Forall_app. split; assumption.
  - rewrite Ht2, Ht1, app_assoc. reflexivity.
  - apply Forall_app. split; assumption.
  - destruct (Hn1 H) as (Hc1 & _). destruct (Hn2 H) as (Hc2 & _). lra.
  - destruct (Hn1 H) as (Hc1 & Hb1 & _). destruct (Hn2 H) as (Hc2 & Hb2 & _).
    apply Forall_app. split.
    + eapply Forall_impl; [|exact Hb1]. simpl. intros p (Ha & Hb & Hc). repeat split; lra.
    + eapply Forall_impl; [|exact Hb2]. simpl. intros p (Ha & Hb & Hc). repeat split; lra.
  - destruct (Hn1 H) as (Hc1 & Hb1 & Hsort1). destruct (Hn2 H) as (Hc2 & Hb2 & Hsort2).
    apply StronglySorted_app; auto.
    intros x y Hx Hy. rewrite Forall_forall in Hb1, Hb2.
    destruct (Hb1 _ Hx) as (_ & _ & Hxe). destruct (Hb2 _ Hy) as (Hys & _ & _).
    unfold planBefore. lra.
Qed.

Lemma extends_traced type st st' placed :
  extends library type st st' placed -> traced library st st'.
Proof.
  intros Hext. destruct (extends_placements _ _ _ _ Hext) as (newPl & Hpl & Hall).
  exists newPl, []. repeat split; auto.
  - eapply Forall_impl; [|exact Hall]. simpl. intros p Hp. exists type. exact Hp.
  - destruct Hext as (_ & _ & _ & Htp). rewrite Htp, app_nil_r. reflexivity.
  - eapply extends_cursor; eassumption.
  - constructor.
Qed.

Lemma setPreviousKind_traced k st : 
  traced library st (mkState (st_placements st) (st_talkPlans st) (st_videoCursor st) k
                             (st_counters st)).
Proof.
  exists [], []. simpl. rewrite !app_nil_r. repeat split; auto; try lra. constructor.
Qed.

(** Covering a talk segment and recording its plan. *)
Lemma coverTalk_traced fuel segment st st1 :
  coverSegment library fuel segment st = Returns (tt, st1) ->
  traced library st
    (mkState (st_placements st1)
             (st_talkPlans st1 ++ [mkTalkPlan (seg_id segment) (st_videoCursor st)
                                     (st_videoCursor st1) (seg_start segment)
                                     (seg_duration segment)])
             (st_videoCursor st1) (st_previousKind st1) (st_counters st1)).
Proof.
  intros Hcov. apply coverSegment_Returns in Hcov.
  destruct Hcov as (placed & Hext & Hlow & _).
  destruct (extends_placements _ _ _ _ Hext) as (newPl & Hpl & Hall).
  pose proof Hext as (Hin & _ & Hcur & Htp).
  exists newPl, [mkTalkPlan (seg_id segment) (st_videoCursor st) (st_videoCursor st1)
                   (seg_start segment) (seg_duration segment)].
  simpl. repeat split; auto.
  - eapply Forall_impl; [|exact Hall]. simpl. intros p Hp. eexists. exact Hp.
  - rewrite Htp. reflexivity.
  - constructor; [|constructor]. unfold spanCovers. simpl. lra.
  - eapply extends_cursor; eassumption.
  - constructor; [|constructor]. simpl.
    pose proof (extends_cursor _ _ _ _ H Hext). repeat split; lra.
  - constructor; constructor.
Qed.

Tactic Notation "step_bind" hyp(H) "as" ident(a) ident(s) ident(H1) :=
  apply bind_Returns in H; destruct H as (a & s & H1 & H);
  try match type of a with unit => destruct a end.

Ltac step_pure H := injection H; clear H; intros; subst.

Lemma afterTalk_traced (rest : list AudioSegment) st st' :
  match rest with
  | [] => maybeTakeClip library speechToIdle ;;; setPreviousKind KindIdle
  | nextSegment :: _ =>
      match seg_kind nextSegment with
      | KindIdle => maybeTakeClip library speechToIdle ;;; setPreviousKind KindIdle
      | KindTalk => setPreviousKind KindTalk
      end
  end st = Returns (tt, st') ->
  traced library st st'.
Proof.
  assert (Htake : forall s s', (maybeTakeClip library speechToIdle ;;; setPreviousKind KindIdle) s
                               = Returns (tt, s') -> traced library s s').
  { intros s s' H. step_bind H as r s1 Hmaybe. step_pure H.
    apply maybeTakeClip_Returns in Hmaybe. destruct Hmaybe as (placed & Hext).
    eapply traced_trans; [eapply extends_traced; eassumption|].
    apply setPreviousKind_traced. }
  destruct rest as [|nextSegment rest']; [apply Htake|].
  destruct (seg_kind nextSegment); [apply Htake|].
  intros H. injection H as <-. apply setPreviousKind_traced.
Qed.

Lemma segmentsLoop_Returns fuel segments : forall st st',
  segmentsLoop library fuel segments st = Returns (tt, st') ->
  traced library st st'.
Proof.
  induction segments as [|segment rest IH]; intros st st' H; simpl in H.
  - step_pure H. destruct st'. apply setPreviousKind_traced.
  - destruct (seg_kind segment) eqn:Hkind.
    + step_bind H as u1 s1 Hcover. step_bind H as u2 s2 Hset. step_pure Hset.
      apply coverSegment_Returns in Hcover. destruct Hcover as (placed & Hext & _).
      eapply traced_trans; [eapply extends_traced; eassumption|].
      eapply traced_trans; [apply setPreviousKind_traced|].
      apply IH. exact H.
    + step_bind H as previous s0 Hprev. unfold getPreviousKind in Hprev.
      injection Hprev as Hprevious Hs0. subst s0.
      step_bind H as r s1 Hlead.
      step_bind H as segmentVideoStart s1' Hstart. unfold getVideoCursor in Hstart.
      injection Hstart as Hstart Hs1'. subst s1'.
      step_bind H as u1 s2 Hcover.
      step_bind H as cursor s2' Hcursor. unfold getVideoCursor in Hcursor.
      injection Hcursor as Hcursor Hs2'. subst s2'.
      step_bind H as u2 s3 Hpush. unfold pushTalkPlan in Hpush.
      injection Hpush as Hs3.
      step_bind H as u3 s4 Hafter.
      assert (Hpre : traced library st s1).
      { destruct previous.
        - apply maybeTakeClip_Returns in Hlead. destruct Hlead as (placed & Hext).
          eapply extends_traced; eassumption.
        - step_pure Hlead. destruct s1. apply setPreviousKind_traced. }
      eapply traced_trans; [exact Hpre|].
      eapply traced_trans; [eapply coverTalk_traced; exact Hcover|].
      subst segmentVideoStart cursor. rewrite Hs3.
      eapply traced_trans; [eapply afterTalk_traced; exact Hafter|].
      apply IH. exact H.
Qed.

(** *** No exception after the entry checks *)

Lemma takeClip_Throws type st e :
  takeClip library type st = Throws e -> pool library type = [].
Proof.
  unfold takeClip, nextIndex.
  destruct (pool library type) as [|c0 l] eqn:Hp; [reflexivity|].
  change (length (c0 :: l) =? 0)%nat with false. cbv iota.
  destruct (nth_error (c0 :: l) _) as [c|] eqn:Hnth; [discriminate|].
  apply nth_error_None in Hnth.
  pose proof (Nat.mod_upper_bound (getCounter (st_counters st) type) (length (c0 :: l))) as Hlt.
  simpl in Hlt, Hnth. lia.
Qed.

Lemma maybeTakeClip_Throws type st e :
  maybeTakeClip library type st <> Throws e.
Proof.
  unfold maybeTakeClip. destruct (length (pool library type) =? 0)%nat eqn:Hlen.
  - discriminate.
  - intros H. apply bind_Throws in H. destruct H as [H|(clip & s1 & _ & H)]; [|discriminate].
    apply takeClip_Throws in H. rewrite H in Hlen. discriminate.
Qed.

Lemma coverLoop_Throws fuel segment :
  pool library (coverType segment) <> [] ->
  forall covered st e, coverLoop library fuel segment covered st <> Throws e.
Proof.
  intros Hne. induction fuel as [|fuel IH]; intros covered st e H; simpl in H;
    destruct (Qlt_le_dec (covered + 1e-2) (seg_duration segment)); try discriminate.
  apply bind_Throws in H. destruct H as [H|(clip & s1 & _ & H)].
  - apply takeClip_Throws in H. contradiction.
  - exact (IH _ _ _ H).
Qed.

Section RequiredPools.

Hypothesis idle_required : pool library idle <> [].
Hypothesis speechLoop_required : pool library speechLoop <> [].

Lemma coverType_pool segment : pool library (coverType segment) <> [].
Proof. unfold coverType. destruct (seg_kind segment); assumption. Qed.

Lemma afterTalk_Throws (rest : list AudioSegment) st e :
  match rest with
  | [] => maybeTakeClip library speechToIdle ;;; setPreviousKind KindIdle
  | nextSegment :: _ =>
      match seg_kind nextSegment with
      | KindIdle => maybeTakeClip library speechToIdle ;;; setPreviousKind KindIdle
      | KindTalk => setPreviousKind KindTalk
      end
  end st <> Throws e.
Proof.
  assert (Htake : forall s, (maybeTakeClip library speechToIdle ;;; setPreviousKind KindIdle) s
                            <> Throws e).
  { intros s H. apply bind_Throws in H. destruct H as [H|(r & s1 & _ & H)]; [|discriminate].
    exact (maybeTakeClip_Throws _ _ _ H). }
  destruct rest as [|nextSegment rest']; [apply Htake|].
  destruct (seg_kind nextSegment); [apply Htake|discriminate].
Qed.

Ltac throw_bind H :=
  apply bind_Throws in H; destruct H as [H|(? & ? & _ & H)].

Lemma segmentsLoop_Throws fuel segments : forall st e,
  segmentsLoop library fuel segments st <> Throws e.
Proof.
  induction segments as [|segment rest IH]; intros st e H; simpl in H; [discriminate|].
  destruct (seg_kind segment) eqn:Hkind.
  - throw_bind H; [exact (coverLoop_Throws _ _ (coverType_pool _) _ _ _ H)|].
    throw_bind H; [discriminate|]. exact (IH _ _ H).
  - throw_bind H; [discriminate|].
    throw_bind H.
    { match type of H with
      | match ?k with _ => _ end _ = _ => destruct k
      end; [exact (maybeTakeClip_Throws _ _ _ H) | discriminate]. }
    throw_bind H; [discriminate|].
    throw_bind H; [exact (coverLoop_Throws _ _ (coverType_pool _) _ _ _ H)|].
    throw_bind H; [discriminate|].
    throw_bind H; [discriminate|].
    throw_bind H; [exact (afterTalk_Throws _ _ _ H)|].
    exact (IH _ _ H).
Qed.

(** *** Termination *)

Variable m : Q.
Hypothesis m_pos : 0 < m.
Hypothesis m_idle : forall clip, In clip (pool library idle) -> m <= clip_duration clip.
Hypothesis m_speechLoop : forall clip, In clip (pool library speechLoop) -> m <= clip_duration clip.




End RequiredPools.

(** *** More fuel does not change a result *)

Lemma bind_Returns_mono {A B} (m1 m2 : Sched A) (k1 k2 : A -> Sched B) st r :
  (forall a s1, m1 st = Returns (a, s1) -> m2 st = Returns (a, s1)) ->
  (forall a s1, m1 st = Returns (a, s1) -> k1 a s1 = Returns r -> k2 a s1 = Returns r) ->
  bind m1 k1 st = Returns r -> bind m2 k2 st = Returns r.
Proof.
  intros Hm Hk H. apply bind_Returns in H. destruct H as (a & s1 & H1 & H2).
  rewrite (bind_step _ _ _ _ _ (Hm _ _ H1)). eapply Hk; eassumption.
Qed.

Lemma coverLoop_fuel fuel segment : forall fuel' covered st r,
  (fuel <= fuel')%nat ->
  coverLoop library fuel segment covered st = Returns r ->
  coverLoop library fuel' segment covered st = Returns r.
Proof.
  induction fuel as [|fuel IH]; intros fuel' covered st r Hle H; simpl in H.
  - destruct fuel'; simpl;
      destruct (Qlt_le_dec (covered + 1e-2) (seg_duration segment)); try discriminate; exact H.
  - destruct fuel' as [|fuel']; [lia|]. simpl.
    destruct (Qlt_le_dec (covered + 1e-2) (seg_duration segment)); [|exact H].
    revert H. apply bind_Returns_mono; [auto|].
    intros clip s1 _. apply IH. lia.
Qed.

Lemma segmentsLoop_fuel fuel fuel' segments :
  (fuel <= fuel')%nat ->
  forall st r,
    segmentsLoop library fuel segments st = Returns r ->
    segmentsLoop library fuel' segments st = Returns r.
Proof.
  intros Hle. induction segments as [|segment rest IH]; intros st r H; simpl in *; [exact H|].
  destruct (seg_kind segment).
  - revert H. apply bind_Returns_mono.
    + intros a s1. apply coverLoop_fuel. exact Hle.
    + intros _ s1 _. apply bind_Returns_mono; [auto|]. intros _ s2 _. apply IH.
  - revert H. apply bind_Returns_mono; [auto|]. intros previous s0 _.
    apply bind_Returns_mono; [auto|]. intros lead s1 _.
    apply bind_Returns_mono; [auto|]. intros segmentVideoStart s1' _.
    apply bind_Returns_mono; [intros a s2; apply coverLoop_fuel; exact Hle|]. intros _ s2 _.
    apply bind_Returns_mono; [auto|]. intros cursor s2' _.
    apply bind_Returns_mono; [auto|]. intros _ s3 _.
    apply bind_Returns_mono; [auto|]. intros _ s4 _. apply IH.
Qed.

End Scheduler.

(** ** Fuel that suffices *)

Lemma archimedes (q m : Q) : 0 < m -> exists n : nat, q < inject_Z (Z.of_nat n) * m.
Proof.
  intros Hm. exists (Z.to_nat (Z.max 0 (Qceiling (q / m) + 1))).
  rewrite Z2Nat.id by lia.
  assert (Hq : q == q / m * m) by (field; lra).
  assert (Hc : q / m < inject_Z (Z.max 0 (Qceiling (q / m) + 1))).
  { eapply Qle_lt_trans; [apply Qle_ceiling|].
    rewrite <- Zlt_Qlt. lia. }
  rewrite Hq at 1. apply Qmult_lt_compat_r; assumption.
Qed.



Lemma min_duration (l : list ClipAsset) :
  (forall clip, In clip l -> 0 < clip_duration clip) ->
  exists m, 0 < m /\ forall clip, In clip l -> m <= clip_duration clip.
Proof.
  induction l as [|c l IH]; intros Hpos.
  - exists 1. split; [lra|]. intros clip [].
  - destruct IH as (m & Hm & Hmin).
    { intros clip Hin. apply Hpos. right. exact Hin. }
    assert (Hc := Hpos c (or_introl eq_refl)).
    destruct (Qlt_le_dec (clip_duration c) m) as [Hlt|Hge].
    + exists (clip_duration c). split; [exact Hc|].
      intros clip [<-|Hin]; [lra|]. specialize (Hmin _ Hin). lra.
    + exists m. split; [exact Hm|].
      intros clip [<-|Hin]; [exact Hge|]. apply Hmin. exact Hin.
Qed.

(** ** The whole scheduler *)

Lemma buildTimelinePlan_fuel fuel fuel' segments clips plan :
  (fuel <= fuel')%nat ->
  buildTimelinePlan fuel segments clips = Returns plan ->
  buildTimelinePlan fuel' segments clips = Returns plan.
Proof.
  unfold buildTimelinePlan. intros Hle.
  destruct (length (lib_idle (groupClips clips)) =? 0)%nat; [discriminate|].
  destruct (length (lib_speechLoop (groupClips clips)) =? 0)%nat; [discriminate|].
  destruct (segmentsLoop (groupClips clips) fuel segments initialState)
    as [[[] st]| |] eqn:Hrun; try discriminate.
  rewrite (segmentsLoop_fuel _ _ _ _ Hle _ _ Hrun). trivial.
Qed.

Lemma buildTimelinePlan_Returns fuel segments clips plan :
  buildTimelinePlan fuel segments clips = Returns plan ->
  exists st,
    segmentsLoop (groupClips clips) fuel segments initialState = Returns (tt, st) /\
    plan = mkPlan (st_placements st) (st_talkPlans st) (st_videoCursor st).
Proof.
  unfold buildTimelinePlan.
  destruct (length (lib_idle (groupClips clips)) =? 0)%nat; [discriminate|].
  destruct (length (lib_speechLoop (groupClips clips)) =? 0)%nat; [discriminate|].
  destruct (segmentsLoop (groupClips clips) fuel segments initialState)
    as [[[] st]| |] eqn:Hrun; try discriminate.
  intros H. injection H as <-. exists st. split; reflexivity.
Qed.

Lemma buildTimelinePlan_traced fuel segments clips plan :
  buildTimelinePlan fuel segments clips = Returns plan ->
  Forall (fun p => exists type, In (pl_clip p) (pool (groupClips clips) type)) (placements plan) /\
  Forall spanCovers (talkPlans plan) /\
  (nonnegLibrary (groupClips clips) ->
     Forall (fun p => 0 <= videoStart p /\ videoStart p <= videoEnd p /\
                      videoEnd p <= totalDuration plan) (talkPlans plan) /\
     StronglySorted planBefore (talkPlans plan)).
Proof.
  intros H. apply buildTimelinePlan_Returns in H. destruct H as (st & Hrun & ->).
  apply segmentsLoop_Returns in Hrun.
  destruct Hrun as (newPl & newTp & Hpl & Hall & Htp & Hspan & Hnn).
  simpl in *. subst newPl newTp. repeat split; auto; apply Hnn; assumption.
Qed.

(** C2. In the end-to-end scenario (one idle clip of 1.0 s, one speech-loop
    clip of 0.4 s, transition clips of 0.2 s; segments idle 0-2.0, talk
    2.0+1.0, idle 3.0+1.0) the scheduler returns, for any fuel of at least
    three iterations per segment, the eight placements idle@0, idle@1.0,
    idleToSpeech@2.0, speechLoop@2.2, @2.6, @3.0, speechToIdle@3.4,
    idle@3.6, the single talk plan (2.2, 3.4, 2.0, 1.0) and total duration
    4.6. *)
Theorem scenario_plan :
  exists plan,
    (forall extra, buildTimelinePlan (3 + extra) scenarioSegments scenarioClips = Returns plan) /\
    plan_equiv plan scenarioPlan.
Proof.
  eexists. split.
  - intros extra. apply (buildTimelinePlan_fuel 3); [lia|]. vm_compute. reflexivity.
  - unfold plan_equiv, scenarioPlan. simpl. split; [|split].
    + repeat (constructor; [split; [reflexivity | vm_compute; reflexivity]|]). constructor.
    + constructor; [|constructor]. repeat split; vm_compute; reflexivity.
    + vm_compute. reflexivity.
Qed.

(** The coverage loop in exact arithmetic.  Wherever it runs for a segment
    whose pool is non-empty and holds only clips of positive duration, it
    finishes, and the clips it placed are whole pool clips laid end to end
    from the cursor; their durations sum to at least the segment's duration
    minus 0.01, and the sum exceeds the segment's duration by less than the
    duration of the last clip placed.  [Timeline64Facts] has the loop with
    the additions rounded. *)
Theorem coverSegment_coverage (library : ClipLibrary) (segment : AudioSegment)
    (st : SchedState) :
  pool library (coverType segment) <> [] ->
  (forall clip, In clip (pool library (coverType segment)) -> 0 < clip_duration clip) ->
  exists fuel st' placed,
    (forall fuel', (fuel <= fuel')%nat ->
       coverSegment library fuel' segment st = Returns (tt, st')) /\
    Forall (fun clip => In clip (pool library (coverType segment))) placed /\
    st_placements st' = st_placements st ++ layOut (st_videoCursor st) placed /\
    st_videoCursor st' == st_videoCursor st + sumDurations placed /\
    seg_duration segment - 1e-2 <= sumDurations placed /\
    (forall front lastClip, placed = front ++ [lastClip] ->
       sumDurations placed - seg_duration segment < clip_duration lastClip).
Proof.
  intros Hne Hpos.
  destruct (min_duration _ Hpos) as (m & Hm & Hmin).
  destruct (archimedes (seg_duration segment - 0 - 1e-2) m Hm) as (fuel & Hfuel).
  destruct (coverLoop_total library m segment Hm Hne Hmin fuel 0 st Hfuel) as (st' & Hrun).
  pose proof Hrun as Hspec. apply (coverSegment_Returns library) in Hspec.
  destruct Hspec as (placed & (Hall & Hpl & Hcur & _) & Hlow & Hlast).
  exists fuel, st', placed. repeat split; auto.
  - intros fuel' Hle. unfold coverSegment. eapply coverLoop_fuel; eassumption.
  - intros front lastClip Heq. specialize (Hlast _ _ Heq).
    rewrite Heq, sumDurations_app. unfold sumDurations at 2. simpl.
    assert (0 < 1e-2) by reflexivity. lra.
Qed.

(** The video span of a talk plan in exact arithmetic: the coverage loop
    stops as soon as the covered time is within 0.01 s of the segment's
    duration, so the span is at least the audio duration minus 0.01. *)
Theorem talkPlan_span (fuel : nat) (segments : list AudioSegment)
    (clips : list ClipAsset) (plan : TimelinePlan) :
  buildTimelinePlan fuel segments clips = Returns plan ->
  Forall (fun p => audioDuration p - 1e-2 <= videoEnd p - videoStart p) (talkPlans plan).
Proof.
  intros H. apply buildTimelinePlan_traced in H. destruct H as (_ & Hspan & _).
  exact Hspan.
Qed.



End TimelineFacts.

(** * Properties of the audio analysis *)

Module AudioFacts.
Import Audio.

(** ** Arrays seen from their end *)


Lemma last_error_of_None {A} (l : list A) : last_error_of l = None -> l = [].
Proof. destruct l; [reflexivity|discriminate]. Qed.

Lemma last_cons {A} (l : list A) : forall a d, last (a :: l) d = last l a.
Proof.
  induction l as [|b l IH]; intros a d; [reflexivity|].
  change (last (a :: b :: l) d) with (last (b :: l) d). rewrite !IH. reflexivity.
Qed.

Lemma last_error_of_Some {A} (l : list A) (x : A) :
  last_error_of l = Some x -> l = removelast l ++ [x].
Proof.
  destruct l as [|a l]; [discriminate|]. simpl last_error_of. intros H. injection H as <-.
  rewrite <- (last_cons l a a). apply app_removelast_last. discriminate.
Qed.

Lemma snoc_cases {A} (l : list A) : l = [] \/ exists front x, l = front ++ [x].
Proof.
  destruct l as [|a l]; [left; reflexivity|right].
  destruct (exists_last (l := a :: l)) as (front & x & Heq); [discriminate|].
  exists front, x. exact Heq.
Qed.

Lemma adjacent_snoc {A} (R : A -> A -> Prop) (l : list A) (p x : A) :
  adjacent R (l ++ [p; x]) <-> adjacent R (l ++ [p]) /\ R p x.
Proof.
  induction l as [|a l IH]; simpl.
  - tauto.
  - destruct l as [|b l]; simpl in *; tauto.
Qed.

Lemma adjacent_snoc1 {A} (R : A -> A -> Prop) (l : list A) (x : A) :
  adjacent R (l ++ [x]) -> adjacent R l.
Proof.
  destruct (snoc_cases l) as [->|(front & p & ->)]; [simpl; trivial|].
  rewrite <- app_assoc. simpl. rewrite adjacent_snoc. tauto.
Qed.

(** Replacing the last element by one that its predecessor cannot tell
    apart keeps the list adjacent. *)
Lemma adjacent_replace_last {A} (R : A -> A -> Prop) (l : list A) (p p' : A) :
  (forall a, R a p -> R a p') ->
  adjacent R (l ++ [p]) -> adjacent R (l ++ [p']).
Proof.
  intros Hsame. destruct (snoc_cases l) as [->|(front & a & ->)]; [simpl; trivial|].
  rewrite <- !app_assoc. simpl. rewrite !adjacent_snoc. intros [H1 H2]. auto.
Qed.

(** ** Merging adjacent talk segments *)

Section Merge.

Variable gapTolerance : Q.

Lemma mergeable_extended a prev duration :
  mergeable gapTolerance a
    (mkSegment (seg_id prev) (seg_kind prev) (seg_start prev) duration)
  = mergeable gapTolerance a prev.
Proof. reflexivity. Qed.

Lemma mergeStep_unmergeable merged segment :
  adjacent (unmergeable gapTolerance) merged ->
  adjacent (unmergeable gapTolerance) (mergeStep gapTolerance merged segment).
Proof.
  intros Hadj. unfold mergeStep.
  destruct (last_error_of merged) as [prev|] eqn:Hlast.
  - apply last_error_of_Some in Hlast.
    destruct (mergeable gapTolerance prev segment) eqn:Hm.
    + rewrite Hlast in Hadj. revert Hadj. apply adjacent_replace_last.
      intros a Ha. unfold unmergeable in *. rewrite mergeable_extended. exact Ha.
    + rewrite Hlast at 1. rewrite <- app_assoc. simpl. rewrite adjacent_snoc.
      split; [rewrite <- Hlast; exact Hadj | exact Hm].
  - apply last_error_of_None in Hlast. subst merged. simpl. auto.
Qed.

Lemma merge_fold_unmergeable segments : forall merged,
  adjacent (unmergeable gapTolerance) merged ->
  adjacent (unmergeable gapTolerance) (fold_left (mergeStep gapTolerance) segments merged).
Proof.
  induction segments as [|s rest IH]; intros merged Hadj; simpl; [exact Hadj|].
  apply IH, mergeStep_unmergeable, Hadj.
Qed.

Lemma merge_fold_fixed segments : forall merged,
  adjacent (unmergeable gapTolerance) (merged ++ segments) ->
  fold_left (mergeStep gapTolerance) segments merged = merged ++ segments.
Proof.
  induction segments as [|s rest IH]; intros merged Hadj; simpl.
  - rewrite app_nil_r. reflexivity.
  - assert (Hstep : mergeStep gapTolerance merged s = merged ++ [s]).
    { unfold mergeStep. destruct (last_error_of merged) as [prev|] eqn:Hlast; [|reflexivity].
      apply last_error_of_Some in Hlast.
      assert (Hun : unmergeable gapTolerance prev s).
      { rewrite Hlast, <- app_assoc in Hadj. simpl in Hadj.
        change (prev :: s :: rest) with ([prev; s] ++ rest) in Hadj.
        rewrite app_assoc in Hadj.
        assert (Hadj' : adjacent (unmergeable gapTolerance) (removelast merged ++ [prev; s])).
        { clear - Hadj. induction rest as [|r rest IH] using rev_ind; [rewrite app_nil_r in Hadj; exact Hadj|].
          apply IH. rewrite app_assoc in Hadj. apply adjacent_snoc1 in Hadj. exact Hadj. }
        apply adjacent_snoc in Hadj'. apply Hadj'. }
      unfold unmergeable in Hun. rewrite Hun. reflexivity. }
    rewrite Hstep.
    replace (merged ++ s :: rest) with ((merged ++ [s]) ++ rest) in *
      by (rewrite <- app_assoc; reflexivity).
    apply IH. exact Hadj.
Qed.

End Merge.

(** C9. Merging the adjacent talk segments of an already merged list changes
    nothing: for every segment list and every gap tolerance, in particular
    the default 0.05 s, the second pass returns its input. *)
Theorem merge_idempotent (segments : list AudioSegment) (gapTolerance : Q) :
  mergeAdjacentTalkSegments (mergeAdjacentTalkSegments segments gapTolerance) gapTolerance
  = mergeAdjacentTalkSegments segments gapTolerance.
Proof.
  unfold mergeAdjacentTalkSegments at 1.
  apply (merge_fold_fixed gapTolerance _ []). simpl.
  apply merge_fold_unmergeable. simpl. trivial.
Qed.

(** ** The scan *)

Lemma Qle_bool_false (x y : Q) : Qle_bool x y = false <-> y < x.
Proof.
  rewrite <- not_true_iff_false, Qle_bool_iff. split.
  - apply Qnot_le_lt.
  - apply Qlt_not_le.
Qed.







Lemma inject_nat_nonneg (n : nat) : 0 <= inject_Z (Z.of_nat n).
Proof. change 0 with (inject_Z 0). rewrite <- Zle_Qle. lia. Qed.

Section ScanFacts.

Variables (duration windowDuration talkThreshold silenceThreshold g : Q).

Hypothesis window_long : 0.04 < windowDuration.
Hypothesis duration_nonneg : 0 <= duration.
Hypothesis g_nonneg : 0 <= g.
Hypothesis g_small : g <= 0.05.
Hypothesis short_gaps : forall k : nat,
  inject_Z (Z.of_nat k) * windowDuration <= 0.05 ->
  inject_Z (Z.of_nat k) * windowDuration <= g.

Let Inv := scanInv g duration windowDuration.

Lemma flushSegment_discard st endTime :
  endTime - currentStart st <= 0.05 ->
  flushSegment st endTime =
  mkScan (sc_segments st) (currentKind st) endTime (silenceBlocks st).
Proof.
  intros Hle. unfold flushSegment, MIN_SEGMENT_DURATION_SEC.
  apply Qle_bool_iff in Hle. rewrite Hle. reflexivity.
Qed.

Lemma flushSegment_push st endTime :
  0.05 < endTime - currentStart st ->
  flushSegment st endTime =
  mkScan (sc_segments st ++
            [mkSegment (segmentIdOf (currentKind st) (length (sc_segments st)))
                       (currentKind st) (currentStart st) (endTime - currentStart st)])
         (currentKind st) endTime (silenceBlocks st).
Proof.
  intros Hlt. unfold flushSegment, MIN_SEGMENT_DURATION_SEC.
  apply Qle_bool_false in Hlt. rewrite Hlt. reflexivity.
Qed.









(** *** The merge pass on a raw list *)






End ScanFacts.


(** *** Renumbering keeps kinds and times *)





(** ** The windower's sizes *)

Section WindowerFacts.

Variable b : AudioBuffer.
Hypothesis rate_pos : 0 < sampleRate b.

Lemma blockSize_pos : (1 <= blockSize b)%Z.
Proof. unfold blockSize. lia. Qed.





Lemma blockCount_bounds :
  (Z.of_nat (buf_length b) <= blockCount b * blockSize b
   < Z.of_nat (buf_length b) + blockSize b)%Z.
Proof.
  pose proof blockSize_pos as Hpos. unfold blockCount.
  set (n := Z.of_nat (buf_length b)). set (B := blockSize b) in *.
  assert (HB : 0 < inject_Z B).
  { change 0 with (inject_Z 0). rewrite <- Zlt_Qlt. lia. }
  assert (Hq : inject_Z n == inject_Z n / inject_Z B * inject_Z B) by (field; lra).
  pose proof (Qle_ceiling (inject_Z n / inject_Z B)) as Hup.
  pose proof (Qceiling_lt (inject_Z n / inject_Z B)) as Hlow.
  set (c := Qceiling (inject_Z n / inject_Z B)) in *.
  unfold Z.sub in Hlow. rewrite inject_Z_plus in Hlow. change (inject_Z (- (1))) with (-1) in Hlow.
  split.
  - rewrite Zle_Qle, inject_Z_mult. nra.
  - rewrite Zlt_Qlt, inject_Z_mult, inject_Z_plus. nra.
Qed.


Lemma computeRms_length Math_sqrt :
  length (computeRms Math_sqrt b) = Z.to_nat (blockCount b).
Proof. unfold computeRms. rewrite length_map, length_seq. reflexivity. Qed.

End WindowerFacts.

(** ** Order and overlap from contiguity *)








(** C8, as the code has it.  For every positive sample rate the window size
    in samples is [max(1, floor(sampleRate * 0.08))] (the floor, not the
    nearest integer), the window count is the ceiling of
    [totalSamples / windowSamples], one loudness value is computed per
    window, and the window duration is [windowSamples / sampleRate]. *)
Theorem windower_sizes (Math_sqrt : Q -> Q) (audioBuffer : AudioBuffer) :
  0 < sampleRate audioBuffer ->
  (1 <= blockSize audioBuffer)%Z /\
  (1 <= sampleRate audioBuffer * 0.08 ->
     inject_Z (blockSize audioBuffer) <= sampleRate audioBuffer * 0.08 /\
     sampleRate audioBuffer * 0.08 < inject_Z (blockSize audioBuffer) + 1) /\
  (sampleRate audioBuffer * 0.08 < 1 -> blockSize audioBuffer = 1%Z) /\
  (Z.of_nat (buf_length audioBuffer) <= blockCount audioBuffer * blockSize audioBuffer
   < Z.of_nat (buf_length audioBuffer) + blockSize audioBuffer)%Z /\
  length (res_rmsValues (analyzeAudio Math_sqrt audioBuffer))
    = Z.to_nat (blockCount audioBuffer) /\
  res_windowDuration (analyzeAudio Math_sqrt audioBuffer) * sampleRate audioBuffer
    == inject_Z (blockSize audioBuffer).
Proof.
  intros Hrate. split; [apply blockSize_pos|]. split; [|split; [|split; [|split]]].
  - intros Hone. unfold blockSize, WINDOW_SIZE_SEC.
    assert (Hfloor : (1 <= Qfloor (sampleRate audioBuffer * 0.08))%Z).
    { rewrite <- (Qfloor_Z 1). apply Qfloor_resp_le. exact Hone. }
    rewrite Z.max_r by exact Hfloor. split; [apply Qfloor_le|].
    pose proof (Qlt_floor (sampleRate audioBuffer * 0.08)) as H.
    rewrite inject_Z_plus in H. exact H.
  - intros Hsmall. unfold blockSize, WINDOW_SIZE_SEC.
    assert (Hfloor : (Qfloor (sampleRate audioBuffer * 0.08) < 1)%Z).
    { rewrite Zlt_Qlt. eapply Qle_lt_trans; [apply Qfloor_le|exact Hsmall]. }
    lia.
  - apply blockCount_bounds.
  - apply computeRms_length.
  - simpl. unfold windowDuration. field. lra.
Qed.

Lemma windower_sizes_witness :
  (1 <= blockSize oddRateBuffer)%Z /\
  (1 <= sampleRate oddRateBuffer * 0.08 ->
     inject_Z (blockSize oddRateBuffer) <= sampleRate oddRateBuffer * 0.08 /\
     sampleRate oddRateBuffer * 0.08 < inject_Z (blockSize oddRateBuffer) + 1) /\
  (sampleRate oddRateBuffer * 0.08 < 1 -> blockSize oddRateBuffer = 1%Z) /\
  (Z.of_nat (buf_length oddRateBuffer) <= blockCount oddRateBuffer * blockSize oddRateBuffer
   < Z.of_nat (buf_length oddRateBuffer) + blockSize oddRateBuffer)%Z /\
  length (res_rmsValues (analyzeAudio sqrtOfSquare oddRateBuffer))
    = Z.to_nat (blockCount oddRateBuffer) /\
  res_windowDuration (analyzeAudio sqrtOfSquare oddRateBuffer) * sampleRate oddRateBuffer
    == inject_Z (blockSize oddRateBuffer).
Proof.
  apply (windower_sizes sqrtOfSquare oddRateBuffer). reflexivity.
Defined.

(** C8 as stated fails: at 8010 Hz, [sampleRate * 0.08 = 640.8]; the code
    takes 640 samples per window, the rounded value is 641. *)
Lemma windower_sizes_counterexample :
  blockSize oddRateBuffer = 640%Z /\
  roundedBlockSize oddRateBuffer = 641%Z /\
  blockSize oddRateBuffer <> roundedBlockSize oddRateBuffer.
Proof.
  split; [reflexivity|]. split; [reflexivity|]. vm_compute. discriminate.
Qed.

End AudioFacts.

(** * Properties of the PCM encoder *)

Module WavFacts.
Import Audio Wav.

Lemma getUint8_setByte_same view : forall offset value,
  (offset < length view)%nat -> getUint8 (setByte view offset value) offset = value.
Proof.
  unfold getUint8. induction view as [|b view IH]; intros offset value Hlt.
  - simpl in Hlt. lia.
  - destruct offset as [|offset]; simpl; [reflexivity|]. apply IH. simpl in Hlt. lia.
Qed.

Lemma getUint8_setByte_other view : forall offset offset' value,
  offset <> offset' -> getUint8 (setByte view offset' value) offset = getUint8 view offset.
Proof.
  unfold getUint8. induction view as [|b view IH]; intros offset offset' value Hne.
  - destruct offset'; reflexivity.
  - destruct offset as [|offset], offset' as [|offset']; simpl; try reflexivity.
    + congruence.
    + apply IH. congruence.
Qed.

Lemma length_setByte view : forall offset value,
  length (setByte view offset value) = length view.
Proof.
  induction view as [|b view IH]; intros [|offset] value; simpl; try reflexivity.
  rewrite IH. reflexivity.
Qed.

(** Truncation toward zero stays within integer bounds around zero. *)
Lemma truncate_bounds (x : Q) (lo hi : Z) :
  (lo <= 0 <= hi)%Z -> inject_Z lo <= x -> x <= inject_Z hi ->
  (lo <= truncate x <= hi)%Z.
Proof.
  intros Hzero Hlo Hhi. destruct x as [n d]. unfold truncate, Qle in *. simpl in *.
  rewrite Z.mul_1_r in *.
  pose proof (Z.quot_rem' n (Z.pos d)) as Hqr.
  destruct (Z_le_gt_dec 0 n) as [Hn|Hn].
  - pose proof (Z.rem_bound_pos_pos n (Z.pos d) ltac:(lia) Hn). nia.
  - pose proof (Z.rem_bound_pos_neg n (Z.pos d) ltac:(lia) ltac:(lia)). nia.
Qed.

Lemma clamp_bounds sample : -1 <= clamp sample /\ clamp sample <= 1.
Proof.
  unfold clamp. split.
  - apply Q.le_max_l.
  - apply Q.max_lub; [lra | apply Q.le_min_l].
Qed.

Lemma scaleSample_bounds sample :
  inject_Z (-32768) <= scaleSample sample /\ scaleSample sample <= inject_Z 32767.
Proof.
  unfold scaleSample. destruct (clamp_bounds sample) as [Hlo Hhi].
  change (inject_Z (-32768)) with (-32768). change (inject_Z 32767) with 32767.
  destruct (Qlt_le_dec (clamp sample) 0); split; lra.
Qed.

(** What [setInt16] stores reads back as the truncated number, as long as it
    fits 16 bits. *)
Lemma getInt16_setInt16 view offset value :
  (offset + 1 < length view)%nat ->
  (-32768 <= truncate value <= 32767)%Z ->
  getInt16 (setInt16 view offset value) offset = truncate value.
Proof.
  intros Hlen Hfit. unfold getInt16, getUint16, setInt16, setUint16, toUint.
  set (t := truncate value) in *.
  change (2 ^ 16)%Z with 65536%Z.
  set (u := (t mod 65536)%Z).
  rewrite getUint8_setByte_other by lia.
  rewrite getUint8_setByte_same by lia.
  rewrite getUint8_setByte_same by (rewrite length_setByte; lia).
  assert (Hu : (0 <= u < 65536)%Z) by (apply Z.mod_pos_bound; lia).
  assert (Hsplit : (u mod 256 + 256 * (u / 256) = u)%Z).
  { rewrite Z.add_comm. symmetry. apply Z.div_mod. lia. }
  rewrite Hsplit.
  destruct (Z_le_gt_dec 0 t) as [Hpos|Hneg].
  - assert (Heq : u = t) by (apply Z.mod_small; lia).
    rewrite Heq. destruct (32768 <=? t)%Z eqn:Hcmp; [apply Z.leb_le in Hcmp; lia|reflexivity].
  - assert (Heq : u = (t + 65536)%Z).
    { unfold u. rewrite <- (Z.mod_small (t + 65536) 65536) by lia.
      rewrite <- (Z_mod_plus_full t 1 65536). reflexivity. }
    rewrite Heq. destruct (32768 <=? t + 65536)%Z eqn:Hcmp; [lia|].
    apply Z.leb_gt in Hcmp. lia.
Qed.

(** C5, as the code has it.  The reference buffer (one channel, 8000 Hz,
    samples 0.0, 1.0, -1.0, 0.5) is encoded in 52 bytes with ChunkSize 44,
    NumChannels 1, SampleRate 8000, ByteRate 16000, BlockAlign 2,
    BitsPerSample 16 and Subchunk2Size 8, followed by the little-endian
    16-bit samples 0, 32767, -32768 and 16383: 0.5 * 32767 = 16383.5 is
    truncated by [setInt16].  In general a sample is clamped to [-1, 1],
    multiplied by 32768 when negative and by 32767 otherwise, and the bytes
    stored read back as that product truncated toward zero. *)
Theorem wav_reference_encoding :
  (let wav := audioBufferToWav referenceBuffer in
   length wav = 52%nat /\
   getUint32 wav 4 = 44%Z /\
   getUint16 wav 22 = 1%Z /\
   getUint32 wav 24 = 8000%Z /\
   getUint32 wav 28 = 16000%Z /\
   getUint16 wav 32 = 2%Z /\
   getUint16 wav 34 = 16%Z /\
   getUint32 wav 40 = 8%Z /\
   map (getInt16 wav) [44; 46; 48; 50]%nat = [0; 32767; -32768; 16383]%Z) /\
  (forall sample,
     -1 <= clamp sample /\ clamp sample <= 1 /\
     (clamp sample < 0 -> scaleSample sample == clamp sample * 32768) /\
     (0 <= clamp sample -> scaleSample sample == clamp sample * 32767) /\
     forall view offset,
       (offset + 1 < length view)%nat ->
       getInt16 (setInt16 view offset (scaleSample sample)) offset
       = truncate (scaleSample sample)).
Proof.
  split.
  - vm_compute. repeat split; reflexivity.
  - intros sample. destruct (clamp_bounds sample) as [Hlo Hhi].
    split; [exact Hlo|]. split; [exact Hhi|]. split; [|split].
    + intros Hneg. unfold scaleSample. destruct (Qlt_le_dec (clamp sample) 0); [reflexivity|lra].
    + intros Hpos. unfold scaleSample. destruct (Qlt_le_dec (clamp sample) 0); [lra|reflexivity].
    + intros view offset Hlen. apply getInt16_setInt16; [exact Hlen|].
      destruct (scaleSample_bounds sample) as [Hmin Hmax].
      apply truncate_bounds; [lia|exact Hmin|exact Hmax].
Qed.

(** C5 as stated fails at the last sample: the code stores 16383 for 0.5,
    not 16384. *)
Lemma wav_reference_counterexample :
  getInt16 (audioBufferToWav referenceBuffer) 50 = 16383%Z /\
  getInt16 (audioBufferToWav referenceBuffer) 50 <> 16384%Z.
Proof.
  split; [vm_compute; reflexivity|]. vm_compute. discriminate.
Qed.

End WavFacts.

(** * Properties of the realigner *)

Module RealignFacts.
Import Timeline TimelineFacts Audio Realign.

Lemma Qfloor_greatest (z : Z) (x : Q) : inject_Z z <= x -> (z <= Qfloor x)%Z.
Proof.
  intros Hle. rewrite <- (Qfloor_Z z). apply Qfloor_resp_le. exact Hle.
Qed.

Lemma Qfloor_add_le (x y : Q) : (Qfloor x + Qfloor y <= Qfloor (x + y))%Z.
Proof.
  apply Qfloor_greatest. rewrite inject_Z_plus.
  pose proof (Qfloor_le x). pose proof (Qfloor_le y). lra.
Qed.

Lemma Qfloor_add_ceiling (x y : Q) : (Qfloor (x + y) <= Qfloor x + Qceiling y)%Z.
Proof.
  assert (Hlt : (Qfloor (x + y) < Qfloor x + Qceiling y + 1)%Z); [|lia].
  rewrite Zlt_Qlt. rewrite !inject_Z_plus. change (inject_Z 1) with 1.
  pose proof (Qfloor_le (x + y)). pose proof (Qlt_floor x) as Hx.
  rewrite inject_Z_plus in Hx. change (inject_Z 1) with 1 in Hx.
  pose proof (Qle_ceiling y). lra.
Qed.

Lemma planCopy_Some audioBuffer totalSamples plan c :
  planCopy audioBuffer totalSamples plan = Some c ->
  targetStart c = Qfloor (videoStart plan * sampleRate audioBuffer) /\
  (0 < copyLength c <= Qfloor (audioDuration plan * sampleRate audioBuffer))%Z /\
  (targetStart c + copyLength c <= totalSamples)%Z.
Proof.
  unfold planCopy.
  remember (Qfloor (audioStart plan * sampleRate audioBuffer)) as source.
  remember (Qfloor (audioDuration plan * sampleRate audioBuffer)) as samples.
  remember (Qfloor (videoStart plan * sampleRate audioBuffer)) as target.
  cbv zeta.
  destruct ((totalSamples - target <=? 0)%Z || (samples <=? 0)%Z); [discriminate|].
  destruct (Z.min (Z.min samples (totalSamples - target))
                  (Z.of_nat (buf_length audioBuffer) - source) <=? 0)%Z eqn:Hlen;
    [discriminate|].
  intros H. injection H as <-. cbn [targetStart copyLength]. apply Z.leb_gt in Hlen.
  split; [reflexivity|]. lia.
Qed.

Lemma StronglySorted_pair {A} (R : A -> A -> Prop) before p mid q after :
  StronglySorted R (before ++ p :: mid ++ q :: after) -> R p q.
Proof.
  induction before as [|a before IH]; simpl; intros Hsorted.
  - inversion Hsorted as [|? ? _ Hall]; subst.
    rewrite Forall_forall in Hall. apply Hall. apply in_or_app. right. left. reflexivity.
  - inversion Hsorted; subst. apply IH. assumption.
Qed.

Lemma groupClips_nonneg clips :
  (forall clip, In clip clips -> 0 <= clip_duration clip) ->
  nonnegLibrary (groupClips clips).
Proof.
  intros Hnn type clip Hin. apply In_pool_groupClips in Hin. apply Hnn, Hin.
Qed.

(** In general the range of an earlier talk plan runs past the start of a
    later one by no more than the samples of 0.01 s. *)
Lemma realign_overrun (fuel : nat) (segments : list AudioSegment) (clips : list ClipAsset)
    (plan : TimelinePlan) (audioBuffer : AudioBuffer)
    (before mid after : list TalkPlan) (p q : TalkPlan) (cp cq : Copy) (slack : Q) :
  buildTimelinePlan fuel segments clips = Returns plan ->
  (forall clip, In clip clips -> 0 <= clip_duration clip) ->
  0 < sampleRate audioBuffer ->
  talkPlans plan = before ++ p :: mid ++ q :: after ->
  planCopy audioBuffer (totalSamplesOf audioBuffer (totalDuration plan)) p = Some cp ->
  planCopy audioBuffer (totalSamplesOf audioBuffer (totalDuration plan)) q = Some cq ->
  audioDuration p <= videoEnd p - videoStart p + slack ->
  (targetStart cp + copyLength cp
     <= targetStart cq + Qceiling (slack * sampleRate audioBuffer))%Z.
Proof.
  intros Hplan Hnn Hrate Hpair Hcp Hcq Hcovers.
  apply buildTimelinePlan_traced in Hplan. destruct Hplan as (_ & _ & Hsorted).
  destruct (Hsorted (groupClips_nonneg _ Hnn)) as (_ & Hsorted').
  rewrite Hpair in Hsorted'. apply StronglySorted_pair in Hsorted'.
  unfold planBefore in Hsorted'.
  apply planCopy_Some in Hcp. destruct Hcp as (Htp & Hlp & _).
  apply planCopy_Some in Hcq. destruct Hcq as (Htq & _ & _).
  rewrite Htp, Htq.
  set (r := sampleRate audioBuffer) in *.
  pose proof (Qfloor_add_le (videoStart p * r) (audioDuration p * r)) as Hadd.
  assert (Hmono : (Qfloor (videoStart p * r + audioDuration p * r)
                   <= Qfloor (videoStart q * r + slack * r))%Z).
  { apply Qfloor_resp_le. nra. }
  pose proof (Qfloor_add_ceiling (videoStart q * r) (slack * r)). lia.
Qed.

(** The ranges of two talk plans in exact arithmetic.  In a plan returned
    for clips of non-negative duration, take a talk plan [p] whose video
    span is not shorter than its audio, and any later talk plan [q]: the
    range the realigner writes for [p] ends at or before the start of the
    range it writes for [q]. *)
Theorem realign_ranges (fuel : nat) (segments : list AudioSegment) (clips : list ClipAsset)
    (plan : TimelinePlan) (audioBuffer : AudioBuffer)
    (before mid after : list TalkPlan) (p q : TalkPlan) (cp cq : Copy) :
  buildTimelinePlan fuel segments clips = Returns plan ->
  (forall clip, In clip clips -> 0 <= clip_duration clip) ->
  0 < sampleRate audioBuffer ->
  talkPlans plan = before ++ p :: mid ++ q :: after ->
  planCopy audioBuffer (totalSamplesOf audioBuffer (totalDuration plan)) p = Some cp ->
  planCopy audioBuffer (totalSamplesOf audioBuffer (totalDuration plan)) q = Some cq ->
  audioDuration p <= videoEnd p - videoStart p ->
  (targetStart cp + copyLength cp <= targetStart cq)%Z.
Proof.
  intros Hplan Hnn Hrate Hpair Hcp Hcq Hcovers.
  assert (Hslack : audioDuration p <= videoEnd p - videoStart p + 0) by lra.
  pose proof (realign_overrun fuel segments clips plan audioBuffer before mid after p q
                cp cq 0 Hplan Hnn Hrate Hpair Hcp Hcq Hslack) as H.
  assert (Hzero : Qceiling (0 * sampleRate audioBuffer) = 0%Z).
  { transitivity (Qceiling (inject_Z 0)); [|apply Qceiling_Z].
    apply Qceiling_comp. change (inject_Z 0) with 0. ring. }
  rewrite Hzero in H. lia.
Qed.

End RealignFacts.

(** * Properties of the scheduler on a store *)

Module HeapFacts.
Import Timeline Heap.
Local Open Scope heap_scope.
Local Open Scope nat_scope.

(** ** Rules *)

Lemma hoare_ret {A} (P : Store -> Prop) (a : A) (Q : A -> Store -> Prop) E :
  (forall s, P s -> Q a s) -> hoare P (hret a) Q E.
Proof. intros H st HP. simpl. auto. Qed.

Lemma hoare_throw {A} (P : Store -> Prop) e (Q : A -> Store -> Prop) (E : Store -> Prop) :
  (forall s, P s -> E s) -> hoare P (hthrow e) Q E.
Proof. intros H st HP. simpl. auto. Qed.

Lemma hoare_diverge {A} (P : Store -> Prop) (Q : A -> Store -> Prop) E :
  hoare P hdiverge Q E.
Proof. intros st HP. exact I. Qed.

Lemma hoare_bind {A B} (P : Store -> Prop) (m : HM A) (R : A -> Store -> Prop)
    (k : A -> HM B) (Q : B -> Store -> Prop) E :
  hoare P m R E -> (forall a, hoare (R a) (k a) Q E) -> hoare P (hbind m k) Q E.
Proof.
  intros Hm Hk st HP. unfold hbind. specialize (Hm st HP).
  destruct (m st) as [a st'| |]; auto. apply Hk. exact Hm.
Qed.

Lemma hoare_weaken {A} (P P' : Store -> Prop) (m : HM A) (Q Q' : A -> Store -> Prop)
    (E : Store -> Prop) :
  hoare P' m Q' E -> (forall s, P s -> P' s) -> (forall a s, Q' a s -> Q a s) ->
  hoare P m Q E.
Proof.
  intros H HP HQ st Hst. specialize (H st (HP _ Hst)).
  destruct (m st); auto.
Qed.

Lemma hoare_assume {A} (F : Prop) (P : Store -> Prop) (m : HM A) Q E :
  (F -> hoare P m Q E) -> hoare (fun s => P s /\ F) m Q E.
Proof. intros H st [HP HF]. apply H; assumption. Qed.

(** ** Reading *)

Section Reading.

Variable P : Store -> Prop.
Variable E : Store -> Prop.
Hypothesis P_E : forall s, P s -> E s.

Lemma hoare_load l :
  hoare P (load l) (fun o s => P s /\ cell s l = Some o) E.
Proof.
  intros st HP. unfold load. destruct (cell (h_store st) l) eqn:Hc; simpl; auto.
Qed.

Lemma hoare_loadArray l :
  hoare P (loadArray l) (fun elems s => P s /\ cell s l = Some (OArray elems)) E.
Proof.
  unfold loadArray. eapply hoare_bind; [apply hoare_load|].
  intros o. destruct o; try (apply hoare_throw; intros s [HP _]; auto).
  apply hoare_ret. auto.
Qed.

Lemma hoare_loadClip l : hoare P (loadClip l) (fun _ s => P s) E.
Proof.
  unfold loadClip. eapply hoare_bind; [apply hoare_load|].
  intros o. destruct o; try (apply hoare_throw; intros s [HP _]; auto).
  apply hoare_ret. intros s [HP _]. exact HP.
Qed.

Lemma hoare_loadSegment l : hoare P (loadSegment l) (fun _ s => P s) E.
Proof.
  unfold loadSegment. eapply hoare_bind; [apply hoare_load|].
  intros o. destruct o; try (apply hoare_throw; intros s [HP _]; auto).
  apply hoare_ret. intros s [HP _]. exact HP.
Qed.

Lemma hoare_loadCounters l : hoare P (loadCounters l) (fun _ s => P s) E.
Proof.
  unfold loadCounters. eapply hoare_bind; [apply hoare_load|].
  intros o. destruct o; try (apply hoare_throw; intros s [HP _]; auto).
  apply hoare_ret. intros s [HP _]. exact HP.
Qed.

Lemma hoare_loadPool library type :
  hoare P (loadPool library type)
    (fun pool s => P s /\ exists a b c d,
       cell s library = Some (OLibrary a b c d) /\
       pool = nth (poolIndex type) [a; b; c; d] 0) E.
Proof.
  unfold loadPool. eapply hoare_bind; [apply hoare_load|].
  intros o. destruct o; try (apply hoare_throw; intros s [HP _]; auto).
  apply hoare_ret. intros s [HP Hc]. split; [exact HP|].
  eexists _, _, _, _. split; [exact Hc|]. destruct type; reflexivity.
Qed.

Lemma hoare_elemAt array i :
  hoare P (elemAt array i)
    (fun r s => P s /\ exists elems,
       cell s array = Some (OArray elems) /\ r = nth_error elems i) E.
Proof.
  unfold elemAt. eapply hoare_bind; [apply hoare_loadArray|].
  intros elems. apply hoare_ret. intros s [HP Hc]. split; [exact HP|].
  exists elems. split; [exact Hc|reflexivity].
Qed.

Lemma hoare_getCursor : hoare P getCursor (fun _ s => P s) E.
Proof. intros st HP. exact HP. Qed.

Lemma hoare_setCursor q : hoare P (setCursor q) (fun _ s => P s) E.
Proof. intros st HP. exact HP. Qed.

Lemma hoare_getPrevious : hoare P getPrevious (fun _ s => P s) E.
Proof. intros st HP. exact HP. Qed.

Lemma hoare_setPrevious k : hoare P (setPrevious k) (fun _ s => P s) E.
Proof. intros st HP. exact HP. Qed.

(** ** Writing *)

Lemma hoare_alloc o :
  hoare P (alloc o)
    (fun l s' => exists s, P s /\ l = next s /\ cell s' = update s l o /\ next s' = S l) E.
Proof.
  intros st HP. simpl. exists (h_store st). repeat split; auto.
Qed.

Lemma hoare_assign l o :
  hoare P (assign l o)
    (fun _ s' => exists s, P s /\ cell s' = update s l o /\ next s' = next s) E.
Proof.
  intros st HP. simpl. exists (h_store st). repeat split; auto.
Qed.

Lemma hoare_push array x :
  hoare P (push array x)
    (fun _ s' => exists s elems,
       P s /\ cell s array = Some (OArray elems) /\
       cell s' = update s array (OArray (elems ++ [x])) /\ next s' = next s) E.
Proof.
  unfold push. eapply hoare_bind; [apply hoare_loadArray|].
  intros elems st [HP Hc]. simpl. exists (h_store st), elems. repeat split; auto.
Qed.

End Reading.

(** ** What a write keeps *)

Lemma update_same s l o : update s l o l = Some o.
Proof. unfold update. rewrite Nat.eqb_refl. reflexivity. Qed.

Lemma update_other s l o l' : l' <> l -> update s l o l' = cell s l'.
Proof. unfold update. intros Hne. apply Nat.eqb_neq in Hne. rewrite Hne. reflexivity. Qed.

Section Invariants.

Variable s0 : Store.
Variable clips : loc.

Lemma frame_refl : frame s0 s0.
Proof. split; auto. Qed.

Lemma frame_update s s' l o :
  frame s0 s -> next s0 <= l -> cell s' = update s l o -> next s <= next s' ->
  frame s0 s'.
Proof.
  intros [Hn Hc] Hl Hs' Hnext. split; [lia|].
  intros l' Hl'. rewrite Hs', update_other by lia. apply Hc. exact Hl'.
Qed.

Lemma poolsOk_update_high s s' l o :
  poolsOk s0 clips s -> next s0 + 5 <= l -> cell s' = update s l o ->
  poolsOk s0 clips s'.
Proof.
  intros [Hlib Hpools] Hl Hs'. split.
  - rewrite Hs', update_other by lia. exact Hlib.
  - intros j elems Hj. rewrite Hs', update_other by lia. apply Hpools. exact Hj.
Qed.

Lemma poolsOk_update_pool s s' j elems x :
  poolsOk s0 clips s -> j < 4 -> cell s (next s0 + j) = Some (OArray elems) ->
  In x (arrayAt s0 clips) ->
  cell s' = update s (next s0 + j) (OArray (elems ++ [x])) ->
  poolsOk s0 clips s'.
Proof.
  intros [Hlib Hpools] Hj Hc Hx Hs'. split.
  - rewrite Hs', update_other by lia. exact Hlib.
  - intros j' elems' Hj'. rewrite Hs'.
    destruct (Nat.eq_dec j' j) as [->|Hne].
    + rewrite update_same. intros H. injection H as <-.
      apply incl_app; [eapply Hpools; eassumption|].
      intros y [<-|[]]. exact Hx.
    + rewrite update_other by lia. apply Hpools. exact Hj'.
Qed.

Lemma placementsOk_update s s' l o :
  placementsOk s0 clips s ->
  l <> next s0 + 5 -> (l < next s0 + 8 \/ next s <= l) ->
  cell s' = update s l o -> next s <= next s' ->
  placementsOk s0 clips s'.
Proof.
  intros Hok Hne Hl Hs' Hnext placements. rewrite Hs', update_other by lia.
  intros Hc placement Hin. destruct (Hok placements Hc placement Hin) as (Hrange & Hobj).
  split; [lia|]. rewrite update_other by lia. exact Hobj.
Qed.

Lemma placementsOk_push s s' placements placement clip start :
  placementsOk s0 clips s ->
  cell s (next s0 + 5) = Some (OArray placements) ->
  next s0 + 8 <= placement < next s ->
  cell s placement = Some (OPlacement clip start) ->
  In clip (arrayAt s0 clips) ->
  cell s' = update s (next s0 + 5) (OArray (placements ++ [placement])) ->
  next s' = next s ->
  placementsOk s0 clips s'.
Proof.
  intros Hok Hc Hrange Hobj Hclip Hs' Hnext placements'. rewrite Hs', update_same.
  intros H. injection H as <-. intros pl Hin. rewrite Hnext.
  apply in_app_or in Hin. destruct Hin as [Hin|[<-|[]]].
  - destruct (Hok placements Hc pl Hin) as (Hr & Ho). split; [exact Hr|].
    rewrite update_other by lia. exact Ho.
  - split; [exact Hrange|]. rewrite update_other by lia. eauto.
Qed.

Lemma scheduling_frame s : scheduling s0 clips s -> frame s0 s.
Proof. intros H. apply H. Qed.

Lemma grouping_frame s : grouping s0 clips s -> frame s0 s.
Proof. intros H. apply H. Qed.

(** A new object, or a write to the talk-plans array or the counters. *)
Lemma scheduling_update s s' l o :
  scheduling s0 clips s ->
  (l = next s0 + 6 \/ l = next s0 + 7 \/ next s <= l) ->
  cell s' = update s l o -> next s <= next s' ->
  scheduling s0 clips s'.
Proof.
  intros (Hf & Hn & Hp & Hpl) Hl Hs' Hnext. split; [|split; [|split]].
  - eapply frame_update; try eassumption. lia.
  - lia.
  - eapply poolsOk_update_high; try eassumption. lia.
  - eapply placementsOk_update; try eassumption; lia.
Qed.

Lemma scheduling_push s s' placements placement clip start :
  scheduling s0 clips s ->
  cell s (next s0 + 5) = Some (OArray placements) ->
  next s0 + 8 <= placement < next s ->
  cell s placement = Some (OPlacement clip start) ->
  In clip (arrayAt s0 clips) ->
  cell s' = update s (next s0 + 5) (OArray (placements ++ [placement])) ->
  next s' = next s ->
  scheduling s0 clips s'.
Proof.
  intros (Hf & Hn & Hp & Hpl) Hc Hrange Hobj Hclip Hs' Hnext. split; [|split; [|split]].
  - eapply frame_update; try eassumption; lia.
  - lia.
  - eapply poolsOk_update_high; try eassumption. lia.
  - eapply placementsOk_push; eassumption.
Qed.

End Invariants.

(** ** The closures keep the invariant *)

Section Scheduling.

Variable s0 : Store.
Variable clips : loc.
Hypothesis clips_allocated : clips < next s0.

Let n0 := next s0.
Let env := mkEnv (n0 + 4) (n0 + 5) (n0 + 6) (n0 + 7).

Section PoolReads.

Variable J : Store -> Prop.
Hypothesis J_frame : forall s, J s -> frame s0 s.
Hypothesis J_pools : forall s, J s -> poolsOk s0 clips s.

Lemma loadPool_spec type :
  hoare J (loadPool (n0 + 4) type)
    (fun pool s => J s /\ pool = n0 + poolIndex type) (frame s0).
Proof.
  eapply hoare_weaken; [apply (hoare_loadPool J (frame s0) J_frame)|auto|].
  intros pool s (HJ & a & b & c & d & Hc & Hpool). split; [exact HJ|].
  destruct (J_pools s HJ) as [Hlib _]. fold n0 in Hlib. rewrite Hlib in Hc.
  injection Hc as <- <- <- <-. subst pool. destruct type; simpl; lia.
Qed.

Lemma loadArray_pool j :
  j < 4 ->
  hoare J (loadArray (n0 + j))
    (fun list s => J s /\ incl list (arrayAt s0 clips)) (frame s0).
Proof.
  intros Hj. eapply hoare_weaken; [apply (hoare_loadArray J (frame s0) J_frame)|auto|].
  intros list s (HJ & Hc). split; [exact HJ|].
  destruct (J_pools s HJ) as [_ Hpools]. eapply Hpools; eassumption.
Qed.

End PoolReads.

Let Inv := scheduling s0 clips.

Lemma Inv_frame s : Inv s -> frame s0 s.
Proof. apply scheduling_frame. Qed.

Lemma Inv_pools s : Inv s -> poolsOk s0 clips s.
Proof. intros H. apply H. Qed.

Lemma poolIndex_lt type : poolIndex type < 4.
Proof. destruct type; simpl; lia. Qed.

Lemma nextIndex_keeps type :
  hoare Inv (nextIndex (n0 + 7) type) (fun _ => Inv) (frame s0).
Proof.
  unfold nextIndex.
  eapply hoare_bind; [apply (hoare_loadCounters Inv (frame s0) Inv_frame)|].
  intros c. apply hoare_bind with (R := fun _ => Inv).
  - eapply hoare_weaken; [apply (hoare_assign Inv (frame s0))|auto|].
    intros ? s' (s & HI & Hs' & Hnext).
    eapply scheduling_update; try eassumption; [|lia]. right. left. reflexivity.
  - intros ?. apply hoare_ret. auto.
Qed.

Lemma takeClip_keeps type :
  hoare Inv (takeClip env type) (fun _ => Inv) (frame s0).
Proof.
  unfold takeClip. cbn [env env_library env_placements env_counters].
  eapply hoare_bind; [apply (loadPool_spec Inv Inv_frame Inv_pools)|].
  intros pool. apply hoare_assume. intros ->.
  eapply hoare_bind;
    [apply (loadArray_pool Inv Inv_frame Inv_pools), poolIndex_lt|].
  intros list. apply hoare_assume. intros Hincl.
  destruct (length list =? 0); [apply hoare_throw, Inv_frame|].
  eapply hoare_bind; [apply nextIndex_keeps|]. intros value.
  destruct (nth_error list (value mod length list)) as [clip|] eqn:Hnth;
    [|apply hoare_throw, Inv_frame].
  assert (Hclip : In clip (arrayAt s0 clips)).
  { apply Hincl. eapply nth_error_In. eassumption. }
  eapply hoare_bind; [apply (hoare_getCursor Inv (frame s0))|]. intros cursor.
  eapply hoare_bind; [apply (hoare_alloc Inv (frame s0))|]. intros placement.
  assert (Hafter : forall s', (exists s, Inv s /\ placement = next s /\
                                 cell s' = update s placement (OPlacement clip cursor) /\
                                 next s' = S placement) ->
                   Inv s' /\ n0 + 8 <= placement < next s' /\
                   cell s' placement = Some (OPlacement clip cursor)).
  { intros s' (s & HI & -> & Hs' & Hnext). split; [|split].
    - eapply scheduling_update; try eassumption; [right; right|]; lia.
    - destruct HI as (_ & Hn & _). fold n0 in Hn. lia.
    - rewrite Hs'. apply update_same. }
  apply hoare_bind with (R := fun _ => Inv).
  - eapply hoare_weaken;
      [apply hoare_push
         with (P := fun s' => Inv s' /\ n0 + 8 <= placement < next s' /\
                              cell s' placement = Some (OPlacement clip cursor))
              (E := frame s0)
      |exact Hafter|].
    + intros s' H. apply Inv_frame, H.
    + intros ? s'' (s' & placements & (HI & Hrange & Hobj) & Hc & Hs'' & Hnext).
      eapply scheduling_push; eassumption.
  - intros ?. eapply hoare_bind; [apply (hoare_loadClip Inv (frame s0) Inv_frame)|].
    intros c. apply hoare_bind with (R := fun _ => Inv);
      [apply (hoare_setCursor Inv (frame s0))|].
    intros ?. apply hoare_ret. auto.
Qed.

Lemma maybeTakeClip_keeps type :
  hoare Inv (maybeTakeClip env type) (fun _ => Inv) (frame s0).
Proof.
  unfold maybeTakeClip. cbn [env env_library].
  eapply hoare_bind; [apply (loadPool_spec Inv Inv_frame Inv_pools)|].
  intros pool. apply hoare_assume. intros ->.
  eapply hoare_bind;
    [apply (loadArray_pool Inv Inv_frame Inv_pools), poolIndex_lt|].
  intros list. apply hoare_assume. intros ?.
  destruct (length list =? 0); [apply hoare_ret; auto|].
  eapply hoare_bind; [apply takeClip_keeps|].
  intros clip. apply hoare_ret. auto.
Qed.

Lemma coverLoop_keeps fuel segment : forall covered,
  hoare Inv (coverLoop env fuel segment covered) (fun _ => Inv) (frame s0).
Proof.
  induction fuel as [|fuel IH]; intros covered; simpl;
    (eapply hoare_bind; [apply (hoare_loadSegment Inv (frame s0) Inv_frame)|]);
    intros seg; destruct (Qlt_le_dec (covered + 1e-2) (seg_duration seg));
    try (apply hoare_ret; auto).
  - apply hoare_diverge.
  - eapply hoare_bind; [apply takeClip_keeps|]. intros clip.
    eapply hoare_bind; [apply (hoare_loadClip Inv (frame s0) Inv_frame)|].
    intros c. apply IH.
Qed.

Lemma afterTalk_keeps segments i :
  hoare Inv (afterTalk env segments i) (fun _ => Inv) (frame s0).
Proof.
  unfold afterTalk.
  assert (Htake : hoare Inv (maybeTakeClip env speechToIdle ;;; setPrevious KindIdle)
                    (fun _ => Inv) (frame s0)).
  { eapply hoare_bind; [apply maybeTakeClip_keeps|].
    intros ?. apply (hoare_setPrevious Inv (frame s0)). }
  apply hoare_bind with (R := fun _ => Inv).
  - eapply hoare_weaken; [apply (hoare_elemAt Inv (frame s0) Inv_frame)|auto|].
    intros r s H. apply H.
  - intros [nextSegment|]; [|exact Htake].
    eapply hoare_bind; [apply (hoare_loadSegment Inv (frame s0) Inv_frame)|].
    intros ns. destruct (seg_kind ns); [exact Htake|].
    apply (hoare_setPrevious Inv (frame s0)).
Qed.

Lemma visitSegment_keeps fuel segments i :
  hoare Inv (visitSegment env fuel segments i) (fun _ => Inv) (frame s0).
Proof.
  unfold visitSegment.
  apply hoare_bind with (R := fun _ => Inv).
  { eapply hoare_weaken; [apply (hoare_elemAt Inv (frame s0) Inv_frame)|auto|].
    intros r s H. apply H. }
  intros [segment|]; [|apply hoare_throw, Inv_frame].
  eapply hoare_bind; [apply (hoare_loadSegment Inv (frame s0) Inv_frame)|].
  intros seg. destruct (seg_kind seg).
  - eapply hoare_bind; [apply coverLoop_keeps|].
    intros ?. apply (hoare_setPrevious Inv (frame s0)).
  - eapply hoare_bind; [apply (hoare_getPrevious Inv (frame s0))|]. intros previous.
    apply hoare_bind with (R := fun _ => Inv).
    { destruct previous; [apply maybeTakeClip_keeps | apply hoare_ret; auto]. }
    intros ?. eapply hoare_bind; [apply (hoare_getCursor Inv (frame s0))|].
    intros segmentVideoStart.
    eapply hoare_bind; [apply coverLoop_keeps|]. intros ?.
    eapply hoare_bind; [apply (hoare_getCursor Inv (frame s0))|]. intros cursor.
    eapply hoare_bind; [apply (hoare_loadSegment Inv (frame s0) Inv_frame)|]. intros seg'.
    apply hoare_bind with (R := fun _ => Inv).
    { eapply hoare_weaken; [apply (hoare_alloc Inv (frame s0))|auto|].
      intros l s' (s & HI & -> & Hs' & Hnext).
      eapply scheduling_update; try eassumption; [right; right|]; lia. }
    intros talkPlan. apply hoare_bind with (R := fun _ => Inv).
    { eapply hoare_weaken; [apply (hoare_push Inv (frame s0) Inv_frame)|auto|].
      intros ? s' (s & elems & HI & _ & Hs' & Hnext). cbn [env env_talkPlans] in Hs'.
      eapply scheduling_update; try eassumption; [left; reflexivity|lia]. }
    intros ?. apply afterTalk_keeps.
Qed.

Lemma segmentsLoop_keeps fuel segments count : forall i,
  hoare Inv (segmentsLoop env fuel segments i count) (fun _ => Inv) (frame s0).
Proof.
  induction count as [|count IH]; intros i; simpl.
  - apply hoare_ret. auto.
  - eapply hoare_bind; [apply visitSegment_keeps|]. intros ?. apply IH.
Qed.

(** ** Grouping the clips *)

Let Grp := grouping s0 clips.

Lemma Grp_frame s : Grp s -> frame s0 s.
Proof. apply grouping_frame. Qed.

Lemma Grp_pools s : Grp s -> poolsOk s0 clips s.
Proof. intros H. apply H. Qed.

Lemma emptyPools_frame k s : emptyPools s0 k s -> frame s0 s.
Proof. intros H. apply H. Qed.

Lemma alloc_pool k :
  hoare (emptyPools s0 k) (alloc (OArray []))
    (fun l s => emptyPools s0 (S k) s /\ l = n0 + k) (frame s0).
Proof.
  eapply hoare_weaken; [apply (hoare_alloc (emptyPools s0 k) (frame s0))|auto|].
  intros l s' (s & (Hf & Hn & Hcells) & -> & Hs' & Hnext). fold n0 in Hn, Hcells.
  split; [|exact Hn]. split; [|split].
  - eapply frame_update; try eassumption; fold n0; lia.
  - fold n0. lia.
  - fold n0. intros j Hj. rewrite Hs'. destruct (Nat.eq_dec j k) as [->|Hne].
    + rewrite Hn. apply update_same.
    + rewrite update_other by lia. apply Hcells. lia.
Qed.

Lemma alloc_library :
  hoare (emptyPools s0 4) (alloc (OLibrary (n0 + 0) (n0 + 1) (n0 + 2) (n0 + 3)))
    (fun acc s => Grp s /\ acc = n0 + 4) (frame s0).
Proof.
  eapply hoare_weaken; [apply (hoare_alloc (emptyPools s0 4) (frame s0))|auto|].
  intros l s' (s & (Hf & Hn & Hcells) & -> & Hs' & Hnext). fold n0 in Hn, Hcells.
  split; [|exact Hn]. split; [|split; [|split]].
  - eapply frame_update; try eassumption; fold n0; lia.
  - fold n0. lia.
  - fold n0. rewrite Hs', Hn, update_same, Nat.add_0_r. reflexivity.
  - fold n0. intros j elems Hj. rewrite Hs', update_other by lia.
    rewrite (Hcells j Hj). intros H. injection H as <-. intros x [].
Qed.

Lemma grouping_push s s' j elems x :
  Grp s -> j < 4 -> cell s (n0 + j) = Some (OArray elems) ->
  In x (arrayAt s0 clips) ->
  cell s' = update s (n0 + j) (OArray (elems ++ [x])) -> next s' = next s ->
  Grp s'.
Proof.
  intros (Hf & Hn & Hp) Hj Hc Hx Hs' Hnext. split; [|split].
  - eapply frame_update; try eassumption; fold n0; lia.
  - lia.
  - eapply poolsOk_update_pool; eassumption.
Qed.

Lemma reduceClips_keeps count : forall k,
  hoare Grp (reduceClips clips (n0 + 4) k count) (fun _ => Grp) (frame s0).
Proof.
  induction count as [|count IH]; intros k; simpl; [apply hoare_ret; auto|].
  apply hoare_bind
    with (R := fun elem s => Grp s /\
                 forall clip, elem = Some clip -> In clip (arrayAt s0 clips)).
  { eapply hoare_weaken; [apply (hoare_elemAt Grp (frame s0) Grp_frame)|auto|].
    intros r s (HG & elems & Hc & ->). split; [exact HG|].
    intros clip Hnth. apply nth_error_In in Hnth.
    destruct (Grp_frame s HG) as [_ Hcells].
    unfold arrayAt. rewrite <- (Hcells clips clips_allocated), Hc. exact Hnth. }
  intros elem. apply hoare_assume. intros Helem.
  apply hoare_bind with (R := fun _ => Grp); [|intros ?; apply IH].
  destruct elem as [clip|]; [|apply hoare_ret; auto].
  specialize (Helem clip eq_refl).
  eapply hoare_bind; [apply (hoare_loadClip Grp (frame s0) Grp_frame)|]. intros c.
  eapply hoare_bind; [apply (loadPool_spec Grp Grp_frame Grp_pools)|].
  intros pool. apply hoare_assume. intros ->.
  eapply hoare_weaken; [apply (hoare_push Grp (frame s0) Grp_frame)|auto|].
  intros ? s' (s & elems & HG & Hc & Hs' & Hnext).
  eapply grouping_push; try eassumption. apply poolIndex_lt.
Qed.

Lemma groupClips_spec :
  hoare (eq s0) (groupClips clips) (fun acc s => Grp s /\ acc = n0 + 4) (frame s0).
Proof.
  unfold groupClips.
  apply hoare_bind with (R := fun l s => emptyPools s0 1 s /\ l = n0 + 0).
  { eapply hoare_weaken; [apply (alloc_pool 0)|..|auto].
    intros s <-. split; [apply frame_refl|]. split; [lia|]. intros j Hj. lia. }
  intros a. apply hoare_assume. intros ->.
  eapply hoare_bind; [apply (alloc_pool 1)|]. intros b. apply hoare_assume. intros ->.
  eapply hoare_bind; [apply (alloc_pool 2)|]. intros c. apply hoare_assume. intros ->.
  eapply hoare_bind; [apply (alloc_pool 3)|]. intros d. apply hoare_assume. intros ->.
  eapply hoare_bind; [apply alloc_library|]. intros acc. apply hoare_assume. intros ->.
  apply hoare_bind with (R := fun _ => Grp).
  { eapply hoare_weaken; [apply (hoare_loadArray Grp (frame s0) Grp_frame)|auto|].
    intros elems s H. apply H. }
  intros elems. eapply hoare_bind; [apply reduceClips_keeps|].
  intros ?. apply hoare_ret. auto.
Qed.

(** ** The whole call *)

Lemma prepared_frame k s : prepared s0 clips k s -> frame s0 s.
Proof. intros H. apply H. Qed.

Lemma alloc_array k :
  k < 2 ->
  hoare (prepared s0 clips k) (alloc (OArray []))
    (fun l s => prepared s0 clips (S k) s /\ l = n0 + 5 + k) (frame s0).
Proof.
  intros Hk.
  eapply hoare_weaken; [apply (hoare_alloc (prepared s0 clips k) (frame s0))|auto|].
  intros l s' (s & (Hf & Hn & Hp & Hfirst) & -> & Hs' & Hnext).
  fold n0 in Hn, Hfirst. split; [|exact Hn]. split; [|split; [|split]].
  - eapply frame_update; try eassumption; fold n0; lia.
  - fold n0. lia.
  - eapply poolsOk_update_high; try eassumption. fold n0. lia.
  - fold n0. intros _. rewrite Hs'. destruct (Nat.eq_dec k 0) as [->|Hne].
    + rewrite Hn, Nat.add_0_r. apply update_same.
    + rewrite update_other by lia. apply Hfirst. lia.
Qed.

Lemma alloc_counters o :
  hoare (prepared s0 clips 2) (alloc o)
    (fun l s => Inv s /\ l = n0 + 7) (frame s0).
Proof.
  eapply hoare_weaken; [apply (hoare_alloc (prepared s0 clips 2) (frame s0))|auto|].
  intros l s' (s & (Hf & Hn & Hp & Hfirst) & -> & Hs' & Hnext).
  fold n0 in Hn, Hfirst. split; [|lia]. split; [|split; [|split]].
  - eapply frame_update; try eassumption; fold n0; lia.
  - fold n0. lia.
  - eapply poolsOk_update_high; try eassumption. fold n0. lia.
  - intros placements. fold n0. rewrite Hs', update_other by lia.
    rewrite Hfirst by lia. intros H. injection H as <-. intros placement [].
Qed.

Lemma alloc_plan cursor :
  hoare Inv (alloc (OPlan (n0 + 5) (n0 + 6) cursor)) (planOk s0 clips) (frame s0).
Proof.
  eapply hoare_weaken; [apply (hoare_alloc Inv (frame s0))|auto|].
  intros plan s' (s & (Hf & Hn & Hp & Hpl) & -> & Hs' & Hnext). fold n0 in Hn.
  split.
  - eapply frame_update; try eassumption; fold n0; lia.
  - exists (n0 + 5), (n0 + 6), cursor. split; [rewrite Hs'; apply update_same|].
    unfold arrayAt at 1. rewrite Hs', update_other by lia.
    destruct (cell s (n0 + 5)) as [[| |placements| | | | |]|] eqn:Hc; try (intros ? []).
    intros placement Hin. destruct (Hpl placements Hc placement Hin) as (Hrange & Hobj).
    rewrite update_other by lia. exact Hobj.
Qed.

Lemma buildTimelinePlan_spec fuel segments :
  hoare (eq s0) (Heap.buildTimelinePlan fuel segments clips) (planOk s0 clips) (frame s0).
Proof.
  unfold Heap.buildTimelinePlan.
  eapply hoare_bind; [apply groupClips_spec|].
  intros library. apply hoare_assume. intros ->.
  eapply hoare_bind; [apply (loadPool_spec Grp Grp_frame Grp_pools)|].
  intros idlePool. apply hoare_assume. intros ->.
  apply hoare_bind with (R := fun _ => Grp).
  { eapply hoare_weaken; [apply (hoare_loadArray Grp (frame s0) Grp_frame)|auto|].
    intros elems s H. apply H. }
  intros idleClips. destruct (length idleClips =? 0); [apply hoare_throw, Grp_frame|].
  eapply hoare_bind; [apply (loadPool_spec Grp Grp_frame Grp_pools)|].
  intros speechLoopPool. apply hoare_assume. intros ->.
  apply hoare_bind with (R := fun _ => Grp).
  { eapply hoare_weaken; [apply (hoare_loadArray Grp (frame s0) Grp_frame)|auto|].
    intros elems s H. apply H. }
  intros speechLoopClips.
  destruct (length speechLoopClips =? 0); [apply hoare_throw, Grp_frame|].
  apply hoare_bind with (R := fun l s => prepared s0 clips 1 s /\ l = n0 + 5 + 0).
  { eapply hoare_weaken; [apply (alloc_array 0); lia|..|auto].
    intros s (Hf & Hn & Hp). split; [exact Hf|]. split; [lia|]. split; [exact Hp|]. lia. }
  intros placementsArray. apply hoare_assume. intros ->.
  eapply hoare_bind; [apply (alloc_array 1); lia|].
  intros talkPlansArray. apply hoare_assume. intros ->.
  apply hoare_bind with (R := fun _ => prepared s0 clips 2);
    [apply (hoare_setCursor (prepared s0 clips 2) (frame s0))|].
  intros ?. apply hoare_bind with (R := fun _ => prepared s0 clips 2);
    [apply (hoare_setPrevious (prepared s0 clips 2) (frame s0))|].
  intros ?. eapply hoare_bind; [apply alloc_counters|].
  intros counters. apply hoare_assume. intros ->.
  apply hoare_bind with (R := fun _ => Inv).
  { eapply hoare_weaken; [apply (hoare_loadArray Inv (frame s0) Inv_frame)|auto|].
    intros elems s H. apply H. }
  intros elems.
  replace (n0 + 5 + 0) with (n0 + 5) by lia. replace (n0 + 5 + 1) with (n0 + 6) by lia.
  eapply hoare_bind; [apply segmentsLoop_keeps|].
  intros ?. eapply hoare_bind; [apply (hoare_getCursor Inv (frame s0))|].
  intros cursor. apply alloc_plan.
Qed.

End Scheduling.

(** C10.  Run on a store in which the clips array exists, [buildTimelinePlan]
    leaves every object that was there as it was, whether it returns or
    throws: the input arrays, segments and clips keep their fields, and all
    it writes to are objects it created.  The placements of the plan it
    returns are placement objects whose clip is one of the elements of the
    input clips array, by reference. *)
Theorem buildTimelinePlan_frame (fuel : nat) (s0 : Store) (segments clips : loc)
    (cursor : Q) (previous : SegmentKind) :
  clips < next s0 ->
  match Heap.buildTimelinePlan fuel segments clips (mkHState s0 cursor previous) with
  | HReturns plan st =>
      (forall l, l < next s0 -> cell (h_store st) l = cell s0 l) /\
      exists placementsArray talkPlansArray total,
        cell (h_store st) plan = Some (OPlan placementsArray talkPlansArray total) /\
        forall placement, In placement (arrayAt (h_store st) placementsArray) ->
          exists clip start,
            cell (h_store st) placement = Some (OPlacement clip start) /\
            In clip (arrayAt s0 clips)
  | HThrows _ st => forall l, l < next s0 -> cell (h_store st) l = cell s0 l
  | HOutOfFuel => True
  end.
Proof.
  intros Hclips.
  pose proof (buildTimelinePlan_spec s0 clips Hclips fuel segments
                (mkHState s0 cursor previous) eq_refl) as H.
  destruct (Heap.buildTimelinePlan fuel segments clips (mkHState s0 cursor previous))
    as [plan st|e st|]; [|apply H|exact I].
  destruct H as [[_ Hcells] Hplan]. split; [exact Hcells|exact Hplan].
Qed.

Lemma buildTimelinePlan_frame_witness :
  match Heap.buildTimelinePlan 3 8 7 (mkHState scenarioStore 0 KindIdle) with
  | HReturns plan st =>
      (forall l, l < next scenarioStore -> cell (h_store st) l = cell scenarioStore l) /\
      exists placementsArray talkPlansArray total,
        cell (h_store st) plan = Some (OPlan placementsArray talkPlansArray total) /\
        forall placement, In placement (arrayAt (h_store st) placementsArray) ->
          exists clip start,
            cell (h_store st) placement = Some (OPlacement clip start) /\
            In clip (arrayAt scenarioStore 7)
  | HThrows _ st => forall l, l < next scenarioStore -> cell (h_store st) l = cell scenarioStore l
  | HOutOfFuel => True
  end.
Proof.
  apply (buildTimelinePlan_frame 3 scenarioStore 8 7 0 KindIdle). vm_compute. lia.
Defined.

(** On the scenario the call on the store returns, and its placements hold,
    in order, the clips that the plan of the scheduler on values holds. *)
Lemma scenario_on_store :
  exists plan st,
    Heap.buildTimelinePlan 3 8 7 (mkHState scenarioStore 0 KindIdle) = HReturns plan st /\
    map (clipAt (h_store st)) (placedClips (h_store st) plan)
    = map (fun p => Some (pl_clip p)) (placements scenarioPlan).
Proof.
  eexists _, _. split; [vm_compute; reflexivity|]. vm_compute. reflexivity.
Qed.

End HeapFacts.

(** * The scheduler on a store does what the scheduler on values does *)

Module RefinementFacts.
Import Timeline Heap HeapFacts.
Local Open Scope heap_scope.
Local Open Scope nat_scope.

(** ** Running the store operations *)

Lemma run_bind {A B} (m : HM A) (k : A -> HM B) st a st' :
  m st = HReturns a st' -> hbind m k st = k a st'.
Proof. unfold hbind. intros ->. reflexivity. Qed.

Lemma run_bind_throws {A B} (m : HM A) (k : A -> HM B) st e st' :
  m st = HThrows e st' -> hbind m k st = HThrows e st'.
Proof. unfold hbind. intros ->. reflexivity. Qed.

Lemma run_bind_diverges {A B} (m : HM A) (k : A -> HM B) st :
  m st = HOutOfFuel -> hbind m k st = HOutOfFuel.
Proof. unfold hbind. intros ->. reflexivity. Qed.

Lemma run_loadArray l st elems :
  cell (h_store st) l = Some (OArray elems) -> loadArray l st = HReturns elems st.
Proof. intros H. unfold loadArray, hbind, load. rewrite H. reflexivity. Qed.

Lemma run_loadClip l st clip :
  cell (h_store st) l = Some (OClip clip) -> loadClip l st = HReturns clip st.
Proof. intros H. unfold loadClip, hbind, load. rewrite H. reflexivity. Qed.

Lemma run_loadSegment l st segment :
  cell (h_store st) l = Some (OSegment segment) -> loadSegment l st = HReturns segment st.
Proof. intros H. unfold loadSegment, hbind, load. rewrite H. reflexivity. Qed.

Lemma run_loadCounters l st counter :
  cell (h_store st) l = Some (OCounters counter) -> loadCounters l st = HReturns counter st.
Proof. intros H. unfold loadCounters, hbind, load. rewrite H. reflexivity. Qed.

Lemma run_loadPool library type st a b c d :
  cell (h_store st) library = Some (OLibrary a b c d) ->
  loadPool library type st = HReturns (nth (poolIndex type) [a; b; c; d] 0) st.
Proof.
  intros H. unfold loadPool, hbind, load. rewrite H. destruct type; reflexivity.
Qed.

Lemma run_elemAt array i st elems :
  cell (h_store st) array = Some (OArray elems) ->
  elemAt array i st = HReturns (nth_error elems i) st.
Proof. intros H. unfold elemAt. rewrite (run_bind _ _ _ _ _ (run_loadArray _ _ _ H)). reflexivity. Qed.

Lemma run_push array x st elems :
  cell (h_store st) array = Some (OArray elems) ->
  push array x st =
  HReturns tt (mkHState (mkStore (update (h_store st) array (OArray (elems ++ [x])))
                                 (next (h_store st)))
                        (h_videoCursor st) (h_previousKind st)).
Proof. intros H. unfold push. rewrite (run_bind _ _ _ _ _ (run_loadArray _ _ _ H)). reflexivity. Qed.

Lemma run_nextIndex counter type st c :
  cell (h_store st) counter = Some (OCounters c) ->
  Heap.nextIndex counter type st =
  HReturns (getCounter c type)
    (mkHState (mkStore (update (h_store st) counter
                          (OCounters (setCounter c type (getCounter c type + 1))))
                       (next (h_store st)))
              (h_videoCursor st) (h_previousKind st)).
Proof.
  intros H. unfold Heap.nextIndex.
  rewrite (run_bind _ _ _ _ _ (run_loadCounters _ _ _ H)). reflexivity.
Qed.

Lemma run_alloc o st :
  alloc o st =
  HReturns (next (h_store st))
    (mkHState (mkStore (update (h_store st) (next (h_store st)) o) (S (next (h_store st))))
              (h_videoCursor st) (h_previousKind st)).
Proof. reflexivity. Qed.

Lemma run_setCursor q st :
  setCursor q st = HReturns tt (mkHState (h_store st) q (h_previousKind st)).
Proof. reflexivity. Qed.

Lemma run_setPrevious k st :
  setPrevious k st = HReturns tt (mkHState (h_store st) (h_videoCursor st) k).
Proof. reflexivity. Qed.

Lemma run_getCursor st : getCursor st = HReturns (h_videoCursor st) st.
Proof. reflexivity. Qed.

Lemma hbind_assoc {A B C} (m : HM A) (k : A -> HM B) (k' : B -> HM C) st :
  hbind (hbind m k) k' st = hbind m (fun x => hbind (k x) k') st.
Proof. unfold hbind. destruct (m st); reflexivity. Qed.

Lemma hbind_regroup {A B C D} (m : HM A) (k : A -> HM B) (k' : B -> HM C)
    (k'' : C -> HM D) st :
  hbind (hbind m (fun x => hbind (k x) k')) k'' st
  = hbind (hbind m k) (fun y => hbind (k' y) k'') st.
Proof.
  unfold hbind. destruct (m st) as [a st'| |]; [|reflexivity..].
  destruct (k a st'); reflexivity.
Qed.

Lemma Forall2_nth_error {A B} (R : A -> B -> Prop) l1 l2 i :
  Forall2 R l1 l2 ->
  match nth_error l2 i with
  | Some b => exists a, nth_error l1 i = Some a /\ R a b
  | None => nth_error l1 i = None
  end.
Proof.
  intros H. revert i. induction H as [|a b l1 l2 Hab _ IH]; intros [|i]; simpl; eauto.
  apply IH.
Qed.

Lemma Forall2_length_eq {A B} (R : A -> B -> Prop) l1 l2 :
  Forall2 R l1 l2 -> length l1 = length l2.
Proof. induction 1; simpl; congruence. Qed.

(** Deciding which cell of a written store is read. *)
Ltac store_simpl :=
  cbn [cell next h_store h_videoCursor h_previousKind]; unfold update;
  cbn [cell next];
  repeat match goal with
         | |- context [(?a =? ?b)%nat] =>
             first [ replace (a =? b)%nat with true by (symmetry; apply Nat.eqb_eq; lia)
                   | replace (a =? b)%nat with false by (symmetry; apply Nat.eqb_neq; lia) ]
         end;
  cbv iota.

(** ** What the correspondence survives *)

Section Simulation.

Variable s0 : Store.
Variable library : ClipLibrary.

Local Abbreviation n0 := (next s0).
Local Abbreviation env := (mkEnv (n0 + 4) (n0 + 5) (n0 + 6) (n0 + 7)).

Lemma frame_keep s s' :
  frame s0 s -> (forall l, l < n0 -> cell s' l = cell s l) -> next s <= next s' ->
  frame s0 s'.
Proof.
  intros [Hn Hc] Hsame Hnext. split; [lia|].
  intros l Hl. rewrite Hsame by exact Hl. apply Hc. exact Hl.
Qed.

Lemma poolsAre_keep s s' :
  poolsAre s0 library s -> (forall l, l < n0 + 5 -> cell s' l = cell s l) ->
  poolsAre s0 library s'.
Proof.
  intros [Hlib Hpools] Hsame. split.
  - rewrite Hsame by lia. exact Hlib.
  - intros type. destruct (Hpools type) as (locs & Hc & Hall). exists locs.
    split; [|exact Hall]. rewrite Hsame; [exact Hc|]. destruct type; simpl; lia.
Qed.

Lemma placements_keep s s' locs ps :
  Forall2 (placementIs s0 s) locs ps ->
  (forall l, n0 + 8 <= l < next s -> cell s' l = cell s l) -> next s <= next s' ->
  Forall2 (placementIs s0 s') locs ps.
Proof.
  intros Hall Hsame Hnext. eapply Forall2_impl; [|exact Hall].
  intros l p (Hrange & clip & Hc & Hclip).
  split; [lia|]. exists clip. split; [|exact Hclip].
  rewrite Hsame by lia. exact Hc.
Qed.

Lemma talkPlans_keep s s' locs ps :
  Forall2 (talkPlanIs s0 s) locs ps ->
  (forall l, n0 + 8 <= l < next s -> cell s' l = cell s l) -> next s <= next s' ->
  Forall2 (talkPlanIs s0 s') locs ps.
Proof.
  intros Hall Hsame Hnext. eapply Forall2_impl; [|exact Hall].
  intros l p (Hrange & Hc).
  split; [lia|]. rewrite Hsame by lia. exact Hc.
Qed.

Lemma clipIs_cell s l clip : frame s0 s -> clipIs s0 l clip -> cell s l = Some (OClip clip).
Proof. intros [_ Hc] [Hl Hclip]. rewrite Hc by exact Hl. exact Hclip. Qed.

Lemma segmentIs_cell s l segment :
  frame s0 s -> segmentIs s0 l segment -> cell s l = Some (OSegment segment).
Proof. intros [_ Hc] [Hl Hseg]. rewrite Hc by exact Hl. exact Hseg. Qed.

Lemma run_poolOf type st :
  cell (h_store st) (n0 + 4) = Some (OLibrary n0 (n0 + 1) (n0 + 2) (n0 + 3)) ->
  loadPool (n0 + 4) type st = HReturns (n0 + poolIndex type) st.
Proof.
  intros H. rewrite (run_loadPool _ type _ _ _ _ _ H). f_equal.
  destruct type; simpl; lia.
Qed.

(** ** Clip selection *)

Lemma takeClip_sim type stp sth :
  Sim s0 library stp sth ->
  corresponds s0 library (fun clip l => clipIs s0 l clip)
    (Timeline.takeClip library type stp) (Heap.takeClip env type sth).
Proof.
  intros (Hframe & Hnext & Hpools & (pls & Hpls & Hplacements) & (tps & Htps & HtalkPlans)
          & Hcounters & Hcursor & Hprevious).
 
  pose proof Hpools as [Hlib Hpool].
  destruct (Hpool type) as (locs & Hlocs & Hclips).
  unfold Timeline.takeClip, Heap.takeClip, Timeline.nextIndex.
  cbn [env_library env_placements env_counters].
  rewrite (run_bind _ _ _ _ _ (run_poolOf type _ Hlib)).
  rewrite (run_bind _ _ _ _ _ (run_loadArray _ _ _ Hlocs)).
  rewrite (Forall2_length_eq _ _ _ Hclips).
  destruct (length (pool library type) =? 0) eqn:Hlen.
  { simpl. eexists. reflexivity. }
  rewrite (run_bind _ _ _ _ _ (run_nextIndex _ type _ _ Hcounters)).
  set (value := getCounter (st_counters stp) type).
  pose proof (Forall2_nth_error _ _ _ (value mod length (pool library type)) Hclips) as Hnth.
  destruct (nth_error (pool library type) (value mod length (pool library type)))
    as [clip|] eqn:Hclip.
  2:{ rewrite Hnth. simpl. eexists. reflexivity. }
  destruct Hnth as (l & Hl & Hlclip). rewrite Hl.
  unfold getCursor at 1. unfold hbind at 1. unfold alloc at 1. unfold hbind at 1.
  cbn [h_store h_videoCursor h_previousKind next].
  erewrite run_bind; [|apply run_push with (elems := pls); store_simpl; exact Hpls].
  erewrite run_bind;
    [|apply run_loadClip with (clip := clip); store_simpl;
      destruct Hlclip as [Hlt Hcell]; store_simpl;
      destruct Hframe as [_ Hsame]; rewrite Hsame by exact Hlt; exact Hcell].
  unfold setCursor at 1. unfold hbind at 1. unfold hret.
  cbn [h_store h_videoCursor h_previousKind].
  simpl corresponds. eexists _, _. split; [reflexivity|]. split; [|exact Hlclip].
  assert (Hbelow : forall x, x < n0 + 5 ->
            update
              {| cell := update
                           {| cell := update (h_store sth) (n0 + 7)
                                        (OCounters (setCounter (st_counters stp) type (value + 1)));
                              next := next (h_store sth) |}
                           (next (h_store sth)) (OPlacement l (h_videoCursor sth));
                 next := S (next (h_store sth)) |}
              (n0 + 5) (OArray (pls ++ [next (h_store sth)])) x
            = cell (h_store sth) x).
  { intros x Hx. store_simpl. reflexivity. }
  assert (Hhigh : forall x, n0 + 8 <= x < next (h_store sth) ->
            update
              {| cell := update
                           {| cell := update (h_store sth) (n0 + 7)
                                        (OCounters (setCounter (st_counters stp) type (value + 1)));
                              next := next (h_store sth) |}
                           (next (h_store sth)) (OPlacement l (h_videoCursor sth));
                 next := S (next (h_store sth)) |}
              (n0 + 5) (OArray (pls ++ [next (h_store sth)])) x
            = cell (h_store sth) x).
  { intros x Hx. store_simpl. reflexivity. }
  unfold Sim. cbn [h_store h_videoCursor h_previousKind st_placements st_talkPlans
                   st_videoCursor st_previousKind st_counters cell next].
  split; [|split; [|split; [|split; [|split; [|split; [|split]]]]]].
  - eapply frame_keep; [exact Hframe| |cbn [next]; lia].
    intros x Hx. cbn [cell]. apply Hbelow. lia.
  - lia.
  - eapply poolsAre_keep; [exact Hpools|]. intros x Hx. cbn [cell]. apply Hbelow. exact Hx.
  - exists (pls ++ [next (h_store sth)]). split; [store_simpl; reflexivity|].
    apply Forall2_app.
    + eapply placements_keep; [exact Hplacements| |cbn [next]; lia].
      intros x Hx. cbn [cell]. apply Hhigh. exact Hx.
    + constructor; [|constructor]. split; [cbn [next]; lia|].
      exists l. cbn [pl_start pl_clip cell]. split; [|exact Hlclip].
      store_simpl. rewrite Hcursor. reflexivity.
  - exists tps. split; [store_simpl; exact Htps|].
    eapply talkPlans_keep; [exact HtalkPlans| |cbn [next]; lia].
    intros x Hx. cbn [cell]. apply Hhigh. exact Hx.
  - store_simpl. reflexivity.
  - rewrite Hcursor. reflexivity.
  - exact Hprevious.
Qed.

Lemma corresponds_bind {A B A' B'} (R : A -> A' -> Prop) (R' : B -> B' -> Prop)
    (m : Sched A) (k : A -> Sched B) (hm : HM A') (hk : A' -> HM B') stp sth :
  corresponds s0 library R (m stp) (hm sth) ->
  (forall a b stp' sth', Sim s0 library stp' sth' -> R a b ->
     corresponds s0 library R' (k a stp') (hk b sth')) ->
  corresponds s0 library R' (bind m k stp) (hbind hm hk sth).
Proof.
  unfold bind, hbind, corresponds at 1. destruct (m stp) as [[a stp']|e|].
  - intros (b & sth' & -> & HS & HR) Hk. apply Hk; assumption.
  - intros (sth' & ->) _. simpl. eexists. reflexivity.
  - intros -> _. reflexivity.
Qed.

Lemma corresponds_weaken {A A'} (R R' : A -> A' -> Prop) po ho :
  corresponds s0 library R po ho -> (forall a b, R a b -> R' a b) ->
  corresponds s0 library R' po ho.
Proof.
  unfold corresponds. destruct po as [[a stp]|e|]; auto.
  intros (b & sth & Hrun & HS & HR) Himp. exists b, sth. auto.
Qed.

Lemma maybeTakeClip_sim type stp sth :
  Sim s0 library stp sth ->
  corresponds s0 library (fun _ _ => True)
    (Timeline.maybeTakeClip library type stp) (Heap.maybeTakeClip env type sth).
Proof.
  intros HS. pose proof HS as (_ & _ & [Hlib Hpool] & _).
  destruct (Hpool type) as (locs & Hlocs & Hclips).
  unfold Timeline.maybeTakeClip, Heap.maybeTakeClip. cbn [env_library].
  rewrite (run_bind _ _ _ _ _ (run_poolOf type _ Hlib)).
  rewrite (run_bind _ _ _ _ _ (run_loadArray _ _ _ Hlocs)).
  rewrite (Forall2_length_eq _ _ _ Hclips).
  destruct (length (pool library type) =? 0).
  - simpl. eexists _, _. split; [reflexivity|]. split; [exact HS|exact I].
  - eapply corresponds_bind; [apply takeClip_sim; exact HS|].
    intros clip l stp' sth' HS' _. simpl. eexists _, _.
    split; [reflexivity|]. split; [exact HS'|exact I].
Qed.

(** ** Covering a segment *)

Lemma coverLoop_sim fuel l segment :
  segmentIs s0 l segment ->
  forall covered stp sth,
  Sim s0 library stp sth ->
  corresponds s0 library (fun _ _ => True)
    (Timeline.coverLoop library fuel segment covered stp)
    (Heap.coverLoop env fuel l covered sth).
Proof.
  intros Hseg. induction fuel as [|fuel IH]; intros covered stp sth HS;
    pose proof HS as (Hframe & _);
    cbn [Timeline.coverLoop Heap.coverLoop];
    rewrite (run_bind _ _ _ _ _ (run_loadSegment _ _ _ (segmentIs_cell _ _ _ Hframe Hseg)));
    destruct (Qlt_le_dec (covered + 1e-2) (seg_duration segment)).
  - reflexivity.
  - simpl. eexists _, _. split; [reflexivity|]. split; [exact HS|exact I].
  - eapply corresponds_bind; [apply takeClip_sim; exact HS|].
    intros clip lc stp' sth' HS' Hclip. cbv beta.
    pose proof HS' as (Hframe' & _).
    rewrite (run_bind _ _ _ _ _ (run_loadClip _ _ _ (clipIs_cell _ _ _ Hframe' Hclip))).
    apply IH. exact HS'.
  - simpl. eexists _, _. split; [reflexivity|]. split; [exact HS|exact I].
Qed.

Lemma coverSegment_sim fuel l segment stp sth :
  segmentIs s0 l segment -> Sim s0 library stp sth ->
  corresponds s0 library (fun _ _ => True)
    (Timeline.coverSegment library fuel segment stp) (Heap.coverSegment env fuel l sth).
Proof. intros Hseg HS. apply coverLoop_sim; assumption. Qed.

(** ** The variables and the talk plans *)

Lemma setPrevious_sim k stp sth :
  Sim s0 library stp sth ->
  corresponds s0 library (fun _ _ => True) (setPreviousKind k stp) (setPrevious k sth).
Proof.
  intros (Hframe & Hnext & Hpools & Hpl & Htp & Hcounters & Hcursor & Hprevious).
  simpl. eexists _, _. split; [reflexivity|]. split; [|exact I].
  repeat (split; [assumption|]). reflexivity.
Qed.

Lemma getCursor_sim stp sth :
  Sim s0 library stp sth ->
  corresponds s0 library eq (getVideoCursor stp) (getCursor sth).
Proof.
  intros HS. pose proof HS as (_ & _ & _ & _ & _ & _ & Hcursor & _).
  simpl. eexists _, _. split; [reflexivity|]. split; [exact HS|]. symmetry. exact Hcursor.
Qed.

Lemma getPrevious_sim stp sth :
  Sim s0 library stp sth ->
  corresponds s0 library eq (getPreviousKind stp) (getPrevious sth).
Proof.
  intros HS. pose proof HS as (_ & _ & _ & _ & _ & _ & _ & Hprevious).
  simpl. eexists _, _. split; [reflexivity|]. split; [exact HS|]. symmetry. exact Hprevious.
Qed.

Lemma pushTalkPlan_sim p stp sth :
  Sim s0 library stp sth ->
  corresponds s0 library (fun _ _ => True)
    (pushTalkPlan p stp)
    ((talkPlan <- alloc (OTalkPlan p) ;; push (n0 + 6) talkPlan) sth).
Proof.
  intros (Hframe & Hnext & Hpools & (pls & Hpls & Hplacements) & (tps & Htps & HtalkPlans)
          & Hcounters & Hcursor & Hprevious).
  rewrite (run_bind _ _ _ _ _ (run_alloc _ _)).
  erewrite run_push; [|store_simpl; exact Htps].
  simpl corresponds. eexists _, _. split; [reflexivity|]. split; [|exact I].
  unfold Sim. cbn [h_store h_videoCursor h_previousKind st_placements st_talkPlans
                   st_videoCursor st_previousKind st_counters cell next].
  assert (Hbelow : forall x, x < n0 + 6 ->
            update
              {| cell := update (h_store sth) (next (h_store sth)) (OTalkPlan p);
                 next := S (next (h_store sth)) |}
              (n0 + 6) (OArray (tps ++ [next (h_store sth)])) x
            = cell (h_store sth) x).
  { intros x Hx. store_simpl. reflexivity. }
  assert (Hhigh : forall x, n0 + 7 <= x < next (h_store sth) ->
            update
              {| cell := update (h_store sth) (next (h_store sth)) (OTalkPlan p);
                 next := S (next (h_store sth)) |}
              (n0 + 6) (OArray (tps ++ [next (h_store sth)])) x
            = cell (h_store sth) x).
  { intros x Hx. store_simpl. reflexivity. }
  split; [|split; [|split; [|split; [|split; [|split; [|split]]]]]].
  - eapply frame_keep; [exact Hframe| |cbn [next]; lia].
    intros x Hx. cbn [cell]. apply Hbelow. lia.
  - lia.
  - eapply poolsAre_keep; [exact Hpools|]. intros x Hx. cbn [cell]. apply Hbelow. lia.
  - exists pls. split; [rewrite Hbelow by lia; exact Hpls|].
    eapply placements_keep; [exact Hplacements| |cbn [next]; lia].
    intros x Hx. cbn [cell]. apply Hhigh. lia.
  - exists (tps ++ [next (h_store sth)]). split; [store_simpl; reflexivity|].
    apply Forall2_app.
    + eapply talkPlans_keep; [exact HtalkPlans| |cbn [next]; lia].
      intros x Hx. cbn [cell]. apply Hhigh. lia.
    + constructor; [|constructor]. split; [cbn [next]; lia|].
      cbn [cell]. store_simpl. reflexivity.
  - rewrite Hhigh by lia. exact Hcounters.
  - exact Hcursor.
  - exact Hprevious.
Qed.

(** ** The loop over the segments *)

Section Segments.

Variable segmentsLoc : loc.
Variable locs : list loc.
Hypothesis segments_old : segmentsLoc < n0.
Hypothesis segments_cell : cell s0 segmentsLoc = Some (OArray locs).

Lemma run_segmentAt i sth :
  frame s0 (h_store sth) ->
  elemAt segmentsLoc i sth = HReturns (nth_error locs i) sth.
Proof.
  intros [_ Hsame]. apply run_elemAt. rewrite Hsame by exact segments_old.
  exact segments_cell.
Qed.

Lemma segment_at done segment rest :
  Forall2 (segmentIs s0) locs (done ++ segment :: rest) ->
  exists l, nth_error locs (length done) = Some l /\ segmentIs s0 l segment.
Proof.
  intros Hall. pose proof (Forall2_nth_error _ _ _ (length done) Hall) as H.
  rewrite nth_error_app2, Nat.sub_diag in H by lia. exact H.
Qed.

Lemma afterTalk_sim done segment rest stp sth :
  Forall2 (segmentIs s0) locs (done ++ segment :: rest) ->
  Sim s0 library stp sth ->
  corresponds s0 library (fun _ _ => True)
    (match rest with
     | [] => (Timeline.maybeTakeClip library speechToIdle ;;; setPreviousKind KindIdle)%sched
     | nextSegment :: _ =>
         match seg_kind nextSegment with
         | KindIdle =>
             (Timeline.maybeTakeClip library speechToIdle ;;; setPreviousKind KindIdle)%sched
         | KindTalk => setPreviousKind KindTalk
         end
     end stp)
    (afterTalk env segmentsLoc (length done) sth).
Proof.
  intros Hall HS. pose proof HS as (Hframe & _).
  unfold afterTalk. rewrite (run_bind _ _ _ _ _ (run_segmentAt _ _ Hframe)).
  assert (Htake : corresponds s0 library (fun _ _ => True)
            ((Timeline.maybeTakeClip library speechToIdle ;;; setPreviousKind KindIdle)%sched stp)
            ((Heap.maybeTakeClip env speechToIdle ;;; setPrevious KindIdle) sth)).
  { eapply corresponds_bind; [apply maybeTakeClip_sim; exact HS|].
    intros _ _ stp' sth' HS' _. apply setPrevious_sim. exact HS'. }
  destruct rest as [|nextSegment rest'].
  - pose proof (Forall2_nth_error _ _ _ (length done + 1) Hall) as H.
    rewrite nth_error_app2 in H by lia.
    replace (length done + 1 - length done) with 1 in H by lia. simpl in H.
    rewrite H. exact Htake.
  - replace (done ++ segment :: nextSegment :: rest')
      with ((done ++ [segment]) ++ nextSegment :: rest') in Hall
      by (rewrite <- app_assoc; reflexivity).
    destruct (segment_at _ _ _ Hall) as (l & Hl & Hseg).
    rewrite length_app in Hl. simpl in Hl. rewrite Hl.
    rewrite (run_bind _ _ _ _ _ (run_loadSegment _ _ _ (segmentIs_cell _ _ _ Hframe Hseg))).
    destruct (seg_kind nextSegment).
    + exact Htake.
    + apply setPrevious_sim. exact HS.
Qed.

Lemma segmentsLoop_sim fuel rest :
  forall done stp sth,
  Forall2 (segmentIs s0) locs (done ++ rest) ->
  Sim s0 library stp sth ->
  corresponds s0 library (fun _ _ => True)
    (Timeline.segmentsLoop library fuel rest stp)
    (Heap.segmentsLoop env fuel segmentsLoc (length done) (length rest) sth).
Proof.
  induction rest as [|segment rest IH]; intros done stp sth Hall HS.
  { simpl. eexists _, _. split; [reflexivity|]. split; [exact HS|exact I]. }
  assert (Hloop : forall stp' sth', Sim s0 library stp' sth' ->
            corresponds s0 library (fun _ _ => True)
              (Timeline.segmentsLoop library fuel rest stp')
              (Heap.segmentsLoop env fuel segmentsLoc (S (length done)) (length rest) sth')).
  { intros stp' sth' HS'.
    replace (S (length done)) with (length (done ++ [segment]))
      by (rewrite length_app; simpl; lia).
    apply IH; [|exact HS']. rewrite <- app_assoc. exact Hall. }
  pose proof HS as (Hframe & _).
  destruct (segment_at _ _ _ Hall) as (l & Hl & Hseg).
  cbn [Timeline.segmentsLoop Heap.segmentsLoop length]. unfold visitSegment.
  rewrite hbind_assoc, (run_bind _ _ _ _ _ (run_segmentAt _ _ Hframe)), Hl.
  rewrite hbind_assoc,
    (run_bind _ _ _ _ _ (run_loadSegment _ _ _ (segmentIs_cell _ _ _ Hframe Hseg))).
  destruct (seg_kind segment).
  - rewrite hbind_assoc.
    eapply corresponds_bind; [apply coverSegment_sim; assumption|].
    intros _ _ stp1 sth1 HS1 _.
    eapply corresponds_bind; [apply setPrevious_sim; exact HS1|].
    intros _ _ stp2 sth2 HS2 _. apply Hloop. exact HS2.
  - rewrite hbind_assoc.
    eapply corresponds_bind; [apply getPrevious_sim; exact HS|].
    intros previous ? stp1 sth1 HS1 <-. rewrite hbind_assoc.
    eapply corresponds_bind with (R := fun _ _ => True).
    { destruct previous.
      - apply maybeTakeClip_sim. exact HS1.
      - simpl. eexists _, _. split; [reflexivity|]. split; [exact HS1|exact I]. }
    intros _ _ stp2 sth2 HS2 _. rewrite hbind_assoc.
    eapply corresponds_bind; [apply getCursor_sim; exact HS2|].
    intros segmentVideoStart ? stp3 sth3 HS3 <-. rewrite hbind_assoc.
    eapply corresponds_bind; [apply coverSegment_sim; [exact Hseg|exact HS3]|].
    intros _ _ stp4 sth4 HS4 _. rewrite hbind_assoc.
    eapply corresponds_bind; [apply getCursor_sim; exact HS4|].
    intros cursor ? stp5 sth5 HS5 <-. pose proof HS5 as (Hframe5 & _).
    rewrite hbind_assoc,
      (run_bind _ _ _ _ _ (run_loadSegment _ _ _ (segmentIs_cell _ _ _ Hframe5 Hseg))).
    cbn [env_talkPlans].
    rewrite (hbind_regroup (alloc _) (fun talkPlan => push (n0 + 6) talkPlan)
               (fun _ => afterTalk env segmentsLoc (length done))).
    eapply corresponds_bind; [apply pushTalkPlan_sim; exact HS5|].
    intros _ _ stp6 sth6 HS6 _.
    eapply corresponds_bind; [apply (afterTalk_sim done segment rest); [exact Hall|exact HS6]|].
    intros _ _ stp7 sth7 HS7 _. apply Hloop. exact HS7.
Qed.

End Segments.

End Simulation.

(** ** Grouping the clips *)

Lemma pushClip_pool library clip type :
  pool (pushClip library clip) type
  = if poolIndex type =? poolIndex (clip_type clip) then pool library type ++ [clip]
    else pool library type.
Proof. unfold pushClip. destruct (clip_type clip), type; reflexivity. Qed.

Section Grouping.

Variable s0 : Store.
Variable clipsLoc : loc.
Variable clipLocs : list loc.
Hypothesis clips_old : clipsLoc < next s0.
Hypothesis clips_cell : cell s0 clipsLoc = Some (OArray clipLocs).

Local Abbreviation n0 := (next s0).

Lemma reduceClips_sim rest :
  forall done library st,
  Forall2 (clipIs s0) clipLocs (done ++ rest) ->
  Grouped s0 library (h_store st) ->
  exists st',
    reduceClips clipsLoc (n0 + 4) (length done) (length rest) st = HReturns tt st' /\
    Grouped s0 (fold_left pushClip rest library) (h_store st').
Proof.
  induction rest as [|clip rest IH]; intros done library st Hall HG.
  { exists st. split; [reflexivity|exact HG]. }
  pose proof HG as (Hframe & Hnext & Hlib & Hpool).
  destruct (Hpool (clip_type clip)) as (elems & Helems & Hclips).
  pose proof (Forall2_nth_error _ _ _ (length done) Hall) as Hat.
  rewrite nth_error_app2, Nat.sub_diag in Hat by lia.
  destruct Hat as (l & Hl & Hclip).
  cbn [reduceClips fold_left length].
  rewrite (run_bind _ _ _ _ _ (run_elemAt clipsLoc _ _ clipLocs
             ltac:(destruct Hframe as [_ Hsame]; rewrite Hsame by exact clips_old;
                   exact clips_cell))).
  rewrite Hl, hbind_assoc.
  rewrite (run_bind _ _ _ _ _ (run_loadClip _ _ _ (clipIs_cell _ _ _ _ Hframe Hclip))).
  rewrite hbind_assoc, (run_bind _ _ _ _ _ (run_poolOf _ _ _ Hlib)).
  rewrite (run_bind _ _ _ _ _ (run_push _ _ _ _ Helems)).
  replace (S (length done)) with (length (done ++ [clip]))
    by (rewrite length_app; simpl; lia).
  apply IH; [rewrite <- app_assoc; exact Hall|].
  assert (Hindex : poolIndex (clip_type clip) < 4) by (destruct (clip_type clip); simpl; lia).
  split; [|split].
  - destruct Hframe as [Hle Hsame]. split; [cbn [h_store next]; lia|].
    intros x Hx. store_simpl. apply Hsame. exact Hx.
  - exact Hnext.
  - split.
    + store_simpl. exact Hlib.
    + intros type. rewrite pushClip_pool.
      destruct (poolIndex type =? poolIndex (clip_type clip)) eqn:Hsame.
      * apply Nat.eqb_eq in Hsame. exists (elems ++ [l]). split.
        { rewrite Hsame. store_simpl. reflexivity. }
        replace type with (clip_type clip)
          by (destruct type, (clip_type clip); simpl in Hsame; congruence).
        apply Forall2_app; [exact Hclips|]. constructor; [exact Hclip|constructor].
      * apply Nat.eqb_neq in Hsame. destruct (Hpool type) as (elems' & Helems' & Hclips').
        exists elems'. split; [|exact Hclips']. store_simpl. exact Helems'.
Qed.

Lemma groupClips_sim clips st :
  h_store st = s0 ->
  Forall2 (clipIs s0) clipLocs clips ->
  exists st',
    Heap.groupClips clipsLoc st = HReturns (n0 + 4) st' /\
    Grouped s0 (Timeline.groupClips clips) (h_store st').
Proof.
  intros Hstore Hall. unfold Heap.groupClips.
  repeat (rewrite (run_bind _ _ _ _ _ (run_alloc _ _));
          cbn [h_store h_videoCursor h_previousKind next]).
  rewrite Hstore.
  erewrite run_bind; [|apply run_loadArray with (elems := clipLocs); store_simpl;
                       exact clips_cell].
  match goal with
  | |- exists st', hbind _ _ ?st1 = _ /\ _ =>
      destruct (reduceClips_sim clips [] (mkLibrary [] [] [] []) st1) as (st' & Hrun & HG)
  end.
  - exact Hall.
  - split; [|split; [|split]].
    + split; [cbn [h_store next]; lia|]. intros x Hx. store_simpl. reflexivity.
    + cbn [h_store next]. lia.
    + store_simpl. repeat f_equal; lia.
    + intros type. exists []. split; [|destruct type; constructor].
      destruct type; cbn [poolIndex]; store_simpl; reflexivity.
  - exists st'. split; [|exact HG].
    rewrite (Forall2_length_eq _ _ _ Hall).
    replace (n0 + 4) with (S (S (S (S n0)))) in Hrun by lia. cbn [length] in Hrun.
    rewrite (run_bind _ _ _ _ _ Hrun). unfold hret. f_equal. lia.
Qed.

End Grouping.

(** The scenario's store holds the scenario's segments and clips. *)
Lemma scenarioStore_represents : represents scenarioStore 8 7 scenarioSegments scenarioClips.
Proof.
  split; [vm_compute; lia|]. split; [vm_compute; lia|]. split.
  - exists [4; 5; 6]. split; [reflexivity|].
    repeat constructor; vm_compute; lia.
  - exists [0; 1; 2; 3]. split; [reflexivity|].
    repeat constructor; vm_compute; lia.
Qed.

(** ** The whole call *)

(** X19. Sharing does not matter.  On a store of objects that holds the
    segments and the clips behind two array locations, also when an array
    holds the same object more than once, [buildTimelinePlan] ends as it
    does on plain values: it returns a new plan object whose arrays hold the
    same placements (each with an input clip object), the same talk plans
    and the same total duration, or it throws the same error, or it does
    not terminate either. *)
Theorem buildTimelinePlan_refines fuel s0 segmentsLoc clipsLoc segments clips cursor previous :
  represents s0 segmentsLoc clipsLoc segments clips ->
  match Timeline.buildTimelinePlan fuel segments clips with
  | Returns plan =>
      exists l st,
        Heap.buildTimelinePlan fuel segmentsLoc clipsLoc (mkHState s0 cursor previous)
        = HReturns l st /\
        planIs s0 (h_store st) l plan
  | Throws e =>
      exists st,
        Heap.buildTimelinePlan fuel segmentsLoc clipsLoc (mkHState s0 cursor previous)
        = HThrows (Raised e) st
  | OutOfFuel =>
      Heap.buildTimelinePlan fuel segmentsLoc clipsLoc (mkHState s0 cursor previous)
      = HOutOfFuel
  end.
Proof.
  intros (Hseg & Hclips & (slocs & Hsc & Hsall) & (clocs & Hcc & Hcall)).
  unfold Timeline.buildTimelinePlan, Heap.buildTimelinePlan.
  destruct (groupClips_sim s0 clipsLoc clocs Hclips Hcc clips (mkHState s0 cursor previous)
              eq_refl Hcall) as (st1 & Hrun1 & HG).
  rewrite (run_bind _ _ _ _ _ Hrun1).
  set (library := Timeline.groupClips clips) in *.
  destruct HG as (Hframe & Hnext & Hlib & Hpool).
  rewrite (run_bind _ _ _ _ _ (run_poolOf s0 idle st1 Hlib)).
  destruct (Hpool idle) as (ilocs & Hi & Hiall).
  rewrite (run_bind _ _ _ _ _ (run_loadArray _ _ _ Hi)), (Forall2_length_eq _ _ _ Hiall).
  cbn [pool]. destruct (length (lib_idle library) =? 0).
  { eexists. reflexivity. }
  rewrite (run_bind _ _ _ _ _ (run_poolOf s0 speechLoop st1 Hlib)).
  destruct (Hpool speechLoop) as (llocs & Hl & Hlall).
  rewrite (run_bind _ _ _ _ _ (run_loadArray _ _ _ Hl)), (Forall2_length_eq _ _ _ Hlall).
  cbn [pool]. destruct (length (lib_speechLoop library) =? 0).
  { eexists. reflexivity. }
  rewrite (run_bind _ _ _ _ _ (run_alloc _ _)).
  rewrite (run_bind _ _ _ _ _ (run_alloc _ _)).
  rewrite (run_bind _ _ _ _ _ (run_setCursor _ _)).
  rewrite (run_bind _ _ _ _ _ (run_setPrevious _ _)).
  rewrite (run_bind _ _ _ _ _ (run_alloc _ _)).
  cbn [h_store h_videoCursor h_previousKind next]. rewrite Hnext.
  erewrite run_bind;
    [|apply run_loadArray with (elems := slocs); store_simpl;
      destruct Hframe as [_ Hsame]; rewrite Hsame by exact Hseg; exact Hsc].
  rewrite (Forall2_length_eq _ _ _ Hsall).
  replace (S (next s0 + 5)) with (next s0 + 6) by lia.
  replace (S (next s0 + 6)) with (next s0 + 7) by lia.
  replace (S (next s0 + 7)) with (next s0 + 8) by lia.
  match goal with
  | |- context [hbind (Heap.segmentsLoop _ _ _ _ _) _ ?st] => set (st5 := st)
  end.
  assert (HS : Sim s0 library initialState st5).
  { unfold Sim, st5. cbn [h_store h_videoCursor h_previousKind next cell].
    split; [|split; [|split; [|split; [|split; [|split; [|split]]]]]].
    - destruct Hframe as [Hle Hsame]. split; [cbn [next]; lia|].
      intros x Hx. store_simpl. apply Hsame. exact Hx.
    - lia.
    - split.
      + store_simpl. exact Hlib.
      + intros type. destruct (Hpool type) as (locs & Hlocs & Hall). exists locs.
        split; [|exact Hall].
        assert (poolIndex type < 4) by (destruct type; simpl; lia).
        store_simpl. exact Hlocs.
    - exists []. split; [store_simpl; reflexivity|constructor].
    - exists []. split; [store_simpl; reflexivity|constructor].
    - store_simpl. reflexivity.
    - reflexivity.
    - reflexivity. }
  pose proof (segmentsLoop_sim s0 library segmentsLoc slocs Hseg Hsc fuel segments []
                initialState st5 Hsall HS) as Hsim.
  cbn [length] in Hsim.
  destruct (Timeline.segmentsLoop library fuel segments initialState) as [[[] stp]|e|];
    cbn [corresponds] in Hsim.
  - destruct Hsim as ([] & sth & Hrun & HS' & _).
    rewrite (run_bind _ _ _ _ _ Hrun), (run_bind _ _ _ _ _ (run_getCursor _)), run_alloc.
    destruct HS' as (Hframe' & Hnext' & Hpools' & (pls & Hpls & Hplacements)
                     & (tps & Htps & HtalkPlans) & Hcounters' & Hcursor' & Hprevious').
    eexists _, _. split; [reflexivity|].
    exists (next s0 + 5), (next s0 + 6), pls, tps.
    cbn [h_store cell next placements talkPlans totalDuration].
    split; [store_simpl; rewrite Hcursor'; reflexivity|].
    split; [store_simpl; exact Hpls|].
    split.
    { eapply placements_keep; [exact Hplacements| |cbn [next]; lia].
      intros x Hx. store_simpl. reflexivity. }
    split; [store_simpl; exact Htps|].
    eapply talkPlans_keep; [exact HtalkPlans| |cbn [next]; lia].
    intros x Hx. store_simpl. reflexivity.
  - destruct Hsim as (sth & Hrun). exists sth.
    rewrite (run_bind_throws _ _ _ _ _ Hrun). reflexivity.
  - rewrite (run_bind_diverges _ _ _ Hsim). reflexivity.
Qed.

Lemma buildTimelinePlan_refines_witness :
  match Timeline.buildTimelinePlan 3 scenarioSegments scenarioClips with
  | Returns plan =>
      exists l st,
        Heap.buildTimelinePlan 3 8 7 (mkHState scenarioStore 0 KindIdle) = HReturns l st /\
        planIs scenarioStore (h_store st) l plan
  | Throws e =>
      exists st,
        Heap.buildTimelinePlan 3 8 7 (mkHState scenarioStore 0 KindIdle)
        = HThrows (Raised e) st
  | OutOfFuel =>
      Heap.buildTimelinePlan 3 8 7 (mkHState scenarioStore 0 KindIdle) = HOutOfFuel
  end.
Proof.
  apply (buildTimelinePlan_refines 3 scenarioStore 8 7 scenarioSegments scenarioClips
           0 KindIdle).
  split; [vm_compute; lia|]. split; [vm_compute; lia|]. split.
  - exists [4; 5; 6]. split; [reflexivity|].
    repeat constructor; vm_compute; lia.
  - exists [0; 1; 2; 3]. split; [reflexivity|].
    repeat constructor; vm_compute; lia.
Defined.

End RefinementFacts.

(** * Further properties of the timeline scheduler *)

Module SchedulerFacts.
Import Timeline TimelineFacts.
Local Open Scope sched_scope.

(** X1. [groupClips] sorts the clips by type and keeps their order: each
    pool holds exactly the input clips of its type, in input order, so every
    clip is in one pool and the four pools together have as many clips as
    the input. *)
Theorem groupClips_partition (clips : list ClipAsset) :
  (forall type, pool (groupClips clips) type = filter (hasType type) clips) /\
  (forall clip, In clip clips -> In clip (pool (groupClips clips) (clip_type clip))) /\
  (length (lib_idle (groupClips clips)) + length (lib_idleToSpeech (groupClips clips))
   + length (lib_speechLoop (groupClips clips)) + length (lib_speechToIdle (groupClips clips))
   = length clips)%nat.
Proof.
  split; [|split].
  - intros type. apply pool_groupClips.
  - intros clip Hin. rewrite pool_groupClips. apply filter_In. split; [exact Hin|].
    unfold hasType. destruct (clip_type clip); reflexivity.
  - change (lib_idle (groupClips clips)) with (pool (groupClips clips) idle).
    change (lib_idleToSpeech (groupClips clips)) with (pool (groupClips clips) idleToSpeech).
    change (lib_speechLoop (groupClips clips)) with (pool (groupClips clips) speechLoop).
    change (lib_speechToIdle (groupClips clips)) with (pool (groupClips clips) speechToIdle).
    rewrite !pool_groupClips.
    induction clips as [|clip rest IH]; [reflexivity|].
    cbn [filter].
    destruct (hasType idle clip) eqn:H1, (hasType idleToSpeech clip) eqn:H2,
             (hasType speechLoop clip) eqn:H3, (hasType speechToIdle clip) eqn:H4;
      unfold hasType in H1, H2, H3, H4; destruct (clip_type clip); try discriminate;
      cbn [length]; lia.
Qed.

(** ** What every step of the scheduler keeps *)

Tactic Notation "step_bind" hyp(H) "as" ident(a) ident(s) ident(H1) :=
  apply bind_Returns in H; destruct H as (a & s & H1 & H);
  try match type of a with unit => destruct a end.

Ltac step_pure H := injection H; clear H; intros; subst.

Lemma takeClip_index library type st clip st' :
  takeClip library type st = Returns (clip, st') ->
  nth_error (pool library type)
            (getCounter (st_counters st) type mod length (pool library type)) = Some clip.
Proof.
  unfold takeClip, nextIndex.
  destruct (length (pool library type) =? 0)%nat; [discriminate|].
  destruct (nth_error (pool library type) _) as [c|]; [|discriminate].
  intros H. injection H as -> _. reflexivity.
Qed.

Section Preserved.

Variable library : ClipLibrary.
Variable I : SchedState -> Prop.

Hypothesis I_takeClip : forall type st clip st',
  I st -> takeClip library type st = Returns (clip, st') -> I st'.
Hypothesis I_previousKind : forall st k,
  I st ->
  I (mkState (st_placements st) (st_talkPlans st) (st_videoCursor st) k (st_counters st)).
Hypothesis I_talkPlans : forall st p,
  I st ->
  I (mkState (st_placements st) (st_talkPlans st ++ [p]) (st_videoCursor st)
             (st_previousKind st) (st_counters st)).

Lemma maybeTakeClip_preserves type st r st' :
  I st -> maybeTakeClip library type st = Returns (r, st') -> I st'.
Proof.
  intros HI. unfold maybeTakeClip. destruct (length (pool library type) =? 0)%nat.
  - intros H. injection H as _ <-. exact HI.
  - intros H. step_bind H as clip s1 Htake. injection H as _ <-.
    eapply I_takeClip; eassumption.
Qed.

Lemma coverLoop_preserves fuel segment : forall covered st st',
  I st -> coverLoop library fuel segment covered st = Returns (tt, st') -> I st'.
Proof.
  induction fuel as [|fuel IH]; intros covered st st' HI H; simpl in H;
    destruct (Qlt_le_dec (covered + 1e-2) (seg_duration segment)); try discriminate.
  - injection H as <-. exact HI.
  - step_bind H as clip s1 Htake. eapply IH; [|exact H]. eapply I_takeClip; eassumption.
  - injection H as <-. exact HI.
Qed.

Lemma afterTalk_preserves (rest : list AudioSegment) st st' :
  I st ->
  match rest with
  | [] => maybeTakeClip library speechToIdle ;;; setPreviousKind KindIdle
  | nextSegment :: _ =>
      match seg_kind nextSegment with
      | KindIdle => maybeTakeClip library speechToIdle ;;; setPreviousKind KindIdle
      | KindTalk => setPreviousKind KindTalk
      end
  end st = Returns (tt, st') ->
  I st'.
Proof.
  intros HI.
  assert (Htake : forall s', (maybeTakeClip library speechToIdle ;;; setPreviousKind KindIdle) st
                             = Returns (tt, s') -> I s').
  { intros s' H. step_bind H as r s1 Hmaybe. step_pure H.
    apply I_previousKind. eapply maybeTakeClip_preserves; eassumption. }
  destruct rest as [|nextSegment rest']; [apply Htake|].
  destruct (seg_kind nextSegment); [apply Htake|].
  intros H. injection H as <-. apply I_previousKind. exact HI.
Qed.

Lemma segmentsLoop_preserves fuel segments : forall st st',
  I st -> segmentsLoop library fuel segments st = Returns (tt, st') -> I st'.
Proof.
  induction segments as [|segment rest IH]; intros st st' HI H; simpl in H.
  - step_pure H. exact HI.
  - destruct (seg_kind segment) eqn:Hkind.
    + step_bind H as u1 s1 Hcover. step_bind H as u2 s2 Hset. step_pure Hset.
      eapply IH; [|exact H]. apply I_previousKind.
      eapply coverLoop_preserves; eassumption.
    + step_bind H as previous s0 Hprev. unfold getPreviousKind in Hprev.
      injection Hprev as Hprevious Hs0. subst s0.
      step_bind H as r s1 Hlead.
      step_bind H as segmentVideoStart s1' Hstart. unfold getVideoCursor in Hstart.
      injection Hstart as Hstart Hs1'. subst s1'.
      step_bind H as u1 s2 Hcover.
      step_bind H as cursor s2' Hcursor. unfold getVideoCursor in Hcursor.
      injection Hcursor as Hcursor Hs2'. subst s2'.
      step_bind H as u2 s3 Hpush. unfold pushTalkPlan in Hpush.
      injection Hpush as Hs3.
      step_bind H as u3 s4 Hafter.
      assert (H1 : I s1).
      { destruct previous.
        - eapply maybeTakeClip_preserves; eassumption.
        - step_pure Hlead. exact HI. }
      assert (H2 : I s2) by (eapply coverLoop_preserves; eassumption).
      assert (H3 : I s3) by (rewrite <- Hs3; apply I_talkPlans; exact H2).
      eapply IH; [|exact H]. eapply afterTalk_preserves; eassumption.
Qed.

End Preserved.

(** ** The order in which the clips are taken *)

Lemma getCounter_same counter type v : getCounter (setCounter counter type v) type = v.
Proof. destruct type; reflexivity. Qed.

Lemma getCounter_other counter type type' v :
  type <> type' -> getCounter (setCounter counter type v) type' = getCounter counter type'.
Proof. destruct type, type'; try reflexivity; intros H; contradiction H; reflexivity. Qed.

Lemma hasType_true type clip : hasType type clip = true <-> clip_type clip = type.
Proof.
  unfold hasType. destruct type, (clip_type clip); split; intros H;
    try reflexivity; discriminate.
Qed.

Lemma rotation_S l k :
  rotation l (S k)
  = rotation l k ++ match nth_error l (k mod length l) with Some c => [c] | None => [] end.
Proof.
  unfold rotation. destruct l as [|first rest].
  - destruct (k mod length (@nil ClipAsset))%nat; reflexivity.
  - rewrite seq_S, map_app. simpl map at 2. f_equal.
    rewrite (nth_error_nth' _ first); [reflexivity|].
    apply Nat.mod_upper_bound. simpl. discriminate.
Qed.

Lemma rotation_length l k : l <> [] -> length (rotation l k) = k.
Proof.
  intros Hne. unfold rotation. destruct l; [contradiction|].
  rewrite length_map, length_seq. reflexivity.
Qed.

Lemma placedOfType_snoc type pls p :
  placedOfType type (pls ++ [p])
  = placedOfType type pls ++ (if hasType type (pl_clip p) then [pl_clip p] else []).
Proof. unfold placedOfType. rewrite map_app, filter_app. reflexivity. Qed.

Lemma roundRobin_takeClip library :
  (forall type clip, In clip (pool library type) -> clip_type clip = type) ->
  forall type st clip st',
    roundRobin library st -> takeClip library type st = Returns (clip, st') ->
    roundRobin library st'.
Proof.
  intros Htyped type st clip st' HI Htake type'.
  pose proof (takeClip_index _ _ _ _ _ Htake) as Hnth.
  apply takeClip_Returns in Htake. destruct Htake as [Hin ->].
  cbn [st_placements st_counters]. rewrite placedOfType_snoc. cbn [pl_clip].
  rewrite (HI type').
  destruct (hasType type' clip) eqn:Hty.
  - apply hasType_true in Hty. rewrite (Htyped _ _ Hin) in Hty. subst type'.
    rewrite getCounter_same, Nat.add_1_r, rotation_S, Hnth. reflexivity.
  - rewrite getCounter_other, app_nil_r; [reflexivity|].
    intros ->. apply Htyped in Hin. apply hasType_true in Hin. congruence.
Qed.

Lemma segmentsLoop_roundRobin fuel segments clips st :
  segmentsLoop (groupClips clips) fuel segments initialState = Returns (tt, st) ->
  roundRobin (groupClips clips) st.
Proof.
  intros Hloop.
  eapply (segmentsLoop_preserves (groupClips clips) (roundRobin (groupClips clips)));
    [| | | |exact Hloop].
  - apply roundRobin_takeClip. intros t clip Hin.
    apply In_pool_groupClips in Hin. apply Hin.
  - intros s k Hs. exact Hs.
  - intros s p Hs. exact Hs.
  - intros t. unfold rotation. destruct (pool (groupClips clips) t), t; reflexivity.
Qed.

(** X2. The clips of each type are taken in rotation: in a returned plan the
    placements of a type hold, in order, the first, second, ... clip of the
    pool of that type, starting again at the first after the last. *)
Theorem placements_round_robin (fuel : nat) (segments : list AudioSegment)
    (clips : list ClipAsset) (plan : TimelinePlan) :
  buildTimelinePlan fuel segments clips = Returns plan ->
  forall type,
    placedOfType type (placements plan)
    = rotation (pool (groupClips clips) type)
               (length (placedOfType type (placements plan))).
Proof.
  intros H type. apply buildTimelinePlan_Returns in H. destruct H as (st & Hloop & ->).
  pose proof (segmentsLoop_roundRobin _ _ _ _ Hloop) as HI.
  cbn [placements]. rewrite (HI type).
  destruct (pool (groupClips clips) type) as [|first rest] eqn:Hpool; [reflexivity|].
  rewrite rotation_length by discriminate. reflexivity.
Qed.

Lemma placements_round_robin_witness :
  placedOfType speechLoop (placements twoTalkPlan)
  = rotation (pool (groupClips scenarioClips) speechLoop)
             (length (placedOfType speechLoop (placements twoTalkPlan))).
Proof.
  apply (placements_round_robin 3 twoTalkSegments scenarioClips twoTalkPlan). reflexivity.
Defined.

(** ** The placements on the time axis *)

Lemma layOut_app a : forall q b,
  layOut q (a ++ b) = layOut q a ++ layOut (cursorAfter q a) b.
Proof.
  induction a as [|clip a IH]; intros q b; simpl; [reflexivity|].
  rewrite IH. reflexivity.
Qed.

Lemma cursorAfter_snoc q a clip :
  cursorAfter q (a ++ [clip]) = cursorAfter q a + clip_duration clip.
Proof. unfold cursorAfter. rewrite fold_left_app. reflexivity. Qed.

Lemma cursorAfter_sum a : forall q, cursorAfter q a == q + sumDurations a.
Proof.
  induction a as [|clip a IH]; intros q; simpl.
  - unfold sumDurations. simpl. lra.
  - change (cursorAfter (q + clip_duration clip) a
            == q + (clip_duration clip + sumDurations a)).
    rewrite IH. lra.
Qed.

Lemma laidOut_takeClip library type st clip st' :
  laidOut st -> takeClip library type st = Returns (clip, st') -> laidOut st'.
Proof.
  intros [Hpl Hcursor] Htake. apply takeClip_Returns in Htake. destruct Htake as [_ ->].
  unfold laidOut. cbn [st_placements st_videoCursor].
  rewrite map_app. cbn [map pl_clip].
  rewrite layOut_app, cursorAfter_snoc, <- Hpl, <- Hcursor. cbn [layOut].
  split; reflexivity.
Qed.

(** X3. The placements of a returned plan tile the time axis: the first
    starts at 0, each next one starts where the one before it ends (its start
    plus the duration of its clip), and [totalDuration] is the end of the
    last one, the sum of the durations of all clips placed. *)
Theorem placements_contiguous (fuel : nat) (segments : list AudioSegment)
    (clips : list ClipAsset) (plan : TimelinePlan) :
  buildTimelinePlan fuel segments clips = Returns plan ->
  placements plan = layOut 0 (map pl_clip (placements plan)) /\
  totalDuration plan = cursorAfter 0 (map pl_clip (placements plan)) /\
  totalDuration plan == sumDurations (map pl_clip (placements plan)).
Proof.
  intros H. apply buildTimelinePlan_Returns in H. destruct H as (st & Hloop & ->).
  assert (HI : laidOut st).
  { eapply (segmentsLoop_preserves (groupClips clips) laidOut); [| | | |exact Hloop].
    - intros type s clip s'. apply laidOut_takeClip.
    - intros s k Hs. exact Hs.
    - intros s p Hs. exact Hs.
    - split; reflexivity. }
  destruct HI as [Hpl Hcursor]. cbn [placements totalDuration].
  split; [exact Hpl|]. split; [exact Hcursor|].
  rewrite Hcursor at 1. rewrite cursorAfter_sum. lra.
Qed.

Lemma placements_contiguous_witness :
  placements twoTalkPlan = layOut 0 (map pl_clip (placements twoTalkPlan)) /\
  totalDuration twoTalkPlan = cursorAfter 0 (map pl_clip (placements twoTalkPlan)) /\
  totalDuration twoTalkPlan == sumDurations (map pl_clip (placements twoTalkPlan)).
Proof.
  apply (placements_contiguous 3 twoTalkSegments scenarioClips twoTalkPlan). reflexivity.
Defined.

(** ** Talk plans and talk segments *)

Lemma extends_talkPlans library type st st' placed :
  extends library type st st' placed -> st_talkPlans st' = st_talkPlans st.
Proof. intros (_ & _ & _ & H). exact H. Qed.

Lemma afterTalk_talkPlans library (rest : list AudioSegment) st st' :
  match rest with
  | [] => maybeTakeClip library speechToIdle ;;; setPreviousKind KindIdle
  | nextSegment :: _ =>
      match seg_kind nextSegment with
      | KindIdle => maybeTakeClip library speechToIdle ;;; setPreviousKind KindIdle
      | KindTalk => setPreviousKind KindTalk
      end
  end st = Returns (tt, st') ->
  st_talkPlans st' = st_talkPlans st.
Proof.
  assert (Htake : forall s', (maybeTakeClip library speechToIdle ;;; setPreviousKind KindIdle) st
                             = Returns (tt, s') -> st_talkPlans s' = st_talkPlans st).
  { intros s' H. step_bind H as r s1 Hmaybe. step_pure H. cbn [st_talkPlans].
    apply maybeTakeClip_Returns in Hmaybe. destruct Hmaybe as (placed & Hext).
    eapply extends_talkPlans. exact Hext. }
  destruct rest as [|nextSegment rest']; [apply Htake|].
  destruct (seg_kind nextSegment); [apply Htake|].
  intros H. injection H as <-. reflexivity.
Qed.

Lemma segmentsLoop_talkPlans library fuel segments : forall st st',
  segmentsLoop library fuel segments st = Returns (tt, st') ->
  map talkPlanSource (st_talkPlans st')
  = map talkPlanSource (st_talkPlans st) ++ map segmentSource (filter isTalk segments).
Proof.
  induction segments as [|segment rest IH]; intros st st' H; simpl in H.
  - step_pure H. simpl. rewrite app_nil_r. reflexivity.
  - cbn [filter]. unfold isTalk at 1. destruct (seg_kind segment) eqn:Hkind.
    + step_bind H as u1 s1 Hcover. step_bind H as u2 s2 Hset. step_pure Hset.
      apply coverSegment_Returns in Hcover. destruct Hcover as (placed & Hext & _).
      rewrite (IH _ _ H). cbn [st_talkPlans].
      rewrite (extends_talkPlans _ _ _ _ _ Hext). reflexivity.
    + step_bind H as previous s0 Hprev. unfold getPreviousKind in Hprev.
      injection Hprev as Hprevious Hs0. subst s0.
      step_bind H as r s1 Hlead.
      step_bind H as segmentVideoStart s1' Hstart. unfold getVideoCursor in Hstart.
      injection Hstart as Hstart Hs1'. subst s1'.
      step_bind H as u1 s2 Hcover.
      step_bind H as cursor s2' Hcursor. unfold getVideoCursor in Hcursor.
      injection Hcursor as Hcursor Hs2'. subst s2'.
      step_bind H as u2 s3 Hpush. unfold pushTalkPlan in Hpush.
      injection Hpush as Hs3.
      step_bind H as u3 s4 Hafter.
      assert (H1 : st_talkPlans s1 = st_talkPlans st).
      { destruct previous.
        - apply maybeTakeClip_Returns in Hlead. destruct Hlead as (placed & Hext).
          eapply extends_talkPlans. exact Hext.
        - step_pure Hlead. reflexivity. }
      apply coverSegment_Returns in Hcover. destruct Hcover as (placed & Hext & _).
      apply extends_talkPlans in Hext.
      apply afterTalk_talkPlans in Hafter.
      rewrite (IH _ _ H), Hafter, <- Hs3. cbn [st_talkPlans].
      rewrite Hext, H1, map_app, <- app_assoc. reflexivity.
Qed.

(** X4. A returned plan has one talk plan for each talk segment, in the
    order of the segments, and each carries the id, the start and the
    duration of its segment; idle segments get none. *)
Theorem talkPlans_follow_segments (fuel : nat) (segments : list AudioSegment)
    (clips : list ClipAsset) (plan : TimelinePlan) :
  buildTimelinePlan fuel segments clips = Returns plan ->
  map talkPlanSource (talkPlans plan) = map segmentSource (filter isTalk segments).
Proof.
  intros H. apply buildTimelinePlan_Returns in H. destruct H as (st & Hloop & ->).
  apply segmentsLoop_talkPlans in Hloop. exact Hloop.
Qed.

Lemma talkPlans_follow_segments_witness :
  map talkPlanSource (talkPlans twoTalkPlan)
  = map segmentSource (filter isTalk twoTalkSegments).
Proof.
  apply (talkPlans_follow_segments 3 twoTalkSegments scenarioClips twoTalkPlan). reflexivity.
Defined.

(** ** Clips without duration *)

Lemma coverLoop_stuck library fuel segment :
  1e-2 < seg_duration segment ->
  (forall clip, In clip (pool library (coverType segment)) -> clip_duration clip <= 0) ->
  forall covered st r,
    covered <= 0 -> coverLoop library fuel segment covered st <> Returns r.
Proof.
  intros Hlong Hzero. induction fuel as [|fuel IH]; intros covered st r Hcov H; simpl in H;
    destruct (Qlt_le_dec (covered + 1e-2) (seg_duration segment)); try discriminate;
    try lra.
  step_bind H as clip s1 Htake. apply takeClip_Returns in Htake. destruct Htake as [Hin _].
  apply Hzero in Hin. eapply (IH (covered + clip_duration clip)); [lra|exact H].
Qed.

Lemma segmentsLoop_covers library fuel segments : forall st st' segment,
  segmentsLoop library fuel segments st = Returns (tt, st') ->
  In segment segments ->
  exists s1 s2, coverSegment library fuel segment s1 = Returns (tt, s2).
Proof.
  induction segments as [|head rest IH]; intros st st' segment H Hin; [contradiction|].
  simpl in H. destruct Hin as [<-|Hin].
  - destruct (seg_kind head) eqn:Hkind.
    + step_bind H as u1 s1 Hcover. eauto.
    + step_bind H as previous s0 Hprev. step_bind H as r s1 Hlead.
      step_bind H as segmentVideoStart s1' Hstart. step_bind H as u1 s2 Hcover. eauto.
  - destruct (seg_kind head) eqn:Hkind.
    + step_bind H as u1 s1 Hcover. step_bind H as u2 s2 Hset. eapply IH; eassumption.
    + step_bind H as previous s0 Hprev. step_bind H as r s1 Hlead.
      step_bind H as segmentVideoStart s1' Hstart. step_bind H as u1 s2 Hcover.
      step_bind H as cursor s2' Hcursor. step_bind H as u2 s3 Hpush.
      step_bind H as u3 s4 Hafter. eapply IH; eassumption.
Qed.

(** X5. A pool of clips without duration stops the scheduler for good: when
    some segment is longer than the tolerance of 0.01 s and no clip of the
    pool that covers it has a positive duration, the loop of [coverSegment]
    never ends, whatever the number of iterations allowed, and the call
    neither returns nor throws. *)
Theorem zero_duration_never_returns (segments : list AudioSegment)
    (clips : list ClipAsset) (segment : AudioSegment) :
  pool (groupClips clips) idle <> [] ->
  pool (groupClips clips) speechLoop <> [] ->
  In segment segments ->
  1e-2 < seg_duration segment ->
  (forall clip, In clip (pool (groupClips clips) (coverType segment)) ->
     clip_duration clip <= 0) ->
  forall fuel, buildTimelinePlan fuel segments clips = OutOfFuel.
Proof.
  intros Hidle Hloop Hin Hlong Hzero fuel. unfold buildTimelinePlan.
  change (lib_idle (groupClips clips)) with (pool (groupClips clips) idle).
  change (lib_speechLoop (groupClips clips)) with (pool (groupClips clips) speechLoop).
  destruct (pool (groupClips clips) idle) as [|c1 l1] eqn:H1; [contradiction|].
  destruct (pool (groupClips clips) speechLoop) as [|c2 l2] eqn:H2; [contradiction|].
  cbn [length Nat.eqb].
  destruct (segmentsLoop (groupClips clips) fuel segments initialState)
    as [[[] st]|e|] eqn:Hrun; [| |reflexivity].
  - destruct (segmentsLoop_covers _ _ _ _ _ _ Hrun Hin) as (s1 & s2 & Hcover).
    exfalso. eapply (coverLoop_stuck (groupClips clips) fuel segment Hlong Hzero 0 s1);
      [lra|exact Hcover].
  - exfalso. eapply (segmentsLoop_Throws (groupClips clips)); [| |exact Hrun].
    + rewrite H1. discriminate.
    + rewrite H2. discriminate.
Qed.

Lemma zero_duration_never_returns_witness :
  buildTimelinePlan 1000 [mkSegment "idle-0" KindIdle 0 1]
    [mkClip "still" idle 0; mkClip "loop-a" speechLoop 1] = OutOfFuel.
Proof.
  apply (zero_duration_never_returns _ _ (mkSegment "idle-0" KindIdle 0 1)).
  - discriminate.
  - discriminate.
  - left. reflexivity.
  - reflexivity.
  - intros clip [<-|[]]. apply Qle_refl.
Defined.

(** ** Transition clips *)

Lemma takeClip_counters library type st clip st' :
  takeClip library type st = Returns (clip, st') ->
  st_previousKind st' = st_previousKind st /\
  (getCounter (st_counters st') type = getCounter (st_counters st) type + 1)%nat /\
  (forall t, type <> t -> getCounter (st_counters st') t = getCounter (st_counters st) t).
Proof.
  intros H. apply takeClip_Returns in H. destruct H as [_ ->]. cbn [st_previousKind st_counters].
  split; [reflexivity|]. split; [apply getCounter_same|].
  intros t Ht. apply getCounter_other. exact Ht.
Qed.

Lemma maybeTakeClip_counters library type st r st' :
  maybeTakeClip library type st = Returns (r, st') ->
  st_previousKind st' = st_previousKind st /\
  (getCounter (st_counters st') type
   = getCounter (st_counters st) type + taken (pool library type))%nat /\
  (forall t, type <> t -> getCounter (st_counters st') t = getCounter (st_counters st) t).
Proof.
  unfold maybeTakeClip. destruct (pool library type) as [|c l] eqn:Hpool.
  - intros H. injection H as _ <-. simpl. rewrite Nat.add_0_r. auto.
  - cbn [length Nat.eqb]. intros H. step_bind H as clip s1 Htake. injection H as _ <-.
    apply takeClip_counters in Htake. simpl. exact Htake.
Qed.

Lemma coverLoop_counters library fuel segment : forall covered st st',
  coverLoop library fuel segment covered st = Returns (tt, st') ->
  st_previousKind st' = st_previousKind st /\
  (forall t, coverType segment <> t ->
     getCounter (st_counters st') t = getCounter (st_counters st) t).
Proof.
  induction fuel as [|fuel IH]; intros covered st st' H; simpl in H;
    destruct (Qlt_le_dec (covered + 1e-2) (seg_duration segment)); try discriminate.
  - injection H as <-. auto.
  - step_bind H as clip s1 Htake. apply takeClip_counters in Htake.
    destruct Htake as (Hk & _ & Hother). apply IH in H. destruct H as [Hk' Hother'].
    split; [congruence|]. intros t Ht. rewrite Hother', Hother by exact Ht. reflexivity.
  - injection H as <-. auto.
Qed.

(** After a talk segment: the lead-out clip is taken, and [previousKind] set
    to idle, unless a talk segment follows. *)
Lemma afterTalk_counters library (rest : list AudioSegment) st st' :
  match rest with
  | [] => maybeTakeClip library speechToIdle ;;; setPreviousKind KindIdle
  | nextSegment :: _ =>
      match seg_kind nextSegment with
      | KindIdle => maybeTakeClip library speechToIdle ;;; setPreviousKind KindIdle
      | KindTalk => setPreviousKind KindTalk
      end
  end st = Returns (tt, st') ->
  inRun (st_previousKind st') rest /\
  talkRuns (st_previousKind st') rest = talkRuns KindTalk rest /\
  getCounter (st_counters st') idleToSpeech = getCounter (st_counters st) idleToSpeech /\
  (getCounter (st_counters st') speechToIdle
   + taken (pool library speechToIdle) * openRun (st_previousKind st')
   = getCounter (st_counters st) speechToIdle + taken (pool library speechToIdle))%nat /\
  (rest = [] -> st_previousKind st' = KindIdle).
Proof.
  assert (Htake : forall s', (maybeTakeClip library speechToIdle ;;; setPreviousKind KindIdle) st
                             = Returns (tt, s') ->
            st_previousKind s' = KindIdle /\
            getCounter (st_counters s') idleToSpeech = getCounter (st_counters st) idleToSpeech /\
            (getCounter (st_counters s') speechToIdle
             = getCounter (st_counters st) speechToIdle + taken (pool library speechToIdle))%nat).
  { intros s' H. step_bind H as r s1 Hmaybe. step_pure H.
    cbn [st_previousKind st_counters].
    apply maybeTakeClip_counters in Hmaybe. destruct Hmaybe as (_ & Hsame & Hother).
    split; [reflexivity|]. split; [apply Hother; discriminate|exact Hsame]. }
  destruct rest as [|nextSegment rest'].
  - intros H. apply Htake in H. destruct H as (Hk & Hin & Hout). rewrite Hk.
    cbn [inRun talkRuns openRun]. repeat split; try assumption; try lia.
  - cbn [inRun talkRuns]. destruct (seg_kind nextSegment) eqn:Hnext.
    + intros H. apply Htake in H. destruct H as (Hk & Hin & Hout). rewrite Hk.
      cbn [openRun]. repeat split; try assumption; try lia; try discriminate.
    + intros H. injection H as <-. cbn [st_previousKind st_counters openRun].
      repeat split; try assumption; try lia; try discriminate.
Qed.

Lemma segmentsLoop_transitions library fuel segments : forall st st',
  inRun (st_previousKind st) segments ->
  segmentsLoop library fuel segments st = Returns (tt, st') ->
  (getCounter (st_counters st') idleToSpeech
   = getCounter (st_counters st) idleToSpeech
     + taken (pool library idleToSpeech) * talkRuns (st_previousKind st) segments)%nat /\
  (getCounter (st_counters st') speechToIdle
   + taken (pool library speechToIdle) * openRun (st_previousKind st')
   = getCounter (st_counters st) speechToIdle
     + taken (pool library speechToIdle)
       * (openRun (st_previousKind st) + talkRuns (st_previousKind st) segments))%nat /\
  (segments <> [] -> st_previousKind st' = KindIdle).
Proof.
  induction segments as [|segment rest IH]; intros st st' Hrun H; simpl in H.
  - step_pure H. simpl. split; [lia|]. split; [lia|]. intros Hne. contradiction.
  - destruct (seg_kind segment) eqn:Hkind.
    + step_bind H as u1 s1 Hcover. step_bind H as u2 s2 Hset. step_pure Hset.
      apply coverLoop_counters in Hcover. destruct Hcover as [Hk Hother].
      unfold coverType in Hother. rewrite Hkind in Hother.
      assert (Hprev : st_previousKind st = KindIdle).
      { simpl in Hrun. destruct (st_previousKind st); [reflexivity|].
        specialize (Hrun eq_refl). congruence. }
      pose proof H as Hlast.
      apply IH in H; [|destruct rest; simpl; [exact I|discriminate]].
      cbn [st_counters st_previousKind] in H. destruct H as (Hin & Hout & Hend).
      rewrite Hother in Hin by discriminate. rewrite Hother in Hout by discriminate.
      cbn [talkRuns]. rewrite Hkind, Hprev. cbn [openRun] in *.
      split; [exact Hin|]. split; [exact Hout|]. intros _.
      destruct rest as [|r rest']; [|apply Hend; discriminate].
      simpl in Hlast. injection Hlast as <-. reflexivity.
    + step_bind H as previous s0 Hprev. unfold getPreviousKind in Hprev.
      injection Hprev as Hprevious Hs0. subst s0.
      step_bind H as r s1 Hlead.
      step_bind H as segmentVideoStart s1' Hstart. unfold getVideoCursor in Hstart.
      injection Hstart as Hstart Hs1'. subst s1'.
      step_bind H as u1 s2 Hcover.
      step_bind H as cursor s2' Hcursor. unfold getVideoCursor in Hcursor.
      injection Hcursor as Hcursor Hs2'. subst s2'.
      step_bind H as u2 s3 Hpush. unfold pushTalkPlan in Hpush.
      injection Hpush as Hs3.
      step_bind H as u3 s4 Hafter.
      assert (H1 : (getCounter (st_counters s1) idleToSpeech
                    = getCounter (st_counters st) idleToSpeech
                      + taken (pool library idleToSpeech) * (1 - openRun previous))%nat /\
                   getCounter (st_counters s1) speechToIdle
                   = getCounter (st_counters st) speechToIdle).
      { destruct previous.
        - apply maybeTakeClip_counters in Hlead. destruct Hlead as (_ & Hsame & Hother).
          split; [cbn [openRun]; lia|]. apply Hother. discriminate.
        - step_pure Hlead. cbn [openRun]. split; [lia|reflexivity]. }
      apply coverLoop_counters in Hcover. destruct Hcover as [_ Hother].
      unfold coverType in Hother. rewrite Hkind in Hother.
      assert (H3 : st_counters s3 = st_counters s2) by (rewrite <- Hs3; reflexivity).
      apply afterTalk_counters in Hafter.
      destruct Hafter as (Hrun4 & Hruns & Hin4 & Hout4 & Hend4).
      pose proof H as Hlast.
      apply IH in H; [|exact Hrun4]. destruct H as (Hin & Hout & Hend).
      rewrite Hruns in Hin, Hout. rewrite H3 in Hin4, Hout4.
      rewrite (Hother idleToSpeech) in Hin4 by discriminate.
      rewrite (Hother speechToIdle) in Hout4 by discriminate.
      destruct H1 as [H1in H1out].
      cbn [talkRuns]. rewrite Hkind, Hprevious.
      split; [|split].
      * destruct previous; cbn [openRun] in *; lia.
      * destruct previous; cbn [openRun] in *; lia.
      * intros _. destruct rest as [|next rest']; [|apply Hend; discriminate].
        simpl in Hlast. injection Hlast as <-. apply Hend4. reflexivity.
Qed.

(** X6. Every run of consecutive talk segments gets one lead-in and one
    lead-out clip: a returned plan holds as many [idleToSpeech] placements,
    and as many [speechToIdle] placements, as the segment list has runs of
    talk segments; a pool that is empty gives none, and no error. *)
Theorem transitions_per_talk_run (fuel : nat) (segments : list AudioSegment)
    (clips : list ClipAsset) (plan : TimelinePlan) :
  buildTimelinePlan fuel segments clips = Returns plan ->
  (length (placedOfType idleToSpeech (placements plan))
   = taken (pool (groupClips clips) idleToSpeech) * talkRuns KindIdle segments)%nat /\
  (length (placedOfType speechToIdle (placements plan))
   = taken (pool (groupClips clips) speechToIdle) * talkRuns KindIdle segments)%nat.
Proof.
  intros H. apply buildTimelinePlan_Returns in H. destruct H as (st & Hloop & ->).
  pose proof (segmentsLoop_roundRobin _ _ _ _ Hloop) as HI.
  assert (Hlen : forall type,
            length (placedOfType type (st_placements st))
            = (taken (pool (groupClips clips) type) * getCounter (st_counters st) type)%nat).
  { intros type. rewrite (HI type).
    destruct (pool (groupClips clips) type) as [|first rest] eqn:Hpool; [reflexivity|].
    rewrite rotation_length by discriminate. simpl. lia. }
  apply segmentsLoop_transitions in Hloop;
    [|destruct segments; simpl; [exact I|discriminate]].
  unfold initialState in Hloop. cbn [st_counters st_previousKind openRun] in Hloop.
  change (getCounter (mkCounters 0 0 0 0) idleToSpeech) with 0%nat in Hloop.
  change (getCounter (mkCounters 0 0 0 0) speechToIdle) with 0%nat in Hloop.
  destruct Hloop as (Hin & Hout & Hend). cbn [placements]. rewrite !Hlen.
  split.
  - rewrite Hin. destruct (pool (groupClips clips) idleToSpeech); cbn [taken]; lia.
  - assert (Hopen : (taken (pool (groupClips clips) speechToIdle)
                     * openRun (st_previousKind st) = 0)%nat).
    { destruct segments as [|head rest].
      - cbn [talkRuns] in Hout. lia.
      - rewrite Hend by discriminate. cbn [openRun]. lia. }
    destruct (pool (groupClips clips) speechToIdle); cbn [taken] in *; lia.
Qed.

Lemma transitions_per_talk_run_witness :
  (length (placedOfType idleToSpeech (placements twoTalkPlan))
   = taken (pool (groupClips scenarioClips) idleToSpeech)
     * talkRuns KindIdle twoTalkSegments)%nat /\
  (length (placedOfType speechToIdle (placements twoTalkPlan))
   = taken (pool (groupClips scenarioClips) speechToIdle)
     * talkRuns KindIdle twoTalkSegments)%nat.
Proof.
  apply (transitions_per_talk_run 3 twoTalkSegments scenarioClips twoTalkPlan). reflexivity.
Defined.

End SchedulerFacts.

(** * Further properties of the segmenter *)

Module SegmenterFacts.
Import Audio AudioFacts.

(** ** What merging keeps *)

Section MergeShape.

Variable gapTolerance : Q.









End MergeShape.


(** ** Quiet audio *)

Lemma talkThreshold_floor rmsValues : 0.02 <= talkThresholdOf rmsValues.
Proof. unfold talkThresholdOf. apply Q.le_max_l. Qed.

Lemma scanLoop_quiet duration windowDuration talkThreshold silenceThreshold values :
  Forall (fun v => v < talkThreshold) values ->
  forall block st,
    currentKind st = KindIdle ->
    scanLoop duration windowDuration talkThreshold silenceThreshold block values st = st.
Proof.
  induction 1 as [|v rest Hv _ IH]; intros block st Hidle; [reflexivity|].
  cbn [scanLoop]. unfold scanBlock. rewrite Hidle.
  apply Qle_bool_false in Hv. rewrite Hv. apply IH. exact Hidle.
Qed.

(** X8. Audio that stays quiet is one idle segment: when no window reaches
    a loudness of 0.02, the least value the talk threshold can take,
    [analyzeAudio] returns exactly one segment, ["idle-0"], of kind idle,
    from 0 over the whole duration of the buffer; so it does for an empty
    buffer. *)
Theorem quiet_audio_is_idle (Math_sqrt : Q -> Q) (audioBuffer : AudioBuffer) :
  Forall (fun v => v < 0.02) (res_rmsValues (analyzeAudio Math_sqrt audioBuffer)) ->
  exists s,
    res_segments (analyzeAudio Math_sqrt audioBuffer) = [s] /\
    seg_id s = "idle-0"%string /\ seg_kind s = KindIdle /\
    seg_start s = 0 /\ seg_duration s == buf_duration audioBuffer.
Proof.
  cbn [analyzeAudio res_rmsValues res_segments]. intros Hquiet. unfold segmentsOf.
  rewrite scanLoop_quiet; [|..|reflexivity].
  2:{ eapply Forall_impl; [|exact Hquiet]. intros v Hv. cbv beta in Hv.
      pose proof (talkThreshold_floor (computeRms Math_sqrt audioBuffer)). lra. }
  unfold flushSegment. cbn [currentStart sc_segments currentKind silenceBlocks].
  destruct (Qle_bool (buf_duration audioBuffer - 0) MIN_SEGMENT_DURATION_SEC);
    cbn [sc_segments unshiftIdle app seg_kind length]; eexists;
    (split; [reflexivity|]); cbn [seg_id seg_kind seg_start seg_duration];
    repeat split; try reflexivity; ring.
Qed.

Lemma quiet_audio_is_idle_witness :
  exists s,
    res_segments (analyzeAudio sqrtOfSquare oddRateBuffer) = [s] /\
    seg_id s = "idle-0"%string /\ seg_kind s = KindIdle /\
    seg_start s = 0 /\ seg_duration s == buf_duration oddRateBuffer.
Proof.
  apply (quiet_audio_is_idle sqrtOfSquare oddRateBuffer).
  vm_compute. constructor; [reflexivity|constructor].
Defined.

(** ** Segment ids *)

Lemma to_uint_nonnil (n : nat) : Nat.to_uint n <> Decimal.Nil.
Proof.
  intros H. pose proof (DecimalNat.Unsigned.to_of (Nat.to_uint n)) as Hnorm.
  rewrite DecimalNat.Unsigned.of_to in Hnorm.
  apply (DecimalFacts.unorm_nonnil (Nat.to_uint n)). rewrite <- Hnorm. exact H.
Qed.

Lemma index_string_inj (i j : nat) :
  NilZero.string_of_uint (Nat.to_uint i) = NilZero.string_of_uint (Nat.to_uint j) -> i = j.
Proof.
  intros H. apply DecimalNat.Unsigned.to_uint_inj.
  pose proof (NilZero.usu _ (to_uint_nonnil i)) as Hi.
  pose proof (NilZero.usu _ (to_uint_nonnil j)) as Hj.
  rewrite H, Hj in Hi. injection Hi as Hi. symmetry. exact Hi.
Qed.

Lemma segmentIdOf_inj k1 k2 i j :
  segmentIdOf k1 i = segmentIdOf k2 j -> k1 = k2 /\ i = j.
Proof.
  unfold segmentIdOf. destruct k1, k2; cbn [kindName String.append]; intros H;
    try discriminate; injection H as H; apply index_string_inj in H; auto.
Qed.

Lemma rebuildFrom_ids l : forall index id,
  In id (map seg_id (rebuildFrom index l)) ->
  exists k j, (index <= j)%nat /\ id = segmentIdOf k j.
Proof.
  induction l as [|s rest IH]; intros index id Hin; [contradiction|].
  cbn [rebuildFrom map seg_id] in Hin. destruct Hin as [<-|Hin].
  - exists (seg_kind s), index. split; [lia|reflexivity].
  - apply IH in Hin. destruct Hin as (k & j & Hj & ->). exists k, j. split; [lia|reflexivity].
Qed.

Lemma rebuildFrom_NoDup l : forall index, NoDup (map seg_id (rebuildFrom index l)).
Proof.
  induction l as [|s rest IH]; intros index; cbn [rebuildFrom map seg_id]; constructor.
  - intros Hin. apply rebuildFrom_ids in Hin. destruct Hin as (k & j & Hj & Heq).
    apply segmentIdOf_inj in Heq. lia.
  - apply IH.
Qed.

Lemma rebuildFrom_nth l : forall index i s,
  nth_error (rebuildFrom index l) i = Some s ->
  exists s0,
    nth_error l i = Some s0 /\
    s = mkSegment (segmentIdOf (seg_kind s0) (index + i)) (seg_kind s0)
                  (seg_start s0) (seg_duration s0).
Proof.
  induction l as [|s0 rest IH]; intros index i s H; [destruct i; discriminate|].
  destruct i as [|i]; cbn [rebuildFrom nth_error] in H |- *.
  - injection H as <-. exists s0. rewrite Nat.add_0_r. split; reflexivity.
  - apply IH in H. destruct H as (s1 & Hs1 & ->). exists s1.
    replace (index + S i)%nat with (S index + i)%nat by lia. split; [exact Hs1|reflexivity].
Qed.

Lemma rebuildFrom_length l : forall index, length (rebuildFrom index l) = length l.
Proof. induction l as [|s rest IH]; intros index; simpl; [reflexivity|]. rewrite IH. reflexivity. Qed.

(** X9. [rebuildSegmentIds] numbers the segments by position and changes
    nothing else: the segment at index [i] keeps its kind, start and
    duration and gets the id [`${kind}-${i}`], so the ids of the result are
    pairwise different; this holds in particular for the segments that
    [analyzeAudio] returns. *)
Theorem segment_ids_by_position (segments : list AudioSegment) :
  length (rebuildSegmentIds segments) = length segments /\
  (forall i s, nth_error (rebuildSegmentIds segments) i = Some s ->
     exists s0,
       nth_error segments i = Some s0 /\
       s = mkSegment (segmentIdOf (seg_kind s0) i) (seg_kind s0)
                     (seg_start s0) (seg_duration s0)) /\
  NoDup (map seg_id (rebuildSegmentIds segments)) /\
  (forall Math_sqrt audioBuffer,
     let result := res_segments (analyzeAudio Math_sqrt audioBuffer) in
     NoDup (map seg_id result) /\
     forall i s, nth_error result i = Some s -> seg_id s = segmentIdOf (seg_kind s) i).
Proof.
  unfold rebuildSegmentIds. split; [apply rebuildFrom_length|].
  split; [intros i s H; apply (rebuildFrom_nth _ 0 i s H)|].
  split; [apply rebuildFrom_NoDup|].
  intros Math_sqrt audioBuffer. cbn [analyzeAudio res_segments]. unfold segmentsOf.
  cbv zeta. unfold rebuildSegmentIds. split; [apply rebuildFrom_NoDup|].
  intros i s H. apply rebuildFrom_nth in H. destruct H as (s0 & _ & ->). reflexivity.
Qed.

(** ** Thresholds *)

Lemma In_insertSorted x y l : In y (insertSorted x l) <-> y = x \/ In y l.
Proof.
  induction l as [|z rest IH]; simpl.
  - split; intros [H|H]; auto.
  - destruct (Qle_bool x z); simpl; [|rewrite IH]; split; intros H; intuition auto.
Qed.

Lemma In_sortNumbers y l : In y (sortNumbers l) <-> In y l.
Proof.
  induction l as [|x rest IH]; simpl; [reflexivity|].
  rewrite In_insertSorted, IH. split; intros [H|H]; auto.
Qed.

Lemma length_insertSorted x l : length (insertSorted x l) = S (length l).
Proof.
  induction l as [|z rest IH]; simpl; [reflexivity|].
  destruct (Qle_bool x z); simpl; [reflexivity|]. rewrite IH. reflexivity.
Qed.

Lemma length_sortNumbers l : length (sortNumbers l) = length l.
Proof.
  induction l as [|x rest IH]; simpl; [reflexivity|].
  rewrite length_insertSorted, IH. reflexivity.
Qed.

Lemma strongLevel_In rmsValues : rmsValues <> [] -> In (strongLevel rmsValues) rmsValues.
Proof.
  intros Hne. unfold strongLevel. cbv zeta. apply In_sortNumbers. apply nth_In.
  rewrite length_sortNumbers.
  assert (Hpos : (0 < length rmsValues)%nat) by (destruct rmsValues; [contradiction|simpl; lia]).
  assert (Hfloor : (Qfloor (inject_Z (Z.of_nat (length rmsValues)) * 0.9)
                    <= Z.of_nat (length rmsValues))%Z).
  { rewrite <- (Qfloor_Z (Z.of_nat (length rmsValues))) at 2. apply Qfloor_resp_le.
    pose proof (inject_nat_nonneg (length rmsValues)). lra. }
  lia.
Qed.


(** ** The strong level as an order statistic *)

Lemma insertSorted_sorted x l :
  StronglySorted Qle l -> StronglySorted Qle (insertSorted x l).
Proof.
  induction l as [|y rest IH]; intros Hsorted; cbn [insertSorted].
  - constructor; constructor.
  - inversion Hsorted as [|? ? Hrest Hall]. subst.
    destruct (Qle_bool x y) eqn:Hxy.
    + apply Qle_bool_iff in Hxy. constructor; [exact Hsorted|].
      constructor; [exact Hxy|]. eapply Forall_impl; [|exact Hall].
      intros z Hz. cbv beta in Hz. lra.
    + apply Qle_bool_false in Hxy. constructor; [apply IH; exact Hrest|].
      apply Forall_forall. intros z Hz. apply In_insertSorted in Hz.
      destruct Hz as [->|Hz]; [lra|]. rewrite Forall_forall in Hall. apply Hall. exact Hz.
Qed.

Lemma sortNumbers_sorted l : StronglySorted Qle (sortNumbers l).
Proof.
  induction l as [|x rest IH]; cbn [sortNumbers fold_right]; [constructor|].
  apply insertSorted_sorted. exact IH.
Qed.

Lemma count_insertSorted (f : Q -> bool) x l :
  length (filter f (insertSorted x l)) = length (filter f (x :: l)).
Proof.
  induction l as [|y rest IH]; cbn [insertSorted]; [reflexivity|].
  destruct (Qle_bool x y); [reflexivity|].
  cbn [filter] in IH |- *. destruct (f y), (f x); cbn [length] in IH |- *; lia.
Qed.

Lemma count_sortNumbers (f : Q -> bool) l :
  length (filter f (sortNumbers l)) = length (filter f l).
Proof.
  induction l as [|x rest IH]; cbn [sortNumbers fold_right]; [reflexivity|].
  fold (sortNumbers rest). rewrite count_insertSorted. cbn [filter].
  destruct (f x); cbn [length]; rewrite IH; reflexivity.
Qed.

Lemma sorted_nth_le l :
  StronglySorted Qle l ->
  forall i j, (i <= j)%nat -> (j < length l)%nat -> nth i l 0 <= nth j l 0.
Proof.
  induction 1 as [|x rest Hrest IH Hall]; intros i j Hij Hj; [simpl in Hj; lia|].
  destruct j as [|j].
  - replace i with 0%nat by lia. apply Qle_refl.
  - destruct i as [|i]; cbn [nth].
    + rewrite Forall_forall in Hall. apply Hall. apply nth_In. simpl in Hj. lia.
    + apply IH; simpl in Hj; lia.
Qed.

Lemma filter_all (f : Q -> bool) l : Forall (fun v => f v = true) l -> filter f l = l.
Proof.
  induction 1 as [|x rest Hx _ IH]; [reflexivity|].
  cbn [filter]. rewrite Hx, IH. reflexivity.
Qed.

Lemma count_at_most l i :
  StronglySorted Qle l -> (i < length l)%nat ->
  (i + 1 <= length (filter (fun v => Qle_bool v (nth i l 0%Q)) l))%nat.
Proof.
  intros Hsorted Hi. set (f := fun v => Qle_bool v (nth i l 0)).
  replace (filter f l) with (filter f (firstn (S i) l ++ skipn (S i) l))
    by (rewrite firstn_skipn; reflexivity).
  rewrite filter_app, length_app, filter_all.
  - rewrite length_firstn. lia.
  - apply Forall_forall. intros v Hv.
    destruct (In_nth _ _ 0 Hv) as (j & Hj & <-). rewrite length_firstn in Hj.
    rewrite nth_firstn. replace (j <? S i)%nat with true by (symmetry; apply Nat.ltb_lt; lia).
    apply Qle_bool_iff. apply sorted_nth_le; [exact Hsorted|lia|exact Hi].
Qed.

Lemma count_at_least l i :
  StronglySorted Qle l -> (i < length l)%nat ->
  (length l - i <= length (filter (fun v => Qle_bool (nth i l 0%Q) v) l))%nat.
Proof.
  intros Hsorted Hi. set (f := fun v => Qle_bool (nth i l 0) v).
  replace (filter f l) with (filter f (firstn i l ++ skipn i l))
    by (rewrite firstn_skipn; reflexivity).
  rewrite filter_app, length_app, (filter_all _ (skipn i l)).
  - rewrite length_skipn. lia.
  - apply Forall_forall. intros v Hv.
    destruct (In_nth _ _ 0 Hv) as (j & Hj & <-). rewrite length_skipn in Hj.
    rewrite nth_skipn. apply Qle_bool_iff. apply sorted_nth_le; [exact Hsorted|lia|lia].
Qed.

(** X18. The strong level is the loudness at nine tenths of the way up:
    for [n >= 1] loudness values and [k = max(1, floor(0.9 n))], it is one
    of the values, at least [k] of the values are not above it and at least
    [n - k + 1] are not below it; so the talk threshold follows the loudest
    tenth of the windows and no single window. *)
Theorem strong_level_percentile (rmsValues : list Q) :
  rmsValues <> [] ->
  let n := length rmsValues in
  let k := Z.to_nat (Z.max 1 (Qfloor (inject_Z (Z.of_nat n) * 0.9))) in
  In (strongLevel rmsValues) rmsValues /\
  (k <= length (filter (fun v => Qle_bool v (strongLevel rmsValues)) rmsValues))%nat /\
  (n - k + 1 <= length (filter (fun v => Qle_bool (strongLevel rmsValues) v) rmsValues))%nat.
Proof.
  intros Hne n k. split; [apply strongLevel_In; exact Hne|].
  assert (Hpos : (0 < n)%nat) by (unfold n; destruct rmsValues; [contradiction|simpl; lia]).
  assert (Hfloor : (Qfloor (inject_Z (Z.of_nat n) * 0.9) <= Z.of_nat n)%Z).
  { rewrite <- (Qfloor_Z (Z.of_nat n)) at 2. apply Qfloor_resp_le.
    pose proof (inject_nat_nonneg n). lra. }
  unfold strongLevel. cbv zeta. rewrite length_sortNumbers. fold n.
  remember (Qfloor (inject_Z (Z.of_nat n) * 0.9)) as fl.
  set (i := Z.to_nat (Z.max 0 (fl - 1))).
  assert (Hi : (i < length (sortNumbers rmsValues))%nat)
    by (rewrite length_sortNumbers; fold n; unfold i; lia).
  pose proof (count_at_most _ i (sortNumbers_sorted rmsValues) Hi) as Hlow.
  pose proof (count_at_least _ i (sortNumbers_sorted rmsValues) Hi) as Hhigh.
  rewrite count_sortNumbers in Hlow, Hhigh. rewrite length_sortNumbers in Hhigh. fold n in Hhigh.
  unfold k, i in *. split; lia.
Qed.

Lemma strong_level_percentile_witness :
  let n := length threeLevels in
  let k := Z.to_nat (Z.max 1 (Qfloor (inject_Z (Z.of_nat n) * 0.9))) in
  In (strongLevel threeLevels) threeLevels /\
  (k <= length (filter (fun v => Qle_bool v (strongLevel threeLevels)) threeLevels))%nat /\
  (n - k + 1
   <= length (filter (fun v => Qle_bool (strongLevel threeLevels) v) threeLevels))%nat.
Proof.
  apply (strong_level_percentile threeLevels). discriminate.
Defined.

(** ** The silence hold *)

Section Hold.

Variables (duration windowDuration talkThreshold silenceThreshold : Q).

Local Abbreviation scan := (scanLoop duration windowDuration talkThreshold silenceThreshold).

Lemma scan_holds values : forall k block st,
  currentKind st = KindTalk ->
  silenceBlocks st = k -> (k <= 2)%nat ->
  ~ quietRun silenceThreshold (3 - k) values ->
  (forall front back, values = front ++ back -> ~ quietRun silenceThreshold 3 back) ->
  sc_segments (scan block values st) = sc_segments st /\
  currentKind (scan block values st) = KindTalk /\
  currentStart (scan block values st) = currentStart st.
Proof.
  induction values as [|v rest IH]; intros k block st Htalk Hk Hle Hrun Hnone;
    [simpl; auto|].
  cbn [scanLoop]. unfold scanBlock. rewrite Htalk, Hk.
  destruct (Qle_bool silenceThreshold v) eqn:Hv; cbn [negb].
  - destruct (IH 0%nat (S block) (setKind st KindTalk 0)) as (H1 & H2 & H3);
      try reflexivity; try lia.
    + apply (Hnone [v] rest). reflexivity.
    + intros front back ->. apply (Hnone (v :: front) back). reflexivity.
    + auto.
  - apply Qle_bool_false in Hv.
    destruct (SILENCE_HOLD_BLOCKS <=? k + 1)%nat eqn:Hhold.
    + exfalso. apply Hrun. apply Nat.leb_le in Hhold. unfold SILENCE_HOLD_BLOCKS in Hhold.
      replace (3 - k)%nat with 1%nat by lia. split; [cbn [length]; lia|].
      cbn [firstn]. constructor; [exact Hv|constructor].
    + apply Nat.leb_gt in Hhold. unfold SILENCE_HOLD_BLOCKS in Hhold.
      destruct (IH (k + 1)%nat (S block) (setKind st KindTalk (k + 1))) as (H1 & H2 & H3);
        try reflexivity; try lia.
      * intros [Hlen Hquiet]. apply Hrun.
        replace (3 - k)%nat with (S (3 - (k + 1))) by lia. split; [cbn [length]; lia|].
        cbn [firstn]. constructor; assumption.
      * intros front back ->. apply (Hnone (v :: front) back). reflexivity.
      * auto.
Qed.

Lemma scanBlock_quiet st block v :
  currentKind st = KindTalk -> v < silenceThreshold ->
  scanBlock duration windowDuration talkThreshold silenceThreshold st block v
  = if (SILENCE_HOLD_BLOCKS <=? silenceBlocks st + 1)%nat
    then setKind (flushSegment (setKind st KindTalk (silenceBlocks st + 1))
                    (Qmin duration (inject_Z (Z.of_nat block + 1) * windowDuration)))
                 KindIdle 0
    else setKind st KindTalk (silenceBlocks st + 1).
Proof.
  intros Htalk Hv. apply Qle_bool_false in Hv. unfold scanBlock. rewrite Htalk, Hv.
  reflexivity.
Qed.

(** X11. The silence hold of the scan.  While the scan is in a talk
    segment, pauses shorter than three windows do not end it: as long as the
    loudness values hold no three consecutive values below the silence
    threshold, no segment is emitted and the talk segment goes on from the
    same start.  Three consecutive values below the threshold end it, at
    the end of the third window (or at the end of the audio if that comes
    first), so the pause belongs to the talk segment; the segment is kept
    if it is longer than 0.05 s. *)
Theorem silence_hold (block : nat) (st : ScanState) :
  currentKind st = KindTalk ->
  silenceBlocks st = 0%nat ->
  (forall values,
     (forall front back, values = front ++ back -> ~ quietRun silenceThreshold 3 back) ->
     sc_segments (scan block values st) = sc_segments st /\
     currentKind (scan block values st) = KindTalk /\
     currentStart (scan block values st) = currentStart st) /\
  (forall q1 q2 q3,
     q1 < silenceThreshold -> q2 < silenceThreshold -> q3 < silenceThreshold ->
     let endTime := Qmin duration (inject_Z (Z.of_nat (block + 2) + 1) * windowDuration) in
     let st' := scan block [q1; q2; q3] st in
     currentKind st' = KindIdle /\ currentStart st' = endTime /\ silenceBlocks st' = 0%nat /\
     (endTime - currentStart st <= 0.05 -> sc_segments st' = sc_segments st) /\
     (0.05 < endTime - currentStart st ->
        sc_segments st'
        = sc_segments st ++
            [mkSegment (segmentIdOf KindTalk (length (sc_segments st))) KindTalk
                       (currentStart st) (endTime - currentStart st)])).
Proof.
  intros Htalk Hzero. split.
  - intros values Hnone. apply (scan_holds values 0%nat); auto.
    apply (Hnone [] values). reflexivity.
  - intros q1 q2 q3 H1 H2 H3 endTime st'. subst st'.
    cbn [scanLoop].
    rewrite (scanBlock_quiet st block q1 Htalk H1), Hzero.
    cbn [Nat.add Nat.leb SILENCE_HOLD_BLOCKS].
    rewrite (scanBlock_quiet _ (S block) q2); [|reflexivity|exact H2].
    cbn [setKind silenceBlocks Nat.add Nat.leb SILENCE_HOLD_BLOCKS].
    rewrite (scanBlock_quiet _ (S (S block)) q3); [|reflexivity|exact H3].
    cbn [setKind silenceBlocks sc_segments currentKind currentStart Nat.add Nat.leb
         SILENCE_HOLD_BLOCKS].
    replace (S (S block)) with (block + 2)%nat by lia. fold endTime.
    split; [reflexivity|]. split.
    { unfold flushSegment. destruct (Qle_bool _ _); reflexivity. }
    split; [reflexivity|]. split.
    + intros Hshort. rewrite flushSegment_discard by exact Hshort. reflexivity.
    + intros Hlong. rewrite flushSegment_push by exact Hlong. reflexivity.
Qed.

End Hold.

Lemma silence_hold_witness :
  (forall values,
     (forall front back, values = front ++ back -> ~ quietRun 0.011 3 back) ->
     sc_segments (scanLoop 1 0.08 0.02 0.011 1 values (mkScan [] KindTalk 0 0)) = [] /\
     currentKind (scanLoop 1 0.08 0.02 0.011 1 values (mkScan [] KindTalk 0 0)) = KindTalk /\
     currentStart (scanLoop 1 0.08 0.02 0.011 1 values (mkScan [] KindTalk 0 0)) = 0) /\
  (forall q1 q2 q3,
     q1 < 0.011 -> q2 < 0.011 -> q3 < 0.011 ->
     let endTime := Qmin 1 (inject_Z (Z.of_nat (1 + 2) + 1) * 0.08) in
     let st' := scanLoop 1 0.08 0.02 0.011 1 [q1; q2; q3] (mkScan [] KindTalk 0 0) in
     currentKind st' = KindIdle /\ currentStart st' = endTime /\ silenceBlocks st' = 0%nat /\
     (endTime - 0 <= 0.05 -> sc_segments st' = []) /\
     (0.05 < endTime - 0 ->
        sc_segments st'
        = [] ++ [mkSegment (segmentIdOf KindTalk 0) KindTalk 0 (endTime - 0)])).
Proof.
  apply (silence_hold 1 0.08 0.02 0.011 1 (mkScan [] KindTalk 0 0)); reflexivity.
Defined.

End SegmenterFacts.

(** * Further properties of the realigner *)

Module RealignerFacts.
Import Audio Realign RealignFacts.

(** ** Typed-array operations inside their bounds *)

Lemma length_subarray data (b e : Z) :
  (0 <= b <= e)%Z -> (e <= Z.of_nat (length data))%Z ->
  length (subarray data b e) = Z.to_nat (e - b).
Proof.
  intros Hb He. unfold subarray. rewrite length_firstn, length_skipn. lia.
Qed.

Lemma nth_subarray data (b e : Z) (k : nat) :
  (0 <= b)%Z -> (Z.of_nat k < e - b)%Z ->
  nth k (subarray data b e) 0 = nth (Z.to_nat b + k) data 0.
Proof.
  intros Hb Hk. unfold subarray. rewrite nth_firstn.
  replace (k <? Z.to_nat (e - b))%nat with true by (symmetry; apply Nat.ltb_lt; lia).
  rewrite nth_skipn. reflexivity.
Qed.

Lemma length_setAt target input (offset : Z) :
  (0 <= offset)%Z -> (offset + Z.of_nat (length input) <= Z.of_nat (length target))%Z ->
  length (setAt target input offset) = length target.
Proof.
  intros Ho Hfit. unfold setAt. rewrite !length_app, length_firstn, length_skipn. lia.
Qed.

Lemma nth_setAt target input (offset : Z) (p : nat) :
  (0 <= offset)%Z -> (offset + Z.of_nat (length input) <= Z.of_nat (length target))%Z ->
  nth p (setAt target input offset) 0
  = if ((offset <=? Z.of_nat p) && (Z.of_nat p <? offset + Z.of_nat (length input)))%Z
    then nth (p - Z.to_nat offset) input 0
    else nth p target 0.
Proof.
  intros Ho Hfit. unfold setAt.
  assert (Hlen : length (firstn (Z.to_nat offset) target) = Z.to_nat offset)
    by (rewrite length_firstn; lia).
  destruct (offset <=? Z.of_nat p)%Z eqn:H1; cbn [andb].
  - apply Z.leb_le in H1. rewrite app_nth2 by lia. rewrite Hlen.
    destruct (Z.of_nat p <? offset + Z.of_nat (length input))%Z eqn:H2.
    + apply Z.ltb_lt in H2. rewrite app_nth1 by lia. reflexivity.
    + apply Z.ltb_ge in H2. rewrite app_nth2 by lia. rewrite nth_skipn. f_equal. lia.
  - apply Z.leb_gt in H1. rewrite app_nth1 by lia. rewrite nth_firstn.
    replace (p <? Z.to_nat offset)%nat with true by (symmetry; apply Nat.ltb_lt; lia).
    reflexivity.
Qed.

(** ** One copy *)

Lemma planCopy_inBounds audioBuffer totalSamples plan c :
  0 < sampleRate audioBuffer -> fromZero plan ->
  planCopy audioBuffer totalSamples plan = Some c ->
  inBounds audioBuffer totalSamples c.
Proof.
  intros Hrate [Ha Hv]. unfold planCopy. cbv zeta.
  assert (Hsrc : (0 <= Qfloor (audioStart plan * sampleRate audioBuffer))%Z).
  { apply Qfloor_greatest. change (inject_Z 0) with 0. nra. }
  assert (Htgt : (0 <= Qfloor (videoStart plan * sampleRate audioBuffer))%Z).
  { apply Qfloor_greatest. change (inject_Z 0) with 0. nra. }
  remember (Qfloor (audioStart plan * sampleRate audioBuffer)) as src.
  remember (Qfloor (videoStart plan * sampleRate audioBuffer)) as tgt.
  remember (Qfloor (audioDuration plan * sampleRate audioBuffer)) as n.
  destruct ((_ <=? 0) || (_ <=? 0))%Z eqn:Hskip; [discriminate|].
  apply orb_false_iff in Hskip. destruct Hskip as [H1 H2].
  apply Z.leb_gt in H1, H2.
  destruct (_ <=? 0)%Z eqn:H3; [discriminate|]. apply Z.leb_gt in H3.
  intros H. injection H as <-. unfold inBounds. cbn [sourceStart targetStart copyLength].
  lia.
Qed.

Section OneCopy.

Variables (L N : nat) (c : Copy).

Hypothesis source_in : (0 <= sourceStart c /\ sourceStart c + copyLength c <= Z.of_nat L)%Z.
Hypothesis target_in : (0 <= targetStart c /\ targetStart c + copyLength c <= Z.of_nat N)%Z.
Hypothesis copy_pos : (0 < copyLength c)%Z.

Lemma copyChannels_shape inputs : forall outputs,
  Forall (fun data => length data = L) inputs ->
  Forall (fun data => length data = N) outputs ->
  Forall (fun data => length data = N) (copyChannels inputs outputs c) /\
  length (copyChannels inputs outputs c) = length outputs.
Proof.
  induction inputs as [|input inputs IH]; intros outputs Hin Hout; [split; auto|].
  destruct outputs as [|output outputs]; [split; auto|].
  cbn [copyChannels]. inversion Hin as [|? ? Hinput Hin']. inversion Hout as [|? ? Houtput Hout'].
  subst. destruct (IH outputs Hin' Hout') as [Hshape Hlen]. split.
  - constructor; [|exact Hshape]. rewrite length_setAt; [reflexivity|lia|].
    rewrite length_subarray; lia.
  - cbn [length]. rewrite Hlen. reflexivity.
Qed.

Lemma copyChannels_nth inputs : forall outputs channel p,
  Forall (fun data => length data = L) inputs ->
  Forall (fun data => length data = N) outputs ->
  length inputs = length outputs ->
  nth p (nth channel (copyChannels inputs outputs c) []) 0
  = if ((targetStart c <=? Z.of_nat p) && (Z.of_nat p <? targetStart c + copyLength c))%Z
    then nth (Z.to_nat (sourceStart c + (Z.of_nat p - targetStart c)))
             (nth channel inputs []) 0
    else nth p (nth channel outputs []) 0.
Proof.
  induction inputs as [|input inputs IH]; intros outputs channel p Hin Hout Hlen.
  - destruct outputs; [|discriminate]. cbn [copyChannels].
    assert (Hnil : forall ch k, nth k (nth ch (@nil (list Q)) []) 0 = 0)
      by (intros [|ch] [|k]; reflexivity).
    rewrite !Hnil. destruct (_ && _); reflexivity.
  - destruct outputs as [|output outputs]; [discriminate|].
    cbn [copyChannels]. inversion Hin as [|? ? Hinput Hin']. inversion Hout as [|? ? Houtput Hout'].
    subst. destruct channel as [|channel]; cbn [nth].
    + rewrite nth_setAt; [|lia|rewrite length_subarray; lia].
      rewrite length_subarray by lia.
      replace (Z.of_nat (Z.to_nat (sourceStart c + copyLength c - sourceStart c)))
        with (copyLength c) by lia.
      destruct (_ && _)%Z eqn:Hcov; [|reflexivity].
      apply andb_true_iff in Hcov. destruct Hcov as [H1 H2].
      apply Z.leb_le in H1. apply Z.ltb_lt in H2.
      rewrite nth_subarray by lia. f_equal. lia.
    + apply IH; [exact Hin'|exact Hout'|]. cbn [length] in Hlen. lia.
Qed.

End OneCopy.

(** ** The loop over the talk plans *)

Section Loop.

Variable audioBuffer : AudioBuffer.
Variable totalSamples : Z.

Hypothesis well_formed : wellFormed audioBuffer.
Hypothesis rate_pos : 0 < sampleRate audioBuffer.
Hypothesis total_nonneg : (0 <= totalSamples)%Z.

Local Abbreviation shaped := (fun output : list (list Q) =>
  Forall (fun data => length data = Z.to_nat totalSamples) output /\
  length output = numberOfChannels audioBuffer).

Lemma copyPlan_shape output plan :
  fromZero plan -> shaped output -> shaped (copyPlan audioBuffer totalSamples output plan).
Proof.
  intros Hplan [Hshape Hlen]. unfold copyPlan.
  destruct (planCopy audioBuffer totalSamples plan) as [c|] eqn:Hc; [|split; assumption].
  apply planCopy_inBounds in Hc; [|exact rate_pos|exact Hplan].
  destruct Hc as (H1 & H2 & H3 & H4 & H5).
  destruct (copyChannels_shape (buf_length audioBuffer) (Z.to_nat totalSamples) c
              ltac:(lia) ltac:(lia) ltac:(lia) (channelData audioBuffer) output
              well_formed Hshape) as [Hs Hl].
  split; [exact Hs|]. rewrite Hl. exact Hlen.
Qed.

Lemma copyPlan_nth output plan channel p :
  fromZero plan -> shaped output ->
  nth p (nth channel (copyPlan audioBuffer totalSamples output plan) []) 0
  = match planCopy audioBuffer totalSamples plan with
    | Some c =>
        if ((targetStart c <=? Z.of_nat p) && (Z.of_nat p <? targetStart c + copyLength c))%Z
        then nth (Z.to_nat (sourceStart c + (Z.of_nat p - targetStart c)))
                 (nth channel (channelData audioBuffer) []) 0
        else nth p (nth channel output []) 0
    | None => nth p (nth channel output []) 0
    end.
Proof.
  intros Hplan [Hshape Hlen]. unfold copyPlan.
  destruct (planCopy audioBuffer totalSamples plan) as [c|] eqn:Hc; [|reflexivity].
  apply planCopy_inBounds in Hc; [|exact rate_pos|exact Hplan].
  destruct Hc as (H1 & H2 & H3 & H4 & H5).
  apply (copyChannels_nth (buf_length audioBuffer) (Z.to_nat totalSamples) c);
    try lia; try assumption.
  symmetry. exact Hlen.
Qed.

Lemma fold_shape plans : forall output,
  Forall fromZero plans -> shaped output ->
  shaped (fold_left (copyPlan audioBuffer totalSamples) plans output).
Proof.
  induction plans as [|plan rest IH]; intros output Hplans Hout; [exact Hout|].
  inversion Hplans as [|? ? Hplan Hrest]. subst. cbn [fold_left].
  apply IH; [exact Hrest|]. apply copyPlan_shape; assumption.
Qed.

Lemma fold_uncovered plans channel p : forall output,
  Forall fromZero plans -> shaped output ->
  (forall plan c, In plan plans -> planCopy audioBuffer totalSamples plan = Some c ->
     ~ covers c (Z.of_nat p)) ->
  nth p (nth channel (fold_left (copyPlan audioBuffer totalSamples) plans output) []) 0
  = nth p (nth channel output []) 0.
Proof.
  induction plans as [|plan rest IH]; intros output Hplans Hout Hnone; [reflexivity|].
  inversion Hplans as [|? ? Hplan Hrest]. subst. cbn [fold_left].
  rewrite IH; [|exact Hrest|apply copyPlan_shape; assumption|].
  - rewrite copyPlan_nth by assumption.
    destruct (planCopy audioBuffer totalSamples plan) as [c|] eqn:Hc; [|reflexivity].
    destruct (_ && _)%Z eqn:Hcov; [|reflexivity].
    exfalso. apply (Hnone plan c); [left; reflexivity|exact Hc|].
    apply andb_true_iff in Hcov. destruct Hcov as [H1 H2].
    apply Z.leb_le in H1. apply Z.ltb_lt in H2. split; assumption.
  - intros plan' c' Hin. apply Hnone. right. exact Hin.
Qed.

End Loop.

Lemma silence_shape (n channels : nat) :
  Forall (fun data : list Q => length data = n) (repeat (repeat 0 n) channels) /\
  length (repeat (repeat 0 n) channels) = channels.
Proof.
  split; [|apply repeat_length].
  apply Forall_forall. intros data Hin. apply repeat_spec in Hin. subst.
  apply repeat_length.
Qed.

Lemma nth_silence (n channels channel p : nat) :
  nth p (nth channel (repeat (repeat 0 n) channels) []) 0 = 0.
Proof.
  destruct (Nat.lt_ge_cases channel channels) as [Hlt|Hge].
  - rewrite nth_repeat_lt by exact Hlt. destruct (Nat.lt_ge_cases p n).
    + apply nth_repeat_lt. assumption.
    + apply nth_overflow. rewrite repeat_length. assumption.
  - rewrite (nth_overflow (repeat (repeat 0 n) channels))
      by (rewrite repeat_length; exact Hge).
    destruct p; reflexivity.
Qed.

(** X12. The realigned buffer has the shape the call asks for, and every
    copy stays inside the buffers: for a well-formed input, a positive
    total duration and talk plans without negative times, each copy reads
    [copyLength > 0] samples inside the input and writes them inside the
    output (so [subarray] and [set] never go out of range), and the result
    has the input's sample rate and channel count and
    [ceil(totalDuration * sampleRate)] samples in every channel. *)
Theorem realigned_shape (audioBuffer : AudioBuffer) (talkPlans : list TalkPlan)
    (totalDuration : Q) :
  wellFormed audioBuffer ->
  0 < sampleRate audioBuffer ->
  0 < totalDuration ->
  Forall fromZero talkPlans ->
  let totalSamples := totalSamplesOf audioBuffer totalDuration in
  let output := buildAlignedAudioBuffer audioBuffer talkPlans totalDuration in
  (forall plan c, In plan talkPlans ->
     planCopy audioBuffer totalSamples plan = Some c ->
     inBounds audioBuffer totalSamples c) /\
  sampleRate output = sampleRate audioBuffer /\
  numberOfChannels output = numberOfChannels audioBuffer /\
  (1 <= totalSamples)%Z /\
  Z.of_nat (buf_length output) = totalSamples /\
  wellFormed output.
Proof.
  intros Hwf Hrate Hdur Hplans totalSamples output.
  assert (Htotal : (1 <= totalSamples)%Z).
  { unfold totalSamples, totalSamplesOf.
    assert (Hpos : 0 < totalDuration * sampleRate audioBuffer) by nra.
    pose proof (Qle_ceiling (totalDuration * sampleRate audioBuffer)) as Hceil.
    assert (Hz : inject_Z 0 < inject_Z (Qceiling (totalDuration * sampleRate audioBuffer))).
    { change (inject_Z 0) with 0. lra. }
    rewrite <- Zlt_Qlt in Hz. lia. }
  destruct (fold_shape audioBuffer totalSamples Hwf Hrate talkPlans
              (repeat (repeat 0 (Z.to_nat totalSamples)) (numberOfChannels audioBuffer))
              Hplans (silence_shape _ _)) as [Hshape Hlen].
  split; [|split; [|split; [|split; [|split]]]].
  - intros plan c Hin Hc. rewrite Forall_forall in Hplans.
    eapply planCopy_inBounds; [exact Hrate|apply Hplans; exact Hin|exact Hc].
  - reflexivity.
  - exact Hlen.
  - exact Htotal.
  - unfold output, buildAlignedAudioBuffer. cbn [buf_length]. fold totalSamples. lia.
  - exact Hshape.
Qed.

Lemma realigned_shape_witness :
  let totalSamples := totalSamplesOf eightSamples (8 # 8000) in
  let output := buildAlignedAudioBuffer eightSamples [shiftPlan] (8 # 8000) in
  (forall plan c, In plan [shiftPlan] ->
     planCopy eightSamples totalSamples plan = Some c ->
     inBounds eightSamples totalSamples c) /\
  sampleRate output = sampleRate eightSamples /\
  numberOfChannels output = numberOfChannels eightSamples /\
  (1 <= totalSamples)%Z /\
  Z.of_nat (buf_length output) = totalSamples /\
  wellFormed output.
Proof.
  apply (realigned_shape eightSamples [shiftPlan] (8 # 8000)).
  - repeat constructor.
  - reflexivity.
  - reflexivity.
  - repeat constructor; discriminate.
Defined.

(** X13. What the realigned buffer holds.  A sample that no copy covers is
    silence (0); a sample covered by the copy of a talk plan, and by none
    of the plans after it in the list, is the input sample at the same
    distance from the copy's source start: later plans overwrite earlier
    ones, and nothing is mixed. *)
Theorem realigned_samples (audioBuffer : AudioBuffer) (talkPlans : list TalkPlan)
    (totalDuration : Q) (channel p : nat) :
  wellFormed audioBuffer ->
  0 < sampleRate audioBuffer ->
  0 < totalDuration ->
  Forall fromZero talkPlans ->
  let totalSamples := totalSamplesOf audioBuffer totalDuration in
  let output := buildAlignedAudioBuffer audioBuffer talkPlans totalDuration in
  ((forall plan c, In plan talkPlans ->
      planCopy audioBuffer totalSamples plan = Some c -> ~ covers c (Z.of_nat p)) ->
   sampleAt output channel p = 0) /\
  (forall before plan after c,
     talkPlans = before ++ plan :: after ->
     planCopy audioBuffer totalSamples plan = Some c ->
     covers c (Z.of_nat p) ->
     (forall plan' c', In plan' after ->
        planCopy audioBuffer totalSamples plan' = Some c' -> ~ covers c' (Z.of_nat p)) ->
     sampleAt output channel p
     = sampleAt audioBuffer channel
         (Z.to_nat (sourceStart c + (Z.of_nat p - targetStart c)))).
Proof.
  intros Hwf Hrate Hdur Hplans totalSamples output.
  unfold output, buildAlignedAudioBuffer, sampleAt. cbn [channelData].
  fold totalSamples. fold (copyPlan audioBuffer totalSamples).
  split.
  - intros Hnone.
    rewrite (fold_uncovered audioBuffer totalSamples Hwf Hrate talkPlans channel p);
      [apply nth_silence|exact Hplans|apply silence_shape|exact Hnone].
  - intros before plan after c -> Hc Hcov Hnone.
    rewrite fold_left_app. cbn [fold_left].
    apply Forall_app in Hplans. destruct Hplans as [Hbefore Hrest].
    inversion Hrest as [|? ? Hplan Hafter]. subst.
    pose proof (fold_shape audioBuffer totalSamples Hwf Hrate before _ Hbefore
                  (silence_shape (Z.to_nat totalSamples) (numberOfChannels audioBuffer)))
      as Hshape.
    rewrite (fold_uncovered audioBuffer totalSamples Hwf Hrate after channel p);
      [|exact Hafter|apply copyPlan_shape; assumption|exact Hnone].
    rewrite copyPlan_nth by assumption. rewrite Hc.
    destruct Hcov as [H1 H2].
    replace (targetStart c <=? Z.of_nat p)%Z with true by (symmetry; apply Z.leb_le; exact H1).
    replace (Z.of_nat p <? targetStart c + copyLength c)%Z with true
      by (symmetry; apply Z.ltb_lt; exact H2).
    reflexivity.
Qed.

Lemma realigned_samples_witness :
  let totalSamples := totalSamplesOf eightSamples (8 # 8000) in
  let output := buildAlignedAudioBuffer eightSamples [shiftPlan] (8 # 8000) in
  ((forall plan c, In plan [shiftPlan] ->
      planCopy eightSamples totalSamples plan = Some c -> ~ covers c (Z.of_nat 3)) ->
   sampleAt output 0 3 = 0) /\
  (forall before plan after c,
     [shiftPlan] = before ++ plan :: after ->
     planCopy eightSamples totalSamples plan = Some c ->
     covers c (Z.of_nat 3) ->
     (forall plan' c', In plan' after ->
        planCopy eightSamples totalSamples plan' = Some c' -> ~ covers c' (Z.of_nat 3)) ->
     sampleAt output 0 3
     = sampleAt eightSamples 0 (Z.to_nat (sourceStart c + (Z.of_nat 3 - targetStart c)))).
Proof.
  apply (realigned_samples eightSamples [shiftPlan] (8 # 8000) 0 3).
  - repeat constructor.
  - reflexivity.
  - reflexivity.
  - repeat constructor; discriminate.
Defined.

End RealignerFacts.

(** * Further properties of the PCM encoder *)

Module EncoderFacts.
Import Audio Wav WavFacts.

(** ** Truncation *)

Lemma truncate_compat (x y : Q) : x == y -> truncate x = truncate y.
Proof.
  destruct x as [n d], y as [n' d']. unfold truncate, Qeq. simpl. intros H.
  rewrite <- (Z.quot_mul_cancel_r n (Z.pos d) (Z.pos d')) by lia.
  rewrite <- (Z.quot_mul_cancel_r n' (Z.pos d') (Z.pos d)) by lia.
  rewrite H. f_equal. lia.
Qed.

Lemma truncate_inject (z : Z) : truncate (inject_Z z) = z.
Proof. unfold truncate. simpl. apply Z.quot_1_r. Qed.

Lemma truncate_floor (x : Q) : 0 <= x -> truncate x = Qfloor x.
Proof.
  destruct x as [n d]. unfold truncate, Qfloor, Qle. simpl. intros H.
  apply Z.quot_div_nonneg; lia.
Qed.

Lemma truncate_opp (x : Q) : truncate (- x) = (- truncate x)%Z.
Proof. destruct x as [n d]. unfold truncate. simpl. apply Z.quot_opp_l. lia. Qed.

Lemma truncate_nonpos (x : Q) : x <= 0 -> truncate x = (- Qfloor (- x))%Z.
Proof.
  intros H. rewrite <- (truncate_compat _ _ (Qopp_involutive x)), truncate_opp.
  rewrite truncate_floor by lra. reflexivity.
Qed.

Lemma truncate_monotone (x y : Q) : x <= y -> (truncate x <= truncate y)%Z.
Proof.
  intros Hle. destruct (Qlt_le_dec x 0) as [Hx|Hx], (Qlt_le_dec y 0) as [Hy|Hy].
  - rewrite !truncate_nonpos by lra.
    assert (Qfloor (- y) <= Qfloor (- x))%Z by (apply Qfloor_resp_le; lra). lia.
  - rewrite truncate_nonpos, truncate_floor by lra.
    assert (0 <= Qfloor (- x))%Z.
    { rewrite <- (Qfloor_Z 0). apply Qfloor_resp_le. change (inject_Z 0) with 0. lra. }
    assert (0 <= Qfloor y)%Z.
    { rewrite <- (Qfloor_Z 0). apply Qfloor_resp_le. change (inject_Z 0) with 0. lra. }
    lia.
  - lra.
  - rewrite !truncate_floor by lra. apply Qfloor_resp_le. exact Hle.
Qed.

(** ** Writing into the zeroes behind what is written *)

Lemma setByte_behind pre : forall view offset value,
  setByte (pre ++ view) (length pre + offset) value = pre ++ setByte view offset value.
Proof.
  induction pre as [|b pre IH]; intros view offset value; [reflexivity|].
  cbn [app length Nat.add setByte]. rewrite IH. reflexivity.
Qed.

Lemma setInt16_behind pre r value :
  setInt16 (pre ++ repeat 0%Z (2 + r)) (length pre) value
  = (pre ++ bytes16 value) ++ repeat 0%Z r.
Proof.
  unfold setInt16, setUint16, bytes16. cbv zeta. cbn [repeat Nat.add].
  rewrite <- (Nat.add_0_r (length pre)) at 1. rewrite setByte_behind. cbn [setByte].
  rewrite setByte_behind. cbn [setByte]. rewrite <- app_assoc. reflexivity.
Qed.

Lemma writeFrame_layout channels i : forall pre r,
  writeFrame channels i (pre ++ repeat 0%Z (2 * length channels + r), length pre)
  = (pre ++ frameBytes channels i ++ repeat 0%Z r, (length pre + 2 * length channels)%nat).
Proof.
  unfold writeFrame, frameBytes.
  induction channels as [|data rest IH]; intros pre r.
  - cbn [fold_left flat_map length Nat.mul Nat.add app]. rewrite Nat.add_0_r. reflexivity.
  - cbn [fold_left flat_map length].
    replace (2 * S (length rest) + r)%nat with (2 + (2 * length rest + r))%nat by lia.
    rewrite setInt16_behind.
    replace (length pre + 2)%nat with (length (pre ++ bytes16 (scaleSample (nth i data 0))))
      by (rewrite length_app; reflexivity).
    rewrite IH. rewrite length_app, <- !app_assoc. cbn [bytes16 length]. f_equal. lia.
Qed.

Lemma length_frameBytes channels i : length (frameBytes channels i) = (2 * length channels)%nat.
Proof.
  unfold frameBytes. induction channels as [|data rest IH]; [reflexivity|].
  cbn [flat_map length]. rewrite length_app, IH. cbn [bytes16 length]. lia.
Qed.

Lemma frames_layout channels count : forall start pre r,
  fold_left (fun acc i => writeFrame channels i acc) (seq start count)
            (pre ++ repeat 0%Z (count * (2 * length channels) + r), length pre)
  = (pre ++ flat_map (frameBytes channels) (seq start count) ++ repeat 0%Z r,
     (length pre + count * (2 * length channels))%nat).
Proof.
  induction count as [|count IH]; intros start pre r.
  - cbn [seq fold_left flat_map Nat.mul Nat.add app]. rewrite Nat.add_0_r. reflexivity.
  - cbn [seq fold_left flat_map].
    replace (S count * (2 * length channels) + r)%nat
      with (2 * length channels + (count * (2 * length channels) + r))%nat by lia.
    rewrite writeFrame_layout.
    rewrite app_assoc.
    replace (length pre + 2 * length channels)%nat
      with (length (pre ++ frameBytes channels start)).
    + rewrite IH. rewrite length_app, <- !app_assoc. f_equal.
      rewrite length_frameBytes. lia.
    + rewrite length_app, length_frameBytes. reflexivity.
Qed.

(** ** The file: header, then the frames *)

Lemma wav_size (n c : nat) :
  Z.to_nat (truncate (44 + inject_Z (Z.of_nat n) * (inject_Z (Z.of_nat c) * 16 / 8)))
  = (44 + (n * (2 * c) + 0))%nat.
Proof.
  rewrite (truncate_compat _ (inject_Z (44 + 2 * Z.of_nat c * Z.of_nat n))).
  - rewrite truncate_inject. lia.
  - rewrite inject_Z_plus, !inject_Z_mult. change (inject_Z 44) with 44.
    change (inject_Z 2) with 2. field.
Qed.

Lemma frames_behind channels count view pre :
  view = pre ++ repeat 0%Z (count * (2 * length channels) + 0) ->
  length pre = 44%nat ->
  fst (fold_left (fun acc i => writeFrame channels i acc) (seq 0 count) (view, 44%nat))
  = pre ++ flat_map (frameBytes channels) (seq 0 count).
Proof.
  intros -> <-. rewrite frames_layout. cbn [fst repeat]. rewrite app_nil_r. reflexivity.
Qed.

Lemma wav_layout buffer :
  audioBufferToWav buffer
  = wavHeader buffer ++ flat_map (frameBytes (channelData buffer)) (seq 0 (buf_length buffer)).
Proof.
  unfold audioBufferToWav. cbv zeta. rewrite wav_size.
  apply frames_behind; reflexivity.
Qed.

Lemma header_length buffer : length (wavHeader buffer) = 44%nat.
Proof. reflexivity. Qed.

Lemma length_frames channels count : forall start,
  length (flat_map (frameBytes channels) (seq start count))
  = (count * (2 * length channels))%nat.
Proof.
  induction count as [|count IH]; intros start; [reflexivity|].
  cbn [seq flat_map]. rewrite length_app, length_frameBytes, IH. lia.
Qed.

Lemma getUint8_header buffer body k :
  (k < 44)%nat -> getUint8 (wavHeader buffer ++ body) k = getUint8 (wavHeader buffer) k.
Proof. intros Hk. unfold getUint8. apply app_nth1. rewrite header_length. exact Hk. Qed.

Lemma uint32_join (u : Z) :
  (0 <= u < 4294967296)%Z ->
  (u mod 256 + 256 * (u / 256 mod 256) + 65536 * (u / 65536 mod 256)
   + 16777216 * (u / 16777216) = u)%Z.
Proof. intros H. Z.div_mod_to_equations. lia. Qed.

Lemma uint16_join (u : Z) : (u mod 256 + 256 * (u / 256) = u)%Z.
Proof. Z.div_mod_to_equations. lia. Qed.

Lemma toUint32_range (x : Q) : (0 <= toUint 32 x < 4294967296)%Z.
Proof. unfold toUint. apply Z.mod_pos_bound. reflexivity. Qed.

Ltac read_header :=
  unfold getUint32, getUint16; rewrite ?getUint8_header by lia;
  unfold getUint8, wavHeader; cbv zeta;
  cbn [repeat writeString setUint8 setUint16 setUint32 setByte nth Nat.add].

(** X14. The layout of the file [audioBufferToWav] returns, for every
    buffer: 44 header bytes and then 2 bytes per sample and channel; the
    tags RIFF, WAVE, "fmt " and data at 0, 8, 12 and 36; format 1 and 16
    bits per sample; and the counts, each reduced modulo the width of its
    field: the channel count at 22, the truncated sample rate at 24, the
    byte rate at 28, the block size 2 * channels at 32, the data size
    2 * channels * samples at 40 and 36 more at 4.  As long as the file is
    shorter than 2^32 bytes the two sizes are the length of the file less 8
    and less 44. *)
Theorem wav_file_layout (buffer : AudioBuffer) :
  let wav := audioBufferToWav buffer in
  let c := Z.of_nat (numberOfChannels buffer) in
  let n := Z.of_nat (buf_length buffer) in
  (Z.of_nat (length wav) = 44 + 2 * c * n)%Z /\
  map (getUint8 wav) [0; 1; 2; 3]%nat = [82; 73; 70; 70]%Z /\
  map (getUint8 wav) [8; 9; 10; 11]%nat = [87; 65; 86; 69]%Z /\
  map (getUint8 wav) [12; 13; 14; 15]%nat = [102; 109; 116; 32]%Z /\
  map (getUint8 wav) [36; 37; 38; 39]%nat = [100; 97; 116; 97]%Z /\
  getUint32 wav 16 = 16%Z /\
  getUint16 wav 20 = 1%Z /\
  getUint16 wav 34 = 16%Z /\
  (getUint16 wav 22 = c mod 2 ^ 16)%Z /\
  (getUint32 wav 24 = truncate (sampleRate buffer) mod 2 ^ 32)%Z /\
  (getUint32 wav 28 = truncate (sampleRate buffer * inject_Z (2 * c)) mod 2 ^ 32)%Z /\
  (getUint16 wav 32 = (2 * c) mod 2 ^ 16)%Z /\
  (getUint32 wav 40 = (2 * c * n) mod 2 ^ 32)%Z /\
  (getUint32 wav 4 = (36 + 2 * c * n) mod 2 ^ 32)%Z /\
  ((44 + 2 * c * n < 2 ^ 32)%Z ->
   (getUint32 wav 4 = Z.of_nat (length wav) - 8)%Z /\
   (getUint32 wav 40 = Z.of_nat (length wav) - 44)%Z).
Proof.
  intros wav c n.
  assert (Hblock : inject_Z c * 16 / 8 == inject_Z (2 * c)).
  { rewrite inject_Z_mult. change (inject_Z 2) with 2. field. }
  assert (Hdata : inject_Z n * (inject_Z c * 16 / 8) == inject_Z (2 * c * n)).
  { rewrite !inject_Z_mult. change (inject_Z 2) with 2. field. }
  assert (Hlen : (Z.of_nat (length wav) = 44 + 2 * c * n)%Z).
  { unfold wav. rewrite wav_layout, length_app, header_length, length_frames.
    unfold c, n, numberOfChannels. lia. }
  assert (H40 : (getUint32 wav 40 = (2 * c * n) mod 2 ^ 32)%Z).
  { unfold wav. rewrite wav_layout. read_header.
    rewrite uint32_join by apply toUint32_range. unfold toUint. fold c n.
    rewrite (truncate_compat _ _ Hdata), truncate_inject. reflexivity. }
  assert (H4 : (getUint32 wav 4 = (36 + 2 * c * n) mod 2 ^ 32)%Z).
  { unfold wav. rewrite wav_layout. read_header.
    rewrite uint32_join by apply toUint32_range. unfold toUint. fold c n.
    rewrite (truncate_compat _ (inject_Z (36 + 2 * c * n))), truncate_inject; [reflexivity|].
    rewrite Hdata, inject_Z_plus. reflexivity. }
  assert (Htags : forall offsets,
            Forall (fun k => (k < 44)%nat) offsets ->
            map (getUint8 wav) offsets = map (getUint8 (wavHeader buffer)) offsets).
  { intros offsets Hall. apply map_ext_in. intros k Hk. rewrite Forall_forall in Hall.
    unfold wav. rewrite wav_layout. apply getUint8_header. apply Hall. exact Hk. }
  assert (H16 : getUint32 wav 16 = 16%Z).
  { unfold wav. rewrite wav_layout. read_header.
    rewrite uint32_join by apply toUint32_range. reflexivity. }
  assert (H20 : getUint16 wav 20 = 1%Z).
  { unfold wav. rewrite wav_layout. read_header. rewrite uint16_join. reflexivity. }
  assert (H34 : getUint16 wav 34 = 16%Z).
  { unfold wav. rewrite wav_layout. read_header. rewrite uint16_join. reflexivity. }
  assert (H22 : (getUint16 wav 22 = c mod 2 ^ 16)%Z).
  { unfold wav. rewrite wav_layout. read_header. rewrite uint16_join. unfold toUint. fold c.
    rewrite truncate_inject. reflexivity. }
  assert (H24 : (getUint32 wav 24 = truncate (sampleRate buffer) mod 2 ^ 32)%Z).
  { unfold wav. rewrite wav_layout. read_header.
    rewrite uint32_join by apply toUint32_range. reflexivity. }
  assert (H28 : (getUint32 wav 28
                 = truncate (sampleRate buffer * inject_Z (2 * c)) mod 2 ^ 32)%Z).
  { unfold wav. rewrite wav_layout. read_header.
    rewrite uint32_join by apply toUint32_range. unfold toUint. fold c.
    rewrite (truncate_compat _ (sampleRate buffer * inject_Z (2 * c))); [reflexivity|].
    rewrite Hblock. reflexivity. }
  assert (H32 : (getUint16 wav 32 = (2 * c) mod 2 ^ 16)%Z).
  { unfold wav. rewrite wav_layout. read_header. rewrite uint16_join. unfold toUint. fold c.
    rewrite (truncate_compat _ _ Hblock), truncate_inject. reflexivity. }
  split; [exact Hlen|].
  split; [rewrite Htags by (repeat constructor); reflexivity|].
  split; [rewrite Htags by (repeat constructor); reflexivity|].
  split; [rewrite Htags by (repeat constructor); reflexivity|].
  split; [rewrite Htags by (repeat constructor); reflexivity|].
  split; [exact H16|]. split; [exact H20|]. split; [exact H34|]. split; [exact H22|].
  split; [exact H24|]. split; [exact H28|]. split; [exact H32|]. split; [exact H40|].
  split; [exact H4|].
  intros Hfit. rewrite H4, H40, Hlen.
  assert (0 <= 2 * c * n)%Z by (unfold c, n; lia).
  rewrite !Z.mod_small by lia. lia.
Qed.

(** ** Reading the samples back *)

Lemma nth_flat_map {A} (f : A -> list Z) (m : nat) (l : list A) :
  (forall x, length (f x) = m) ->
  forall i j x0, (i < length l)%nat -> (j < m)%nat ->
    nth (i * m + j) (flat_map f l) 0%Z = nth j (f (nth i l x0)) 0%Z.
Proof.
  intros Hm. induction l as [|a l IH]; intros i j x0 Hi Hj; [simpl in Hi; lia|].
  cbn [flat_map]. destruct i as [|i].
  - cbn [Nat.mul Nat.add nth]. apply app_nth1. rewrite Hm. exact Hj.
  - rewrite app_nth2 by (rewrite Hm; lia). rewrite Hm.
    replace (S i * m + j - m)%nat with (i * m + j)%nat by lia.
    cbn [nth]. apply IH; [simpl in Hi; lia|exact Hj].
Qed.

Lemma nth_frames buffer channel i (b : nat) :
  (channel < numberOfChannels buffer)%nat -> (i < buf_length buffer)%nat -> (b < 2)%nat ->
  nth (2 * (i * numberOfChannels buffer + channel) + b)
      (flat_map (frameBytes (channelData buffer)) (seq 0 (buf_length buffer))) 0%Z
  = nth b (bytes16 (scaleSample (Realign.sampleAt buffer channel i))) 0%Z.
Proof.
  intros Hc Hi Hb. unfold numberOfChannels in *.
  replace (2 * (i * length (channelData buffer) + channel) + b)%nat
    with (i * (2 * length (channelData buffer)) + (channel * 2 + b))%nat by lia.
  rewrite (nth_flat_map _ (2 * length (channelData buffer)) _
             (length_frameBytes (channelData buffer)) i (channel * 2 + b) 0%nat);
    [|rewrite length_seq; exact Hi|lia].
  rewrite seq_nth by exact Hi. cbn [Nat.add]. unfold frameBytes.
  rewrite (nth_flat_map (fun data => bytes16 (scaleSample (nth i data 0))) 2
             (channelData buffer) (fun data => eq_refl) channel b []);
    [|exact Hc|exact Hb].
  reflexivity.
Qed.

Lemma sampleCode_range sample : (-32768 <= sampleCode sample <= 32767)%Z.
Proof.
  destruct (scaleSample_bounds sample) as [Hmin Hmax].
  apply truncate_bounds; [lia|exact Hmin|exact Hmax].
Qed.

Lemma int16_of_bytes (t : Z) :
  (-32768 <= t <= 32767)%Z ->
  (let u := (t mod 2 ^ 16)%Z in
   let joined := (u mod 256 + 256 * (u / 256))%Z in
   if (32768 <=? joined)%Z then (joined - 65536)%Z else joined) = t.
Proof.
  intros Hfit. cbv zeta. rewrite uint16_join. change (2 ^ 16)%Z with 65536%Z.
  destruct (Z_le_gt_dec 0 t) as [Hpos|Hneg].
  - rewrite Z.mod_small by lia.
    destruct (32768 <=? t)%Z eqn:Hcmp; [apply Z.leb_le in Hcmp; lia|reflexivity].
  - assert (Heq : (t mod 65536 = t + 65536)%Z).
    { rewrite <- (Z.mod_small (t + 65536) 65536) by lia.
      rewrite <- (Z_mod_plus_full t 1 65536). reflexivity. }
    rewrite Heq. destruct (32768 <=? t + 65536)%Z eqn:Hcmp; [lia|].
    apply Z.leb_gt in Hcmp. lia.
Qed.

(** X15. The samples of the file: the 16-bit little-endian integer at byte
    44 + 2 * (i * channels + channel), read back as a signed number, is the
    code of sample [i] of that channel, that is the sample clamped to
    [-1, 1], scaled by 32768 below zero and by 32767 otherwise, and
    truncated toward zero; frames follow each other and the channels are
    interleaved within a frame. *)
Theorem wav_samples (buffer : AudioBuffer) (channel i : nat) :
  (channel < numberOfChannels buffer)%nat ->
  (i < buf_length buffer)%nat ->
  getInt16 (audioBufferToWav buffer) (44 + 2 * (i * numberOfChannels buffer + channel))
  = sampleCode (Realign.sampleAt buffer channel i).
Proof.
  intros Hc Hi. rewrite wav_layout. unfold getInt16, getUint16, getUint8.
  rewrite !app_nth2 by (rewrite header_length; lia). rewrite header_length.
  replace (44 + 2 * (i * numberOfChannels buffer + channel) - 44)%nat
    with (2 * (i * numberOfChannels buffer + channel) + 0)%nat by lia.
  replace (44 + 2 * (i * numberOfChannels buffer + channel) + 1 - 44)%nat
    with (2 * (i * numberOfChannels buffer + channel) + 1)%nat by lia.
  rewrite !nth_frames by (assumption || lia).
  unfold bytes16, toUint. cbv zeta. cbn [nth].
  apply (int16_of_bytes (sampleCode (Realign.sampleAt buffer channel i))).
  apply sampleCode_range.
Qed.

Lemma wav_samples_witness :
  getInt16 (audioBufferToWav referenceBuffer) (44 + 2 * (3 * numberOfChannels referenceBuffer + 0))
  = sampleCode (Realign.sampleAt referenceBuffer 0 3).
Proof.
  apply (wav_samples referenceBuffer 0 3); vm_compute; lia.
Defined.

(** ** The code of a sample *)

Lemma clamp_monotone a b : a <= b -> clamp a <= clamp b.
Proof.
  intros H. unfold clamp. apply Q.max_le_compat_l. apply Q.min_le_compat_l. exact H.
Qed.

Lemma scaleSample_monotone a b : a <= b -> scaleSample a <= scaleSample b.
Proof.
  intros H. apply clamp_monotone in H. unfold scaleSample.
  destruct (Qlt_le_dec (clamp a) 0), (Qlt_le_dec (clamp b) 0); nra.
Qed.

Lemma clamp_inside s : -1 <= s -> s <= 1 -> clamp s == s.
Proof.
  intros Hlo Hhi. unfold clamp. rewrite Q.min_r by exact Hhi. apply Q.max_r. exact Hlo.
Qed.

(** X16. The code stored for a sample: it always fits 16 bits; it never
    decreases when the sample increases; samples of 1 and more are stored as
    32767 and samples of -1 and less as -32768, so clipping saturates and
    never wraps around; no sample changes sign; and, the product being
    truncated toward zero, every sample strictly between -1/32768 and
    1/32767 is stored as 0. *)
Theorem sample_code_order :
  (forall s, (-32768 <= sampleCode s <= 32767)%Z) /\
  (forall a b, a <= b -> (sampleCode a <= sampleCode b)%Z) /\
  (forall s, 1 <= s -> sampleCode s = 32767%Z) /\
  (forall s, s <= -1 -> sampleCode s = (-32768)%Z) /\
  (forall s, 0 <= s -> (0 <= sampleCode s)%Z) /\
  (forall s, s <= 0 -> (sampleCode s <= 0)%Z) /\
  (forall s, - (1 # 32768) < s -> s < 1 # 32767 -> sampleCode s = 0%Z).
Proof.
  assert (Hmono : forall a b, a <= b -> (sampleCode a <= sampleCode b)%Z).
  { intros a b H. unfold sampleCode. apply truncate_monotone, scaleSample_monotone, H. }
  assert (Hzero : sampleCode 0 = 0%Z) by reflexivity.
  split; [exact sampleCode_range|]. split; [exact Hmono|].
  split; [|split; [|split; [|split]]].
  - intros s Hs. apply Z.le_antisymm; [apply sampleCode_range|].
    change 32767%Z with (sampleCode 1). apply Hmono. exact Hs.
  - intros s Hs. apply Z.le_antisymm; [|apply sampleCode_range].
    change (-32768)%Z with (sampleCode (-1)). apply Hmono. exact Hs.
  - intros s Hs. rewrite <- Hzero. apply Hmono. exact Hs.
  - intros s Hs. rewrite <- Hzero. apply Hmono. exact Hs.
  - intros s Hlo Hhi. unfold sampleCode.
    assert (Hclamp : clamp s == s) by (apply clamp_inside; lra).
    destruct (Qlt_le_dec s 0) as [Hneg|Hpos].
    + assert (Hscale : scaleSample s == s * 32768).
      { unfold scaleSample. destruct (Qlt_le_dec (clamp s) 0); rewrite Hclamp; [reflexivity|lra]. }
      rewrite (truncate_compat _ _ Hscale), truncate_nonpos by lra.
      assert (Hfloor : Qfloor (- (s * 32768)) = 0%Z).
      { apply Z.le_antisymm.
        - apply Z.lt_succ_r. rewrite Zlt_Qlt.
          eapply Qle_lt_trans; [apply Qfloor_le|]. change (inject_Z (Z.succ 0)) with 1. lra.
        - apply RealignFacts.Qfloor_greatest. change (inject_Z 0) with 0. lra. }
      rewrite Hfloor. reflexivity.
    + assert (Hscale : scaleSample s == s * 32767).
      { unfold scaleSample. destruct (Qlt_le_dec (clamp s) 0); rewrite Hclamp; [lra|reflexivity]. }
      rewrite (truncate_compat _ _ Hscale), truncate_floor by lra.
      apply Z.le_antisymm.
      * apply Z.lt_succ_r. rewrite Zlt_Qlt.
        eapply Qle_lt_trans; [apply Qfloor_le|]. change (inject_Z (Z.succ 0)) with 1. lra.
      * apply RealignFacts.Qfloor_greatest. change (inject_Z 0) with 0. lra.
Qed.

End EncoderFacts.

(** * The stages in sequence *)

Module PipelineFacts.
Import Timeline TimelineFacts Audio AudioFacts Realign Pipeline.








End PipelineFacts.

(** * Properties of the rounding *)

Module NumberFacts.
Import Number.

Lemma pow2_pos (e : Z) : 0 < pow2 e.
Proof.
  destruct e as [|p|p]; unfold pow2.
  - reflexivity.
  - change 0 with (inject_Z 0). rewrite <- Zlt_Qlt. apply Z.pow_pos_nonneg; lia.
  - reflexivity.
Qed.

Lemma pow2_nonneg_exponent (e : Z) : (0 <= e)%Z -> pow2 e = inject_Z (2 ^ e).
Proof. destruct e; try reflexivity. lia. Qed.

Lemma pow2_neg (p : positive) : pow2 (Zneg p) * inject_Z (2 ^ Zpos p) == 1.
Proof.
  unfold pow2, Qeq, Qmult, inject_Z. cbn [Qnum Qden].
  rewrite Pos.mul_1_r, Pos2Z.inj_pow. lia.
Qed.

Lemma pow2_neg_inv (p : positive) : pow2 (Zneg p) == / inject_Z (2 ^ Zpos p).
Proof.
  pose proof (pow2_neg p) as H.
  assert (Hpos : 0 < inject_Z (2 ^ Zpos p)).
  { change 0 with (inject_Z 0). rewrite <- Zlt_Qlt. apply Z.pow_pos_nonneg; lia. }
  apply (Qmult_inj_r _ _ (inject_Z (2 ^ Z.pos p))); [lra|].
  rewrite H. field. lra.
Qed.

Lemma pow2_succ (e : Z) : pow2 (e + 1) == 2 * pow2 e.
Proof.
  destruct (Z_le_gt_dec 0 e) as [H|H].
  - rewrite !pow2_nonneg_exponent by lia. rewrite Z.pow_add_r by lia.
    rewrite inject_Z_mult. change (inject_Z (2 ^ 1)) with 2. ring.
  - destruct e as [|p|p]; try lia.
    destruct (Pos.eq_dec p 1) as [->|Hp].
    + reflexivity.
    + assert (Hsplit : (Z.neg p + 1 = Z.neg (p - 1))%Z) by lia.
      rewrite Hsplit, !pow2_neg_inv.
      assert (Hpow : (2 ^ Z.pos p = 2 * 2 ^ Z.pos (p - 1))%Z).
      { replace (Z.pos p) with (Z.pos (p - 1) + 1)%Z by lia.
        rewrite Z.pow_add_r by lia. replace (Z.pos (p - 1) + 1 - 1)%Z with (Z.pos (p - 1)) by lia.
        lia. }
      rewrite Hpow, inject_Z_mult. change (inject_Z 2) with 2.
      assert (Hpos : 0 < inject_Z (2 ^ Zpos (p - 1))).
      { change 0 with (inject_Z 0). rewrite <- Zlt_Qlt. apply Z.pow_pos_nonneg; lia. }
      field. lra.
Qed.

Lemma pow2_pred (e : Z) : pow2 e == 2 * pow2 (e - 1).
Proof. rewrite <- pow2_succ. replace (e - 1 + 1)%Z with e by lia. reflexivity. Qed.

Lemma pow2_add_nat (e : Z) (n : nat) :
  pow2 (e + Z.of_nat n) == pow2 e * inject_Z (2 ^ Z.of_nat n).
Proof.
  induction n as [|n IH].
  - simpl. rewrite Z.add_0_r. change (inject_Z 1) with 1. ring.
  - rewrite Nat2Z.inj_succ. unfold Z.succ.
    rewrite Z.add_assoc, pow2_succ, IH.
    rewrite Z.pow_add_r by lia. rewrite inject_Z_mult. change (inject_Z (2 ^ 1)) with 2. ring.
Qed.

Lemma pow2_add (a b : Z) : pow2 (a + b) == pow2 a * pow2 b.
Proof.
  destruct (Z_le_gt_dec 0 b) as [H|H].
  - rewrite <- (Z2Nat.id b) at 1 by lia. rewrite pow2_add_nat.
    rewrite Z2Nat.id by lia. rewrite (pow2_nonneg_exponent b) by lia. reflexivity.
  - assert (Hb : pow2 a == pow2 (a + b) * inject_Z (2 ^ (- b))).
    { rewrite <- (Z2Nat.id (- b)) by lia. rewrite <- pow2_add_nat.
      rewrite Z2Nat.id by lia. replace (a + b + - b)%Z with a by lia. reflexivity. }
    destruct b as [|p|p]; try lia.
    rewrite Hb. rewrite <- Qmult_assoc. rewrite (Qmult_comm _ (pow2 _)).
    simpl Z.opp. rewrite pow2_neg. ring.
Qed.

Lemma pow2_le (a b : Z) : (a <= b)%Z -> pow2 a <= pow2 b.
Proof.
  intros H. replace b with (a + (b - a))%Z by lia. rewrite pow2_add.
  rewrite (pow2_nonneg_exponent (b - a)) by lia.
  assert (1 <= inject_Z (2 ^ (b - a))).
  { change 1 with (inject_Z 1). rewrite <- Zle_Qle.
    assert (0 < 2 ^ (b - a))%Z by (apply Z.pow_pos_nonneg; lia). lia. }
  pose proof (pow2_pos a). nra.
Qed.

Lemma pow2_lt (a b : Z) : (a < b)%Z -> pow2 a < pow2 b.
Proof.
  intros H. apply Qlt_le_trans with (pow2 (a + 1)).
  - rewrite pow2_succ. pose proof (pow2_pos a). lra.
  - apply pow2_le. lia.
Qed.

Lemma Qabs_fraction (q : Q) :
  Qabs q * inject_Z (Zpos (Qden q)) == inject_Z (Z.abs (Qnum q)).
Proof.
  destruct q as [n d]. unfold Qabs, Qeq, Qmult, inject_Z. cbn [Qnum Qden]. lia.
Qed.

Lemma binade_bounds (q : Q) :
  ~ q == 0 -> pow2 (binade q) <= Qabs q /\ Qabs q < pow2 (binade q + 1).
Proof.
  intros Hq. unfold binade.
  set (n := Z.abs (Qnum q)). set (d := Zpos (Qden q)).
  assert (Hn : (0 < n)%Z).
  { subst n. destruct q as [[|p|p] den]; cbn [Qnum Z.abs]; try lia.
    exfalso. apply Hq. reflexivity. }
  assert (Hd : (0 < d)%Z) by (subst d; lia).
  destruct (Z.log2_spec n Hn) as [Hn1 Hn2]. destruct (Z.log2_spec d Hd) as [Hd1 Hd2].
  pose proof (Z.log2_nonneg n) as Ha. pose proof (Z.log2_nonneg d) as Hb.
  set (a := Z.log2 n) in *. set (b := Z.log2 d) in *.
  pose proof (Qabs_fraction q) as Hfrac. fold n d in Hfrac.
  rewrite Zle_Qle in Hn1, Hd1. rewrite Zlt_Qlt in Hn2, Hd2.
  unfold Z.succ in Hn2, Hd2.
  rewrite <- !pow2_nonneg_exponent in Hn1, Hn2, Hd1, Hd2 by lia.
  rewrite pow2_succ in Hn2, Hd2.
  assert (Hsplit : pow2 (a - b) * pow2 b == pow2 a).
  { rewrite <- pow2_add. replace (a - b + b)%Z with a by lia. reflexivity. }
  pose proof (pow2_pos (a - b)) as HP. pose proof (pow2_pos b) as HB.
  pose proof (pow2_pred (a - b)) as Hpred.
  pose proof (pow2_succ (a - b)) as Hsucc.
  pose proof (pow2_pos (a - b - 1)) as HP'.
  assert (HD : 0 < inject_Z d) by (change 0 with (inject_Z 0); rewrite <- Zlt_Qlt; exact Hd).
  set (X := Qabs q) in *. set (D := inject_Z d) in *. set (N := inject_Z n) in *.
  set (P := pow2 (a - b)) in *. set (B := pow2 b) in *. set (A := pow2 a) in *.
  assert (Hupper : X < 2 * P).
  { apply (Qmult_lt_r _ _ D HD). rewrite Hfrac. nra. }
  assert (Hlower : pow2 (a - b - 1) <= X).
  { apply (Qmult_le_r _ _ D HD). rewrite Hfrac. nra. }
  destruct (Qle_bool P X) eqn:Hcmp.
  - apply Qle_bool_iff in Hcmp. split; [exact Hcmp|]. rewrite Hsucc. exact Hupper.
  - split; [exact Hlower|]. replace (a - b - 1 + 1)%Z with (a - b)%Z by lia.
    apply Qnot_le_lt. intros Hle. apply Qle_bool_iff in Hle. fold P in Hle. congruence.
Qed.

Lemma nearestEven_cases (x : Q) :
  nearestEven x = Qfloor x \/ nearestEven x = (Qfloor x + 1)%Z.
Proof.
  unfold nearestEven. destruct (Qcompare _ _); [destruct (Z.even _)| |]; auto.
Qed.

Lemma nearestEven_near (x : Q) :
  inject_Z (nearestEven x) - (1 # 2) <= x /\ x <= inject_Z (nearestEven x) + (1 # 2).
Proof.
  unfold nearestEven. pose proof (Qfloor_le x) as Hlo. pose proof (Qlt_floor x) as Hhi.
  rewrite inject_Z_plus in Hhi. change (inject_Z 1) with 1 in Hhi.
  destruct (Qcompare (x - inject_Z (Qfloor x)) (1 # 2)) eqn:Hcmp.
  - apply Qeq_alt in Hcmp.
    destruct (Z.even (Qfloor x)); [|rewrite inject_Z_plus; change (inject_Z 1) with 1]; lra.
  - apply Qlt_alt in Hcmp. lra.
  - apply Qgt_alt in Hcmp. rewrite inject_Z_plus. change (inject_Z 1) with 1. lra.
Qed.

Lemma nearestEven_Z (z : Z) : nearestEven (inject_Z z) = z.
Proof.
  unfold nearestEven. rewrite Qfloor_Z.
  destruct (Qcompare (inject_Z z - inject_Z z) (1 # 2)) eqn:Hcmp; [| reflexivity |].
  - apply Qeq_alt in Hcmp. lra.
  - apply Qgt_alt in Hcmp. lra.
Qed.

Lemma nearestEven_comp (x y : Q) : x == y -> nearestEven x = nearestEven y.
Proof.
  intros H. unfold nearestEven. rewrite (Qfloor_comp _ _ H).
  assert (Hc : Qcompare (x - inject_Z (Qfloor y)) (1 # 2)
               = Qcompare (y - inject_Z (Qfloor y)) (1 # 2)).
  { apply Qcompare_comp; [rewrite H; reflexivity | reflexivity]. }
  rewrite Hc. reflexivity.
Qed.

Lemma nearestEven_mono (x y : Q) : x <= y -> (nearestEven x <= nearestEven y)%Z.
Proof.
  intros Hle. pose proof (Qfloor_resp_le _ _ Hle) as Hfloor.
  destruct (Z.eq_dec (Qfloor x) (Qfloor y)) as [Heq|Hne].
  - unfold nearestEven. rewrite Heq.
    destruct (Qcompare (x - inject_Z (Qfloor y)) (1 # 2)) eqn:Hx;
      destruct (Qcompare (y - inject_Z (Qfloor y)) (1 # 2)) eqn:Hy;
      try (destruct (Z.even (Qfloor y))); try lia;
      repeat match goal with
             | H : Qcompare _ _ = Eq |- _ => apply Qeq_alt in H
             | H : Qcompare _ _ = Lt |- _ => apply Qlt_alt in H
             | H : Qcompare _ _ = Gt |- _ => apply Qgt_alt in H
             end; exfalso; lra.
  - destruct (nearestEven_cases x) as [-> | ->], (nearestEven_cases y) as [-> | ->]; lia.
Qed.

Lemma nearestEven_nonneg (x : Q) : 0 <= x -> (0 <= nearestEven x)%Z.
Proof.
  intros H. rewrite <- (nearestEven_Z 0). apply nearestEven_mono. exact H.
Qed.

Lemma binade_unique (q : Q) (k : Z) :
  pow2 k <= Qabs q -> Qabs q < pow2 (k + 1) -> binade q = k.
Proof.
  intros Hlo Hhi.
  assert (Hq : ~ q == 0).
  { intros H. rewrite H in Hlo. pose proof (pow2_pos k). change (Qabs 0) with 0 in Hlo. lra. }
  destruct (binade_bounds q Hq) as [Hlo' Hhi'].
  destruct (Z_lt_le_dec (binade q) k) as [Hlt|Hge].
  - pose proof (pow2_le (binade q + 1) k ltac:(lia)). lra.
  - destruct (Z_lt_le_dec k (binade q)) as [Hlt|Hle]; [|lia].
    pose proof (pow2_le (k + 1) (binade q) ltac:(lia)). lra.
Qed.

Lemma binade_comp (x y : Q) : ~ x == 0 -> x == y -> binade x = binade y.
Proof.
  intros Hx Heq. symmetry. destruct (binade_bounds x Hx) as [Hlo Hhi].
  apply binade_unique; rewrite <- Heq; assumption.
Qed.

Lemma exponent_comp (x y : Q) : ~ x == 0 -> x == y -> exponent x = exponent y.
Proof. intros Hx Heq. unfold exponent. rewrite (binade_comp x y Hx Heq). reflexivity. Qed.

Lemma round_zero (q : Q) : q == 0 -> round q = 0.
Proof. intros H. unfold round. apply Qeq_bool_iff in H. rewrite H. reflexivity. Qed.

Lemma round_nonzero (q : Q) :
  ~ q == 0 ->
  round q = Qred (inject_Z (nearestEven (q / pow2 (exponent q))) * pow2 (exponent q)).
Proof.
  intros H. unfold round. destruct (Qeq_bool q 0) eqn:Hz; [|reflexivity].
  apply Qeq_bool_iff in Hz. contradiction.
Qed.

(** [round] does not depend on how its argument is written. *)
Lemma round_comp (x y : Q) : x == y -> round x = round y.
Proof.
  intros Heq. destruct (Qeq_dec x 0) as [Hz|Hnz].
  - rewrite (round_zero x Hz). symmetry. apply round_zero. rewrite <- Heq. exact Hz.
  - assert (Hy : ~ y == 0) by (rewrite <- Heq; exact Hnz).
    rewrite (round_nonzero x Hnz), (round_nonzero y Hy).
    rewrite (exponent_comp x y Hnz Heq). apply Qred_complete.
    rewrite (nearestEven_comp (x / pow2 (exponent y)) (y / pow2 (exponent y))).
    + reflexivity.
    + rewrite Heq. reflexivity.
Qed.

Lemma round_value (q : Q) :
  ~ q == 0 ->
  round q == inject_Z (nearestEven (q / pow2 (exponent q))) * pow2 (exponent q).
Proof. intros H. rewrite (round_nonzero q H). apply Qred_correct. Qed.

(** Rounding moves a number by at most half the spacing at its exponent. *)
Lemma round_error (q : Q) :
  ~ q == 0 -> Qabs (round q - q) <= pow2 (exponent q) * (1 # 2).
Proof.
  intros Hq. rewrite (round_value q Hq).
  set (P := pow2 (exponent q)). pose proof (pow2_pos (exponent q)) as HP. fold P in HP.
  destruct (nearestEven_near (q / P)) as [Hlo Hhi].
  set (N := inject_Z (nearestEven (q / P))) in *.
  assert (Hq' : q == q / P * P) by (field; lra).
  apply Qabs_Qle_condition. split.
  - apply (Qmult_le_r _ _ P HP) in Hhi. nra.
  - apply (Qmult_le_r _ _ P HP) in Hlo. nra.
Qed.

Lemma exponent_normal (q : Q) :
  pow2 (-1022) <= Qabs q -> exponent q = (binade q - 52)%Z.
Proof.
  intros H.
  assert (Hq : ~ q == 0).
  { intros Hz. rewrite Hz in H. change (Qabs 0) with 0 in H. vm_compute in H. apply H. reflexivity. }
  destruct (binade_bounds q Hq) as [_ Hhi].
  assert (-1022 < binade q + 1)%Z.
  { destruct (Z_lt_le_dec (-1022) (binade q + 1)) as [|Hle]; [assumption|].
    pose proof (pow2_le _ _ Hle). lra. }
  unfold exponent. lia.
Qed.

(** In the normal range the relative error of rounding is at most [2^-53]. *)
Lemma round_relative (q : Q) :
  pow2 (-1022) <= Qabs q -> Qabs (round q - q) <= unitRoundoff * Qabs q.
Proof.
  intros H.
  assert (Hq : ~ q == 0).
  { intros Hz. rewrite Hz in H. change (Qabs 0) with 0 in H. vm_compute in H. apply H. reflexivity. }
  pose proof (round_error q Hq) as Herr. rewrite (exponent_normal q H) in Herr.
  destruct (binade_bounds q Hq) as [Hlo _].
  replace (binade q - 52)%Z with (binade q + -52)%Z in Herr by lia.
  rewrite pow2_add in Herr. unfold unitRoundoff.
  assert (Hu : pow2 (-52) * (1 # 2) == pow2 (-53)) by reflexivity.
  pose proof (pow2_pos (-53)). pose proof (pow2_pos (binade q)).
  nra.
Qed.

Lemma Qfloor_unique (x : Q) (z : Z) :
  inject_Z z <= x -> x < inject_Z z + 1 -> Qfloor x = z.
Proof.
  intros Hlo Hhi. pose proof (Qfloor_le x) as Hf. pose proof (Qlt_floor x) as Hf'.
  rewrite inject_Z_plus in Hf'. change (inject_Z 1) with 1 in Hf'.
  assert (H1 : (Qfloor x < z + 1)%Z).
  { rewrite Zlt_Qlt, inject_Z_plus. change (inject_Z 1) with 1. lra. }
  assert (H2 : (z < Qfloor x + 1)%Z).
  { rewrite Zlt_Qlt, inject_Z_plus. change (inject_Z 1) with 1. lra. }
  lia.
Qed.

Lemma nearestEven_opp (x : Q) : nearestEven (- x) = (- nearestEven x)%Z.
Proof.
  pose proof (Qfloor_le x) as Hlo. pose proof (Qlt_floor x) as Hhi.
  rewrite inject_Z_plus in Hhi. change (inject_Z 1) with 1 in Hhi.
  set (f := Qfloor x) in *.
  destruct (Qeq_dec x (inject_Z f)) as [Hint|Hfrac].
  - rewrite (nearestEven_comp x (inject_Z f) Hint).
    rewrite (nearestEven_comp (- x) (inject_Z (- f))).
    + rewrite !nearestEven_Z. reflexivity.
    + rewrite Hint, inject_Z_opp. reflexivity.
  - assert (Hf : Qfloor (- x) = (- f - 1)%Z).
    { apply Qfloor_unique.
      - unfold Z.sub. rewrite inject_Z_plus, inject_Z_opp. change (inject_Z (- (1))) with (-(1)). lra.
      - unfold Z.sub. rewrite inject_Z_plus, inject_Z_opp. change (inject_Z (- (1))) with (-(1)).
        assert (inject_Z f < x); [|lra]. apply Qle_lt_or_eq in Hlo. destruct Hlo as [|Heq]; [assumption|].
        exfalso. apply Hfrac. symmetry. exact Heq. }
    unfold nearestEven. fold f. rewrite Hf.
    assert (Hparity : Z.even (- f - 1) = negb (Z.even f)).
    { replace (- f - 1)%Z with (- (f + 1))%Z by lia. rewrite Z.even_opp.
      rewrite Z.even_add. destruct (Z.even f); reflexivity. }
    rewrite Hparity.
    assert (Hm : - x - inject_Z (- f - 1) == 1 - (x - inject_Z f)).
    { unfold Z.sub. rewrite inject_Z_plus, inject_Z_opp. change (inject_Z (- (1))) with (-(1)). ring. }
    destruct (Qcompare (x - inject_Z f) (1 # 2)) eqn:Hx;
      destruct (Qcompare (- x - inject_Z (- f - 1)) (1 # 2)) eqn:Hy;
      repeat match goal with
             | H : Qcompare _ _ = Eq |- _ => apply Qeq_alt in H
             | H : Qcompare _ _ = Lt |- _ => apply Qlt_alt in H
             | H : Qcompare _ _ = Gt |- _ => apply Qgt_alt in H
             end;
      try (exfalso; lra); try (destruct (Z.even f); cbn [negb]); lia.
Qed.

Lemma binade_opp (q : Q) : ~ q == 0 -> binade (- q) = binade q.
Proof.
  intros Hq. destruct (binade_bounds q Hq) as [Hlo Hhi].
  apply binade_unique; rewrite Qabs_opp; assumption.
Qed.

(** Rounding is symmetric about zero. *)
Lemma round_opp (q : Q) : round (- q) == - round q.
Proof.
  destruct (Qeq_dec q 0) as [Hz|Hnz].
  - rewrite (round_zero q Hz), (round_zero (- q)); [reflexivity | rewrite Hz; reflexivity].
  - assert (Hn : ~ - q == 0) by (intros H; apply Hnz; lra).
    rewrite (round_value q Hnz), (round_value (- q) Hn).
    unfold exponent. rewrite (binade_opp q Hnz). fold (exponent q).
    set (P := pow2 (exponent q)). pose proof (pow2_pos (exponent q)) as HP. fold P in HP.
    rewrite (nearestEven_comp (- q / P) (- (q / P))) by (field; lra).
    rewrite nearestEven_opp, inject_Z_opp. ring.
Qed.

Lemma round_nonneg (q : Q) : 0 <= q -> 0 <= round q.
Proof.
  intros H. destruct (Qeq_dec q 0) as [Hz|Hnz].
  - rewrite (round_zero q Hz). lra.
  - rewrite (round_value q Hnz). pose proof (pow2_pos (exponent q)) as HP.
    assert (HN : (0 <= nearestEven (q / pow2 (exponent q)))%Z).
    { apply nearestEven_nonneg. apply Qle_shift_div_l; [exact HP | lra]. }
    rewrite Zle_Qle in HN. change (inject_Z 0) with 0 in HN. nra.
Qed.

Lemma round_nonpos (q : Q) : q <= 0 -> round q <= 0.
Proof.
  intros H. assert (Hn : 0 <= round (- q)) by (apply round_nonneg; lra).
  rewrite round_opp in Hn. lra.
Qed.

(** A rounded value has the sign of the exact one. *)
Lemma round_pos_inv (q : Q) : 0 < round q -> 0 < q.
Proof.
  intros H. apply Qnot_le_lt. intros Hle. apply round_nonpos in Hle. lra.
Qed.

Lemma round_neg_inv (q : Q) : round q < 0 -> q < 0.
Proof.
  intros H. apply Qnot_le_lt. intros Hle. apply round_nonneg in Hle. lra.
Qed.

Lemma binade_mono (p q : Q) : 0 < p -> p <= q -> (binade p <= binade q)%Z.
Proof.
  intros Hp Hle.
  assert (Hp' : ~ p == 0) by lra. assert (Hq' : ~ q == 0) by lra.
  destruct (binade_bounds p Hp') as [Hlo _]. destruct (binade_bounds q Hq') as [_ Hhi].
  rewrite Qabs_pos in Hlo, Hhi by lra.
  destruct (Z_le_gt_dec (binade p) (binade q)) as [|Hgt]; [assumption|].
  pose proof (pow2_le (binade q + 1) (binade p) ltac:(lia)). lra.
Qed.

Lemma pow2_ratio (k e : Z) : (e <= k)%Z -> pow2 k / pow2 e == inject_Z (2 ^ (k - e)).
Proof.
  intros H. rewrite <- pow2_nonneg_exponent by lia.
  pose proof (pow2_pos e).
  assert (Hk : pow2 k == pow2 (k - e) * pow2 e).
  { rewrite <- pow2_add. replace (k - e + e)%Z with k by lia. reflexivity. }
  rewrite Hk. field. lra.
Qed.

(** Rounding does not cross a power of two that lies on the grid. *)
Lemma round_below_pow2 (q : Q) (k : Z) :
  0 < q -> (exponent q <= k)%Z -> q <= pow2 k -> round q <= pow2 k.
Proof.
  intros Hq He Hle. rewrite (round_value q) by lra.
  set (P := pow2 (exponent q)). pose proof (pow2_pos (exponent q)) as HP. fold P in HP.
  assert (HN : (nearestEven (q / P) <= 2 ^ (k - exponent q))%Z).
  { rewrite <- (nearestEven_Z (2 ^ (k - exponent q))). apply nearestEven_mono.
    rewrite <- pow2_ratio by exact He. fold P.
    apply Qle_shift_div_l; [exact HP|].
    assert (q / P * P == q) by (field; lra). lra. }
  rewrite Zle_Qle in HN. rewrite <- pow2_ratio in HN by exact He. fold P in HN.
  apply (Qmult_le_r _ _ P HP) in HN.
  assert (pow2 k / P * P == pow2 k) by (field; lra). lra.
Qed.

Lemma round_above_pow2 (q : Q) (k : Z) :
  0 < q -> (exponent q <= k)%Z -> pow2 k <= q -> pow2 k <= round q.
Proof.
  intros Hq He Hle. rewrite (round_value q) by lra.
  set (P := pow2 (exponent q)). pose proof (pow2_pos (exponent q)) as HP. fold P in HP.
  assert (HN : (2 ^ (k - exponent q) <= nearestEven (q / P))%Z).
  { rewrite <- (nearestEven_Z (2 ^ (k - exponent q))) at 1. apply nearestEven_mono.
    rewrite <- pow2_ratio by exact He. fold P.
    apply Qle_shift_div_r; [exact HP|].
    assert (q / P * P == q) by (field; lra). lra. }
  rewrite Zle_Qle in HN. rewrite <- pow2_ratio in HN by exact He. fold P in HN.
  apply (Qmult_le_r _ _ P HP) in HN.
  assert (pow2 k / P * P == pow2 k) by (field; lra). lra.
Qed.

Lemma round_mono_pos (p q : Q) : 0 < p -> p <= q -> round p <= round q.
Proof.
  intros Hp Hle. pose proof (binade_mono p q Hp Hle) as Hb.
  assert (Hp' : ~ p == 0) by lra. assert (Hq' : ~ q == 0) by lra.
  destruct (Z.eq_dec (exponent p) (exponent q)) as [Heq|Hne].
  - rewrite (round_value p Hp'), (round_value q Hq'), Heq.
    set (P := pow2 (exponent q)). pose proof (pow2_pos (exponent q)) as HP. fold P in HP.
    assert (HN : (nearestEven (p / P) <= nearestEven (q / P))%Z).
    { apply nearestEven_mono. apply Qle_shift_div_l; [exact HP|].
      assert (p / P * P == p) by (field; lra). lra. }
    rewrite Zle_Qle in HN. nra.
  - assert (Hlt : (binade p < binade q)%Z).
    { unfold exponent in Hne. lia. }
    assert (Heq : (exponent q <= binade q)%Z).
    { unfold exponent in *. lia. }
    destruct (binade_bounds p Hp') as [_ Hhi]. destruct (binade_bounds q Hq') as [Hlo _].
    rewrite Qabs_pos in Hhi, Hlo by lra.
    pose proof (pow2_le (binade p + 1) (binade q) ltac:(lia)) as Hstep.
    apply Qle_trans with (pow2 (binade q)).
    + apply round_below_pow2; [exact Hp | unfold exponent in *; lia | lra].
    + apply round_above_pow2; [lra | exact Heq | exact Hlo].
Qed.

(** Rounding keeps the order. *)
Lemma round_mono (p q : Q) : p <= q -> round p <= round q.
Proof.
  intros Hle. destruct (Qlt_le_dec 0 p) as [Hp|Hp].
  - apply round_mono_pos; assumption.
  - destruct (Qlt_le_dec q 0) as [Hq|Hq].
    + assert (H : round (- q) <= round (- p)) by (apply round_mono_pos; lra).
      rewrite !round_opp in H. lra.
    + apply Qle_trans with 0; [apply round_nonpos | apply round_nonneg]; assumption.
Qed.

Lemma Qabs_inject_Z (z : Z) : Qabs (inject_Z z) == inject_Z (Z.abs z).
Proof. destruct z; reflexivity. Qed.

(** A multiple of [2^e] with a mantissa below [2^53] is a binary64 value. *)
Lemma representable_grid (m e : Z) :
  (Z.abs m < 2 ^ 53)%Z -> (-1074 <= e)%Z -> representable (inject_Z m * pow2 e).
Proof.
  intros Hm He. unfold representable. set (x := inject_Z m * pow2 e).
  destruct (Z.eq_dec m 0) as [->|Hnz].
  { rewrite (round_zero x); subst x; [|ring]. ring. }
  pose proof (pow2_pos e) as HP.
  assert (Habs : Qabs x == inject_Z (Z.abs m) * pow2 e).
  { subst x. rewrite Qabs_Qmult, Qabs_inject_Z, (Qabs_pos (pow2 e)) by lra. reflexivity. }
  assert (Hx : ~ x == 0).
  { intros H. rewrite H in Habs. change (Qabs 0) with 0 in Habs.
    assert (0 < inject_Z (Z.abs m)).
    { change 0 with (inject_Z 0). rewrite <- Zlt_Qlt. lia. }
    nra. }
  destruct (binade_bounds x Hx) as [Hlo _].
  assert (Hb : (binade x < e + 53)%Z).
  { destruct (Z_lt_le_dec (binade x) (e + 53)) as [|Hge]; [assumption|].
    pose proof (pow2_le _ _ Hge) as Hpow. rewrite pow2_add in Hpow.
    rewrite (pow2_nonneg_exponent 53) in Hpow by lia.
    rewrite Zlt_Qlt in Hm. nra. }
  assert (Hex : (exponent x <= e)%Z) by (unfold exponent; lia).
  rewrite (round_value x Hx).
  set (Px := pow2 (exponent x)). pose proof (pow2_pos (exponent x)) as HPx. fold Px in HPx.
  assert (Hratio : x / Px == inject_Z (m * 2 ^ (e - exponent x))).
  { rewrite inject_Z_mult, <- pow2_ratio by exact Hex. fold Px. subst x. field. lra. }
  rewrite (nearestEven_comp _ _ Hratio), nearestEven_Z, <- Hratio. field. lra.
Qed.

Lemma representable_comp (x y : Q) : x == y -> representable y -> representable x.
Proof.
  unfold representable. intros Heq Hy. rewrite (round_comp x y Heq), Hy. symmetry. exact Heq.
Qed.

Lemma representable_zero : representable 0.
Proof. reflexivity. Qed.

Lemma representable_opp (q : Q) : representable q -> representable (- q).
Proof. unfold representable. intros H. rewrite round_opp, H. reflexivity. Qed.

(** Integers up to [2^53] are binary64 values. *)
Lemma representable_Z (z : Z) : (Z.abs z <= 2 ^ 53)%Z -> representable (inject_Z z).
Proof.
  intros H. destruct (Z.eq_dec (Z.abs z) (2 ^ 53)) as [Heq|Hne].
  - assert (Hz : inject_Z z == inject_Z (z / 2) * pow2 1).
    { change (pow2 1) with (inject_Z 2). rewrite <- inject_Z_mult. apply inject_Z_injective.
      assert (Hdiv : (z = 2 ^ 53 \/ z = - 2 ^ 53)%Z) by lia.
      destruct Hdiv as [-> | ->]; reflexivity. }
    apply (representable_comp _ _ Hz). apply representable_grid; [|lia].
    assert (Hdiv : (z = 2 ^ 53 \/ z = - 2 ^ 53)%Z) by lia.
    destruct Hdiv as [-> | ->]; reflexivity.
  - assert (Hz : inject_Z z == inject_Z z * pow2 0) by (change (pow2 0) with 1; ring).
    apply (representable_comp _ _ Hz). apply representable_grid; lia.
Qed.

Lemma mantissa_bound (q : Q) :
  ~ q == 0 -> (Z.abs (nearestEven (q / pow2 (exponent q))) <= 2 ^ 53)%Z.
Proof.
  intros Hq. destruct (binade_bounds q Hq) as [_ Hhi].
  set (P := pow2 (exponent q)). pose proof (pow2_pos (exponent q)) as HP. fold P in HP.
  assert (Hpow : pow2 (binade q + 1) <= inject_Z (2 ^ 53) * P).
  { rewrite <- (pow2_nonneg_exponent 53) by lia. subst P. rewrite <- pow2_add.
    apply pow2_le. unfold exponent. lia. }
  assert (Hbound : Qabs (q / P) <= inject_Z (2 ^ 53)).
  { unfold Qdiv. rewrite Qabs_Qmult, (Qabs_pos (/ P)).
    - apply Qle_shift_div_r; [exact HP | lra].
    - apply Qlt_le_weak, Qinv_lt_0_compat, HP. }
  apply Qabs_Qle_condition in Hbound. destruct Hbound as [Hlo Hup].
  rewrite <- inject_Z_opp in Hlo.
  apply nearestEven_mono in Hlo, Hup. rewrite nearestEven_Z in Hlo, Hup. lia.
Qed.

(** What [round] returns is a binary64 value. *)
Lemma round_representable (q : Q) : representable (round q).
Proof.
  destruct (Qeq_dec q 0) as [Hz|Hnz].
  { rewrite (round_zero q Hz). apply representable_zero. }
  pose proof (round_value q Hnz) as Hval. pose proof (mantissa_bound q Hnz) as Hm.
  set (N := nearestEven (q / pow2 (exponent q))) in *.
  assert (He : (-1074 <= exponent q)%Z) by (unfold exponent; lia).
  apply (representable_comp _ _ Hval).
  destruct (Z.eq_dec (Z.abs N) (2 ^ 53)) as [Heq|Hne].
  - assert (Hre : inject_Z N * pow2 (exponent q) == inject_Z (N / 2) * pow2 (exponent q + 1)).
    { rewrite pow2_succ.
      assert (HN : inject_Z N == inject_Z (N / 2) * 2).
      { change 2 with (inject_Z 2). rewrite <- inject_Z_mult. apply inject_Z_injective.
        assert (Hdiv : (N = 2 ^ 53 \/ N = - 2 ^ 53)%Z) by lia.
        destruct Hdiv as [-> | ->]; reflexivity. }
      rewrite HN. ring. }
    apply (representable_comp _ _ Hre). apply representable_grid; [|lia].
    assert (Hdiv : (N = 2 ^ 53 \/ N = - 2 ^ 53)%Z) by lia.
    destruct Hdiv as [-> | ->]; reflexivity.
  - apply representable_grid; lia.
Qed.

Lemma round_round (q : Q) : round (round q) == round q.
Proof. apply round_representable. Qed.

(** Every binary64 value is a multiple of the smallest one, [2^-1074]. *)
Lemma representable_multiple (q : Q) :
  representable q -> exists m : Z, q == inject_Z m * pow2 (-1074).
Proof.
  intros H. destruct (Qeq_dec q 0) as [Hz|Hnz].
  { exists 0%Z. rewrite Hz. ring. }
  unfold representable in H. rewrite (round_value q Hnz) in H.
  set (N := nearestEven (q / pow2 (exponent q))) in *.
  assert (He : (-1074 <= exponent q)%Z) by (unfold exponent; lia).
  exists (N * 2 ^ (exponent q + 1074))%Z.
  rewrite inject_Z_mult, <- pow2_nonneg_exponent by lia.
  rewrite <- Qmult_assoc, <- pow2_add.
  replace (exponent q + 1074 + -1074)%Z with (exponent q) by lia.
  symmetry. exact H.
Qed.

(** Below [2^-1022] every multiple of [2^-1074] is a binary64 value. *)
Lemma representable_small (m : Z) :
  Qabs (inject_Z m * pow2 (-1074)) < pow2 (-1022) -> representable (inject_Z m * pow2 (-1074)).
Proof.
  intros H. apply representable_grid; [|lia].
  rewrite Qabs_Qmult, Qabs_inject_Z, (Qabs_pos (pow2 (-1074))) in H by (vm_compute; discriminate).
  assert (Hsplit : pow2 (-1022) == inject_Z (2 ^ 52) * pow2 (-1074)) by reflexivity.
  rewrite Hsplit in H. pose proof (pow2_pos (-1074)) as HP.
  assert (Hlt : inject_Z (Z.abs m) < inject_Z (2 ^ 52)) by nra.
  rewrite <- Zlt_Qlt in Hlt. lia.
Qed.

(** Adding two binary64 values: the relative error of the rounded sum is
    at most [2^-53], with no exception for small results. *)
Lemma add_relative (x y : Q) :
  representable x -> representable y ->
  Qabs (add x y - (x + y)) <= unitRoundoff * Qabs (x + y).
Proof.
  intros Hx Hy. unfold add.
  destruct (Qlt_le_dec (Qabs (x + y)) (pow2 (-1022))) as [Hsmall|Hnormal].
  - destruct (representable_multiple x Hx) as (mx & Hmx).
    destruct (representable_multiple y Hy) as (my & Hmy).
    assert (Hsum : x + y == inject_Z (mx + my) * pow2 (-1074)).
    { rewrite inject_Z_plus, Hmx, Hmy. ring. }
    assert (Hrep : representable (x + y)).
    { apply (representable_comp _ _ Hsum). apply representable_small.
      rewrite <- Hsum. exact Hsmall. }
    unfold representable in Hrep.
    assert (Hzero : round (x + y) - (x + y) == 0) by (rewrite Hrep; ring).
    rewrite Hzero. change (Qabs 0) with 0.
    pose proof (Qabs_nonneg (x + y)). unfold unitRoundoff. pose proof (pow2_pos (-53)). nra.
  - apply round_relative. exact Hnormal.
Qed.

Lemma sub_relative (x y : Q) :
  representable x -> representable y ->
  Qabs (sub x y - (x - y)) <= unitRoundoff * Qabs (x - y).
Proof.
  intros Hx Hy. pose proof (add_relative x (- y) Hx (representable_opp y Hy)) as H.
  unfold add in H. unfold sub.
  assert (Heq : x + - y == x - y) by ring.
  rewrite (round_comp _ _ Heq) in H. rewrite Heq in H. exact H.
Qed.

(** Whatever its size, a number moves under rounding by at most its
    relative part [2^-53] plus half the smallest spacing. *)
Lemma round_bounds (q : Q) :
  Qabs (round q - q) <= unitRoundoff * Qabs q + pow2 (-1075).
Proof.
  pose proof (Qabs_nonneg q) as Hq0. pose proof (pow2_pos (-1075)) as Heta.
  assert (Hu : 0 < unitRoundoff) by reflexivity.
  destruct (Qeq_dec q 0) as [Hz|Hnz].
  { rewrite (round_zero q Hz).
    assert (H0 : 0 - q == 0) by (rewrite Hz; ring). rewrite H0. change (Qabs 0) with 0. nra. }
  destruct (Qlt_le_dec (Qabs q) (pow2 (-1022))) as [Hsmall|Hnormal].
  - pose proof (round_error q Hnz) as Herr.
    destruct (binade_bounds q Hnz) as [Hlo _].
    assert (Hb : (binade q < -1022)%Z).
    { destruct (Z_lt_le_dec (binade q) (-1022)) as [|Hge]; [assumption|].
      pose proof (pow2_le _ _ Hge). lra. }
    assert (He : exponent q = (-1074)%Z) by (unfold exponent; lia).
    rewrite He in Herr.
    assert (Hhalf : pow2 (-1074) * (1 # 2) == pow2 (-1075)) by reflexivity.
    nra.
  - pose proof (round_relative q Hnormal). lra.
Qed.

Lemma mul_bounds (x y : Q) :
  0 <= x -> 0 <= y ->
  x * y * (1 - unitRoundoff) - pow2 (-1075) <= mul x y /\
  mul x y <= x * y * (1 + unitRoundoff) + pow2 (-1075) /\
  0 <= mul x y.
Proof.
  intros Hx Hy. unfold mul. pose proof (round_bounds (x * y)) as H.
  assert (Hxy : 0 <= x * y) by (apply Qmult_le_0_compat; assumption).
  rewrite (Qabs_pos (x * y)) in H by exact Hxy.
  apply Qabs_Qle_condition in H. destruct H as [Hlo Hhi].
  split; [lra|]. split; [lra|]. apply round_nonneg. exact Hxy.
Qed.

End NumberFacts.

(** * The scheduler in binary64 *)

Module Timeline64Facts.
Import Timeline TimelineFacts Number NumberFacts Timeline64.
Local Open Scope sched_scope.

Lemma Qmult_le_left (x y z : Q) : x <= y -> 0 <= z -> z * x <= z * y.
Proof. intros Hxy Hz. rewrite !(Qmult_comm z). apply Qmult_le_compat_r; assumption. Qed.

Lemma unitRoundoff_pos : 0 < unitRoundoff.
Proof. reflexivity. Qed.

Lemma inject_nat_succ (n : nat) :
  inject_Z (Z.of_nat (S n)) == inject_Z (Z.of_nat n) + 1.
Proof. rewrite Nat2Z.inj_succ. unfold Z.succ. rewrite inject_Z_plus. reflexivity. Qed.

Lemma inject_nat_pos (n : nat) : 0 <= inject_Z (Z.of_nat n).
Proof. change 0 with (inject_Z 0). rewrite <- Zle_Qle. lia. Qed.

(** The rounded sum of two binary64 values that are not negative. *)
Lemma add_bounds (x y : Q) :
  representable x -> representable y -> 0 <= x -> 0 <= y ->
  (x + y) * (1 - unitRoundoff) <= add x y /\ add x y <= (x + y) * (1 + unitRoundoff) /\
  x <= add x y /\ representable (add x y).
Proof.
  intros Hx Hy Hx0 Hy0. pose proof (add_relative x y Hx Hy) as Herr.
  rewrite (Qabs_pos (x + y)) in Herr by lra.
  apply Qabs_Qle_condition in Herr. destruct Herr as [Hlo Hhi].
  split; [lra|]. split; [lra|]. split.
  - unfold add. apply Qle_trans with (round x).
    + unfold representable in Hx. rewrite Hx. apply Qle_refl.
    + apply round_mono. lra.
  - apply round_representable.
Qed.

Lemma accumulated_app (from : Q) (l1 l2 : list ClipAsset) :
  accumulated from (l1 ++ l2) = accumulated (accumulated from l1) l2.
Proof. unfold accumulated. apply fold_left_app. Qed.

Lemma accumulated_sound (clips : list ClipAsset) : forall from,
  Forall measured clips -> representable from -> 0 <= from ->
  representable (accumulated from clips) /\ from <= accumulated from clips.
Proof.
  induction clips as [|clip clips IH]; intros from Hall Hrep Hfrom.
  - split; [exact Hrep | apply Qle_refl].
  - inversion Hall as [|? ? [Hd0 Hdrep] Hall']; subst.
    destruct (add_bounds from (clip_duration clip) Hrep Hdrep Hfrom Hd0)
      as (_ & _ & Hmono & Hrep').
    destruct (IH (add from (clip_duration clip)) Hall' Hrep') as [Hr Hle]; [lra|].
    split; [exact Hr|]. change (accumulated from (clip :: clips))
      with (accumulated (add from (clip_duration clip)) clips). lra.
Qed.

Lemma sumDurations_measured (clips : list ClipAsset) :
  Forall measured clips -> 0 <= sumDurations clips.
Proof.
  induction 1 as [|clip clips [Hd _] _ IH]; unfold sumDurations in *; simpl; lra.
Qed.

Lemma sumDurations_snoc (clips : list ClipAsset) (clip : ClipAsset) :
  sumDurations (clips ++ [clip]) == sumDurations clips + clip_duration clip.
Proof. rewrite sumDurations_app. unfold sumDurations at 2. simpl. lra. Qed.

(** The accumulator against the exact sum: after [n] additions the two
    differ by at most [n] relative roundings, either way. *)
Lemma accumulated_exact (clips : list ClipAsset) (from : Q) :
  Forall measured clips -> representable from -> 0 <= from ->
  let n := inject_Z (Z.of_nat (length clips)) in
  accumulated from clips * (1 - n * unitRoundoff) <= from + sumDurations clips /\
  (from + sumDurations clips) * (1 - n * unitRoundoff) <= accumulated from clips.
Proof.
  intros Hall Hrep Hfrom. induction clips as [|clip clips IH] using rev_ind; intros n.
  - subst n. unfold sumDurations. simpl. change (inject_Z 0) with 0. split; lra.
  - apply Forall_app in Hall. destruct Hall as [Hall Hclip].
    inversion Hclip as [|? ? [Hd0 Hdrep] _]; subst.
    specialize (IH Hall). cbv zeta in IH. destruct IH as [IHlo IHhi].
    destruct (accumulated_sound clips from Hall Hrep Hfrom) as [Harep Hale].
    subst n. rewrite length_app, Nat.add_comm. cbn [length Nat.add].
    rewrite inject_nat_succ, accumulated_app, sumDurations_snoc.
    change (accumulated (accumulated from clips) [clip])
      with (add (accumulated from clips) (clip_duration clip)).
    pose proof (sumDurations_measured clips Hall) as Hs0.
    pose proof (inject_nat_pos (length clips)) as Hk.
    pose proof unitRoundoff_pos as Hu.
    assert (Hu1 : unitRoundoff <= 1) by (vm_compute; discriminate).
    destruct (add_bounds (accumulated from clips) (clip_duration clip) Harep Hdrep
                ltac:(lra) Hd0) as (Hlo & Hhi & _ & _).
    set (a := accumulated from clips) in *. set (d := clip_duration clip) in *.
    set (s := sumDurations clips) in *. set (k := inject_Z (Z.of_nat (length clips))) in *.
    set (u := unitRoundoff) in *. set (z := add a d) in *.
    assert (Hz0 : 0 <= z) by nra.
    split.
    + destruct (Qlt_le_dec (1 - (k + 1) * u) 0) as [Hneg|Hpos].
      * nra.
      * assert (H1 : z * (1 - (k + 1) * u) <= (a + d) * (1 + u) * (1 - (k + 1) * u)).
        { apply Qmult_le_compat_r; assumption. }
        assert (H2 : (a + d) * (1 + u) * (1 - (k + 1) * u) <= (a + d) * (1 - k * u)).
        { assert (Hc : (1 + u) * (1 - (k + 1) * u) <= 1 - k * u) by nra.
          assert (Hp : (a + d) * ((1 + u) * (1 - (k + 1) * u)) <= (a + d) * (1 - k * u)).
          { rewrite !(Qmult_comm (a + d)). apply Qmult_le_compat_r; lra. }
          lra. }
        assert (Hdk : 0 <= d * (k * u)).
        { apply Qmult_le_0_compat; [lra | apply Qmult_le_0_compat; lra]. }
        assert (H3 : (a + d) * (1 - k * u) <= from + s + d) by lra.
        lra.
    + destruct (Qlt_le_dec (1 - k * u) 0) as [Hneg|Hpos].
      * nra.
      * assert (Hdk : 0 <= d * (k * u)).
        { apply Qmult_le_0_compat; [lra | apply Qmult_le_0_compat; lra]. }
        assert (H1 : (from + s + d) * (1 - k * u) <= a + d) by lra.
        assert (H2 : (from + s + d) * (1 - k * u) * (1 - u) <= (a + d) * (1 - u)).
        { apply Qmult_le_compat_r; lra. }
        assert (H3 : (from + s + d) * (1 - (k + 1) * u)
                     <= (from + s + d) * (1 - k * u) * (1 - u)).
        { assert (Hc : 1 - (k + 1) * u <= (1 - k * u) * (1 - u)) by nra.
          assert (Hp : (from + s + d) * (1 - (k + 1) * u)
                       <= (from + s + d) * ((1 - k * u) * (1 - u))).
          { rewrite !(Qmult_comm (from + s + d)). apply Qmult_le_compat_r; lra. }
          lra. }
        lra.
Qed.

Tactic Notation "step" hyp(H) "as" ident(a) ident(s) ident(H1) :=
  apply bind_Returns in H; destruct H as (a & s & H1 & H);
  try match type of a with unit => destruct a end.

Ltac pure_step H := injection H; clear H; intros; subst.

Ltac decide_Q := vm_compute; first [reflexivity | discriminate].

Lemma tolerance_bounds :
  0.01 <= tolerance /\ tolerance <= 0.01 * (1 + unitRoundoff) /\ representable tolerance.
Proof.
  split; [decide_Q|]. split; [decide_Q|]. apply round_representable.
Qed.

Section Scheduler64.

Variable library : ClipLibrary.

Lemma takeClip64_Returns type st clip st' :
  takeClip library type st = Returns (clip, st') ->
  In clip (pool library type) /\
  st' = mkState (st_placements st ++ [mkPlacement clip (st_videoCursor st)])
                (st_talkPlans st)
                (add (st_videoCursor st) (clip_duration clip))
                (st_previousKind st)
                (setCounter (st_counters st) type (getCounter (st_counters st) type + 1)).
Proof.
  unfold takeClip, nextIndex.
  destruct (length (pool library type) =? 0)%nat; [discriminate|].
  destruct (nth_error _ _) as [c|] eqn:Hnth; [|discriminate].
  intros H. injection H as <- <-.
  split; [|reflexivity]. eapply nth_error_In; eassumption.
Qed.

(** What a finished run of the coverage loop did: it placed whole clips of
    the pool, one after the other from the cursor, and stopped at the first
    point where the loop test failed. *)
Lemma coverLoop64_Returns fuel segment : forall covered st st',
  coverLoop library fuel segment covered st = Returns (tt, st') ->
  exists placed,
    Forall (fun clip => In clip (pool library (coverType segment))) placed /\
    st_placements st' = st_placements st ++ layOut (st_videoCursor st) placed /\
    st_videoCursor st' = accumulated (st_videoCursor st) placed /\
    st_talkPlans st' = st_talkPlans st /\
    st_previousKind st' = st_previousKind st /\
    ~ add (accumulated covered placed) tolerance < seg_duration segment /\
    (forall front back, placed = front ++ back -> back <> [] ->
       add (accumulated covered front) tolerance < seg_duration segment).
Proof.
  induction fuel as [|fuel IH]; intros covered st st' H; simpl in H;
    destruct (Qlt_le_dec (add covered tolerance) (seg_duration segment)) as [Hlt|Hge];
    try discriminate.
  - injection H as <-. exists []. simpl. rewrite app_nil_r.
    repeat split; auto; [apply Qle_not_lt; exact Hge|].
    intros front back Hnil Hback. symmetry in Hnil. apply app_eq_nil in Hnil.
    destruct Hnil. contradiction.
  - apply bind_Returns in H. destruct H as (clip & st1 & Htake & Hrest).
    apply takeClip64_Returns in Htake. destruct Htake as [Hin ->].
    apply IH in Hrest. cbn [st_placements st_videoCursor st_talkPlans st_previousKind] in Hrest.
    destruct Hrest as (placed & Hall & Hpl & Hcur & Htp & Hpk & Hcov & Hfront).
    exists (clip :: placed). repeat split; auto.
    + rewrite Hpl, <- app_assoc. reflexivity.
    + intros front back Heq Hback. destruct front as [|c front].
      * exact Hlt.
      * simpl in Heq. injection Heq as <- Heq. apply (Hfront front back); assumption.
  - injection H as <-. exists []. simpl. rewrite app_nil_r.
    repeat split; auto; [apply Qle_not_lt; exact Hge|].
    intros front back Hnil Hback. symmetry in Hnil. apply app_eq_nil in Hnil.
    destruct Hnil. contradiction.
Qed.

Lemma length_layOut (placed : list ClipAsset) : forall cursor,
  length (layOut cursor placed) = length placed.
Proof. induction placed; intros cursor; simpl; auto. Qed.

(** The exact sum of what the loop placed, from the loop test. *)
Lemma coverage_lower (duration : Q) (placed : list ClipAsset) :
  Forall measured placed ->
  ~ short duration placed ->
  (placed <> [] -> 0 <= duration) ->
  duration - 0.01 - allowance (length placed) (duration + 0.01) <= sumDurations placed.
Proof.
  intros Hall Hstop Hdur. unfold short in Hstop. apply Qnot_lt_le in Hstop.
  destruct tolerance_bounds as (Ht1 & Ht2 & Htrep).
  destruct (accumulated_sound placed 0 Hall representable_zero (Qle_refl 0)) as [Hcrep Hc0].
  destruct (accumulated_exact placed 0 Hall representable_zero (Qle_refl 0)) as [Hlo _].
  destruct (add_bounds (accumulated 0 placed) tolerance Hcrep Htrep Hc0 ltac:(lra))
    as (_ & Hhi & _ & _).
  pose proof (sumDurations_measured placed Hall) as Hs0.
  pose proof (inject_nat_pos (length placed)) as Hn0.
  pose proof unitRoundoff_pos as Hu.
  assert (Hu1 : unitRoundoff <= 1 # 2) by decide_Q.
  unfold allowance. rewrite inject_Z_plus, inject_Z_mult.
  change (inject_Z 2) with 2. change (inject_Z 1) with 1.
  set (c := accumulated 0 placed) in *. set (s := sumDurations placed) in *.
  set (n := inject_Z (Z.of_nat (length placed))) in *. set (u := unitRoundoff) in *.
  set (e := tolerance) in *. set (D := duration) in *.
  assert (Hc : D * (1 - u) - e <= c).
  { assert (A1 : D * (1 - u) <= (c + e) * (1 + u) * (1 - u)).
    { apply Qmult_le_compat_r; lra. }
    assert (A2 : 0 <= (c + e) * (u * u)).
    { apply Qmult_le_0_compat; [lra | apply Qmult_le_0_compat; lra]. }
    lra. }
  destruct placed as [|clip placed'] eqn:Hplaced.
  - subst n c s. cbn [length Z.of_nat] in *. change (inject_Z 0) with 0 in *.
    unfold sumDurations, accumulated in *. cbn [fold_right fold_left] in *. lra.
  - assert (HD : 0 <= D) by (apply Hdur; discriminate).
    assert (Hnu : 0 <= n * u) by (apply Qmult_le_0_compat; lra).
    assert (HnuD : 0 <= n * u * D) by (apply Qmult_le_0_compat; assumption).
    destruct (Qlt_le_dec (1 - n * u) 0) as [Hneg|Hpos].
    + assert (HD2 : D <= n * u * D).
      { assert (0 <= (n * u - 1) * D) by (apply Qmult_le_0_compat; lra). lra. }
      assert (0 <= u * D) by (apply Qmult_le_0_compat; lra).
      lra.
    + assert (A4 : (D * (1 - u) - e) * (1 - n * u) <= c * (1 - n * u)).
      { apply Qmult_le_compat_r; assumption. }
      assert (A5 : 0 <= n * u * (u * D)).
      { apply Qmult_le_0_compat; [assumption | apply Qmult_le_0_compat; lra]. }
      assert (A6 : 0 <= n * u * e) by (apply Qmult_le_0_compat; lra).
      lra.
Qed.

Lemma roundoff_half (n : nat) :
  (Z.of_nat n <= 2 ^ 52)%Z -> inject_Z (Z.of_nat n) * unitRoundoff <= 1 # 2.
Proof.
  intros H. rewrite Zle_Qle in H.
  assert (Hu : inject_Z (2 ^ 52) * unitRoundoff == 1 # 2) by reflexivity.
  pose proof unitRoundoff_pos. nra.
Qed.

(** The exact sum before the last clip, from the loop test that let the
    last clip in. *)
Lemma coverage_upper (duration : Q) (front : list ClipAsset) (lastClip : ClipAsset) :
  Forall measured front ->
  short duration front ->
  (Z.of_nat (length (front ++ [lastClip])) <= 2 ^ 52)%Z ->
  sumDurations (front ++ [lastClip]) - duration
    < clip_duration lastClip - 0.01
      + allowance (length (front ++ [lastClip])) (duration + 0.01).
Proof.
  intros Hall Hshort Hsize. unfold short in Hshort.
  destruct tolerance_bounds as (Ht1 & Ht2 & Htrep).
  destruct (accumulated_sound front 0 Hall representable_zero (Qle_refl 0)) as [Hcrep Hc0].
  destruct (accumulated_exact front 0 Hall representable_zero (Qle_refl 0)) as [_ Hhi].
  destruct (add_bounds (accumulated 0 front) tolerance Hcrep Htrep Hc0 ltac:(lra))
    as (Hlo & _ & _ & _).
  pose proof (sumDurations_measured front Hall) as Hs0.
  pose proof (inject_nat_pos (length front)) as Hn0.
  pose proof unitRoundoff_pos as Hu.
  assert (Hu1 : unitRoundoff <= 1 # 2) by decide_Q.
  pose proof (roundoff_half _ Hsize) as Hhalf.
  rewrite sumDurations_snoc. unfold allowance. 
  rewrite length_app, Nat.add_comm in *. cbn [length Nat.add] in *.
  rewrite inject_Z_plus, inject_Z_mult. rewrite inject_nat_succ in *.
  change (inject_Z 2) with 2. change (inject_Z 1) with 1.
  set (c := accumulated 0 front) in *. set (s := sumDurations front) in *.
  set (k := inject_Z (Z.of_nat (length front))) in *. set (u := unitRoundoff) in *.
  set (e := tolerance) in *. set (D := duration) in *. set (d := clip_duration lastClip).
  rewrite Qplus_0_l in Hhi.
  assert (B1 : (s * (1 - k * u) + e) * (1 - u) <= (c + e) * (1 - u)).
  { apply Qmult_le_compat_r; lra. }
  assert (B2 : 0 <= s * (k * u * u)).
  { apply Qmult_le_0_compat; [lra|]. apply Qmult_le_0_compat; [|lra].
    apply Qmult_le_0_compat; lra. }
  assert (B3 : s * (1 - (k + 1) * u) + e * (1 - u) < D) by lra.
  assert (B4 : s * (1 # 2) <= s * (1 - (k + 1) * u)).
  { apply Qmult_le_left; lra. }
  assert (He : 0 <= e * (1 - u)) by (apply Qmult_le_0_compat; lra).
  assert (HD : 0 <= D) by nra.
  assert (B5 : (k + 1) * u * s <= (k + 1) * u * (2 * D)).
  { apply Qmult_le_left; [lra | apply Qmult_le_0_compat; lra]. }
  assert (B6 : 0 <= (k + 1) * u * 0.01).
  { apply Qmult_le_0_compat; [apply Qmult_le_0_compat|]; lra. }
  assert (B7 : 0 <= u * D) by (apply Qmult_le_0_compat; lra).
  assert (B7' : 0 <= k * u) by (apply Qmult_le_0_compat; lra).
  assert (B7'' : 0 <= k * u * D) by (apply Qmult_le_0_compat; lra).
  assert (B8 : e * u <= 0.01 * (1 + u) * u) by (apply Qmult_le_compat_r; lra).
  assert (B9 : 0.01 * (u * u) <= 0.01 * u).
  { assert (u * u <= 1 * u) by (apply Qmult_le_compat_r; lra). lra. }
  lra.
Qed.

End Scheduler64.

Lemma measured_lit (clip : ClipAsset) (q : Q) :
  clip_duration clip = lit q -> 0 <= q -> measured clip.
Proof.
  intros H Hq. unfold measured. rewrite H.
  split; [apply round_nonneg; assumption | apply round_representable].
Qed.

Lemma allowance_mono (n m : nat) (reach : Q) :
  (n <= m)%nat -> 0 <= reach -> allowance n reach <= allowance m reach.
Proof.
  intros Hnm Hreach. unfold allowance.
  assert (Hz : inject_Z (2 * Z.of_nat n + 1) <= inject_Z (2 * Z.of_nat m + 1)).
  { rewrite <- Zle_Qle. lia. }
  pose proof unitRoundoff_pos.
  apply Qmult_le_compat_r; [|exact Hreach]. apply Qmult_le_compat_r; lra.
Qed.

(** The video span of a covered talk plan against its audio. *)
Lemma span_lower (library : ClipLibrary) (p : TalkPlan) (placed : list ClipAsset) (N : nat) :
  coveredBy library p placed ->
  Forall measured (pool library speechLoop) ->
  0 <= videoStart p -> representable (videoStart p) ->
  (length placed <= N)%nat -> (Z.of_nat N <= 2 ^ 52)%Z ->
  audioDuration p - 0.01
    - allowance N (videoEnd p + Qabs (audioDuration p) + 0.01)
    <= videoEnd p - videoStart p.
Proof.
  intros (Hall & Hend & Hstop & Hfront) Hpool Hstart Hrep Hlen Hsize.
  assert (Hmeasured : Forall measured placed).
  { rewrite Forall_forall in *. intros clip Hin. apply Hpool, Hall, Hin. }
  destruct (accumulated_sound placed (videoStart p) Hmeasured Hrep Hstart) as [_ Hmono].
  destruct (accumulated_exact placed (videoStart p) Hmeasured Hrep Hstart) as [_ Hhi].
  rewrite <- Hend in Hmono, Hhi.
  pose proof (Qabs_nonneg (audioDuration p)) as Habs0.
  pose proof (Qle_Qabs (audioDuration p)) as Habs.
  assert (Hreach : 0 <= videoEnd p + Qabs (audioDuration p) + 0.01) by lra.
  apply Qle_trans with
    (audioDuration p - 0.01
     - allowance (length placed) (videoEnd p + Qabs (audioDuration p) + 0.01)).
  { pose proof (allowance_mono _ _ _ Hlen Hreach). lra. }
  assert (Hn : (Z.of_nat (length placed) <= 2 ^ 52)%Z) by lia.
  pose proof (roundoff_half _ Hn) as Hhalf.
  destruct (Qlt_le_dec (audioDuration p) 0) as [Hneg|Hpos].
  { assert (0 <= allowance (length placed) (videoEnd p + Qabs (audioDuration p) + 0.01)).
    { unfold allowance. pose proof unitRoundoff_pos. pose proof (inject_nat_pos (length placed)).
      rewrite inject_Z_plus, inject_Z_mult. change (inject_Z 2) with 2. change (inject_Z 1) with 1.
      apply Qmult_le_0_compat; [apply Qmult_le_0_compat|]; lra. }
    lra. }
  assert (Hlower : audioDuration p - 0.01
                   - allowance (length placed) (audioDuration p + 0.01)
                   <= sumDurations placed).
  { apply coverage_lower; [exact Hmeasured | exact Hstop | intros _; exact Hpos]. }
  pose proof (sumDurations_measured placed Hmeasured) as Hs0.
  pose proof (inject_nat_pos (length placed)) as Hn0.
  pose proof unitRoundoff_pos as Hu.
  unfold allowance in *. rewrite inject_Z_plus, inject_Z_mult in *.
  change (inject_Z 2) with 2 in *. change (inject_Z 1) with 1 in *.
  set (V := videoEnd p) in *. set (vs := videoStart p) in *. set (D := audioDuration p) in *.
  set (s := sumDurations placed) in *. set (n := inject_Z (Z.of_nat (length placed))) in *.
  set (u := unitRoundoff) in *.
  assert (C1 : (vs + s) * (1 # 2) <= (vs + s) * (1 - n * u)).
  { apply Qmult_le_left; lra. }
  assert (C2 : vs + s <= 2 * V) by lra.
  assert (C3 : n * u * (vs + s) <= n * u * (2 * V)).
  { apply Qmult_le_left; [exact C2 | apply Qmult_le_0_compat; lra]. }
  assert (C4 : 0 <= u * V) by (apply Qmult_le_0_compat; lra).
  assert (HabsD : Qabs D == D) by (apply Qabs_pos; exact Hpos).
  rewrite HabsD. lra.
Qed.

Lemma StronglySorted_snoc {A} (R : A -> A -> Prop) (l : list A) (x : A) :
  StronglySorted R l -> Forall (fun y => R y x) l -> StronglySorted R (l ++ [x]).
Proof.
  induction 1 as [|a l Hsorted IH Hall]; intros Hx; simpl.
  - constructor; constructor.
  - inversion Hx; subst. constructor; [apply IH; assumption|].
    apply Forall_app. split; [assumption | constructor; [assumption | constructor]].
Qed.

Section Settled.

Variable library : ClipLibrary.
Hypothesis sound : forall type, Forall measured (pool library type).

(** A step that leaves the talk plans alone, moves the cursor forward to a
    binary64 value and drops no placement keeps the state settled. *)
Lemma settled_advance (st st' : SchedState) :
  settled library st ->
  st_talkPlans st' = st_talkPlans st ->
  st_videoCursor st <= st_videoCursor st' ->
  representable (st_videoCursor st') ->
  (length (st_placements st) <= length (st_placements st'))%nat ->
  settled library st'.
Proof.
  intros (Hc0 & Hcrep & Hplans & Hsorted) Htp Hle Hrep Hlen. unfold settled.
  rewrite Htp. split; [lra|]. split; [exact Hrep|]. split; [|exact Hsorted].
  eapply Forall_impl; [|exact Hplans].
  intros p (Hp0 & Hprep & Hend & placed & Hcov & Hn).
  split; [exact Hp0|]. split; [exact Hprep|]. split; [lra|].
  exists placed. split; [exact Hcov | lia].
Qed.

Lemma takeClip64_settled type st clip st' :
  settled library st ->
  takeClip library type st = Returns (clip, st') ->
  settled library st'.
Proof.
  intros Hst Htake. apply takeClip64_Returns in Htake. destruct Htake as [Hin ->].
  pose proof (sound type) as Hpool. rewrite Forall_forall in Hpool.
  destruct (Hpool clip Hin) as [Hd0 Hdrep].
  destruct Hst as (Hc0 & Hcrep & Hrest).
  destruct (add_bounds (st_videoCursor st) (clip_duration clip) Hcrep Hdrep Hc0 Hd0)
    as (_ & _ & Hmono & Hrep).
  apply (settled_advance st); [exact (conj Hc0 (conj Hcrep Hrest)) | reflexivity | exact Hmono
                              | exact Hrep |].
  cbn [st_placements]. rewrite length_app. lia.
Qed.

Lemma maybeTakeClip64_settled type st r st' :
  settled library st ->
  maybeTakeClip library type st = Returns (r, st') ->
  settled library st'.
Proof.
  intros Hst. unfold maybeTakeClip.
  destruct (length (pool library type) =? 0)%nat.
  - intros H. pure_step H. exact Hst.
  - intros H. step H as clip s1 Htake. pure_step H.
    eapply takeClip64_settled; eassumption.
Qed.

Lemma setPreviousKind_settled k st u st' :
  settled library st -> setPreviousKind k st = Returns (u, st') -> settled library st'.
Proof. intros Hst H. unfold setPreviousKind in H. pure_step H. exact Hst. Qed.

Lemma coverSegment64_Returns fuel segment st st' :
  coverSegment library fuel segment st = Returns (tt, st') ->
  exists placed,
    Forall (fun clip => In clip (pool library (coverType segment))) placed /\
    st_placements st' = st_placements st ++ layOut (st_videoCursor st) placed /\
    st_videoCursor st' = accumulated (st_videoCursor st) placed /\
    st_talkPlans st' = st_talkPlans st /\
    ~ short (seg_duration segment) placed /\
    (forall front back, placed = front ++ back -> back <> [] ->
       short (seg_duration segment) front).
Proof.
  intros H. unfold coverSegment in H. apply coverLoop64_Returns in H.
  destruct H as (placed & Hall & Hpl & Hcur & Htp & _ & Hstop & Hfront).
  exists placed. repeat split; assumption.
Qed.

Lemma coverSegment64_settled fuel segment st st' :
  settled library st ->
  coverSegment library fuel segment st = Returns (tt, st') ->
  settled library st'.
Proof.
  intros Hst H. apply coverSegment64_Returns in H.
  destruct H as (placed & Hall & Hpl & Hcur & Htp & _).
  assert (Hmeasured : Forall measured placed).
  { pose proof (sound (coverType segment)) as Hpool.
    rewrite Forall_forall in *. intros clip Hin. apply Hpool, Hall, Hin. }
  pose proof Hst as (Hc0 & Hcrep & _).
  destruct (accumulated_sound placed (st_videoCursor st) Hmeasured Hcrep Hc0) as [Hrep Hmono].
  apply (settled_advance st); [exact Hst | exact Htp | rewrite Hcur; exact Hmono
                              | rewrite Hcur; exact Hrep |].
  rewrite Hpl, length_app. lia.
Qed.

(** The talk branch up to the push of the talk plan. *)
Lemma pushTalkPlan_settled fuel segment st s2 :
  settled library st ->
  seg_kind segment = KindTalk ->
  coverSegment library fuel segment st = Returns (tt, s2) ->
  settled library
    (mkState (st_placements s2)
             (st_talkPlans s2 ++
                [mkTalkPlan (seg_id segment) (st_videoCursor st) (st_videoCursor s2)
                            (seg_start segment) (seg_duration segment)])
             (st_videoCursor s2) (st_previousKind s2) (st_counters s2)).
Proof.
  intros Hst Hkind Hcover.
  pose proof (coverSegment64_settled _ _ _ _ Hst Hcover) as (Hc0 & Hcrep & Hplans & Hsorted).
  apply coverSegment64_Returns in Hcover.
  destruct Hcover as (placed & Hall & Hpl & Hcur & Htp & Hstop & Hfront).
  destruct Hst as (Hs0 & Hsrep & Hsplans & _).
  unfold coverType in Hall. rewrite Hkind in Hall.
  unfold settled. cbn [st_videoCursor st_talkPlans st_placements].
  split; [exact Hc0|]. split; [exact Hcrep|]. split.
  - apply Forall_app. split; [exact Hplans|]. constructor; [|constructor].
    cbn [videoStart videoEnd]. split; [exact Hs0|]. split; [exact Hsrep|].
    split; [apply Qle_refl|]. exists placed. split.
    + unfold coveredBy. cbn [videoStart videoEnd audioDuration]. repeat split; assumption.
    + rewrite Hpl, length_app, length_layOut. lia.
  - apply StronglySorted_snoc; [exact Hsorted|]. rewrite Htp.
    eapply Forall_impl; [|exact Hsplans]. intros p (_ & _ & Hend & _).
    unfold planBefore. cbn [videoStart]. exact Hend.
Qed.

Lemma segmentsLoop64_settled fuel segments : forall st st',
  settled library st ->
  segmentsLoop library fuel segments st = Returns (tt, st') ->
  settled library st'.
Proof.
  induction segments as [|segment rest IH]; intros st st' Hst H; simpl in H.
  - pure_step H. exact Hst.
  - destruct (seg_kind segment) eqn:Hkind.
    + step H as u1 s1 Hcover. step H as u2 s2 Hset.
      eapply IH; [|exact H]. eapply setPreviousKind_settled; [|exact Hset].
      eapply coverSegment64_settled; eassumption.
    + step H as previous s0 Hprev. unfold getPreviousKind in Hprev.
      injection Hprev as Hprevious Hs0. subst s0.
      step H as r s1 Hlead.
      step H as segmentVideoStart s1' Hstart. unfold getVideoCursor in Hstart.
      injection Hstart as Hstart Hs1'. subst s1'.
      step H as u1 s2 Hcover.
      step H as cursor s2' Hcursor. unfold getVideoCursor in Hcursor.
      injection Hcursor as Hcursor Hs2'. subst s2'.
      step H as u2 s3 Hpush. unfold pushTalkPlan in Hpush. injection Hpush as Hs3.
      step H as u3 s4 Hafter.
      assert (Hs1 : settled library s1).
      { destruct previous.
        - eapply maybeTakeClip64_settled; eassumption.
        - pure_step Hlead. exact Hst. }
      assert (Hs3' : settled library s3).
      { subst s3 segmentVideoStart cursor. apply (pushTalkPlan_settled fuel); assumption. }
      eapply IH; [|exact H].
      assert (Hafter' : forall s s',
                 settled library s ->
                 (maybeTakeClip library speechToIdle ;;; setPreviousKind KindIdle) s
                   = Returns (tt, s') -> settled library s').
      { intros s s' Hs Hrun. step Hrun as r' s5 Hmaybe.
        eapply setPreviousKind_settled; [|exact Hrun].
        eapply maybeTakeClip64_settled; eassumption. }
      destruct rest as [|nextSegment rest'].
      * eapply Hafter'; eassumption.
      * destruct (seg_kind nextSegment).
        -- eapply Hafter'; eassumption.
        -- eapply setPreviousKind_settled; eassumption.
Qed.

End Settled.

Lemma buildTimelinePlan64_Returns fuel segments clips plan :
  buildTimelinePlan fuel segments clips = Returns plan ->
  exists st,
    segmentsLoop (groupClips clips) fuel segments initialState = Returns (tt, st) /\
    plan = mkPlan (st_placements st) (st_talkPlans st) (st_videoCursor st).
Proof.
  unfold buildTimelinePlan.
  destruct (length (lib_idle (groupClips clips)) =? 0)%nat; [discriminate|].
  destruct (length (lib_speechLoop (groupClips clips)) =? 0)%nat; [discriminate|].
  destruct (segmentsLoop (groupClips clips) fuel segments initialState)
    as [[[] st]| |] eqn:Hrun; try discriminate.
  intros H. injection H as <-. exists st. split; reflexivity.
Qed.

Lemma groupClips_measured clips :
  Forall measured clips -> forall type, Forall measured (pool (groupClips clips) type).
Proof.
  intros Hall type. rewrite Forall_forall in *. intros clip Hin.
  apply In_pool_groupClips in Hin. apply Hall, Hin.
Qed.

Lemma buildTimelinePlan64_settled fuel segments clips plan :
  buildTimelinePlan fuel segments clips = Returns plan ->
  Forall measured clips ->
  settled (groupClips clips)
    (mkState (placements plan) (talkPlans plan) (totalDuration plan) KindIdle
             (mkCounters 0 0 0 0)).
Proof.
  intros Hplan Hclips. apply buildTimelinePlan64_Returns in Hplan.
  destruct Hplan as (st & Hrun & ->). cbn [placements talkPlans totalDuration].
  assert (Hinit : settled (groupClips clips) initialState).
  { unfold settled, initialState. cbn. split; [apply Qle_refl|].
    split; [apply representable_zero|]. split; constructor. }
  pose proof (segmentsLoop64_settled (groupClips clips) (groupClips_measured clips Hclips)
                fuel segments initialState st Hinit Hrun) as Hst.
  exact Hst.
Qed.

(** C3, as the code has it.  The coverage loop adds in binary64: it places
    whole clips of the pool, laid end to end from the cursor, until the
    rounded value of [covered + 0.01] is no longer below the segment's
    duration, and that value was below the duration before the last clip
    went in.  For clip durations that are binary64 values and not negative,
    the exact sum of the durations placed is at least the segment's
    duration minus 0.01 minus a rounding allowance of [2 n + 1] units of
    [2^-53] relative to the duration plus 0.01, for [n] clips placed; and it
    exceeds the duration by less than the last clip's duration minus 0.01
    plus the same allowance (for at most [2^52] clips). *)
Theorem coverSegment_rounded (library : ClipLibrary) (fuel : nat) (segment : AudioSegment)
    (st st' : SchedState) :
  coverSegment library fuel segment st = Returns (tt, st') ->
  Forall measured (pool library (coverType segment)) ->
  exists placed,
    Forall (fun clip => In clip (pool library (coverType segment))) placed /\
    st_placements st' = st_placements st ++ layOut (st_videoCursor st) placed /\
    st_videoCursor st' = accumulated (st_videoCursor st) placed /\
    ~ short (seg_duration segment) placed /\
    (forall front back, placed = front ++ back -> back <> [] ->
       short (seg_duration segment) front) /\
    seg_duration segment - 0.01 - allowance (length placed) (seg_duration segment + 0.01)
      <= sumDurations placed /\
    (forall front lastClip, placed = front ++ [lastClip] ->
       (Z.of_nat (length placed) <= 2 ^ 52)%Z ->
       sumDurations placed - seg_duration segment
         < clip_duration lastClip - 0.01
           + allowance (length placed) (seg_duration segment + 0.01)).
Proof.
  intros Hrun Hpool. unfold coverSegment in Hrun.
  apply coverLoop64_Returns in Hrun.
  destruct Hrun as (placed & Hall & Hpl & Hcur & _ & _ & Hstop & Hfront).
  assert (Hmeasured : Forall measured placed).
  { rewrite Forall_forall in *. intros clip Hin. apply Hpool, Hall, Hin. }
  exists placed. split; [exact Hall|]. split; [exact Hpl|]. split; [exact Hcur|].
  split; [exact Hstop|]. split; [exact Hfront|]. split.
  - apply coverage_lower; [exact Hmeasured | exact Hstop |].
    intros Hne. specialize (Hfront [] placed eq_refl Hne).
    unfold accumulated in Hfront. cbn [fold_left] in Hfront.
    destruct tolerance_bounds as (Ht1 & _ & Htrep).
    destruct (add_bounds 0 tolerance representable_zero Htrep (Qle_refl 0) ltac:(lra))
      as (_ & _ & Hmono & _). lra.
  - intros front lastClip -> Hsize. apply coverage_upper; [| |exact Hsize].
    + apply Forall_app in Hmeasured. apply Hmeasured.
    + apply (Hfront front [lastClip] eq_refl). discriminate.
Qed.

Lemma coverSegment_rounded_witness :
  exists placed,
    Forall (fun clip => In clip (pool (groupClips scenarioClips) speechLoop)) placed /\
    st_placements talkCovered = [] ++ layOut 0 placed /\
    st_videoCursor talkCovered = accumulated 0 placed /\
    ~ short (lit 1.0) placed /\
    (forall front back, placed = front ++ back -> back <> [] -> short (lit 1.0) front) /\
    lit 1.0 - 0.01 - allowance (length placed) (lit 1.0 + 0.01) <= sumDurations placed /\
    (forall front lastClip, placed = front ++ [lastClip] ->
       (Z.of_nat (length placed) <= 2 ^ 52)%Z ->
       sumDurations placed - lit 1.0
         < clip_duration lastClip - 0.01 + allowance (length placed) (lit 1.0 + 0.01)).
Proof.
  apply (coverSegment_rounded (groupClips scenarioClips) 3
           (mkSegment "talk-1" KindTalk (lit 2.0) (lit 1.0)) initialState talkCovered).
  - vm_compute. reflexivity.
  - repeat constructor; apply round_representable || (vm_compute; discriminate).
Defined.

(** C3 as stated fails in the arithmetic of the program.  With one
    speech-loop clip of 0.118 s and a talk segment of 0.128 s, the rounded
    value of [0.118 + 0.01] is the double 0.128, so the loop stops after one
    clip; the durations placed sum to the double 0.118, which is below the
    double 0.128 minus 0.01. *)
Lemma coverSegment_rounded_counterexample :
  exists st' placed,
    coverSegment (groupClips tightClips) 1 tightSegment initialState = Returns (tt, st') /\
    st_placements st' = layOut 0 placed /\
    ~ (seg_duration tightSegment - 0.01 <= sumDurations placed).
Proof.
  eexists. exists [mkClip "loop-a" speechLoop (lit 0.118)].
  split; [vm_compute; reflexivity|]. split; [vm_compute; reflexivity|].
  vm_compute. intros H. apply H. reflexivity.
Qed.

(** C4, as the code has it.  In a plan returned for clips whose durations
    are binary64 values and not negative, every talk plan is covered by
    speech-loop clips: they carry the cursor from [videoStart] to
    [videoEnd], and the loop stopped when the rounded value of
    [covered + 0.01] was no longer below [audioDuration].  Hence the video
    span is at least the audio duration minus 0.01 minus a rounding
    allowance of [2 N + 1] units of [2^-53] relative to
    [videoEnd + |audioDuration| + 0.01], for a plan of [N] placements
    (at most [2^52]). *)
Theorem talkPlan_span64 (fuel : nat) (segments : list AudioSegment)
    (clips : list ClipAsset) (plan : TimelinePlan) :
  buildTimelinePlan fuel segments clips = Returns plan ->
  Forall measured clips ->
  (Z.of_nat (length (placements plan)) <= 2 ^ 52)%Z ->
  Forall (fun p =>
            (exists placed, coveredBy (groupClips clips) p placed) /\
            audioDuration p - 0.01
              - allowance (length (placements plan))
                          (videoEnd p + Qabs (audioDuration p) + 0.01)
              <= videoEnd p - videoStart p)
         (talkPlans plan).
Proof.
  intros Hplan Hclips Hsize.
  pose proof (buildTimelinePlan64_settled fuel segments clips plan Hplan Hclips)
    as (_ & _ & Hplans & _).
  cbn [st_talkPlans st_placements st_videoCursor] in Hplans.
  eapply Forall_impl; [|exact Hplans].
  intros p (Hp0 & Hprep & _ & placed & Hcov & Hlen).
  split; [exists placed; exact Hcov|].
  apply (span_lower (groupClips clips) p placed); try assumption.
  apply groupClips_measured. exact Hclips.
Qed.

Lemma talkPlan_span64_witness :
  Forall (fun p =>
            (exists placed, coveredBy (groupClips scenarioClips) p placed) /\
            audioDuration p - 0.01
              - allowance (length (placements scenarioPlan))
                          (videoEnd p + Qabs (audioDuration p) + 0.01)
              <= videoEnd p - videoStart p)
         (talkPlans scenarioPlan).
Proof.
  apply (talkPlan_span64 3 scenarioSegments scenarioClips scenarioPlan).
  - vm_compute. reflexivity.
  - repeat constructor; apply round_representable || (vm_compute; discriminate).
  - vm_compute. discriminate.
Defined.

(** C4 as stated fails, and so does the bound with the tolerance alone.
    With one speech-loop clip of 1.0 s, the talk segment of 1.0078125 s is
    covered by a single clip: its video span of 1.0 s is shorter than its
    audio.  With speech-loop clips of 0.4 s, the talk segment of 4.01 s gets
    ten clips, and the cursor, ten times advanced by the double 0.4, ends
    at 3.9999999999999996: the span is below the double 4.01 minus 0.01. *)
Lemma talkPlan_span64_counterexample :
  (exists plan p,
     buildTimelinePlan 1 shortSegments shortClips = Returns plan /\
     In p (talkPlans plan) /\
     ~ (videoEnd p - videoStart p >= audioDuration p)) /\
  (exists plan p,
     buildTimelinePlan 10 tenSegments tenClips = Returns plan /\
     In p (talkPlans plan) /\
     ~ (videoEnd p - videoStart p >= audioDuration p - 0.01)).
Proof.
  split.
  - exists shortPlan. eexists. split; [vm_compute; reflexivity|].
    split; [left; reflexivity|]. vm_compute. intros H. apply H. reflexivity.
  - exists tenPlan. eexists. split; [vm_compute; reflexivity|].
    split; [left; reflexivity|]. vm_compute. intros H. apply H. reflexivity.
Qed.

End Timeline64Facts.

(** * The realigner in binary64 *)

Module Realign64Facts.
Import Timeline TimelineFacts Audio Realign RealignFacts Number NumberFacts.
Import Timeline64 Timeline64Facts Realign64.

Lemma planCopy64_Some audioBuffer totalSamples plan c :
  planCopy audioBuffer totalSamples plan = Some c ->
  targetStart c = Qfloor (mul (videoStart plan) (sampleRate audioBuffer)) /\
  (0 < copyLength c <= Qfloor (mul (audioDuration plan) (sampleRate audioBuffer)))%Z /\
  (targetStart c + copyLength c <= totalSamples)%Z.
Proof.
  unfold planCopy.
  remember (Qfloor (mul (audioStart plan) (sampleRate audioBuffer))) as source.
  remember (Qfloor (mul (audioDuration plan) (sampleRate audioBuffer))) as samples.
  remember (Qfloor (mul (videoStart plan) (sampleRate audioBuffer))) as target.
  cbv zeta.
  destruct ((totalSamples - target <=? 0)%Z || (samples <=? 0)%Z); [discriminate|].
  destruct (Z.min (Z.min samples (totalSamples - target))
                  (Z.of_nat (buf_length audioBuffer) - source) <=? 0)%Z eqn:Hlen;
    [discriminate|].
  intros H. injection H as <-. cbn [targetStart copyLength]. apply Z.leb_gt in Hlen.
  split; [reflexivity|]. lia.
Qed.

Lemma eta_small : 3 * pow2 (-1075) <= 1 # 2.
Proof. vm_compute. discriminate. Qed.

(** The range of a talk plan against the start of a later one, in samples:
    what the plan's span lacks of its audio, plus the rounding of the three
    products and one sample for the floor. *)
Lemma overrun_slack (r vsp vep dp vsq slack : Q) (len : Z) :
  0 < r -> 0 <= vsp -> vsp <= vep -> vep <= vsq -> 0 <= dp ->
  dp <= vep - vsp + slack ->
  (len <= Qfloor (mul dp r))%Z ->
  inject_Z (Qfloor (mul vsp r) + len - Qfloor (mul vsq r))
    < slack * r + unitRoundoff * r * (2 * vep + dp) + 3 * pow2 (-1075) + 1.
Proof.
  intros Hr Hvsp Hvep Hvsq Hdp Hslack Hlen.
  destruct (mul_bounds vsp r Hvsp ltac:(lra)) as (_ & Hp & _).
  destruct (mul_bounds dp r Hdp ltac:(lra)) as (_ & Hd & _).
  destruct (mul_bounds vsq r ltac:(lra) ltac:(lra)) as (Hq & _ & _).
  pose proof (Qfloor_le (mul vsp r)) as Hfp.
  pose proof (Qfloor_le (mul dp r)) as Hfd.
  pose proof (Qlt_floor (mul vsq r)) as Hfq.
  rewrite inject_Z_plus in Hfq. change (inject_Z 1) with 1 in Hfq.
  rewrite Zle_Qle in Hlen.
  unfold Z.sub. rewrite !inject_Z_plus, inject_Z_opp.
  pose proof unitRoundoff_pos as Hu.
  assert (Hu1 : unitRoundoff <= 1) by (vm_compute; discriminate).
  set (u := unitRoundoff) in *. set (eta := pow2 (-1075)) in *.
  assert (M1 : vep * r <= vsq * r) by (apply Qmult_le_compat_r; lra).
  assert (M2 : vep * r * (1 - u) <= vsq * r * (1 - u)) by (apply Qmult_le_compat_r; lra).
  assert (M3 : dp * r <= (vep - vsp + slack) * r) by (apply Qmult_le_compat_r; lra).
  assert (M4 : dp * r * (1 + u) <= (vep - vsp + slack) * r * (1 + u)).
  { apply Qmult_le_compat_r; lra. }
  assert (M5 : vsp * r * u <= vep * r * u).
  { apply Qmult_le_compat_r; [apply Qmult_le_compat_r|]; lra. }
  assert (M6 : dp * r * u <= (vep - vsp + slack) * r * u) by (apply Qmult_le_compat_r; lra).
  assert (M7 : 0 <= dp * r * u).
  { apply Qmult_le_0_compat; [apply Qmult_le_0_compat|]; lra. }
  lra.
Qed.

Lemma In_middle {A} (before : list A) (p : A) (rest : list A) : In p (before ++ p :: rest).
Proof. apply in_or_app. right. left. reflexivity. Qed.

(** C7, as the code has it.  The ranges written for two talk plans of one
    plan can overlap: the coverage of the earlier one may stop up to 0.01 s
    short of its audio, and the three products that give the sample
    positions are rounded and floored.  For clips whose durations are
    binary64 values and not negative, and a plan small enough for its
    rounding errors to stay below half a sample, the range of the earlier
    talk plan runs past the start of the range of a later one by at most
    [ceil (0.01 * sampleRate) + 1] samples. *)
Theorem realign_ranges64 (fuel : nat) (segments : list AudioSegment)
    (clips : list ClipAsset) (plan : TimelinePlan) (audioBuffer : AudioBuffer)
    (before mid after : list TalkPlan) (p q : TalkPlan) (cp cq : Copy) :
  buildTimelinePlan fuel segments clips = Returns plan ->
  Forall measured clips ->
  0 < sampleRate audioBuffer ->
  talkPlans plan = before ++ p :: mid ++ q :: after ->
  planCopy audioBuffer (totalSamplesOf audioBuffer (totalDuration plan)) p = Some cp ->
  planCopy audioBuffer (totalSamplesOf audioBuffer (totalDuration plan)) q = Some cq ->
  fitsSamples (length (placements plan)) (sampleRate audioBuffer)
              (totalDuration plan + audioDuration p + 0.01) ->
  (overrun cp cq <= Qceiling (0.01 * sampleRate audioBuffer) + 1)%Z.
Proof.
  intros Hplan Hclips Hrate Hpair Hcp Hcq Hfits.
  pose proof (buildTimelinePlan64_settled fuel segments clips plan Hplan Hclips)
    as (Htotal & _ & Hplans & Hsorted).
  cbn [st_talkPlans st_placements st_videoCursor] in Htotal, Hplans, Hsorted.
  rewrite Hpair in Hsorted. apply StronglySorted_pair in Hsorted. unfold planBefore in Hsorted.
  rewrite Forall_forall in Hplans.
  destruct (Hplans p) as (Hp0 & Hprep & Hpend & placed & Hcov & Hlen).
  { rewrite Hpair. apply In_middle. }
  destruct (Hplans q) as (Hq0 & _).
  { rewrite Hpair. rewrite app_comm_cons, app_assoc. apply In_middle. }
  apply planCopy64_Some in Hcp. destruct Hcp as (Htp & Hlp & _).
  apply planCopy64_Some in Hcq. destruct Hcq as (Htq & _ & _).
  set (r := sampleRate audioBuffer) in *.
  set (N := length (placements plan)) in *.
  pose proof unitRoundoff_pos as Hu.
  assert (Hu1 : unitRoundoff <= 1 # 2) by (vm_compute; discriminate).
  pose proof eta_small as Heta. pose proof (pow2_pos (-1075)) as Heta0.
  (* the audio of [p] is longer than half a sample *)
  assert (Hsamples : 1 <= mul (audioDuration p) r).
  { pose proof (Qfloor_le (mul (audioDuration p) r)) as Hf.
    assert (H1 : (1 <= Qfloor (mul (audioDuration p) r))%Z) by lia.
    rewrite Zle_Qle in H1. change (inject_Z 1) with 1 in H1. lra. }
  assert (Hdr : 0 < audioDuration p * r).
  { apply round_pos_inv. unfold mul in Hsamples. lra. }
  assert (Hd : 0 < audioDuration p).
  { apply Qnot_le_lt. intros Hle.
    assert (audioDuration p * r <= 0 * r) by (apply Qmult_le_compat_r; lra). lra. }
  destruct (mul_bounds (audioDuration p) r ltac:(lra) ltac:(lra)) as (_ & Hdhi & _).
  assert (Hhalf : 1 # 2 <= audioDuration p * r).
  { assert (audioDuration p * r * unitRoundoff <= audioDuration p * r * (1 # 2)).
    { apply Qmult_le_left; lra. }
    lra. }
  assert (Hvend : videoStart p <= videoEnd p).
  { destruct Hcov as (Hall & Hend & _).
    assert (Hmeasured : Forall measured placed).
    { pose proof (groupClips_measured clips Hclips speechLoop) as Hpool.
      rewrite Forall_forall in *. intros clip Hin. apply Hpool, Hall, Hin. }
    rewrite Hend. apply accumulated_sound; assumption. }
  (* the plan has at most 2^52 placements *)
  unfold fitsSamples in Hfits. fold r N in Hfits.
  assert (HN0 : 0 <= inject_Z (Z.of_nat N)) by apply inject_nat_pos.
  rewrite inject_Z_plus, inject_Z_mult in Hfits.
  change (inject_Z 2) with 2 in Hfits. change (inject_Z 3) with 3 in Hfits.
  set (n := inject_Z (Z.of_nat N)) in *.
  set (X := r * (totalDuration plan + audioDuration p + 0.01)) in *.
  assert (HX : audioDuration p * r <= X).
  { subst X. rewrite (Qmult_comm (audioDuration p)). apply Qmult_le_left; lra. }
  assert (Hsize : (Z.of_nat N <= 2 ^ 52)%Z).
  { assert (Hn : n <= inject_Z (2 ^ 52)).
    { change (inject_Z (2 ^ 52)) with (pow2 52).
      assert ((2 * n + 3) * (1 # 2) <= (2 * n + 3) * X) by (apply Qmult_le_left; lra).
      lra. }
    subst n. rewrite <- Zle_Qle in Hn. exact Hn. }
  pose proof (span_lower (groupClips clips) p placed N Hcov
                (groupClips_measured clips Hclips speechLoop) Hp0 Hprep Hlen Hsize) as Hspan.
  assert (Habs : Qabs (audioDuration p) == audioDuration p) by (apply Qabs_pos; lra).
  set (slack := 0.01 + allowance N (videoEnd p + audioDuration p + 0.01)) in *.
  assert (Hslack : audioDuration p <= videoEnd p - videoStart p + slack).
  { subst slack. unfold allowance in *. rewrite Habs in Hspan. lra. }
  pose proof (overrun_slack r (videoStart p) (videoEnd p) (audioDuration p) (videoStart q)
                slack (copyLength cp) Hrate Hp0 Hvend Hsorted ltac:(lra) Hslack ltac:(lia))
    as Hover.
  rewrite <- Htp, <- Htq in Hover. fold (overrun cp cq) in Hover.
  (* the allowance and the roundings of the products stay below half a sample *)
  assert (Hreach : r * (videoEnd p + audioDuration p + 0.01) <= X).
  { subst X. apply Qmult_le_left; lra. }
  assert (Hreach0 : 0 <= r * (videoEnd p + audioDuration p + 0.01)).
  { apply Qmult_le_0_compat; lra. }
  assert (Hround : allowance N (videoEnd p + audioDuration p + 0.01) * r
                   + unitRoundoff * r * (2 * videoEnd p + audioDuration p)
                   <= (2 * n + 3) * unitRoundoff * X).
  { unfold allowance. rewrite inject_Z_plus, inject_Z_mult.
    change (inject_Z 2) with 2. change (inject_Z 1) with 1. fold n.
    set (Y := r * (videoEnd p + audioDuration p + 0.01)) in *.
    assert (E1 : (2 * n + 1) * unitRoundoff * (videoEnd p + audioDuration p + 0.01) * r
                 == (2 * n + 1) * unitRoundoff * Y) by (subst Y; ring).
    assert (E2 : unitRoundoff * r * (2 * videoEnd p + audioDuration p)
                 <= 2 * unitRoundoff * Y).
    { subst Y.
      assert (E3 : r * (2 * videoEnd p + audioDuration p)
                   <= r * (2 * (videoEnd p + audioDuration p + 0.01))).
      { apply Qmult_le_left; lra. }
      assert (E4 : unitRoundoff * (r * (2 * videoEnd p + audioDuration p))
                   <= unitRoundoff * (r * (2 * (videoEnd p + audioDuration p + 0.01)))).
      { apply Qmult_le_left; lra. }
      lra. }
    assert (E5 : (2 * n + 3) * unitRoundoff * Y <= (2 * n + 3) * unitRoundoff * X).
    { apply Qmult_le_left; [exact Hreach|]. apply Qmult_le_0_compat; lra. }
    lra. }
  assert (Hbudget : (2 * n + 3) * unitRoundoff * X <= 1 # 2).
  { assert (E : (2 * n + 3) * X * unitRoundoff <= pow2 52 * unitRoundoff).
    { apply Qmult_le_compat_r; lra. }
    assert (E' : pow2 52 * unitRoundoff == 1 # 2) by reflexivity.
    lra. }
  assert (Hfinal : inject_Z (overrun cp cq) < 0.01 * r + 2).
  { subst slack. lra. }
  pose proof (Qle_ceiling (0.01 * r)) as Hceil.
  assert (Hlt : (overrun cp cq < Qceiling (0.01 * r) + 2)%Z).
  { rewrite Zlt_Qlt, inject_Z_plus. change (inject_Z 2) with 2. lra. }
  lia.
Qed.

Lemma realign_ranges64_witness :
  (overrun (mkCopy 8000 9600 8000) (mkCopy 24000 30400 8000)
   <= Qceiling (0.01 * sampleRate fourSeconds) + 1)%Z.
Proof.
  apply (realign_ranges64 3 twoTalkSegments scenarioClips twoTalkPlan fourSeconds
           [] [] []
           (nth 0 (talkPlans twoTalkPlan) (mkTalkPlan "" 0 0 0 0))
           (nth 1 (talkPlans twoTalkPlan) (mkTalkPlan "" 0 0 0 0))).
  - vm_compute. reflexivity.
  - repeat constructor; apply round_representable || (vm_compute; discriminate).
  - reflexivity.
  - reflexivity.
  - vm_compute. reflexivity.
  - vm_compute. reflexivity.
  - vm_compute. discriminate.
Defined.

(** C7 as stated fails, on two counts.  For the two back-to-back talk
    segments of [shortSegments] the coverage of the first stops 0.0078125 s
    short, and the realigner writes samples 8000 to 16061 for the first
    talk plan and 16000 to 23999 for the second.  And for [closeSegments]
    at 16000 Hz the span of the first talk plan is not shorter than its
    audio, yet its range ends at sample 65520 while the second starts at
    65519: the product of the double 4.095 and 16000 rounds below 65520. *)
Lemma realign_ranges64_counterexample :
  (exists plan p q cp cq,
     buildTimelinePlan 1 shortSegments shortClips = Returns plan /\
     talkPlans plan = [p; q] /\
     planCopy fourSeconds (totalSamplesOf fourSeconds (totalDuration plan)) p = Some cp /\
     planCopy fourSeconds (totalSamplesOf fourSeconds (totalDuration plan)) q = Some cq /\
     rangesOverlap cp cq) /\
  (exists plan p q cp cq,
     buildTimelinePlan 1 closeSegments closeClips = Returns plan /\
     talkPlans plan = [p; q] /\
     planCopy sixSeconds (totalSamplesOf sixSeconds (totalDuration plan)) p = Some cp /\
     planCopy sixSeconds (totalSamplesOf sixSeconds (totalDuration plan)) q = Some cq /\
     audioDuration p <= videoEnd p - videoStart p /\
     rangesOverlap cp cq).
Proof.
  split.
  - exists shortPlan. eexists _, _, _, _.
    split; [vm_compute; reflexivity|]. split; [reflexivity|].
    split; [vm_compute; reflexivity|]. split; [vm_compute; reflexivity|].
    unfold rangesOverlap. simpl. lia.
  - exists closePlan. eexists _, _, _, _.
    split; [vm_compute; reflexivity|]. split; [reflexivity|].
    split; [vm_compute; reflexivity|]. split; [vm_compute; reflexivity|].
    split; [vm_compute; discriminate|].
    unfold rangesOverlap. simpl. lia.
Qed.

End Realign64Facts.
